(** * Exec-approval command analysis: a shallow embedding

    This development embeds the command analyser of
    [src/infra/exec-approvals-analysis.ts], the dispatch-wrapper unwrapper
    ([exec-wrapper-resolution.ts]) and the consistency validator
    ([system-run-command.ts]) as Rocq functions, and proves properties of
    them.

    Modelling conventions.
    - A JavaScript string is a sequence of UTF-16 code units.  The model
      keeps the code units below 256, i.e. Rocq's [string] of [ascii];
      white space and case mapping follow ECMAScript on that range.
    - A [for] loop over the characters of a string is a structural
      recursion over the remaining characters.  The loop body is a
      separate step function that receives the current character, the
      look-ahead character [next] and the text after the current
      character; where the source advances the index inside the body
      ([i += 1], [i = parsed.end - 1]) the step returns the number of
      characters the loop has to skip.
    - [undefined] and [null] results are [None].
    - The file system, the process environment, Node's platform-dependent
      [path] functions and the argv tokenizer [splitShellArgs] (whose
      module is outside the analysed sources) form the record [Host]. *)

From Stdlib Require Import String Ascii List Bool Arith Lia.
Import ListNotations.
Open Scope string_scope.

Set Implicit Arguments.

(* ================================================================== *)
(** * JavaScript string primitives *)
(* ================================================================== *)

Module JS.

Definition TAB : ascii := "009"%char.
Definition LF : ascii := "010"%char.
Definition VT : ascii := "011"%char.
Definition FF : ascii := "012"%char.
Definition CR : ascii := "013"%char.
Definition SP : ascii := " "%char.
Definition NBSP : ascii := "160"%char.
(** The double-quote, single-quote, backslash and backtick characters. *)
Definition DQ : ascii := "034"%char.
Definition SQ : ascii := "039"%char.
Definition BSL : ascii := "092"%char.
Definition BTICK : ascii := "096"%char.

(** ECMAScript WhiteSpace and LineTerminator ([/\s/], [trim]) among the
    code units below 256. *)
Definition isSpace (c : ascii) : bool :=
  Ascii.eqb c TAB || Ascii.eqb c LF || Ascii.eqb c VT || Ascii.eqb c FF
  || Ascii.eqb c CR || Ascii.eqb c SP || Ascii.eqb c NBSP.

Definition str (c : ascii) : string := String c EmptyString.

(** [s + c] for a single character. *)
Definition snoc (s : string) (c : ascii) : string := s ++ str c.

Fixpoint rev (s : string) : string :=
  match s with
  | EmptyString => EmptyString
  | String c t => snoc (rev t) c
  end.

Fixpoint trimStart (s : string) : string :=
  match s with
  | EmptyString => EmptyString
  | String c t => if isSpace c then trimStart t else s
  end.

Definition trimEnd (s : string) : string := rev (trimStart (rev s)).

Definition trim (s : string) : string := trimEnd (trimStart s).

Definition lowerChar (c : ascii) : ascii :=
  let n := nat_of_ascii c in
  if (Nat.leb 65 n && Nat.leb n 90)
     || (Nat.leb 192 n && Nat.leb n 222 && negb (Nat.eqb n 215))
  then ascii_of_nat (n + 32) else c.

Fixpoint toLowerCase (s : string) : string :=
  match s with
  | EmptyString => EmptyString
  | String c t => String (lowerChar c) (toLowerCase t)
  end.

Definition startsWith (s p : string) : bool := String.prefix p s.

Fixpoint includesChar (s : string) (c : ascii) : bool :=
  match s with
  | EmptyString => false
  | String d t => Ascii.eqb d c || includesChar t c
  end.

(** [s.indexOf(c)] for a one-character needle; [None] is [-1]. *)
Fixpoint indexOfChar (s : string) (c : ascii) : option nat :=
  match s with
  | EmptyString => None
  | String d t =>
      if Ascii.eqb d c then Some 0
      else match indexOfChar t c with
           | Some i => Some (S i)
           | None => None
           end
  end.

Fixpoint take (n : nat) (s : string) : string :=
  match n, s with
  | S k, String c t => String c (take k t)
  | _, _ => EmptyString
  end.

Fixpoint drop (n : nat) (s : string) : string :=
  match n, s with
  | S k, String _ t => drop k t
  | _, _ => s
  end.

(** [s.split("")]: the code units of [s]. *)
Fixpoint chars (s : string) : list ascii :=
  match s with
  | EmptyString => []
  | String c t => c :: chars t
  end.

(** [xs.join(sep)]. *)
Definition join (sep : string) (xs : list string) : string :=
  String.concat sep xs.

(** [s.split(c)[0]]: the text before the first [c], the whole of [s]
    when [c] does not occur. *)
Fixpoint beforeChar (s : string) (c : ascii) : string :=
  match s with
  | EmptyString => EmptyString
  | String d t => if Ascii.eqb d c then EmptyString else String d (beforeChar t c)
  end.

Definition head (s : string) : option ascii :=
  match s with
  | EmptyString => None
  | String c _ => Some c
  end.

Definition isEmpty (s : string) : bool :=
  match s with
  | EmptyString => true
  | _ => false
  end.

(** [next === c] for a look-ahead that may be [undefined]. *)
Definition nextIs (next : option ascii) (c : ascii) : bool :=
  match next with
  | Some d => Ascii.eqb d c
  | None => false
  end.

(** [xs[i]?.trim()] as the source tests it (by truthiness, or after a
    nullish default to the empty string): a missing entry and a blank
    entry both give the empty string. *)
Definition trimmedAt (xs : list string) (i : nat) : string :=
  match nth_error xs i with
  | Some x => trim x
  | None => EmptyString
  end.

(** [s.split(c)] for a one-character separator. *)
Fixpoint splitChar (s : string) (c : ascii) : list string :=
  match s with
  | EmptyString => [EmptyString]
  | String d t =>
      if Ascii.eqb d c then EmptyString :: splitChar t c
      else match splitChar t c with
           | x :: xs => String d x :: xs
           | [] => [str d]
           end
  end.

(** [s.replace(/c/g, r)] for a one-character pattern. *)
Fixpoint replaceChar (s : string) (c : ascii) (r : string) : string :=
  match s with
  | EmptyString => EmptyString
  | String d t =>
      if Ascii.eqb d c then r ++ replaceChar t c r
      else String d (replaceChar t c r)
  end.

Fixpoint existsChar (p : ascii -> bool) (s : string) : bool :=
  match s with
  | EmptyString => false
  | String d t => p d || existsChar p t
  end.

(** [xs.slice(n)]. *)
Definition sliceFrom {A : Type} (n : nat) (xs : list A) : list A := skipn n xs.

Definition memStr (x : string) (xs : list string) : bool :=
  existsb (String.eqb x) xs.

Definition memChar (c : ascii) (cs : list ascii) : bool :=
  existsb (Ascii.eqb c) cs.

End JS.

(* ================================================================== *)
(** * Argv tokenizer ([parseExecArgvToken]) *)
(* ================================================================== *)

Inductive ExecArgvToken : Type :=
| TokEmpty (raw : string)
| TokTerminator (raw : string)
| TokStdin (raw : string)
| TokPositional (raw : string)
| TokLongOption (raw flag : string) (inlineValue : option string)
| TokShortCluster (raw cluster : string) (flags : list string).

Definition parseExecArgvToken (raw : string) : ExecArgvToken :=
  if JS.isEmpty raw then TokEmpty raw
  else if String.eqb raw "--" then TokTerminator raw
  else if String.eqb raw "-" then TokStdin raw
  else if negb (JS.startsWith raw "-") then TokPositional raw
  else if JS.startsWith raw "--" then
    match JS.indexOfChar raw "="%char with
    | Some eqIndex =>
        if Nat.ltb 0 eqIndex
        then TokLongOption raw (JS.take eqIndex raw) (Some (JS.drop (eqIndex + 1) raw))
        else TokLongOption raw raw None
    | None => TokLongOption raw raw None
    end
  else
    let cluster := JS.drop 1 raw in
    TokShortCluster raw cluster
      (map (fun entry => String "-"%char (JS.str entry)) (JS.chars cluster)).

(* ================================================================== *)
(** * Node's [path.posix.basename] and [path.win32.basename] *)
(* ================================================================== *)

Module NodePath.

(** Node's library functions, after their documented behaviour: trailing
    separators are disregarded and the text after the last remaining
    separator is returned; the win32 variant accepts both separators and
    leaves a drive-letter prefix out of the scan. *)

Definition isPosixSep (c : ascii) : bool := Ascii.eqb c "/"%char.

Definition isWin32Sep (c : ascii) : bool :=
  Ascii.eqb c "/"%char || Ascii.eqb c JS.BSL.

Fixpoint dropWhile (p : ascii -> bool) (s : string) : string :=
  match s with
  | EmptyString => EmptyString
  | String c t => if p c then dropWhile p t else s
  end.

Fixpoint takeWhile (p : ascii -> bool) (s : string) : string :=
  match s with
  | EmptyString => EmptyString
  | String c t => if p c then String c (takeWhile p t) else EmptyString
  end.

Definition basenameWith (isSep : ascii -> bool) (path : string) : string :=
  JS.rev (takeWhile (fun c => negb (isSep c)) (dropWhile isSep (JS.rev path))).

Definition posix_basename (path : string) : string :=
  basenameWith isPosixSep path.

Definition isWindowsDeviceRoot (c : ascii) : bool :=
  let n := nat_of_ascii c in
  (Nat.leb 65 n && Nat.leb n 90) || (Nat.leb 97 n && Nat.leb n 122).

Definition win32_basename (path : string) : string :=
  match path with
  | String c0 (String c1 rest) =>
      if isWindowsDeviceRoot c0 && Ascii.eqb c1 ":"%char
      then basenameWith isWin32Sep rest
      else basenameWith isWin32Sep path
  | _ => basenameWith isWin32Sep path
  end.

End NodePath.

(* ================================================================== *)
(** * Dispatch-wrapper unwrapping ([exec-wrapper-resolution.ts]) *)
(* ================================================================== *)

Definition MAX_DISPATCH_WRAPPER_DEPTH : nat := 4.

Definition POSIX_SHELL_WRAPPERS : list string :=
  ["ash"; "bash"; "dash"; "fish"; "ksh"; "sh"; "zsh"].
Definition WINDOWS_CMD_WRAPPERS : list string := ["cmd.exe"; "cmd"].
Definition POWERSHELL_WRAPPERS : list string :=
  ["powershell"; "powershell.exe"; "pwsh"; "pwsh.exe"].

Definition POSIX_INLINE_COMMAND_FLAGS : list string := ["-lc"; "-c"; "--command"].
Definition POWERSHELL_INLINE_COMMAND_FLAGS : list string :=
  ["-c"; "-command"; "--command"].

Definition ENV_OPTIONS_WITH_VALUE : list string :=
  ["-u"; "--unset"; "-c"; "--chdir"; "-s"; "--split-string";
   "--default-signal"; "--ignore-signal"; "--block-signal"].
Definition ENV_FLAG_OPTIONS : list string :=
  ["-i"; "--ignore-environment"; "-0"; "--null"].

Inductive ShellWrapperKind : Type := KindPosix | KindCmd | KindPowershell.

Record ShellWrapperSpec : Type := {
  kind : ShellWrapperKind;
  names : list string
}.

Definition SHELL_WRAPPER_SPECS : list ShellWrapperSpec :=
  [ {| kind := KindPosix; names := POSIX_SHELL_WRAPPERS |};
    {| kind := KindCmd; names := WINDOWS_CMD_WRAPPERS |};
    {| kind := KindPowershell; names := POWERSHELL_WRAPPERS |} ].

Record ShellWrapperCommand : Type := {
  isWrapper : bool;
  command : option string
}.

Definition basenameLower (token : string) : string :=
  let win := NodePath.win32_basename token in
  let posix := NodePath.posix_basename token in
  let base := if Nat.ltb (String.length win) (String.length posix) then win else posix in
  JS.toLowerCase (JS.trim base).

Definition normalizeRawCommand (rawCommand : option string) : option string :=
  let trimmed := match rawCommand with
                 | Some r => JS.trim r
                 | None => EmptyString
                 end in
  if Nat.ltb 0 (String.length trimmed) then Some trimmed else None.

Definition findShellWrapperSpec (baseExecutable : string) : option ShellWrapperSpec :=
  find (fun spec => JS.memStr baseExecutable (names spec)) SHELL_WRAPPER_SPECS.

Definition isIdentStart (c : ascii) : bool :=
  let n := nat_of_ascii c in
  (Nat.leb 65 n && Nat.leb n 90) || (Nat.leb 97 n && Nat.leb n 122)
  || Ascii.eqb c "_"%char.

Definition isIdentChar (c : ascii) : bool :=
  let n := nat_of_ascii c in
  isIdentStart c || (Nat.leb 48 n && Nat.leb n 57).

(** The rest of the regular expression [/^[A-Za-z_][A-Za-z0-9_]*=.*/] after
    its first character. *)
Fixpoint identTailThenEquals (s : string) : bool :=
  match s with
  | EmptyString => false
  | String c t =>
      if Ascii.eqb c "="%char then true
      else if isIdentChar c then identTailThenEquals t
      else false
  end.

Definition isEnvAssignment (token : string) : bool :=
  match token with
  | EmptyString => false
  | String c t => isIdentStart c && identTailThenEquals t
  end.

Definition envValuePrefixes : list string :=
  ["-u"; "-c"; "-s"; "--unset="; "--chdir="; "--split-string=";
   "--default-signal="; "--ignore-signal="; "--block-signal="].

(** The [while] loop of [unwrapEnvInvocation] over [argv.slice(idx)].
    [None] is the [return null] inside the loop; [Some rest] is the text
    [argv.slice(idx)] at the point the loop is left. *)
Fixpoint unwrapEnvLoop (expectsOptionValue : bool) (rest : list string)
  : option (list string) :=
  match rest with
  | [] => Some []
  | entry :: after =>
      let token := JS.trim entry in
      if JS.isEmpty token then unwrapEnvLoop expectsOptionValue after
      else if expectsOptionValue then unwrapEnvLoop false after
      else if String.eqb token "--" || String.eqb token "-" then Some after
      else if isEnvAssignment token then unwrapEnvLoop false after
      else if JS.startsWith token "-" && negb (String.eqb token "-") then
        let lower := JS.toLowerCase token in
        let flag := JS.beforeChar lower "="%char in
        if JS.memStr flag ENV_FLAG_OPTIONS then unwrapEnvLoop false after
        else if JS.memStr flag ENV_OPTIONS_WITH_VALUE then
          unwrapEnvLoop (negb (JS.includesChar lower "="%char)) after
        else if existsb (JS.startsWith lower) envValuePrefixes then
          unwrapEnvLoop false after
        else None
      else Some rest
  end.

Definition unwrapEnvInvocation (argv : list string) : option (list string) :=
  match unwrapEnvLoop false (JS.sliceFrom 1 argv) with
  | Some (x :: xs) => Some (x :: xs)
  | _ => None
  end.

(** [unwrapDispatchWrappersForResolution(argv, maxDepth)]: the [for] loop
    over [depth] runs at most [maxDepth] times. *)
Fixpoint unwrapDispatchWrappersForResolution (argv : list string) (maxDepth : nat)
  : list string :=
  match maxDepth with
  | O => argv
  | S remaining =>
      let token0 := JS.trimmedAt argv 0 in
      if JS.isEmpty token0 then argv
      else if negb (String.eqb (basenameLower token0) "env") then argv
      else match unwrapEnvInvocation argv with
           | None => argv
           | Some [] => argv
           | Some unwrapped =>
               unwrapDispatchWrappersForResolution unwrapped remaining
           end
  end.

Definition nonEmpty (s : string) : option string :=
  if JS.isEmpty s then None else Some s.

Definition extractPosixShellInlineCommand (argv : list string) : option string :=
  let flag := JS.trimmedAt argv 1 in
  if JS.isEmpty flag then None
  else if negb (JS.memStr (JS.toLowerCase flag) POSIX_INLINE_COMMAND_FLAGS) then None
  else nonEmpty (JS.trimmedAt argv 2).

(** [argv.findIndex(p)]; [None] is [-1]. *)
Fixpoint findIndex {A : Type} (p : A -> bool) (xs : list A) : option nat :=
  match xs with
  | [] => None
  | x :: t => if p x then Some 0
              else match findIndex p t with
                   | Some i => Some (S i)
                   | None => None
                   end
  end.

Definition extractCmdInlineCommand (argv : list string) : option string :=
  match findIndex (fun item => String.eqb (JS.toLowerCase (JS.trim item)) "/c") argv with
  | None => None
  | Some idx =>
      let tail := JS.sliceFrom (idx + 1) argv in
      match tail with
      | [] => None
      | _ => nonEmpty (JS.trim (JS.join " " tail))
      end
  end.

(** The loop of [extractPowerShellInlineCommand] over [argv.slice(i)]. *)
Fixpoint powerShellLoop (rest : list string) : option string :=
  match rest with
  | [] => None
  | entry :: after =>
      let token := JS.trim entry in
      if JS.isEmpty token then powerShellLoop after
      else
        let lower := JS.toLowerCase token in
        if String.eqb lower "--" then None
        else if JS.memStr lower POWERSHELL_INLINE_COMMAND_FLAGS then
          nonEmpty (JS.trimmedAt after 0)
        else powerShellLoop after
  end.

Definition extractPowerShellInlineCommand (argv : list string) : option string :=
  powerShellLoop (JS.sliceFrom 1 argv).

Definition extractShellWrapperPayload (argv : list string) (spec : ShellWrapperSpec)
  : option string :=
  match kind spec with
  | KindPosix => extractPosixShellInlineCommand argv
  | KindCmd => extractCmdInlineCommand argv
  | KindPowershell => extractPowerShellInlineCommand argv
  end.

Definition notAWrapper : ShellWrapperCommand :=
  {| isWrapper := false; command := None |}.

(** [extractShellWrapperCommandInternal(argv, rawCommand, depth)], recursive
    on [budget = MAX_DISPATCH_WRAPPER_DEPTH - depth]. *)
Fixpoint extractShellWrapperCommandInternal
  (argv : list string) (rawCommand : option string) (budget : nat)
  : ShellWrapperCommand :=
  match budget with
  | O => notAWrapper
  | S budget' =>
      let token0 := JS.trimmedAt argv 0 in
      if JS.isEmpty token0 then notAWrapper
      else
        let base0 := basenameLower token0 in
        if String.eqb base0 "env" then
          match unwrapEnvInvocation argv with
          | None => notAWrapper
          | Some unwrapped =>
              extractShellWrapperCommandInternal unwrapped rawCommand budget'
          end
        else
          match findShellWrapperSpec base0 with
          | None => notAWrapper
          | Some wrapper =>
              match extractShellWrapperPayload argv wrapper with
              | None => notAWrapper
              | Some payload =>
                  {| isWrapper := true;
                     command := Some match rawCommand with
                                     | Some r => r
                                     | None => payload
                                     end |}
              end
          end
  end.

Definition extractShellWrapperCommand (argv : list string) (rawCommand : option string)
  : ShellWrapperCommand :=
  extractShellWrapperCommandInternal argv (normalizeRawCommand rawCommand)
    MAX_DISPATCH_WRAPPER_DEPTH.

(* ================================================================== *)
(** * Consistency validation ([system-run-command.ts]) *)
(* ================================================================== *)

Inductive SystemRunCommandValidation : Type :=
| ValidationOk (shellCommand : option string) (cmdText : string)
| ValidationError (message : string) (code : string) (rawCommand inferred : string).

Definition formatExecArg (arg : string) : string :=
  let trimmed := JS.trim arg in
  if JS.isEmpty trimmed then String JS.DQ (JS.str JS.DQ)
  else
    let needsQuotes :=
      JS.existsChar (fun c => JS.isSpace c || Ascii.eqb c JS.DQ) trimmed in
    if negb needsQuotes then trimmed
    else String JS.DQ
           (JS.replaceChar trimmed JS.DQ (String JS.BSL (JS.str JS.DQ)) ++ JS.str JS.DQ).

Definition formatExecCommand (argv : list string) : string :=
  JS.join " " (map formatExecArg argv).

Definition validateSystemRunCommandConsistency
  (argv : list string) (rawCommand : option string) : SystemRunCommandValidation :=
  let raw := match rawCommand with
             | Some r => if Nat.ltb 0 (String.length (JS.trim r))
                         then Some (JS.trim r) else None
             | None => None
             end in
  let shellCommand := command (extractShellWrapperCommand argv None) in
  let inferred := match shellCommand with
                  | Some sc => JS.trim sc
                  | None => formatExecCommand argv
                  end in
  match raw with
  | Some r =>
      if negb (String.eqb r inferred)
      then ValidationError "INVALID_REQUEST: rawCommand does not match command"
             "RAW_COMMAND_MISMATCH" r inferred
      else ValidationOk (match shellCommand with
                         | Some _ => Some r
                         | None => None
                         end) r
  | None =>
      ValidationOk shellCommand
        (match shellCommand with
         | Some sc => sc
         | None => inferred
         end)
  end.

(* ================================================================== *)
(** * The host: file system, environment and absent helpers *)
(* ================================================================== *)

Definition ProcessEnv : Type := string -> option string.

Record Host : Type := {
  (** [process.platform === "win32"] *)
  platformWin32 : bool;
  (** The result of [isExecutableFile], which probes the file system. *)
  isExecutableFile : string -> bool;
  (** [expandHomePrefix] of [home-dir.ts]. *)
  expandHomePrefix : string -> string;
  pathIsAbsolute : string -> bool;
  pathResolve : string -> string -> string;
  pathJoin : string -> string -> string;
  pathExtname : string -> string;
  pathDelimiter : ascii;
  processCwd : string;
  processEnv : ProcessEnv;
  (** [splitShellArgs] of [utils/shell-argv.ts]; [None] is [null]. *)
  splitShellArgs : string -> option (list string)
}.

(* ================================================================== *)
(** * Executable resolution *)
(* ================================================================== *)

Record CommandResolution : Type := {
  rawExecutable : string;
  resolvedPath : option string;
  executableName : string
}.

(** [a ?? b] on optional values. *)
Definition orElse {A : Type} (a b : option A) : option A :=
  match a with
  | Some _ => a
  | None => b
  end.

Definition envLookup (env : option ProcessEnv) (key : string) : option string :=
  match env with
  | Some e => e key
  | None => None
  end.

Definition pathBasename (H : Host) (p : string) : string :=
  if platformWin32 H then NodePath.win32_basename p else NodePath.posix_basename p.

Definition probe (H : Host) (candidate : string) : option string :=
  if isExecutableFile H candidate then Some candidate else None.

Definition resolveExecutablePath
  (H : Host) (rawExecutable : string) (cwd : option string) (env : option ProcessEnv)
  : option string :=
  let expanded := if JS.startsWith rawExecutable "~"
                  then expandHomePrefix H rawExecutable else rawExecutable in
  if JS.includesChar expanded "/"%char || JS.includesChar expanded JS.BSL then
    if pathIsAbsolute H expanded then probe H expanded
    else
      let base := match cwd with
                  | Some c => if JS.isEmpty c || JS.isEmpty (JS.trim c)
                              then processCwd H else JS.trim c
                  | None => processCwd H
                  end in
      probe H (pathResolve H base expanded)
  else
    let envPath :=
      match orElse (envLookup env "PATH")
              (orElse (envLookup env "Path")
                 (orElse (processEnv H "PATH") (processEnv H "Path"))) with
      | Some p => p
      | None => EmptyString
      end in
    let entries := filter (fun e => negb (JS.isEmpty e))
                     (JS.splitChar envPath (pathDelimiter H)) in
    let hasExtension :=
      platformWin32 H && Nat.ltb 0 (String.length (pathExtname H expanded)) in
    let extensions :=
      if platformWin32 H then
        if hasExtension then [EmptyString]
        else map JS.toLowerCase
               (JS.splitChar
                  match orElse (envLookup env "PATHEXT")
                          (orElse (envLookup env "Pathext")
                             (orElse (processEnv H "PATHEXT") (processEnv H "Pathext"))) with
                  | Some e => e
                  | None => ".EXE;.CMD;.BAT;.COM"
                  end ";"%char)
      else [EmptyString] in
    find (isExecutableFile H)
      (flat_map (fun entry => map (fun ext => pathJoin H entry (expanded ++ ext)) extensions)
         entries).

Definition mkResolution (H : Host) (rawExecutable : string)
  (cwd : option string) (env : option ProcessEnv) : CommandResolution :=
  let resolved := resolveExecutablePath H rawExecutable cwd env in
  {| rawExecutable := rawExecutable;
     resolvedPath := resolved;
     executableName := match resolved with
                       | Some p => if JS.isEmpty p then rawExecutable
                                   else pathBasename H p
                       | None => rawExecutable
                       end |}.

Definition resolveCommandResolutionFromArgv
  (H : Host) (argv : list string) (cwd : option string) (env : option ProcessEnv)
  : option CommandResolution :=
  let effectiveArgv := unwrapDispatchWrappersForResolution argv MAX_DISPATCH_WRAPPER_DEPTH in
  let rawExecutable := JS.trimmedAt effectiveArgv 0 in
  if JS.isEmpty rawExecutable then None
  else Some (mkResolution H rawExecutable cwd env).

(* ================================================================== *)
(** * Analysis results *)
(* ================================================================== *)

Record ExecCommandSegment : Type := {
  raw : string;
  argv : list string;
  resolution : option CommandResolution
}.

Record ExecCommandAnalysis : Type := {
  ok : bool;
  reason : option string;
  segments : list ExecCommandSegment;
  chains : option (list (list ExecCommandSegment))
}.

Inductive ShellChainOperator : Type := OpAnd | OpOr | OpSeq.

Definition operatorText (op : ShellChainOperator) : string :=
  match op with
  | OpAnd => "&&"
  | OpOr => "||"
  | OpSeq => ";"
  end.

Record ShellChainPart : Type := {
  part : string;
  opToNext : option ShellChainOperator
}.

Definition isNewline (c : ascii) : bool := Ascii.eqb c JS.LF || Ascii.eqb c JS.CR.

Definition DISALLOWED_PIPELINE_TOKENS : list ascii :=
  [">"%char; "<"%char; JS.BTICK; JS.LF; JS.CR; "("%char; ")"%char].
Definition DOUBLE_QUOTE_ESCAPES : list ascii :=
  [JS.BSL; JS.DQ; "$"%char; JS.BTICK; JS.LF; JS.CR].
Definition WINDOWS_UNSUPPORTED_TOKENS : list ascii :=
  ["&"%char; "|"%char; "<"%char; ">"%char; "^"%char; "("%char; ")"%char;
   "%"%char; "!"%char; JS.LF; JS.CR].

Definition isDoubleQuoteEscape (next : option ascii) : bool :=
  match next with
  | Some c => JS.memChar c DOUBLE_QUOTE_ESCAPES
  | None => false
  end.

(** [\r] followed by [\n] is one line terminator: the loop skips the [\n]. *)
Definition crlfSkip (ch : ascii) (next : option ascii) : nat :=
  if Ascii.eqb ch JS.CR && JS.nextIs next JS.LF then 1 else 0.

(* ================================================================== *)
(** * Pipeline splitting ([splitShellPipeline]) *)
(* ================================================================== *)

Module Pipeline.

Record HeredocSpec : Type := {
  delimiter : string;
  stripTabs : bool;
  quoted : bool
}.

(** The value [splitShellPipeline] returns. *)
Record Split : Type := {
  split_ok : bool;
  split_reason : option string;
  split_segments : list string
}.

Definition reject (why : string) : Split :=
  {| split_ok := false; split_reason := Some why; split_segments := [] |}.

(** ** [parseHeredocDelimiter]

    [parseHeredocDelimiter(source, start)] is modelled on the text
    [source.slice(start)]; the result carries [end - start] in place of
    [end]. *)

Definition isBlank (c : ascii) : bool := Ascii.eqb c JS.SP || Ascii.eqb c JS.TAB.

Definition endsBareDelimiter (c : ascii) : bool :=
  JS.isSpace c || Ascii.eqb c "|"%char || Ascii.eqb c "&"%char
  || Ascii.eqb c ";"%char || Ascii.eqb c "<"%char || Ascii.eqb c ">"%char.

(** The loop over a quoted delimiter, started after the opening quote;
    [consumed] counts the characters read so far, opening quote included. *)
Fixpoint quotedDelimiter (quote : ascii) (s : string) (acc : string) (consumed : nat)
  : option (string * nat) :=
  match s with
  | EmptyString => None
  | String ch t =>
      if isNewline ch then None
      else
        match t with
        | String nx t' =>
            if Ascii.eqb quote JS.DQ && Ascii.eqb ch JS.BSL
            then quotedDelimiter quote t' (JS.snoc acc nx) (consumed + 2)
            else if Ascii.eqb ch quote then Some (acc, consumed + 1)
            else quotedDelimiter quote t (JS.snoc acc ch) (consumed + 1)
        | EmptyString =>
            if Ascii.eqb ch quote then Some (acc, consumed + 1)
            else quotedDelimiter quote t (JS.snoc acc ch) (consumed + 1)
        end
  end.

Definition parseHeredocDelimiter (src : string) : option (string * nat * bool) :=
  let blanks := String.length (NodePath.takeWhile isBlank src) in
  match NodePath.dropWhile isBlank src with
  | EmptyString => None
  | String first t =>
      if Ascii.eqb first JS.SQ || Ascii.eqb first JS.DQ then
        match quotedDelimiter first t EmptyString (blanks + 1) with
        | Some (d, consumed) => Some (d, consumed, true)
        | None => None
        end
      else
        let d := NodePath.takeWhile (fun c => negb (endsBareDelimiter c)) (String first t) in
        if JS.isEmpty d then None
        else Some (d, blanks + String.length d, false)
  end.

(** ** Scanner state: the mutable variables of [splitShellPipeline] *)

Record State : Type := {
  segments : list string;
  buf : string;
  inSingle : bool;
  inDouble : bool;
  escaped : bool;
  emptySegment : bool;
  pendingHeredocs : list HeredocSpec;
  inHeredocBody : bool;
  heredocLine : string
}.

Definition initial : State :=
  {| segments := []; buf := EmptyString; inSingle := false; inDouble := false;
     escaped := false; emptySegment := false; pendingHeredocs := [];
     inHeredocBody := false; heredocLine := EmptyString |}.

(** [buf += text; emptySegment = false], with the quoting flags as given. *)
Definition emit (st : State) (text : string) (single double esc : bool) : State :=
  {| segments := segments st; buf := buf st ++ text;
     inSingle := single; inDouble := double; escaped := esc;
     emptySegment := false; pendingHeredocs := pendingHeredocs st;
     inHeredocBody := inHeredocBody st; heredocLine := heredocLine st |}.

Definition emitPlain (st : State) (text : string) : State :=
  emit st text (inSingle st) (inDouble st) (escaped st).

Definition pushPartSegments (st : State) : list string :=
  let trimmed := JS.trim (buf st) in
  if JS.isEmpty trimmed then segments st else (segments st ++ [trimmed])%list.

(** [emptySegment = true; pushPart()]. *)
Definition pipeBoundary (st : State) : State :=
  {| segments := pushPartSegments st; buf := EmptyString;
     inSingle := inSingle st; inDouble := inDouble st; escaped := escaped st;
     emptySegment := true; pendingHeredocs := pendingHeredocs st;
     inHeredocBody := inHeredocBody st; heredocLine := heredocLine st |}.

Definition setHeredoc (st : State) (pending : list HeredocSpec)
  (inBody : bool) (line : string) : State :=
  {| segments := segments st; buf := buf st;
     inSingle := inSingle st; inDouble := inDouble st; escaped := escaped st;
     emptySegment := emptySegment st; pendingHeredocs := pending;
     inHeredocBody := inBody; heredocLine := line |}.

Definition isNil {A : Type} (xs : list A) : bool :=
  match xs with
  | [] => true
  | _ => false
  end.

(** [line.replace(/^\t+/, "")] *)
Definition stripLeadingTabs (line : string) : string :=
  NodePath.dropWhile (fun c => Ascii.eqb c JS.TAB) line.

(** [isEscapedInHeredocLine(line, index)], on the reversed text before
    [index]: an odd run of backslashes right before the character. *)
Definition isEscapedInHeredocLine (revBefore : string) : bool :=
  Nat.odd (String.length (NodePath.takeWhile (fun c => Ascii.eqb c JS.BSL) revBefore)).

(** The scan of [hasUnquotedHeredocExpansionToken]; [revBefore] is the
    text already passed, most recent character first. *)
Fixpoint expansionScan (revBefore : string) (line : string) : bool :=
  match line with
  | EmptyString => false
  | String ch t =>
      if Ascii.eqb ch JS.BTICK && negb (isEscapedInHeredocLine revBefore) then true
      else if Ascii.eqb ch "$"%char && negb (isEscapedInHeredocLine revBefore)
              && (JS.nextIs (JS.head t) "("%char || JS.nextIs (JS.head t) "{"%char)
      then true
      else expansionScan (String ch revBefore) t
  end.

Definition hasUnquotedHeredocExpansionToken (line : string) : bool :=
  expansionScan EmptyString line.

Definition delimiterLine (current : HeredocSpec) (line : string) : bool :=
  String.eqb (if stripTabs current then stripLeadingTabs line else line)
             (delimiter current).

Inductive Step : Type :=
| Next (st : State) (skip : nat)
| Return (r : Split).

(** The heredoc-body branch of the loop at a line terminator. *)
Definition heredocLineEnd (st : State) (ch : ascii) (next : option ascii) : Step :=
  let finishLine (pending : list HeredocSpec) :=
    Next (setHeredoc st pending (negb (isNil pending)) EmptyString) (crlfSkip ch next) in
  match pendingHeredocs st with
  | current :: others =>
      if delimiterLine current (heredocLine st) then finishLine others
      else if negb (quoted current) && hasUnquotedHeredocExpansionToken (heredocLine st)
      then Return (reject "command substitution in unquoted heredoc")
      else finishLine (current :: others)
  | [] => finishLine []
  end.

(** The branch for [<<]; [after] is the text after the first [<]. *)
Definition heredocStart (st : State) (after : string) : Step :=
  let afterOp := JS.drop 1 after in
  let strip := JS.nextIs (JS.head afterOp) "-"%char in
  let src := if strip then JS.drop 1 afterOp else afterOp in
  let st1 := emitPlain st (if strip then "<<-" else "<<") in
  match parseHeredocDelimiter src with
  | Some (d, consumed, q) =>
      let st2 := emitPlain st1 (JS.take consumed src) in
      Next (setHeredoc st2
              (pendingHeredocs st2 ++ [{| delimiter := d; stripTabs := strip; quoted := q |}])%list
              (inHeredocBody st2) (heredocLine st2))
           (1 + (if strip then 1 else 0) + consumed)
  | None => Next st1 1
  end.

(** One iteration of the main [for] loop: [ch = command[i]],
    [next = command[i + 1]], [after = command.slice(i + 1)]. *)
Definition step (st : State) (ch : ascii) (next : option ascii) (after : string) : Step :=
  if inHeredocBody st then
    if isNewline ch then heredocLineEnd st ch next
    else Next (setHeredoc st (pendingHeredocs st) true (JS.snoc (heredocLine st) ch)) 0
  else if escaped st then
    Next (emit st (JS.str ch) (inSingle st) (inDouble st) false) 0
  else if negb (inSingle st) && negb (inDouble st) && Ascii.eqb ch JS.BSL then
    Next (emit st (JS.str ch) (inSingle st) (inDouble st) true) 0
  else if inSingle st then
    Next (emit st (JS.str ch) (negb (Ascii.eqb ch JS.SQ)) (inDouble st) (escaped st)) 0
  else if inDouble st then
    if Ascii.eqb ch JS.BSL && isDoubleQuoteEscape next then
      Next (emitPlain st (String ch (JS.take 1 after))) 1
    else if Ascii.eqb ch "$"%char && JS.nextIs next "("%char then
      Return (reject "unsupported shell token: $()")
    else if Ascii.eqb ch JS.BTICK then
      Return (reject "unsupported shell token: `")
    else if isNewline ch then
      Return (reject "unsupported shell token: newline")
    else
      Next (emit st (JS.str ch) (inSingle st) (negb (Ascii.eqb ch JS.DQ)) (escaped st)) 0
  else if Ascii.eqb ch JS.SQ then
    Next (emit st (JS.str ch) true (inDouble st) (escaped st)) 0
  else if Ascii.eqb ch JS.DQ then
    Next (emit st (JS.str ch) (inSingle st) true (escaped st)) 0
  else if isNewline ch && negb (isNil (pendingHeredocs st)) then
    Next (setHeredoc st (pendingHeredocs st) true EmptyString) (crlfSkip ch next)
  else if Ascii.eqb ch "|"%char && JS.nextIs next "|"%char then
    Return (reject "unsupported shell token: ||")
  else if Ascii.eqb ch "|"%char && JS.nextIs next "&"%char then
    Return (reject "unsupported shell token: |&")
  else if Ascii.eqb ch "|"%char then
    Next (pipeBoundary st) 0
  else if Ascii.eqb ch "&"%char || Ascii.eqb ch ";"%char then
    Return (reject ("unsupported shell token: " ++ JS.str ch))
  else if Ascii.eqb ch "<"%char && JS.nextIs next "<"%char then
    heredocStart st after
  else if JS.memChar ch DISALLOWED_PIPELINE_TOKENS then
    Return (reject ("unsupported shell token: " ++ JS.str ch))
  else if Ascii.eqb ch "$"%char && JS.nextIs next "("%char then
    Return (reject "unsupported shell token: $()")
  else
    Next (emitPlain st (JS.str ch)) 0.

(** The [for] loop; [skip] characters are passed over first. *)
Fixpoint loop (skip : nat) (st : State) (command : string) : State + Split :=
  match command with
  | EmptyString => inl st
  | String ch after =>
      match skip with
      | S k => loop k st after
      | O =>
          match step st ch (JS.head after) after with
          | Next st' k => loop k st' after
          | Return r => inr r
          end
      end
  end.

(** The code after the loop. *)
Definition finish (st : State) : Split :=
  let closesLast :=
    match pendingHeredocs st with
    | current :: others =>
        inHeredocBody st && delimiterLine current (heredocLine st)
    | [] => false
    end in
  let pending := if closesLast then tl (pendingHeredocs st) else pendingHeredocs st in
  let inBody := if closesLast && isNil pending then false else inHeredocBody st in
  if negb (isNil pending) || inBody then reject "unterminated heredoc"
  else if escaped st || inSingle st || inDouble st then
    reject "unterminated shell quote/escape"
  else
    let segs := pushPartSegments st in
    if emptySegment st || isNil segs then
      reject (if isNil segs then "empty command" else "empty pipeline segment")
    else {| split_ok := true; split_reason := None; split_segments := segs |}.

Definition splitShellPipeline (command : string) : Split :=
  match loop 0 initial command with
  | inl st => finish st
  | inr r => r
  end.

End Pipeline.

(* ================================================================== *)
(** * Chain splitting ([splitCommandChainWithOperators]) *)
(* ================================================================== *)

Module Chain.

Record State : Type := {
  parts : list ShellChainPart;
  buf : string;
  inSingle : bool;
  inDouble : bool;
  escaped : bool;
  foundChain : bool;
  invalidChain : bool
}.

Definition initial : State :=
  {| parts := []; buf := EmptyString; inSingle := false; inDouble := false;
     escaped := false; foundChain := false; invalidChain := false |}.

(** [buf += text] with the quoting flags as given. *)
Definition emit (st : State) (text : string) (single double esc : bool) : State :=
  {| parts := parts st; buf := buf st ++ text;
     inSingle := single; inDouble := double; escaped := esc;
     foundChain := foundChain st; invalidChain := invalidChain st |}.

(** [if (!pushPart(op)) invalidChain = true; foundChain = true]. *)
Definition boundary (st : State) (op : ShellChainOperator) : State :=
  let trimmed := JS.trim (buf st) in
  {| parts := if JS.isEmpty trimmed then parts st
              else (parts st ++ [{| part := trimmed; opToNext := Some op |}])%list;
     buf := EmptyString;
     inSingle := inSingle st; inDouble := inDouble st; escaped := escaped st;
     foundChain := true;
     invalidChain := if JS.isEmpty trimmed then true else invalidChain st |}.

(** One iteration of the loop; the second component is the number of
    characters the body consumed beyond [ch]. *)
Definition step (st : State) (ch : ascii) (next : option ascii) (after : string)
  : State * nat :=
  if escaped st then (emit st (JS.str ch) (inSingle st) (inDouble st) false, 0)
  else if negb (inSingle st) && negb (inDouble st) && Ascii.eqb ch JS.BSL then
    (emit st (JS.str ch) (inSingle st) (inDouble st) true, 0)
  else if inSingle st then
    (emit st (JS.str ch) (negb (Ascii.eqb ch JS.SQ)) (inDouble st) (escaped st), 0)
  else if inDouble st then
    if Ascii.eqb ch JS.BSL && isDoubleQuoteEscape next then
      (emit st (String ch (JS.take 1 after)) (inSingle st) (inDouble st) (escaped st), 1)
    else
      (emit st (JS.str ch) (inSingle st) (negb (Ascii.eqb ch JS.DQ)) (escaped st), 0)
  else if Ascii.eqb ch JS.SQ then
    (emit st (JS.str ch) true (inDouble st) (escaped st), 0)
  else if Ascii.eqb ch JS.DQ then
    (emit st (JS.str ch) (inSingle st) true (escaped st), 0)
  else if Ascii.eqb ch "&"%char && JS.nextIs next "&"%char then (boundary st OpAnd, 1)
  else if Ascii.eqb ch "|"%char && JS.nextIs next "|"%char then (boundary st OpOr, 1)
  else if Ascii.eqb ch ";"%char then (boundary st OpSeq, 0)
  else (emit st (JS.str ch) (inSingle st) (inDouble st) (escaped st), 0).

Fixpoint loop (skip : nat) (st : State) (command : string) : State :=
  match command with
  | EmptyString => st
  | String ch after =>
      match skip with
      | S k => loop k st after
      | O => let (st', k) := step st ch (JS.head after) after in loop k st' after
      end
  end.

Definition finish (st : State) : option (list ShellChainPart) :=
  if negb (foundChain st) then None
  else
    let trimmed := JS.trim (buf st) in
    if JS.isEmpty trimmed then None
    else
      let all := (parts st ++ [{| part := trimmed; opToNext := None |}])%list in
      if invalidChain st || Pipeline.isNil all then None else Some all.

Definition splitCommandChainWithOperators (command : string)
  : option (list ShellChainPart) :=
  finish (loop 0 initial command).

Definition splitCommandChain (command : string) : option (list string) :=
  match splitCommandChainWithOperators command with
  | None => None
  | Some ps => Some (map part ps)
  end.

End Chain.

(* ================================================================== *)
(** * Windows mode *)
(* ================================================================== *)

Fixpoint findWindowsUnsupportedToken (command : string) : option string :=
  match command with
  | EmptyString => None
  | String ch t =>
      if JS.memChar ch WINDOWS_UNSUPPORTED_TOKENS then
        if isNewline ch then Some "newline" else Some (JS.str ch)
      else findWindowsUnsupportedToken t
  end.

(** [pushToken()] of [tokenizeWindowsSegment]. *)
Definition pushToken (tokens : list string) (buf : string) : list string :=
  if Nat.ltb 0 (String.length buf) then (tokens ++ [buf])%list else tokens.

Fixpoint tokenizeWindowsLoop (tokens : list string) (buf : string) (inDouble : bool)
  (segment : string) : list string * string * bool :=
  match segment with
  | EmptyString => (tokens, buf, inDouble)
  | String ch t =>
      if Ascii.eqb ch JS.DQ then tokenizeWindowsLoop tokens buf (negb inDouble) t
      else if negb inDouble && JS.isSpace ch then
        tokenizeWindowsLoop (pushToken tokens buf) EmptyString inDouble t
      else tokenizeWindowsLoop tokens (JS.snoc buf ch) inDouble t
  end.

Definition tokenizeWindowsSegment (segment : string) : option (list string) :=
  let '(tokens, buf, inDouble) := tokenizeWindowsLoop [] EmptyString false segment in
  if inDouble then None
  else match pushToken tokens buf with
       | [] => None
       | ts => Some ts
       end.

Definition failed (why : option string) : ExecCommandAnalysis :=
  {| ok := false; reason := why; segments := []; chains := None |}.

Definition analyzeWindowsShellCommand (H : Host) (command : string)
  (cwd : option string) (env : option ProcessEnv) : ExecCommandAnalysis :=
  match findWindowsUnsupportedToken command with
  | Some unsupported => failed (Some ("unsupported windows shell token: " ++ unsupported))
  | None =>
      match tokenizeWindowsSegment command with
      | None => failed (Some "unable to parse windows command")
      | Some [] => failed (Some "unable to parse windows command")
      | Some argv =>
          {| ok := true; reason := None;
             segments := [ {| raw := command; argv := argv;
                              resolution := resolveCommandResolutionFromArgv H argv cwd env |} ];
             chains := None |}
      end
  end.

Definition isWindowsPlatform (platform : option string) : bool :=
  JS.startsWith
    (JS.toLowerCase (JS.trim match platform with
                             | Some p => p
                             | None => EmptyString
                             end)) "win".

(* ================================================================== *)
(** * POSIX analysis ([analyzeShellCommand], [analyzeArgvCommand]) *)
(* ================================================================== *)

(** The loop of [parseSegmentsFromParts]; [acc] is the local [segments]. *)
Fixpoint parseSegmentsLoop (H : Host) (acc : list ExecCommandSegment)
  (parts : list string) (cwd : option string) (env : option ProcessEnv)
  : option (list ExecCommandSegment) :=
  match parts with
  | [] => Some acc
  | raw :: rest =>
      match splitShellArgs H raw with
      | None => None
      | Some [] => None
      | Some argv =>
          parseSegmentsLoop H
            (acc ++ [ {| raw := raw; argv := argv;
                         resolution := resolveCommandResolutionFromArgv H argv cwd env |} ])%list
            rest cwd env
      end
  end.

Definition parseSegmentsFromParts (H : Host) (parts : list string)
  (cwd : option string) (env : option ProcessEnv) : option (list ExecCommandSegment) :=
  parseSegmentsLoop H [] parts cwd env.

(** The loop of [analyzeShellCommand] over the chain parts. *)
Fixpoint analyzeChainLoop (H : Host) (cwd : option string) (env : option ProcessEnv)
  (chainsAcc : list (list ExecCommandSegment)) (allSegments : list ExecCommandSegment)
  (chainParts : list string) : ExecCommandAnalysis :=
  match chainParts with
  | [] => {| ok := true; reason := None; segments := allSegments;
             chains := Some chainsAcc |}
  | part :: rest =>
      let pipelineSplit := Pipeline.splitShellPipeline part in
      if negb (Pipeline.split_ok pipelineSplit)
      then failed (Pipeline.split_reason pipelineSplit)
      else
        match parseSegmentsFromParts H (Pipeline.split_segments pipelineSplit) cwd env with
        | None => failed (Some "unable to parse shell segment")
        | Some segs =>
            analyzeChainLoop H cwd env (chainsAcc ++ [segs])%list (allSegments ++ segs)%list rest
        end
  end.

Definition analyzeShellCommand (H : Host) (command : string)
  (cwd : option string) (env : option ProcessEnv) (platform : option string)
  : ExecCommandAnalysis :=
  if isWindowsPlatform platform then analyzeWindowsShellCommand H command cwd env
  else
    match Chain.splitCommandChain command with
    | Some chainParts => analyzeChainLoop H cwd env [] [] chainParts
    | None =>
        let split := Pipeline.splitShellPipeline command in
        if negb (Pipeline.split_ok split) then failed (Pipeline.split_reason split)
        else
          match parseSegmentsFromParts H (Pipeline.split_segments split) cwd env with
          | None => failed (Some "unable to parse shell segment")
          | Some segs => {| ok := true; reason := None; segments := segs; chains := None |}
          end
    end.

(** [entry.trim().length > 0] *)
Definition notBlank (entry : string) : bool :=
  Nat.ltb 0 (String.length (JS.trim entry)).

Definition analyzeArgvCommand (H : Host) (argv : list string)
  (cwd : option string) (env : option ProcessEnv) : ExecCommandAnalysis :=
  let kept := filter notBlank argv in
  if Nat.eqb (List.length kept) 0 then failed (Some "empty argv")
  else {| ok := true; reason := None;
          segments := [ {| raw := JS.join " " kept; argv := kept;
                           resolution := resolveCommandResolutionFromArgv H kept cwd env |} ];
          chains := None |}.

(* ================================================================== *)
(** * Safe-bins command rewriting ([buildSafeBinsShellCommand]) *)
(* ================================================================== *)

Inductive SatisfiedBy : Type := ByAllowlist | BySafeBins | BySkills.

Record BuildResult : Type := {
  build_ok : bool;
  build_command : option string;
  build_reason : option string
}.

Definition buildFailed (why : string) : BuildResult :=
  {| build_ok := false; build_command := None; build_reason := Some why |}.

Definition singleQuoteEscape : string :=
  String JS.SQ (String JS.DQ (String JS.SQ (String JS.DQ (JS.str JS.SQ)))).

Definition shellEscapeSingleArg (value : string) : string :=
  String JS.SQ (JS.replaceChar value JS.SQ singleQuoteEscape ++ JS.str JS.SQ).

Definition renderQuotedArgv (argv : list string) : string :=
  JS.join " " (map shellEscapeSingleArg argv).

Definition isSafeBins (by_ : option SatisfiedBy) : bool :=
  match by_ with
  | Some BySafeBins => true
  | _ => false
  end.

(** The inner loop over the segments of one pipeline; [None] is the
    return with reason [segment mapping failed]. *)
Fixpoint renderPipelineLoop (segs : list ExecCommandSegment)
  (segmentSatisfiedBy : list (option SatisfiedBy))
  (segIndex : nat) (rendered : list string) (raws : list string)
  : option (list string * nat) :=
  match raws with
  | [] => Some (rendered, segIndex)
  | raw :: rest =>
      match nth_error segs segIndex, nth_error segmentSatisfiedBy segIndex with
      | Some seg, Some by_ =>
          let needsLiteral := isSafeBins by_ in
          renderPipelineLoop segs segmentSatisfiedBy (segIndex + 1)
            (rendered ++ [if needsLiteral then renderQuotedArgv (argv seg) else JS.trim raw])%list
            rest
      | _, _ => None
      end
  end.

Definition operatorSuffix (op : option ShellChainOperator) : string :=
  match op with
  | Some o => " " ++ operatorText o ++ " "
  | None => EmptyString
  end.

(** The outer loop over the chain parts. *)
Fixpoint buildChainLoop (segs : list ExecCommandSegment)
  (segmentSatisfiedBy : list (option SatisfiedBy))
  (segIndex : nat) (out : string) (chainParts : list ShellChainPart) : BuildResult :=
  match chainParts with
  | [] =>
      if negb (Nat.eqb segIndex (List.length segs))
      then buildFailed "segment count mismatch"
      else {| build_ok := true; build_command := Some out; build_reason := None |}
  | p :: rest =>
      let pipelineSplit := Pipeline.splitShellPipeline (part p) in
      if negb (Pipeline.split_ok pipelineSplit) then
        buildFailed match Pipeline.split_reason pipelineSplit with
                    | Some why => why
                    | None => "unable to parse pipeline"
                    end
      else
        match renderPipelineLoop segs segmentSatisfiedBy segIndex []
                (Pipeline.split_segments pipelineSplit) with
        | None => buildFailed "segment mapping failed"
        | Some (rendered, segIndex') =>
            buildChainLoop segs segmentSatisfiedBy segIndex'
              (out ++ JS.join " | " rendered ++ operatorSuffix (opToNext p)) rest
        end
  end.

Definition buildSafeBinsShellCommand (command : string)
  (segs : list ExecCommandSegment) (segmentSatisfiedBy : list (option SatisfiedBy))
  (platform : option string) : BuildResult :=
  if isWindowsPlatform platform then buildFailed "unsupported platform"
  else if negb (Nat.eqb (List.length segs) (List.length segmentSatisfiedBy))
  then buildFailed "segment metadata mismatch"
  else
    let chainParts :=
      match Chain.splitCommandChainWithOperators (JS.trim command) with
      | Some ps => ps
      | None => [ {| part := JS.trim command; opToNext := None |} ]
      end in
    buildChainLoop segs segmentSatisfiedBy 0 EmptyString chainParts.

(* ================================================================== *)
(** * A reference host *)
(* ================================================================== *)

Module Reference.

(** The loop of the tokenizer model: [tokens], [buf] and the quoting
    flags are its variables. *)
Fixpoint splitArgsLoop (tokens : list string) (buf : string)
  (inSingle inDouble escaped : bool) (raw : string) : option (list string) :=
  match raw with
  | EmptyString =>
      if escaped || inSingle || inDouble then None
      else Some (pushToken tokens buf)
  | String ch t =>
      if escaped then splitArgsLoop tokens (JS.snoc buf ch) inSingle inDouble false t
      else if negb inSingle && negb inDouble && Ascii.eqb ch JS.BSL then
        splitArgsLoop tokens buf inSingle inDouble true t
      else if inSingle then
        if Ascii.eqb ch JS.SQ then splitArgsLoop tokens buf false inDouble escaped t
        else splitArgsLoop tokens (JS.snoc buf ch) inSingle inDouble escaped t
      else if inDouble then
        match t with
        | String next t' =>
            if Ascii.eqb ch JS.BSL && isDoubleQuoteEscape (Some next)
            then splitArgsLoop tokens (JS.snoc buf next) inSingle inDouble escaped t'
            else if Ascii.eqb ch JS.DQ then splitArgsLoop tokens buf inSingle false escaped t
            else splitArgsLoop tokens (JS.snoc buf ch) inSingle inDouble escaped t
        | EmptyString =>
            if Ascii.eqb ch JS.DQ then splitArgsLoop tokens buf inSingle false escaped t
            else splitArgsLoop tokens (JS.snoc buf ch) inSingle inDouble escaped t
        end
      else if Ascii.eqb ch JS.SQ then splitArgsLoop tokens buf true inDouble escaped t
      else if Ascii.eqb ch JS.DQ then splitArgsLoop tokens buf inSingle true escaped t
      else if JS.isSpace ch then
        splitArgsLoop (pushToken tokens buf) EmptyString inSingle inDouble escaped t
      else splitArgsLoop tokens (JS.snoc buf ch) inSingle inDouble escaped t
  end.

(** Modelled from the spec: the argv tokenizer [splitShellArgs] of
    [utils/shell-argv.ts] is imported by the analyser but is not among
    the analysed sources.  The spec only says that each segment is
    argv-tokenized and that a failure of argv-splitting fails the
    analysis; the model is the word splitter the analyser's tests
    presuppose: words are separated by white space, quotes are removed,
    a backslash outside quotes takes the next character literally,
    inside double quotes a backslash before one of the characters of
    [DOUBLE_QUOTE_ESCAPES] takes that character literally, and an
    unterminated quote or escape is a failure. *)
Definition splitShellArgsModel (raw : string) : option (list string) :=
  splitArgsLoop [] EmptyString false false false raw.

(** The executables of the reference file system. *)
Definition executables : list string :=
  ["/usr/bin/env"; "/usr/bin/rg"; "/usr/bin/head"; "/bin/echo"; "/bin/ls"].

(** The segments of a POSIX path after normalisation: empty segments
    and [.] are dropped, [..] takes the segment before it away; [acc]
    holds the segments kept so far, last first. *)
Fixpoint normalizeSegments (acc : list string) (segs : list string) : list string :=
  match segs with
  | [] => rev acc
  | seg :: rest =>
      if String.eqb seg EmptyString || String.eqb seg "." then normalizeSegments acc rest
      else if String.eqb seg ".." then normalizeSegments (tl acc) rest
      else normalizeSegments (seg :: acc) rest
  end.

(** [path.resolve(base, p)] on POSIX, for the working directory [cwd]:
    the last absolute path among [cwd], [base] and [p] with what follows
    it, normalised. *)
Definition resolvePosix (cwd base p : string) : string :=
  let full :=
    if JS.startsWith p "/" then p
    else if JS.startsWith base "/" then base ++ "/" ++ p
    else cwd ++ "/" ++ base ++ "/" ++ p in
  "/" ++ JS.join "/" (normalizeSegments [] (JS.splitChar full "/"%char)).

(** Modelled from the spec: [expandHomePrefix] of [home-dir.ts] is
    imported by the analyser but is not among the analysed sources; the
    spec says that a leading [~] is expanded to the home directory.  In
    the model, for the home directory [home], a leading [~] is replaced
    when it is the whole text or stands before a separator. *)
Definition expandHome (home p : string) : string :=
  if String.eqb p "~" || JS.startsWith p "~/" || JS.startsWith p (String "~"%char (JS.str JS.BSL))
  then home ++ JS.drop 1 p
  else p.

(** A POSIX host with a five-file file system and [PATH=/usr/bin:/bin],
    in the manner of the temporary directories the tests build.
    [path.join] is modelled on directories and names that need no
    normalisation, as those of [PATH] here. *)
Definition host : Host :=
  {| platformWin32 := false;
     isExecutableFile := fun p => JS.memStr p executables;
     expandHomePrefix := expandHome "/home/user";
     pathIsAbsolute := fun p => JS.startsWith p "/";
     pathResolve := resolvePosix "/tmp";
     pathJoin := fun dir p => dir ++ "/" ++ p;
     pathExtname := fun _ => EmptyString;
     pathDelimiter := ":"%char;
     processCwd := "/tmp";
     processEnv := fun key => if String.eqb key "PATH" then Some "/usr/bin:/bin" else None;
     splitShellArgs := splitShellArgsModel |}.

End Reference.

(* ================================================================== *)
(** * Specification vocabulary *)
(* ================================================================== *)

(** Every character of [s] is white space: [s] is empty or blank. *)
Definition allSpace (s : string) : bool :=
  negb (JS.existsChar (fun c => negb (JS.isSpace c)) s).

(** [sub] occurs in [s]. *)
Fixpoint includes (s sub : string) : bool :=
  String.prefix sub s
  || match s with
     | EmptyString => false
     | String _ t => includes t sub
     end.

(** The validator's reference text for [argv], in the words of the spec:
    the unwrapped inner command when [argv] is a recognized shell wrapper,
    the canonically re-quoted argv otherwise. *)
Definition referenceText (argv : list string) : string :=
  let wrapper := extractShellWrapperCommand argv None in
  if isWrapper wrapper then
    match command wrapper with
    | Some inner => inner
    | None => EmptyString
    end
  else formatExecCommand argv.

Definition isMismatch (v : SystemRunCommandValidation) : bool :=
  match v with
  | ValidationError _ code _ _ => String.eqb code "RAW_COMMAND_MISMATCH"
  | ValidationOk _ _ => false
  end.

Definition validationOk (v : SystemRunCommandValidation) : bool :=
  match v with
  | ValidationOk _ _ => true
  | ValidationError _ _ _ _ => false
  end.

(** [s] does not start with white space. *)
Definition startsClean (s : string) : Prop :=
  match s with
  | EmptyString => True
  | String c _ => JS.isSpace c = false
  end.

(** A result is either ok or the failure record with a reason. *)
Definition failsClosed (r : ExecCommandAnalysis) : Prop :=
  ok r = true \/ exists why, r = failed (Some why).

(** The tokens an [env] invocation passes over before the inner command,
    in the words of the spec: [VAR=value] assignments, the flags without
    a value, an option with its value as the next token, and an option in
    [--flag=value] form. *)
Inductive EnvPrefix : list string -> Prop :=
| EnvPrefix_nil : EnvPrefix []
| EnvPrefix_assignment : forall (tok : string) (rest : list string),
    isEnvAssignment (JS.trim tok) = true ->
    EnvPrefix rest -> EnvPrefix (tok :: rest)
| EnvPrefix_flag : forall (tok : string) (rest : list string),
    In (JS.toLowerCase (JS.trim tok)) ENV_FLAG_OPTIONS ->
    EnvPrefix rest -> EnvPrefix (tok :: rest)
| EnvPrefix_option_value : forall (tok value : string) (rest : list string),
    In (JS.toLowerCase (JS.trim tok)) ENV_OPTIONS_WITH_VALUE ->
    allSpace value = false ->
    EnvPrefix rest -> EnvPrefix (tok :: value :: rest)
| EnvPrefix_option_inline : forall (tok name value : string) (rest : list string),
    In name ENV_OPTIONS_WITH_VALUE ->
    JS.toLowerCase (JS.trim tok) = name ++ String "="%char value ->
    EnvPrefix rest -> EnvPrefix (tok :: rest).

(** The first token of the inner command: not blank, not a flag, not an
    assignment. *)
Definition CommandToken (tok : string) : Prop :=
  allSpace tok = false
  /\ JS.startsWith (JS.trim tok) "-" = false
  /\ isEnvAssignment (JS.trim tok) = false.

(** [argv] is unwrapped completely within [n] levels. *)
Definition unwrapsWithin (n : nat) (argv0 : list string) : Prop :=
  unwrapDispatchWrappersForResolution argv0 n
  = unwrapDispatchWrappersForResolution argv0 (S n).


(** Case analysis on membership in a list of literals. *)
Ltac in_cases H :=
  repeat (destruct H as [H|H]; [symmetry in H|]); [..|contradiction H].

(** A token between single quotes: the token stands between two single
    quotes, and each single quote of the token is written as a closing
    quote, a single quote between double quotes, and an opening quote.
    The token is cut at its single quotes and the pieces are joined by
    that five-character text. *)
Definition singleQuotedSpec (token : string) : string :=
  "'" ++ JS.join ("'" ++ String JS.DQ ("'" ++ String JS.DQ "'"))
           (JS.splitChar token "'"%char)
      ++ "'".

(** The text of a chain operator in a rewritten command: the operator
    between two spaces; nothing after the last part. *)
Definition chainOperatorSpec (op : option ShellChainOperator) : string :=
  match op with
  | Some OpAnd => " && "
  | Some OpOr => " || "
  | Some OpSeq => " ; "
  | None => EmptyString
  end.

(** What the rewriter emits for one segment, in the words of the spec:
    the single-quoted argv tokens for a segment satisfied by [safeBins],
    the original raw text of the segment otherwise. *)
Definition renderSegmentSpec
  (entry : string * (ExecCommandSegment * option SatisfiedBy)) : string :=
  let '(rawText, (seg, by_)) := entry in
  match by_ with
  | Some BySafeBins => JS.join " " (map singleQuotedSpec (argv seg))
  | _ => rawText
  end.

(** The rewritten command for a chain of pipelines: the segments of a
    pipeline joined by [ | ], each pipeline followed by its chain
    operator; [meta] pairs the analysed segments with their satisfaction
    flags, in order. *)
Fixpoint renderChainSpec
  (pipelines : list (list string * option ShellChainOperator))
  (meta : list (ExecCommandSegment * option SatisfiedBy)) : string :=
  match pipelines with
  | [] => EmptyString
  | (raws, op) :: rest =>
      JS.join " | " (map renderSegmentSpec (combine raws meta))
      ++ chainOperatorSpec op
      ++ renderChainSpec rest (skipn (List.length raws) meta)
  end.

(** The text of a command made of chain parts: each part is followed by
    its operator between two spaces. *)
Fixpoint chainSourceSpec (chainParts : list ShellChainPart) : string :=
  match chainParts with
  | [] => EmptyString
  | p :: rest => part p ++ chainOperatorSpec (opToNext p) ++ chainSourceSpec rest
  end.

(** The segments of a chain part of a command text, with the operator
    that follows the part. *)
Definition pipelineOfText (p : ShellChainPart)
  : list string * option ShellChainOperator :=
  (Pipeline.split_segments (Pipeline.splitShellPipeline (JS.trim (part p))), opToNext p).

(** The chain parts of a command: the result of chain splitting, or the
    whole trimmed command when no chain operator is found. *)
Definition chainPartsOf (cmd : string) : list ShellChainPart :=
  match Chain.splitCommandChainWithOperators (JS.trim cmd) with
  | Some ps => ps
  | None => [ {| part := JS.trim cmd; opToNext := None |} ]
  end.

Definition pipelineOf (p : ShellChainPart) : list string * option ShellChainOperator :=
  (Pipeline.split_segments (Pipeline.splitShellPipeline (part p)), opToNext p).

Definition isTrimmed (s : string) : Prop := JS.trim s = s.

Fixpoint forallChar (p : ascii -> bool) (s : string) : bool :=
  match s with
  | EmptyString => true
  | String c t => p c && forallChar p t
  end.

(** The characters with a meaning in the shell grammar of the segmenter. *)
Definition shellSpecials : list ascii :=
  [JS.BSL; JS.SQ; JS.DQ; "|"%char; "&"%char; ";"%char; "<"%char; ">"%char;
   JS.BTICK; JS.LF; JS.CR; "("%char; ")"%char; "$"%char].

(** A plain character has no meaning in the shell grammar; a plain text
    is made of plain characters (letters, digits, blanks, slashes ...). *)
Definition plainChar (c : ascii) : bool := negb (JS.memChar c shellSpecials).

Definition plainText (s : string) : bool := forallChar plainChar s.

(** A pipeline text: each segment is followed by a pipe. *)
Definition pipeAfterEach (segs : list string) : string :=
  String.concat EmptyString (map (fun s => s ++ "|") segs).

(** The scanner is outside quotes, escapes and heredocs. *)
Definition idle (st : Pipeline.State) : Prop :=
  Pipeline.inSingle st = false /\ Pipeline.inDouble st = false
  /\ Pipeline.escaped st = false /\ Pipeline.pendingHeredocs st = []
  /\ Pipeline.inHeredocBody st = false.

(** The state after the plain text [s] was read. *)
Definition feed (st : Pipeline.State) (s : string) : Pipeline.State :=
  match s with
  | EmptyString => st
  | _ => Pipeline.emitPlain st s
  end.

(** The state after the segments [segs], each followed by a pipe. *)
Fixpoint afterPipes (st : Pipeline.State) (segs : list string) : Pipeline.State :=
  match segs with
  | [] => st
  | s :: rest => afterPipes (Pipeline.pipeBoundary (feed st s)) rest
  end.

(** No chain syntax: neither quote nor escape nor [&] nor [;], and no
    pipe followed by a pipe. *)
Fixpoint pipesOnly (s : string) : bool :=
  match s with
  | EmptyString => true
  | String c t =>
      (plainChar c || (Ascii.eqb c "|"%char && negb (JS.nextIs (JS.head t) "|"%char)))
      && pipesOnly t
  end.


(** From [plainChar c = true]: [c] differs from each special character. *)
Ltac plain_facts H :=
  unfold plainChar, shellSpecials, JS.memChar in H; cbn [existsb] in H;
  rewrite negb_true_iff in H;
  repeat (apply orb_false_elim in H as [? H]).

Ltac use_char_facts :=
  repeat match goal with
         | E : Ascii.eqb ?c _ = false |- _ => rewrite E; clear E
         end.

(** The segments a pipeline text keeps: the trimmed, non-empty ones. *)
Definition keptSegments (segs : list string) : list string :=
  flat_map (fun s => if JS.isEmpty (JS.trim s) then [] else [JS.trim s]) segs.

(** The reason of the rejection of a command that ends with a pipe. *)
Definition danglingPipeReason (segs : list string) : string :=
  if forallb allSpace segs then "empty command" else "empty pipeline segment".

Definition hasNewline (s : string) : bool := JS.existsChar isNewline s.

(** [sp] is made of spaces and tabs. *)
Definition blanks (sp : string) : bool := forallChar Pipeline.isBlank sp.

(** A delimiter that can stand between single or double quotes as it is:
    no quote, no backslash, no line terminator. *)
Definition quotableDelimiter (d : string) : bool :=
  forallChar (fun c => negb (JS.memChar c [JS.SQ; JS.DQ; JS.BSL; JS.LF; JS.CR])) d.


Definition quotedWord (q : ascii) (d : string) : string := String q (d ++ JS.str q).

(** The body lines of a heredoc, each with its line terminator. *)
Definition heredocLines (body : list string) : string :=
  String.concat EmptyString (map (fun l => l ++ JS.str JS.LF) body).



(** The scanner state inside the body of the heredoc [h], opened from the
    state [base], with [line] read so far. *)
Definition inBody (base : Pipeline.State) (pending : list Pipeline.HeredocSpec)
  (line : string) : Pipeline.State :=
  Pipeline.setHeredoc base pending true line.

Unset Implicit Arguments.

(** ** Live command substitution, in the words of the claim

    A reading of a command text by the quoting rules of the shell: a
    backslash outside quotes escapes the next character; single quotes
    keep everything literal; inside double quotes a backslash escapes the
    next character when that is one of the characters of
    [DOUBLE_QUOTE_ESCAPES].  The reading is [Live] when it meets a
    backtick or [$(] that is neither escaped nor inside single quotes. *)

Inductive Quoting : Type := Unquoted | SingleQuoted | DoubleQuoted.

Inductive Scan : Type :=
| Live
| Ends (q : Quoting) (esc : bool).

(** The character after the head of a text [t] that is followed by [k]. *)
Definition lookahead (t : string) (k : option ascii) : option ascii :=
  match t with
  | EmptyString => k
  | String d _ => Some d
  end.

(** The reading of [s] from the quoting state [q], [esc] telling whether
    the first character is escaped; [k] is the character that follows
    [s], if any. *)
Fixpoint scanK (q : Quoting) (esc : bool) (s : string) (k : option ascii) : Scan :=
  match s with
  | EmptyString => Ends q esc
  | String c t =>
      let next := lookahead t k in
      if esc then scanK q false t k
      else
        match q with
        | Unquoted =>
            if Ascii.eqb c JS.BSL then scanK Unquoted true t k
            else if Ascii.eqb c JS.SQ then scanK SingleQuoted false t k
            else if Ascii.eqb c JS.DQ then scanK DoubleQuoted false t k
            else if Ascii.eqb c JS.BTICK then Live
            else if Ascii.eqb c "$"%char && JS.nextIs next "("%char then Live
            else scanK Unquoted false t k
        | SingleQuoted =>
            if Ascii.eqb c JS.SQ then scanK Unquoted false t k
            else scanK SingleQuoted false t k
        | DoubleQuoted =>
            if Ascii.eqb c JS.BSL && isDoubleQuoteEscape next
            then scanK DoubleQuoted true t k
            else if Ascii.eqb c JS.DQ then scanK Unquoted false t k
            else if Ascii.eqb c JS.BTICK then Live
            else if Ascii.eqb c "$"%char && JS.nextIs next "("%char then Live
            else scanK DoubleQuoted false t k
        end
  end.

Definition isLive (sc : Scan) : bool :=
  match sc with
  | Live => true
  | Ends _ _ => false
  end.

(** An unescaped [$(] or backtick appears in [s] outside single quotes. *)
Definition liveSubstitution (s : string) : bool :=
  isLive (scanK Unquoted false s None).

(** The text holds the heredoc operator: a [<] followed by a [<]. *)
Fixpoint hasHeredocOperator (s : string) : bool :=
  match s with
  | EmptyString => false
  | String c t =>
      (Ascii.eqb c "<"%char && JS.nextIs (JS.head t) "<"%char) || hasHeredocOperator t
  end.

(** The reasons of a rejection for command substitution. *)
Definition isSubstitutionReason (why : option string) : bool :=
  match why with
  | Some text =>
      String.eqb text "unsupported shell token: $()"
      || String.eqb text ("unsupported shell token: " ++ JS.str JS.BTICK)
  | None => false
  end.

(** The outcome [res] of the segmenter's loop agrees with the reading
    [sc] of the same text: a live reading is rejected, and a reading
    that is not live is not rejected for command substitution. *)
Definition Agree (res : Pipeline.State + Pipeline.Split) (sc : Scan) : Prop :=
  match sc with
  | Live => exists r, res = inr r
  | Ends _ _ =>
      forall r, res = inr r -> isSubstitutionReason (Pipeline.split_reason r) = false
  end.

(** The segmenter's flags stand for the quoting state [q], [esc], outside
    any heredoc. *)
Definition syncP (st : Pipeline.State) (q : Quoting) (esc : bool) : Prop :=
  Pipeline.inHeredocBody st = false /\ Pipeline.pendingHeredocs st = []
  /\ match q with
     | Unquoted =>
         Pipeline.inSingle st = false /\ Pipeline.inDouble st = false
         /\ Pipeline.escaped st = esc
     | SingleQuoted =>
         Pipeline.inSingle st = true /\ Pipeline.inDouble st = false
         /\ Pipeline.escaped st = false /\ esc = false
     | DoubleQuoted =>
         Pipeline.inSingle st = false /\ Pipeline.inDouble st = true
         /\ Pipeline.escaped st = false /\ esc = false
     end.

(** A character without a meaning for the quoting rules. *)
Definition quoteNeutral (c : ascii) : bool :=
  negb (JS.memChar c [JS.BSL; JS.SQ; JS.DQ; JS.BTICK; "$"%char]).

Ltac sync_fields H :=
  let H1 := fresh "Hbody" in
  let H2 := fresh "Hpending" in
  let H3 := fresh "Hsingle" in
  let H4 := fresh "Hdouble" in
  let H5 := fresh "Hescaped" in
  destruct H as (H1 & H2 & H3 & H4 & H5).

Ltac eval_closed_eqb :=
  repeat match goal with
         | |- context [Ascii.eqb ?a ?b] =>
             let v := eval vm_compute in (Ascii.eqb a b) in
             match v with
             | true => idtac
             | false => idtac
             end;
             change (Ascii.eqb a b) with v
         end.

(** Some chain part has a live reading. *)
Definition partsLive (ps : list ShellChainPart) : bool :=
  existsb (fun p => liveSubstitution (part p)) ps.

(** What the chain splitter would return when the input ended in the
    state [st]: the parts so far and the trimmed buffer. *)
Definition finalLive (st : Chain.State) : bool :=
  partsLive (Chain.parts st) || liveSubstitution (JS.trim (Chain.buf st)).

(** The chain splitter's flags stand for the quoting state [q], [esc]. *)
Definition syncC (st : Chain.State) (q : Quoting) (esc : bool) : Prop :=
  match q with
  | Unquoted =>
      Chain.inSingle st = false /\ Chain.inDouble st = false /\ Chain.escaped st = esc
  | SingleQuoted =>
      Chain.inSingle st = true /\ Chain.inDouble st = false
      /\ Chain.escaped st = false /\ esc = false
  | DoubleQuoted =>
      Chain.inSingle st = false /\ Chain.inDouble st = true
      /\ Chain.escaped st = false /\ esc = false
  end.

(** The three things one iteration of the chain splitter can do. *)
Inductive ChainStep (st : Chain.State) (c : ascii) (after : string)
  : Chain.State * nat -> Prop :=
| ChainStep_emit : forall st',
    Chain.parts st' = Chain.parts st ->
    Chain.buf st' = Chain.buf st ++ JS.str c ->
    ChainStep st c after (st', 0)
| ChainStep_escape : forall st' d rest,
    after = String d rest ->
    Chain.parts st' = Chain.parts st ->
    Chain.buf st' = Chain.buf st ++ String c (JS.str d) ->
    ChainStep st c after (st', 1)
| ChainStep_boundary : forall op k,
    JS.memChar c ["&"%char; "|"%char; ";"%char] = true ->
    k <= String.length after ->
    ChainStep st c after (Chain.boundary st op, k).

(** One iteration of the chain splitter, in the quoting state [q], [esc],
    against the reading of the same character. *)
Inductive ChainTrack (st : Chain.State) (c : ascii) (t : string)
  (q : Quoting) (esc : bool) : Chain.State * nat -> Prop :=
| ChainTrack_emit : forall st',
    Chain.parts st' = Chain.parts st ->
    Chain.buf st' = Chain.buf st ++ JS.str c ->
    (scanK q esc (JS.str c) (lookahead t None) = Live
     \/ exists q' esc', scanK q esc (JS.str c) (lookahead t None) = Ends q' esc'
                        /\ syncC st' q' esc') ->
    ChainTrack st c t q esc (st', 0)
| ChainTrack_escape : forall st' d rest,
    t = String d rest ->
    q = DoubleQuoted -> esc = false ->
    Ascii.eqb c JS.BSL && isDoubleQuoteEscape (Some d) = true ->
    Chain.parts st' = Chain.parts st ->
    Chain.buf st' = Chain.buf st ++ String c (JS.str d) ->
    syncC st' DoubleQuoted false ->
    ChainTrack st c t q esc (st', 1)
| ChainTrack_boundary : forall op k,
    q = Unquoted -> esc = false ->
    quoteNeutral c = true ->
    JS.memChar c ["&"%char; "|"%char; ";"%char] = true ->
    (k = 0 \/ (k = 1 /\ exists rest, t = String c rest)) ->
    ChainTrack st c t q esc (Chain.boundary st op, k).

Ltac track_emit := apply ChainTrack_emit; [reflexivity | reflexivity |].

(* ================================================================== *)
(** * Command resolution from a command text *)
(* ================================================================== *)

(** [parseFirstToken(command)].  [trimmed.indexOf(first, 1)] is read on
    the text after the first character, so [stop] is [end]; the regular
    expression [/^[^\s]+/] takes the leading characters that are not
    white space. *)
Definition parseFirstToken (command : string) : option string :=
  match JS.trim command with
  | EmptyString => None
  | String first rest =>
      if Ascii.eqb first JS.DQ || Ascii.eqb first JS.SQ then
        match JS.indexOfChar rest first with
        | Some k =>
            let stop := k + 1 in
            if Nat.ltb 1 stop then Some (JS.take (stop - 1) rest) else Some rest
        | None => Some rest
        end
      else
        let matched :=
          NodePath.takeWhile (fun c => negb (JS.isSpace c)) (String first rest) in
        if JS.isEmpty matched then None else Some matched
  end.

Definition resolveCommandResolution
  (H : Host) (command : string) (cwd : option string) (env : option ProcessEnv)
  : option CommandResolution :=
  match parseFirstToken command with
  | None => None
  | Some rawExecutable =>
      if JS.isEmpty rawExecutable then None
      else Some (mkResolution H rawExecutable cwd env)
  end.

(** [resolveAllowlistCandidatePath(resolution, cwd)]. *)
Definition resolveAllowlistCandidatePath
  (H : Host) (resolution : option CommandResolution) (cwd : option string)
  : option string :=
  match resolution with
  | None => None
  | Some r =>
      let fromRaw :=
        let raw := JS.trim (rawExecutable r) in
        if JS.isEmpty raw then None
        else
          let expanded := if JS.startsWith raw "~" then expandHomePrefix H raw else raw in
          if negb (JS.includesChar expanded "/"%char)
             && negb (JS.includesChar expanded JS.BSL) then None
          else if pathIsAbsolute H expanded then Some expanded
          else
            let base := match cwd with
                        | Some c => if JS.isEmpty c || JS.isEmpty (JS.trim c)
                                    then processCwd H else JS.trim c
                        | None => processCwd H
                        end in
            Some (pathResolve H base expanded) in
      match resolvedPath r with
      | Some p => if JS.isEmpty p then fromRaw else Some p
      | None => fromRaw
      end
  end.

(** The executable text after [~] expansion, as [resolveExecutablePath]
    reads it, and whether it is looked up as a path (it holds a slash or
    a backslash) rather than on [PATH]. *)
Definition expandedExecutable (H : Host) (rawExecutable : string) : string :=
  if JS.startsWith rawExecutable "~" then expandHomePrefix H rawExecutable
  else rawExecutable.

Definition isPathLike (H : Host) (rawExecutable : string) : bool :=
  JS.includesChar (expandedExecutable H rawExecutable) "/"%char
  || JS.includesChar (expandedExecutable H rawExecutable) JS.BSL.

(** [s] holds no white space. *)
Definition noSpace (s : string) : bool := negb (JS.existsChar JS.isSpace s).

(* ================================================================== *)
(** * Allowlist matching ([matchAllowlist]) *)
(* ================================================================== *)

(** The completion of a call that may throw. *)
Inductive Completion (A : Type) : Type :=
| Normal (value : A)
| Throw.

Arguments Normal {A} value.
Arguments Throw {A}.

(** [value.replace(/\\\\/g, "/")]: the pattern is two backslashes; each
    pair, leftmost first, becomes one slash. *)
Fixpoint replaceBackslashPairs (s : string) : string :=
  match s with
  | EmptyString => EmptyString
  | String a t =>
      match t with
      | String b t' =>
          if Ascii.eqb a JS.BSL && Ascii.eqb b JS.BSL
          then String "/"%char (replaceBackslashPairs t')
          else String a (replaceBackslashPairs t)
      | EmptyString => String a EmptyString
      end
  end.

(** [value.replace(/^\\\\[?.]\\/, "")]: a leading [\\?\] or [\\.\]. *)
Definition stripDevicePrefix (s : string) : string :=
  match s with
  | String a (String b (String c (String d t))) =>
      if Ascii.eqb a JS.BSL && Ascii.eqb b JS.BSL
         && (Ascii.eqb c "?"%char || Ascii.eqb c "."%char) && Ascii.eqb d JS.BSL
      then t else s
  | _ => s
  end.

Definition normalizeMatchTarget (H : Host) (value : string) : string :=
  if platformWin32 H
  then JS.toLowerCase (JS.replaceChar (stripDevicePrefix value) JS.BSL "/")
  else JS.toLowerCase (replaceBackslashPairs value).

(** The loop of [globToRegExp]: the text added to [regex] for
    [pattern.slice(i)].  The pattern of the [replace] that is meant to
    escape [ch] is a character class followed by two backslashes and a
    closing bracket, four characters in all, so it never matches the
    one-character text [ch], which is added as it is. *)
Fixpoint globBody (pattern : string) : string :=
  match pattern with
  | EmptyString => EmptyString
  | String ch t =>
      if Ascii.eqb ch "*"%char then
        match t with
        | String next t' =>
            if Ascii.eqb next "*"%char then ".*" ++ globBody t'
            else "[^/]*" ++ globBody t
        | EmptyString => "[^/]*"
        end
      else if Ascii.eqb ch "?"%char then "." ++ globBody t
      else String ch (globBody t)
  end.

(** The source text of the regular expression [globToRegExp] builds; its
    flag is always [i]. *)
Definition globToRegExp (pattern : string) : string :=
  "^" ++ globBody pattern ++ "$".

Section AllowlistMatching.

(** An allowlist entry ([ExecAllowlistEntry] of [exec-approvals.ts]) and
    its optional [pattern]. *)
Variable Entry : Type.
Variable patternOf : Entry -> option string.

Variable H : Host.
(** [new RegExp(source, "i").test(target)]; [Throw] when the constructor
    rejects the source. *)
Variable regExpTest : string -> string -> Completion bool.
(** [tryRealpath]: [fs.realpathSync], [None] when it throws. *)
Variable tryRealpath : string -> option string.

Definition matchesPattern (pattern target : string) : Completion bool :=
  let trimmed := JS.trim pattern in
  if JS.isEmpty trimmed then Normal false
  else
    let expanded :=
      if JS.startsWith trimmed "~" then expandHomePrefix H trimmed else trimmed in
    let hasWildcard :=
      JS.existsChar (fun c => Ascii.eqb c "*"%char || Ascii.eqb c "?"%char) expanded in
    let real (value : string) :=
      if platformWin32 H && negb hasWildcard then
        match tryRealpath value with
        | Some resolved => resolved
        | None => value
        end
      else value in
    regExpTest (globToRegExp (normalizeMatchTarget H (real expanded)))
      (normalizeMatchTarget H (real target)).

(** [pattern.includes("/") || pattern.includes("\\") || pattern.includes("~")] *)
Definition hasPath (pattern : string) : bool :=
  JS.includesChar pattern "/"%char || JS.includesChar pattern JS.BSL
  || JS.includesChar pattern "~"%char.

(** [entry.pattern?.trim()], the empty text when there is no pattern. *)
Definition entryPattern (entry : Entry) : string :=
  match patternOf entry with
  | Some p => JS.trim p
  | None => EmptyString
  end.

(** The loop of [matchAllowlist] over the entries. *)
Fixpoint matchAllowlistLoop (entries : list Entry) (resolved : string)
  : Completion (option Entry) :=
  match entries with
  | [] => Normal None
  | entry :: rest =>
      let pattern := entryPattern entry in
      if JS.isEmpty pattern then matchAllowlistLoop rest resolved
      else if negb (hasPath pattern) then matchAllowlistLoop rest resolved
      else
        match matchesPattern pattern resolved with
        | Throw => Throw
        | Normal true => Normal (Some entry)
        | Normal false => matchAllowlistLoop rest resolved
        end
  end.

Definition matchAllowlist (entries : list Entry) (resolution : option CommandResolution)
  : Completion (option Entry) :=
  match entries, resolution with
  | [], _ => Normal None
  | _, None => Normal None
  | _, Some r =>
      match resolvedPath r with
      | None => Normal None
      | Some p => if JS.isEmpty p then Normal None else matchAllowlistLoop entries p
      end
  end.

End AllowlistMatching.

(** An engine for patterns without wild cards and without characters
    that are special in a regular expression: the source [^text$]
    matches exactly [text]. *)
Definition literalEngine (source target : string) : Completion bool :=
  Normal (String.eqb source ("^" ++ target ++ "$")).

(* ================================================================== *)
(** * Vocabulary for the dispatch wrappers *)
(* ================================================================== *)

(** [extractShellCommandFromArgv(argv)]. *)
Definition extractShellCommandFromArgv (argv0 : list string) : option string :=
  command (extractShellWrapperCommand argv0 None).

(** [inner] behind [env] layers, outermost first: each layer is the
    [env] token and the tokens that [env] passes over. *)
Fixpoint behindEnv (layers : list (string * list string)) (inner : list string)
  : list string :=
  match layers with
  | [] => inner
  | (envTok, pre) :: rest => (envTok :: pre ++ behindEnv rest inner)%list
  end.

(** A layer of [env]: the basename of the token is [env], the token can
    start a command, and the tokens after it are passed over. *)
Definition EnvLayer (layer : string * list string) : Prop :=
  basenameLower (JS.trim (fst layer)) = "env"
  /\ CommandToken (fst layer)
  /\ EnvPrefix (snd layer).

(** An option token that [unwrapEnvInvocation] does not know: it starts
    with a dash, is neither [-] nor [--], and its lower-cased text is no
    flag, no option with a value, and starts with none of the prefixes
    of an option with an attached value. *)
Definition unknownEnvOption (tok : string) : bool :=
  let lower := JS.toLowerCase (JS.trim tok) in
  let flag := JS.beforeChar lower "="%char in
  JS.startsWith lower "-"
  && negb (String.eqb lower "-") && negb (String.eqb lower "--")
  && negb (JS.memStr flag ENV_FLAG_OPTIONS)
  && negb (JS.memStr flag ENV_OPTIONS_WITH_VALUE)
  && negb (existsb (JS.startsWith lower) envValuePrefixes).

(** [xs] is [dropped] followed by [kept]. *)
Definition suffixOf {A : Type} (kept xs : list A) : Prop :=
  exists dropped, xs = (dropped ++ kept)%list.

(** The lower-cased, trimmed text of a token, as the wrapper extractors
    compare it. *)
Definition tokenKey (token : string) : string := JS.toLowerCase (JS.trim token).

(** A token that the PowerShell extractor passes over: neither [--] nor
    an inline-command flag. *)
Definition powerShellSkips (token : string) : bool :=
  negb (String.eqb (tokenKey token) "--")
  && negb (JS.memStr (tokenKey token) POWERSHELL_INLINE_COMMAND_FLAGS).

(* ================================================================== *)
(** * Resolution of a [system.run] request ([resolveSystemRunCommand]) *)
(* ================================================================== *)

(** The result: the ok record, or the error with its message, its
    [details.code], and the [rawCommand] and [inferred] texts of the
    details of a mismatch. *)
Inductive ResolvedSystemRunCommand : Type :=
| ResolvedOk (argv0 : list string) (rawCommand shellCommand : option string)
    (cmdText : string)
| ResolvedError (message code : string) (mismatch : option (string * string)).

(** [resolveSystemRunCommand(params)].  [command] is [None] when
    [params.command] is not an array, and holds the texts [String(v)] of
    its entries otherwise; [rawCommand] is [None] when
    [params.rawCommand] is not a string. *)
Definition resolveSystemRunCommand
  (command : option (list string)) (rawCommand : option string)
  : ResolvedSystemRunCommand :=
  let raw := match rawCommand with
             | Some r => if Nat.ltb 0 (String.length (JS.trim r))
                         then Some (JS.trim r) else None
             | None => None
             end in
  let argv0 := match command with
               | Some entries => entries
               | None => []
               end in
  match argv0 with
  | [] =>
      match raw with
      | Some _ => ResolvedError "rawCommand requires params.command" "MISSING_COMMAND" None
      | None => ResolvedOk [] None None EmptyString
      end
  | _ =>
      match validateSystemRunCommandConsistency argv0 raw with
      | ValidationError message code declared inferred =>
          ResolvedError message code (Some (declared, inferred))
      | ValidationOk shellCommand cmdText => ResolvedOk argv0 raw shellCommand cmdText
      end
  end.

(** An argument that [formatExecCommand] leaves as it is: not empty,
    with no white space and no double quote. *)
Definition simpleWord (w : string) : bool :=
  negb (JS.isEmpty w)
  && negb (JS.existsChar (fun c => JS.isSpace c || Ascii.eqb c JS.DQ) w).

(* ================================================================== *)
(** * Vocabulary for the Windows mode *)
(* ================================================================== *)

(** A character that Windows mode refuses anywhere in a command. *)
Definition windowsUnsupported (c : ascii) : bool :=
  JS.memChar c WINDOWS_UNSUPPORTED_TOKENS.

(** The double quotes of [s] are balanced: their number is even. *)
Fixpoint quotesBalanced (s : string) : bool :=
  match s with
  | EmptyString => true
  | String c t => if Ascii.eqb c JS.DQ then negb (quotesBalanced t) else quotesBalanced t
  end.

(** A token of an accepted Windows command: not empty, with no double
    quote and no refused character. *)
Definition windowsToken (t : string) : bool :=
  negb (JS.isEmpty t)
  && forallChar (fun c => negb (Ascii.eqb c JS.DQ) && negb (windowsUnsupported c)) t.

(** An argument that the Windows tokenizer can read back from the text
    of [formatExecCommand]: not blank and with no double quote. *)
Definition readableArgument (arg : string) : bool :=
  negb (allSpace arg) && negb (JS.includesChar arg JS.DQ).

(* ================================================================== *)
(** * Vocabulary for quoted renderings *)
(* ================================================================== *)

(** The state of the segmenter outside heredocs, with the segments [sg]
    collected, the buffer [b], inside single quotes or not. *)
Definition quoting (sg : list string) (b : string) (single : bool) : Pipeline.State :=
  {| Pipeline.segments := sg; Pipeline.buf := b;
     Pipeline.inSingle := single; Pipeline.inDouble := false;
     Pipeline.escaped := false; Pipeline.emptySegment := false;
     Pipeline.pendingHeredocs := []; Pipeline.inHeredocBody := false;
     Pipeline.heredocLine := EmptyString |}.

(** The state of the chain splitter before any chain operator, with the
    buffer [b], inside single quotes or not. *)
Definition chainQuoting (b : string) (single : bool) : Chain.State :=
  {| Chain.parts := []; Chain.buf := b;
     Chain.inSingle := single; Chain.inDouble := false; Chain.escaped := false;
     Chain.foundChain := false; Chain.invalidChain := false |}.

(* ================================================================== *)
(** * Vocabulary for the shape of the splitters' results *)
(* ================================================================== *)

(** A text as the splitters keep it: trimmed and not empty. *)
Definition keptText (s : string) : Prop := JS.trim s = s /\ s <> EmptyString.

(** A chain operator starts at a character [c] followed by [next]: a
    [;], or [&] followed by [&], or [|] followed by [|]. *)
Definition chainOperatorAt (c : ascii) (next : option ascii) : bool :=
  Ascii.eqb c ";"%char
  || (Ascii.eqb c "&"%char && JS.nextIs next "&"%char)
  || (Ascii.eqb c "|"%char && JS.nextIs next "|"%char).

(** The text holds a chain operator somewhere, quoted or not. *)
Fixpoint holdsChainOperator (s : string) : bool :=
  match s with
  | EmptyString => false
  | String c t => chainOperatorAt c (JS.head t) || holdsChainOperator t
  end.

(** What the chain splitter keeps true of its state: the parts collected
    so far are trimmed, not empty and carry an operator, and once a
    chain operator was found and the chain is still valid, there is a
    part. *)
Definition chainInvariant (st : Chain.State) : Prop :=
  Forall (fun p => keptText (part p) /\ opToNext p <> None) (Chain.parts st)
  /\ (Chain.foundChain st = true -> Chain.invalidChain st = false ->
      Chain.parts st <> []).

(** A segment as [parseSegmentsFromParts] builds it from its raw text on
    the host [H]: its argv is the tokens of the raw text, is not empty,
    and its resolution is the resolution of that argv. *)
Definition segmentOf (H : Host) (cwd : option string) (env : option ProcessEnv)
  (s : ExecCommandSegment) : Prop :=
  splitShellArgs H (raw s) = Some (argv s)
  /\ argv s <> []
  /\ resolution s = resolveCommandResolutionFromArgv H (argv s) cwd env.

(** The segments [group] are those of the pipeline [text]: their raw
    texts are the segments that [splitShellPipeline] finds in it. *)
Definition groupOf (text : string) (group : list ExecCommandSegment) : Prop :=
  Pipeline.split_ok (Pipeline.splitShellPipeline text) = true
  /\ map raw group = Pipeline.split_segments (Pipeline.splitShellPipeline text).

(** The state of the segmenter after the plain segments [first :: rest]
    joined by [ | ], read after the plain text [pre]. *)
Fixpoint afterJoined (st : Pipeline.State) (pre first : string) (rest : list string)
  : Pipeline.State :=
  match rest with
  | [] => feed st (pre ++ first)
  | second :: more =>
      afterJoined (Pipeline.pipeBoundary (feed st (pre ++ first ++ " "))) " " second more
  end.

(** A segment that is plain text and not blank. *)
Definition plainSegment (s : string) : bool := plainText s && negb (allSpace s).

(* ================================================================== *)
(** * Quoting every segment ([buildSafeShellCommand]) *)
(* ================================================================== *)

(** The inner loop of [buildSafeShellCommand] over the segments of one
    pipeline; [None] is the return with reason [unable to parse shell
    segment]. *)
Fixpoint renderQuotedLoop (H : Host) (renderedSegments : list string)
  (raws : list string) : option (list string) :=
  match raws with
  | [] => Some renderedSegments
  | segmentRaw :: rest =>
      match splitShellArgs H segmentRaw with
      | None => None
      | Some [] => None
      | Some tokens =>
          renderQuotedLoop H
            (renderedSegments ++ [JS.join " " (map shellEscapeSingleArg tokens)])%list rest
      end
  end.

(** The outer loop over the chain parts. *)
Fixpoint buildSafeChainLoop (H : Host) (out : string) (chainParts : list ShellChainPart)
  : BuildResult :=
  match chainParts with
  | [] => {| build_ok := true; build_command := Some out; build_reason := None |}
  | p :: rest =>
      let pipelineSplit := Pipeline.splitShellPipeline (part p) in
      if negb (Pipeline.split_ok pipelineSplit) then
        buildFailed match Pipeline.split_reason pipelineSplit with
                    | Some why => why
                    | None => "unable to parse pipeline"
                    end
      else
        match renderQuotedLoop H [] (Pipeline.split_segments pipelineSplit) with
        | None => buildFailed "unable to parse shell segment"
        | Some renderedSegments =>
            buildSafeChainLoop H
              (out ++ JS.join " | " renderedSegments ++ operatorSuffix (opToNext p)) rest
        end
  end.

Definition buildSafeShellCommand (H : Host) (command0 : string)
  (platform : option string) : BuildResult :=
  if isWindowsPlatform platform then buildFailed "unsupported platform"
  else
    let source := JS.trim command0 in
    if JS.isEmpty source then buildFailed "empty command"
    else
      let chainParts :=
        match Chain.splitCommandChainWithOperators source with
        | Some ps => ps
        | None => [ {| part := source; opToNext := None |} ]
        end in
      buildSafeChainLoop H EmptyString chainParts.

(** The text of a chain in which every segment is its quoted argv. *)
Fixpoint quotedChainText (chainParts : list ShellChainPart)
  (groups : list (list ExecCommandSegment)) : string :=
  match chainParts, groups with
  | p :: ps, g :: gs =>
      JS.join " | " (map (fun s => renderQuotedArgv (argv s)) g)
      ++ operatorSuffix (opToNext p) ++ quotedChainText ps gs
  | _, _ => EmptyString
  end.

(** Every segment flagged [safeBins]. *)
Definition allSafeBins (segs : list ExecCommandSegment) : list (option SatisfiedBy) :=
  map (fun _ => Some BySafeBins) segs.

(* ================================================================== *)
(** * Vocabulary for the rejections of the segmenter *)
(* ================================================================== *)

(** The characters that the segmenter refuses outside quotes with the
    character itself as the token of the reason. *)
Definition refusedAlone : list ascii :=
  [">"%char; "("%char; ")"%char; "&"%char; ";"%char; JS.BTICK; JS.LF; JS.CR].

(** A text that stays inside double quotes as it is: no double quote, no
    backslash, no dollar, no backtick and no line break. *)
Definition doubleQuotable (s : string) : bool :=
  forallChar
    (fun c => negb (JS.memChar c [JS.DQ; JS.BSL; "$"%char; JS.BTICK; JS.LF; JS.CR])) s.

(* ================================================================== *)
(** * Vocabulary for rendered chains *)
(* ================================================================== *)

(** The text of a chain as the rewriters put it together: each part is
    followed by its operator between two spaces. *)
Fixpoint chainText (chainParts : list ShellChainPart) : string :=
  match chainParts with
  | [] => EmptyString
  | p :: rest => part p ++ operatorSuffix (opToNext p) ++ chainText rest
  end.

(** A part that can stand in a chain as it is: plain text and single
    pipes, and not blank. *)
Definition chainable (p : ShellChainPart) : bool :=
  pipesOnly (part p) && negb (allSpace (part p)).

Definition trimmedPart (p : ShellChainPart) : ShellChainPart :=
  {| part := JS.trim (part p); opToNext := opToNext p |}.

(** The state of the chain splitter outside quotes, with the parts
    [done] collected and the buffer [b]. *)
Definition chainAt (done : list ShellChainPart) (b : string) (found : bool)
  : Chain.State :=
  {| Chain.parts := done; Chain.buf := b;
     Chain.inSingle := false; Chain.inDouble := false; Chain.escaped := false;
     Chain.foundChain := found; Chain.invalidChain := false |}.

Definition hasOperator (p : ShellChainPart) : bool :=
  match opToNext p with
  | Some _ => true
  | None => false
  end.

(* ================================================================== *)
(** * Vocabulary for the end of a heredoc *)
(* ================================================================== *)

(** [<<] or [<<-]. *)
Definition heredocOperator (dash : bool) : string := if dash then "<<-" else "<<".

(** [s] is made of tabs. *)
Definition tabsOnly (s : string) : bool :=
  forallChar (fun c => Ascii.eqb c JS.TAB) s.

Definition leadingTab (s : string) : bool := JS.nextIs (JS.head s) JS.TAB.

(** The heredoc that [<<] or [<<-] with the quoted delimiter [d] queues. *)
Definition quotedHeredoc (dash : bool) (d : string) : Pipeline.HeredocSpec :=
  {| Pipeline.delimiter := d; Pipeline.stripTabs := dash; Pipeline.quoted := true |}.

(** ** Words and quoting only, in the words of the claim

    The characters that are operators of the shell grammar outside
    quotes: the pipe, [&], [;], the redirections, the parentheses and
    the line terminators. *)
Definition shellOperatorChars : list ascii :=
  ["|"%char; "&"%char; ";"%char; "<"%char; ">"%char; "("%char; ")"%char; JS.LF; JS.CR].

(** The reading of [s] by the quoting rules of [scanK], from the quoting
    state [q], finds words and quoting only: outside quotes no unescaped
    operator character, inside double quotes no line terminator, and at
    the end of [s] no open quote and no pending escape. *)
Fixpoint wordsOnlyK (q : Quoting) (esc : bool) (s : string) : bool :=
  match s with
  | EmptyString =>
      match q with
      | Unquoted => negb esc
      | _ => false
      end
  | String c t =>
      if esc then wordsOnlyK q false t
      else
        match q with
        | Unquoted =>
            if Ascii.eqb c JS.BSL then wordsOnlyK Unquoted true t
            else if Ascii.eqb c JS.SQ then wordsOnlyK SingleQuoted false t
            else if Ascii.eqb c JS.DQ then wordsOnlyK DoubleQuoted false t
            else negb (JS.memChar c shellOperatorChars) && wordsOnlyK Unquoted false t
        | SingleQuoted =>
            if Ascii.eqb c JS.SQ then wordsOnlyK Unquoted false t
            else wordsOnlyK SingleQuoted false t
        | DoubleQuoted =>
            if Ascii.eqb c JS.BSL && isDoubleQuoteEscape (JS.head t)
            then wordsOnlyK DoubleQuoted true t
            else if Ascii.eqb c JS.DQ then wordsOnlyK Unquoted false t
            else negb (isNewline c) && wordsOnlyK DoubleQuoted false t
        end
  end.

Definition wordsOnly (s : string) : bool := wordsOnlyK Unquoted false s.

(** The segmenter read the text [l] from the state [st] as words: the
    text joined the buffer, no segment was cut, and the state [st'] is
    outside quotes and heredocs. *)
Definition readAsWords (st st' : Pipeline.State) (l : string) : Prop :=
  syncP st' Unquoted false
  /\ Pipeline.buf st' = Pipeline.buf st ++ l
  /\ Pipeline.segments st' = Pipeline.segments st
  /\ (Pipeline.emptySegment st = false -> Pipeline.emptySegment st' = false).

(** One step of the reading: the segmenter moved to [st1] with [text]
    appended to its buffer, and the rest is read by [IH]; [compose] puts
    the two readings together. *)
Ltac words_step compose IH st st1 q esc text rest Hlive Hw :=
  let st' := fresh "st'" in
  let E := fresh "E" in
  let Hread := fresh "Hread" in
  destruct (IH st1 q esc) as (st' & E & Hread);
  [repeat split; assumption | exact Hlive | exact Hw |];
  exists st'; split; [exact E|];
  exact (compose st st1 st' text rest eq_refl eq_refl eq_refl Hread).

(* ================================================================== *)
(** * Properties of the string primitives *)
(* ================================================================== *)

Lemma append_nil_r (s : string) : s ++ EmptyString = s.
Proof. induction s as [|c s IH]; simpl; [reflexivity | now rewrite IH]. Qed.

Lemma append_assoc (a b c : string) : (a ++ b) ++ c = a ++ (b ++ c).
Proof. induction a as [|x a IH]; simpl; [reflexivity | now rewrite IH]. Qed.

Lemma length_append (a b : string) :
  String.length (a ++ b) = String.length a + String.length b.
Proof. induction a as [|x a IH]; simpl; [reflexivity | now rewrite IH]. Qed.

Lemma rev_append (a b : string) : JS.rev (a ++ b) = JS.rev b ++ JS.rev a.
Proof.
  induction a as [|x a IH]; simpl.
  - now rewrite append_nil_r.
  - unfold JS.snoc. now rewrite IH, append_assoc.
Qed.

Lemma rev_involutive (s : string) : JS.rev (JS.rev s) = s.
Proof.
  induction s as [|c s IH]; simpl; [reflexivity|].
  unfold JS.snoc. rewrite rev_append. simpl. now rewrite IH.
Qed.

Lemma rev_empty (s : string) : JS.rev s = EmptyString -> s = EmptyString.
Proof.
  intros E. rewrite <- (rev_involutive s), E. reflexivity.
Qed.

Lemma allSpace_cons (c : ascii) (s : string) :
  allSpace (String c s) = JS.isSpace c && allSpace s.
Proof.
  unfold allSpace. simpl. destruct (JS.isSpace c); reflexivity.
Qed.

Lemma allSpace_append (a b : string) :
  allSpace (a ++ b) = allSpace a && allSpace b.
Proof.
  induction a as [|c a IH]; [reflexivity|].
  simpl. rewrite !allSpace_cons, IH. now rewrite andb_assoc.
Qed.

Lemma allSpace_rev (s : string) : allSpace (JS.rev s) = allSpace s.
Proof.
  induction s as [|c s IH]; [reflexivity|].
  simpl. unfold JS.snoc, JS.str. rewrite allSpace_append, IH, !allSpace_cons.
  change (allSpace EmptyString) with true. rewrite andb_true_r. apply andb_comm.
Qed.

(** [trimStart] removes a blank prefix and nothing else. *)
Lemma trimStart_split (s : string) :
  exists ws, allSpace ws = true /\ s = ws ++ JS.trimStart s.
Proof.
  induction s as [|c s (ws & Hws & E)].
  - exists EmptyString. split; reflexivity.
  - simpl. destruct (JS.isSpace c) eqn:Hc.
    + exists (String c ws). rewrite allSpace_cons, Hc, Hws. simpl.
      split; [reflexivity | now rewrite <- E].
    + exists EmptyString. split; reflexivity.
Qed.

Lemma trimStart_head (s : string) :
  match JS.trimStart s with
  | EmptyString => True
  | String c _ => JS.isSpace c = false
  end.
Proof.
  induction s as [|c s IH]; simpl; [exact I|].
  destruct (JS.isSpace c) eqn:Hc; [exact IH | exact Hc].
Qed.

Lemma trimStart_empty_iff (s : string) :
  JS.trimStart s = EmptyString <-> allSpace s = true.
Proof.
  induction s as [|c s IH]; simpl.
  - split; reflexivity.
  - rewrite allSpace_cons. destruct (JS.isSpace c); simpl.
    + exact IH.
    + split; discriminate.
Qed.

Lemma trimStart_fixed (s : string) :
  match s with
  | EmptyString => True
  | String c _ => JS.isSpace c = false
  end -> JS.trimStart s = s.
Proof.
  destruct s as [|c s]; simpl; [reflexivity|].
  intros ->. reflexivity.
Qed.

(** [trim] removes a blank prefix and a blank suffix and nothing else. *)
Lemma trim_split (s : string) :
  exists ws1 ws2,
    allSpace ws1 = true /\ allSpace ws2 = true /\ s = ws1 ++ JS.trim s ++ ws2.
Proof.
  destruct (trimStart_split s) as (ws1 & H1 & E1).
  destruct (trimStart_split (JS.rev (JS.trimStart s))) as (ws2 & H2 & E2).
  exists ws1, (JS.rev ws2). rewrite allSpace_rev. repeat split; trivial.
  unfold JS.trim, JS.trimEnd.
  rewrite <- rev_append, <- E2, rev_involutive. exact E1.
Qed.

Lemma trim_empty_iff (s : string) :
  JS.trim s = EmptyString <-> allSpace s = true.
Proof.
  unfold JS.trim, JS.trimEnd. split.
  - intros E. apply rev_empty in E.
    apply trimStart_empty_iff in E. rewrite allSpace_rev in E.
    destruct (trimStart_split s) as (ws & Hws & Es).
    rewrite Es, allSpace_append, Hws, E. reflexivity.
  - intros E. apply trimStart_empty_iff in E. rewrite E. reflexivity.
Qed.

Lemma isEmpty_true (s : string) : JS.isEmpty s = true <-> s = EmptyString.
Proof. destruct s; simpl; split; congruence. Qed.

Lemma isEmpty_false (s : string) : JS.isEmpty s = false <-> s <> EmptyString.
Proof. destruct s; simpl; split; congruence. Qed.

Lemma length_pos_iff (s : string) :
  Nat.ltb 0 (String.length s) = negb (JS.isEmpty s).
Proof. destruct s; reflexivity. Qed.

Lemma notBlank_spec (entry : string) : notBlank entry = negb (allSpace entry).
Proof.
  unfold notBlank. rewrite length_pos_iff.
  destruct (allSpace entry) eqn:E.
  - apply trim_empty_iff in E. rewrite E. reflexivity.
  - destruct (JS.isEmpty (JS.trim entry)) eqn:E'; [|reflexivity].
    apply isEmpty_true, trim_empty_iff in E'. congruence.
Qed.

Lemma startsClean_prefix (a b : string) :
  a <> EmptyString -> startsClean (a ++ b) -> startsClean a.
Proof. destruct a; simpl; [congruence | trivial]. Qed.

Lemma trim_fixed (s : string) :
  startsClean s -> startsClean (JS.rev s) -> JS.trim s = s.
Proof.
  intros Hs Hr. unfold JS.trim, JS.trimEnd.
  rewrite (trimStart_fixed s Hs), (trimStart_fixed (JS.rev s) Hr).
  apply rev_involutive.
Qed.

Lemma trim_idempotent (s : string) : JS.trim (JS.trim s) = JS.trim s.
Proof.
  apply trim_fixed.
  - unfold JS.trim, JS.trimEnd.
    destruct (trimStart_split (JS.rev (JS.trimStart s))) as (ws & _ & E).
    remember (JS.trimStart (JS.rev (JS.trimStart s))) as tail eqn:Etail.
    destruct tail as [|c tail]; [exact I|].
    apply (startsClean_prefix (JS.rev (String c tail)) (JS.rev ws)).
    + intros F. apply rev_empty in F. discriminate.
    + rewrite <- rev_append, <- E, rev_involutive. apply trimStart_head.
  - unfold JS.trim, JS.trimEnd. rewrite rev_involutive. apply trimStart_head.
Qed.

Lemma trimmedAt_cons0 (x : string) (xs : list string) :
  JS.trimmedAt (x :: xs) 0 = JS.trim x.
Proof. reflexivity. Qed.

Lemma memStr_true (x : string) (xs : list string) :
  JS.memStr x xs = true <-> In x xs.
Proof.
  unfold JS.memStr. rewrite existsb_exists. split.
  - intros (y & Hy & E). apply String.eqb_eq in E. now subst.
  - intros Hx. exists x. split; [exact Hx | apply String.eqb_refl].
Qed.

(* ================================================================== *)
(** * The argv tokenizer *)
(* ================================================================== *)

Lemma indexOfChar_append (pre post : string) (c : ascii) :
  JS.includesChar pre c = false ->
  JS.indexOfChar (pre ++ String c post) c = Some (String.length pre).
Proof.
  induction pre as [|d pre IH]; simpl; intros Hn.
  - now rewrite Ascii.eqb_refl.
  - apply orb_false_elim in Hn as [Hd Hp]. rewrite Hd, (IH Hp). reflexivity.
Qed.

Lemma indexOfChar_absent (s : string) (c : ascii) :
  JS.includesChar s c = false -> JS.indexOfChar s c = None.
Proof.
  induction s as [|d s IH]; simpl; intros Hn; [reflexivity|].
  apply orb_false_elim in Hn as [Hd Hs]. now rewrite Hd, (IH Hs).
Qed.

Lemma take_append (pre post : string) :
  JS.take (String.length pre) (pre ++ post) = pre.
Proof.
  induction pre as [|d pre IH]; simpl.
  - destruct post; reflexivity.
  - now rewrite IH.
Qed.

Lemma drop_append (pre post : string) :
  JS.drop (String.length pre) (pre ++ post) = post.
Proof.
  induction pre as [|d pre IH]; simpl; [destruct post; reflexivity | exact IH].
Qed.

Lemma startsWith_append (p s : string) : JS.startsWith (p ++ s) p = true.
Proof.
  unfold JS.startsWith. induction p as [|c p IH]; simpl.
  - destruct s; reflexivity.
  - destruct (ascii_dec c c); [exact IH | congruence].
Qed.

Lemma startsWith_nil (s : string) : JS.startsWith s EmptyString = true.
Proof. destruct s; reflexivity. Qed.

Lemma startsWith_cons (d c : ascii) (s p : string) :
  JS.startsWith (String d s) (String c p) = Ascii.eqb c d && JS.startsWith s p.
Proof.
  unfold JS.startsWith. simpl.
  destruct (ascii_dec c d) as [->|N].
  - now rewrite Ascii.eqb_refl.
  - apply Ascii.eqb_neq in N. now rewrite N.
Qed.

Lemma startsWith_weaken (s p q : string) :
  JS.startsWith s (p ++ q) = true -> JS.startsWith s p = true.
Proof.
  unfold JS.startsWith. revert s. induction p as [|c p IH]; intros s; simpl.
  - destruct s; reflexivity.
  - destruct s as [|d s]; [discriminate|].
    intros H. simpl in H |- *.
    destruct (ascii_dec c d); [apply IH; exact H | discriminate].
Qed.

Lemma startsWith_append_l (a b p : string) :
  JS.startsWith a p = true -> JS.startsWith (a ++ b) p = true.
Proof.
  unfold JS.startsWith. revert a. induction p as [|c p IH]; intros a; simpl.
  - destruct (a ++ b); reflexivity.
  - destruct a as [|d a]; [discriminate|].
    intros H. simpl in H |- *.
    destruct (ascii_dec c d); [apply IH; exact H | discriminate].
Qed.

Lemma includesChar_append (a b : string) (c : ascii) :
  JS.includesChar (a ++ b) c = JS.includesChar a c || JS.includesChar b c.
Proof.
  induction a as [|d a IH]; simpl; [reflexivity|]. now rewrite IH, orb_assoc.
Qed.

Lemma parse_long_inline (flag post : string) :
  JS.startsWith flag "--" = true ->
  JS.includesChar flag "="%char = false ->
  parseExecArgvToken (flag ++ String "="%char post)
  = TokLongOption (flag ++ String "="%char post) flag (Some post).
Proof.
  intros Hs Hn.
  assert (Hinc : JS.includesChar (flag ++ String "="%char post) "="%char = true).
  { rewrite includesChar_append. simpl. apply orb_true_r. }
  assert (H1 : JS.startsWith (flag ++ String "="%char post) "-" = true).
  { apply startsWith_append_l. apply (startsWith_weaken flag "-" "-" Hs). }
  assert (H2 : JS.startsWith (flag ++ String "="%char post) "--" = true)
    by (apply startsWith_append_l; exact Hs).
  unfold parseExecArgvToken.
  destruct (JS.isEmpty (flag ++ String "="%char post)) eqn:E0.
  { apply isEmpty_true in E0. rewrite E0 in Hinc. discriminate. }
  destruct (String.eqb_spec (flag ++ String "="%char post) "--") as [E|_].
  { rewrite E in Hinc. discriminate. }
  destruct (String.eqb_spec (flag ++ String "="%char post) "-") as [E|_].
  { rewrite E in Hinc. discriminate. }
  rewrite H1, H2. cbn [negb].
  rewrite (indexOfChar_append _ post _ Hn).
  destruct flag as [|c flag]; [discriminate|].
  cbn [String.length Nat.ltb Nat.leb].
  change (String.length flag) with (String.length flag).
  replace (S (String.length flag) + 1) with (String.length (String c flag ++ "="))
    by (rewrite length_append; reflexivity).
  change (S (String.length flag)) with (String.length (String c flag)).
  rewrite take_append.
  replace (String c flag ++ String "="%char post) with ((String c flag ++ "=") ++ post) at 2
    by (rewrite append_assoc; reflexivity).
  rewrite drop_append. reflexivity.
Qed.

Lemma short_flags_length (rest : string) :
  List.length (map (fun c => String "-"%char (JS.str c)) (JS.chars rest))
  = String.length rest.
Proof.
  rewrite length_map. induction rest as [|c rest IH]; [reflexivity|].
  cbn. now rewrite IH.
Qed.

Lemma short_flags_nth (rest : string) :
  forall (i : nat) (c : ascii),
    String.get i rest = Some c ->
    nth_error (map (fun c => String "-"%char (JS.str c)) (JS.chars rest)) i
    = Some (String "-"%char (String c EmptyString)).
Proof.
  induction rest as [|d rest IH]; intros i c Hget; [discriminate|].
  destruct i as [|i]; cbn in Hget |- *.
  - now injection Hget as ->.
  - now apply IH.
Qed.

(** C9.  [parseExecArgvToken] classifies a string by its leading
    characters, in this order: the empty string is [Empty]; exactly [--]
    is [Terminator]; exactly [-] is [Stdin]; a string that does not start
    with [-] is [Positional]; a string [--pre=post], with no [=] in
    [pre], is a long option with flag [--pre] and inline value [post]; a
    string starting with [--] without [=] is a long option whose flag is
    the whole string, with no inline value; and [-rest], where [rest] is
    not empty and does not start with [-], is a short cluster with
    cluster [rest] and one flag per character of [rest], in order: the
    flag at position [i] is [-] followed by the character of [rest] at
    position [i]. *)
Theorem parseExecArgvToken_classification :
  forall raw : string,
    (raw = EmptyString -> parseExecArgvToken raw = TokEmpty raw)
    /\ (raw = "--" -> parseExecArgvToken raw = TokTerminator raw)
    /\ (raw = "-" -> parseExecArgvToken raw = TokStdin raw)
    /\ (raw <> EmptyString -> JS.startsWith raw "-" = false ->
        parseExecArgvToken raw = TokPositional raw)
    /\ (forall pre post : string,
          raw = "--" ++ pre ++ String "="%char post ->
          JS.includesChar pre "="%char = false ->
          parseExecArgvToken raw = TokLongOption raw ("--" ++ pre) (Some post))
    /\ (JS.startsWith raw "--" = true -> raw <> "--" ->
        JS.includesChar raw "="%char = false ->
        parseExecArgvToken raw = TokLongOption raw raw None)
    /\ (forall rest : string,
          raw = String "-"%char rest -> rest <> EmptyString ->
          JS.startsWith rest "-" = false ->
          exists flags : list string,
            parseExecArgvToken raw = TokShortCluster raw rest flags
            /\ List.length flags = String.length rest
            /\ forall (i : nat) (c : ascii),
                 String.get i rest = Some c ->
                 nth_error flags i = Some (String "-"%char (String c EmptyString))).
Proof.
  intros raw. split; [|split; [|split; [|split; [|split; [|split]]]]].
  - intros ->. reflexivity.
  - intros ->. reflexivity.
  - intros ->. reflexivity.
  - intros Hne Hs. unfold parseExecArgvToken.
    destruct raw as [|c raw]; [congruence|]. simpl JS.isEmpty. cbv iota.
    destruct (String.eqb_spec (String c raw) "--") as [E|_];
      [rewrite E in Hs; discriminate|].
    destruct (String.eqb_spec (String c raw) "-") as [E|_];
      [rewrite E in Hs; discriminate|].
    now rewrite Hs.
  - intros pre post -> Hpre.
    replace ("--" ++ pre ++ String "="%char post)
      with (("--" ++ pre) ++ String "="%char post) by apply append_assoc.
    apply parse_long_inline.
    + apply startsWith_append.
    + simpl. exact Hpre.
  - intros Hs Hne Hn. unfold parseExecArgvToken.
    destruct raw as [|c raw]; [discriminate|]. simpl JS.isEmpty. cbv iota.
    destruct (String.eqb_spec (String c raw) "--") as [E|_]; [congruence|].
    destruct (String.eqb_spec (String c raw) "-") as [E|_];
      [rewrite E in Hs; discriminate|].
    rewrite (startsWith_weaken (String c raw) "-" "-" Hs), Hs. cbn [negb].
    now rewrite (indexOfChar_absent _ _ Hn).
  - intros rest -> Hne Hs. unfold parseExecArgvToken.
    simpl JS.isEmpty. cbv iota.
    destruct (String.eqb_spec (String "-"%char rest) "--") as [E|_].
    { injection E as ->. vm_compute in Hs. discriminate. }
    destruct (String.eqb_spec (String "-"%char rest) "-") as [E|_].
    { injection E as ->. congruence. }
    assert (S1 : JS.startsWith (String "-"%char rest) "-" = true)
      by (destruct rest; reflexivity).
    assert (S2 : JS.startsWith (String "-"%char rest) "--" = false).
    { destruct rest as [|d rest]; [reflexivity|].
      rewrite startsWith_cons, startsWith_nil, andb_true_r in Hs.
      rewrite !startsWith_cons, Hs. reflexivity. }
    rewrite S1, S2.
    exists (map (fun c => String "-"%char (JS.str c)) (JS.chars rest)).
    split; [reflexivity|]. split; [apply short_flags_length|].
    intros i c Hget. now apply short_flags_nth.
Qed.

(** A cluster of three flags and a long option whose value holds a
    second [=], through the theorem. *)
Lemma parseExecArgvToken_classification_witness :
  parseExecArgvToken "-xvf" = TokShortCluster "-xvf" "xvf" ["-x"; "-v"; "-f"]
  /\ parseExecArgvToken "--output=a=b"
     = TokLongOption "--output=a=b" "--output" (Some "a=b").
Proof.
  split.
  - destruct (parseExecArgvToken_classification "-xvf")
      as (_ & _ & _ & _ & _ & _ & Hshort).
    destruct (Hshort "xvf" eq_refl (fun E => eq_ind "xvf"
                (fun s => match s with EmptyString => False | String _ _ => True end)
                I EmptyString E) eq_refl)
      as (flags & Heq & Hlen & Hnth).
    pose proof (Hnth 0 "x"%char eq_refl) as H0.
    pose proof (Hnth 1 "v"%char eq_refl) as H1.
    pose proof (Hnth 2 "f"%char eq_refl) as H2.
    destruct flags as [|f0 [|f1 [|f2 [|f3 more]]]]; try discriminate Hlen.
    cbn in H0, H1, H2.
    injection H0 as ->. injection H1 as ->. injection H2 as ->. exact Heq.
  - destruct (parseExecArgvToken_classification "--output=a=b")
      as (_ & _ & _ & _ & Hlong & _).
    exact (Hlong "output" "a=b" eq_refl eq_refl).
Defined.

(** The tokenizer on the arguments of the analyser's tests. *)
Example parseExecArgvToken_short_cluster :
  parseExecArgvToken "-oblocked.txt"
  = TokShortCluster "-oblocked.txt" "oblocked.txt"
      ["-o"; "-b"; "-l"; "-o"; "-c"; "-k"; "-e"; "-d"; "-."; "-t"; "-x"; "-t"].
Proof. reflexivity. Qed.

Example parseExecArgvToken_long_inline :
  parseExecArgvToken "--output=blocked.txt"
  = TokLongOption "--output=blocked.txt" "--output" (Some "blocked.txt").
Proof. reflexivity. Qed.

(* ================================================================== *)
(** * Argv-form analysis *)
(* ================================================================== *)

Lemma filter_notBlank (argv : list string) :
  filter notBlank argv = filter (fun entry => negb (allSpace entry)) argv.
Proof. apply filter_ext. intros entry. apply notBlank_spec. Qed.

Lemma filter_nil_iff (argv : list string) :
  filter (fun entry => negb (allSpace entry)) argv = [] <-> forallb allSpace argv = true.
Proof.
  induction argv as [|x xs IH]; simpl; [tauto|].
  destruct (allSpace x); simpl; [exact IH|]. split; discriminate.
Qed.

(** C10.  [analyzeArgvCommand] applies no shell-grammar check: when every
    entry of the argv is empty or blank the result is the failure [empty
    argv] with no segment, and otherwise the result is ok with exactly
    one segment, whose argv is the input without its blank entries,
    whatever text the entries hold. *)
Theorem analyzeArgvCommand_ignores_shell_grammar :
  forall (H : Host) (argv0 : list string) (cwd : option string) (env : option ProcessEnv),
    (forallb allSpace argv0 = true ->
     analyzeArgvCommand H argv0 cwd env
     = {| ok := false; reason := Some "empty argv"; segments := []; chains := None |})
    /\ (forallb allSpace argv0 = false ->
        analyzeArgvCommand H argv0 cwd env
        = {| ok := true; reason := None;
             segments :=
               [ {| raw := JS.join " " (filter (fun entry => negb (allSpace entry)) argv0);
                    argv := filter (fun entry => negb (allSpace entry)) argv0;
                    resolution :=
                      resolveCommandResolutionFromArgv H
                        (filter (fun entry => negb (allSpace entry)) argv0) cwd env |} ];
             chains := None |}).
Proof.
  intros H argv0 cwd env. unfold analyzeArgvCommand. rewrite filter_notBlank.
  split; intros Hall.
  - apply filter_nil_iff in Hall. rewrite Hall. reflexivity.
  - destruct (filter (fun entry => negb (allSpace entry)) argv0) as [|x xs] eqn:E.
    + apply filter_nil_iff in E. congruence.
    + reflexivity.
Qed.

(** An argv entry that the shell segmenter would reject is kept as it is. *)
Example analyzeArgvCommand_keeps_shell_text :
  map argv (segments (analyzeArgvCommand Reference.host
                        ["/bin/echo"; "$(id) | `x`; y"; "  "] None None))
  = [["/bin/echo"; "$(id) | `x`; y"]].
Proof. reflexivity. Qed.

(* ================================================================== *)
(** * Failed analyses carry a reason and no segment *)
(* ================================================================== *)

Lemma step_return (st : Pipeline.State) (ch : ascii) (next : option ascii)
  (after : string) (r : Pipeline.Split) :
  Pipeline.step st ch next after = Pipeline.Return r ->
  exists why, r = Pipeline.reject why.
Proof.
  unfold Pipeline.step, Pipeline.heredocLineEnd, Pipeline.heredocStart.
  repeat match goal with
         | |- context [if ?b then _ else _] => destruct b
         | |- context [match ?x with _ => _ end] => destruct x
         end;
    intros E; try discriminate; injection E as <-; eexists; reflexivity.
Qed.

Lemma loop_return (command : string) :
  forall (skip : nat) (st : Pipeline.State) (r : Pipeline.Split),
    Pipeline.loop skip st command = inr r -> exists why, r = Pipeline.reject why.
Proof.
  induction command as [|ch after IH]; intros skip st r; simpl.
  - discriminate.
  - destruct skip as [|k]; [|apply IH].
    destruct (Pipeline.step st ch (JS.head after) after) as [st' k|r'] eqn:E.
    + apply IH.
    + intros F. injection F as <-. exact (step_return _ _ _ _ _ E).
Qed.

Lemma finish_cases (st : Pipeline.State) :
  Pipeline.split_ok (Pipeline.finish st) = true
  \/ exists why, Pipeline.finish st = Pipeline.reject why.
Proof.
  unfold Pipeline.finish.
  repeat match goal with
         | |- context [if ?b then _ else _] => destruct b
         end;
    first [ left; reflexivity | right; eexists; reflexivity ].
Qed.

Lemma splitShellPipeline_cases (command : string) :
  Pipeline.split_ok (Pipeline.splitShellPipeline command) = true
  \/ exists why, Pipeline.splitShellPipeline command = Pipeline.reject why.
Proof.
  unfold Pipeline.splitShellPipeline.
  destruct (Pipeline.loop 0 Pipeline.initial command) as [st|r] eqn:E.
  - apply finish_cases.
  - right. exact (loop_return _ _ _ _ E).
Qed.


Lemma analyzeChainLoop_failsClosed (H : Host) (cwd : option string)
  (env : option ProcessEnv) (chainParts : list string) :
  forall chainsAcc allSegments,
    failsClosed (analyzeChainLoop H cwd env chainsAcc allSegments chainParts).
Proof.
  induction chainParts as [|p rest IH]; intros chainsAcc allSegments; simpl.
  - left. reflexivity.
  - destruct (splitShellPipeline_cases p) as [Hok|(why & E)].
    + rewrite Hok. cbn [negb].
      destruct (parseSegmentsFromParts H _ cwd env).
      * apply IH.
      * right. eexists. reflexivity.
    + rewrite E. right. eexists. reflexivity.
Qed.

Lemma analyzeWindows_failsClosed (H : Host) (command : string)
  (cwd : option string) (env : option ProcessEnv) :
  failsClosed (analyzeWindowsShellCommand H command cwd env).
Proof.
  unfold analyzeWindowsShellCommand.
  destruct (findWindowsUnsupportedToken command).
  - right. eexists. reflexivity.
  - destruct (tokenizeWindowsSegment command) as [[|x xs]|].
    + right. eexists. reflexivity.
    + left. reflexivity.
    + right. eexists. reflexivity.
Qed.

Lemma analyzeShellCommand_failsClosed (H : Host) (command : string)
  (cwd : option string) (env : option ProcessEnv) (platform : option string) :
  failsClosed (analyzeShellCommand H command cwd env platform).
Proof.
  unfold analyzeShellCommand.
  destruct (isWindowsPlatform platform); [apply analyzeWindows_failsClosed|].
  destruct (Chain.splitCommandChain command); [apply analyzeChainLoop_failsClosed|].
  destruct (splitShellPipeline_cases command) as [Hok|(why & E)].
  - rewrite Hok. cbn [negb].
    destruct (parseSegmentsFromParts H _ cwd env).
    + left. reflexivity.
    + right. eexists. reflexivity.
  - rewrite E. right. eexists. reflexivity.
Qed.

Lemma failsClosed_invariant (r : ExecCommandAnalysis) :
  failsClosed r -> ok r = false ->
  segments r = [] /\ exists why, reason r = Some why.
Proof.
  intros [Hok|(why & ->)] Hfalse; [congruence|].
  split; [reflexivity | exists why; reflexivity].
Qed.

(** Failures do occur, in each of the three entry points. *)
Example failed_analysis_examples :
  analyzeShellCommand Reference.host "ls |" None None None
  = failed (Some "empty pipeline segment")
  /\ analyzeShellCommand Reference.host "dir & whoami" None None (Some "win32")
     = failed (Some "unsupported windows shell token: &")
  /\ analyzeArgvCommand Reference.host [" "] None None = failed (Some "empty argv").
Proof. repeat split; reflexivity. Qed.

(** C2.  Whatever the input, in POSIX mode, in Windows mode and for
    argv-form commands: when the analysis has [ok = false], its segments
    are empty and its reason is set. *)
Theorem failed_analysis_has_reason_and_no_segments :
  forall (H : Host) (cmd : string) (argv0 : list string)
         (cwd : option string) (env : option ProcessEnv) (platform : option string),
    (ok (analyzeShellCommand H cmd cwd env platform) = false ->
     segments (analyzeShellCommand H cmd cwd env platform) = []
     /\ exists why, reason (analyzeShellCommand H cmd cwd env platform) = Some why)
    /\ (ok (analyzeArgvCommand H argv0 cwd env) = false ->
        segments (analyzeArgvCommand H argv0 cwd env) = []
        /\ exists why, reason (analyzeArgvCommand H argv0 cwd env) = Some why).
Proof.
  intros H cmd argv0 cwd env platform. split.
  - apply failsClosed_invariant, analyzeShellCommand_failsClosed.
  - apply failsClosed_invariant. unfold analyzeArgvCommand.
    destruct (Nat.eqb _ 0); [right; eexists | left]; reflexivity.
Qed.

(* ================================================================== *)
(** * Shell-wrapper extraction *)
(* ================================================================== *)

Lemma allSpace_false_trim (s : string) :
  allSpace s = false -> JS.isEmpty (JS.trim s) = false.
Proof.
  intros Hs. apply isEmpty_false. intros E.
  apply trim_empty_iff in E. congruence.
Qed.

(** C5 (amended).  For every argv whose first token, trimmed, has a
    POSIX shell as its lower-cased basename, whose second token, trimmed
    and lower-cased, is [-c], [-lc] or [--command], and whose third token
    is not blank, [extractShellWrapperCommand] reports [isWrapper] true
    with the trimmed third token as the command. *)
Theorem posix_wrapper_inline_command :
  forall (shell flag cmd : string) (rest : list string),
    In (basenameLower (JS.trim shell)) POSIX_SHELL_WRAPPERS ->
    In (JS.toLowerCase (JS.trim flag)) POSIX_INLINE_COMMAND_FLAGS ->
    allSpace cmd = false ->
    extractShellWrapperCommand (shell :: flag :: cmd :: rest) None
    = {| isWrapper := true; command := Some (JS.trim cmd) |}.
Proof.
  intros shell flag cmd rest Hshell Hflag Hcmd.
  apply memStr_true in Hshell. apply memStr_true in Hflag.
  unfold extractShellWrapperCommand.
  change (normalizeRawCommand None) with (@None string).
  change MAX_DISPATCH_WRAPPER_DEPTH with 4.
  cbn [extractShellWrapperCommandInternal].
  rewrite trimmedAt_cons0.
  destruct (JS.isEmpty (JS.trim shell)) eqn:E0.
  { apply isEmpty_true in E0. rewrite E0 in Hshell. discriminate. }
  destruct (String.eqb_spec (basenameLower (JS.trim shell)) "env") as [E|_].
  { rewrite E in Hshell. discriminate. }
  unfold findShellWrapperSpec. cbn [find SHELL_WRAPPER_SPECS names].
  rewrite Hshell.
  unfold extractShellWrapperPayload, extractPosixShellInlineCommand.
  cbn [kind].
  change (JS.trimmedAt (shell :: flag :: cmd :: rest) 1) with (JS.trim flag).
  change (JS.trimmedAt (shell :: flag :: cmd :: rest) 2) with (JS.trim cmd).
  destruct (JS.isEmpty (JS.trim flag)) eqn:E1.
  { apply isEmpty_true in E1. rewrite E1 in Hflag. discriminate. }
  rewrite Hflag. cbn [negb].
  unfold nonEmpty. rewrite (allSpace_false_trim _ Hcmd). reflexivity.
Qed.

(** The example of the spec, through the theorem. *)
Lemma posix_wrapper_inline_command_witness :
  extractShellWrapperCommand ["/bin/zsh"; "-lc"; "whoami && ls"] None
  = {| isWrapper := true; command := Some "whoami && ls" |}.
Proof.
  apply (posix_wrapper_inline_command "/bin/zsh" "-lc" "whoami && ls" []).
  - apply memStr_true. reflexivity.
  - apply memStr_true. reflexivity.
  - reflexivity.
Defined.

(** C5, as stated, fails: an inline-command flag that is not the second
    token is not looked for; the command is the trimmed argument, not the
    argument; and a blank argument gives no wrapper. *)
Lemma posix_wrapper_flag_position_counterexample :
  extractShellWrapperCommand ["bash"; "-x"; "-c"; "ls"] None = notAWrapper
  /\ extractShellWrapperCommand ["sh"; "-c"; " ls "] None
     = {| isWrapper := true; command := Some "ls" |}
  /\ extractShellWrapperCommand ["sh"; "-c"; " "] None = notAWrapper.
Proof. repeat split; reflexivity. Qed.

(** A wrapper payload is a trimmed, non-empty text. *)
Lemma nonEmpty_trim (x p : string) :
  nonEmpty (JS.trim x) = Some p -> JS.trim p = p.
Proof.
  unfold nonEmpty. destruct (JS.isEmpty (JS.trim x)); [discriminate|].
  intros E. injection E as <-. apply trim_idempotent.
Qed.

Lemma nonEmpty_trimmedAt (xs : list string) (i : nat) (p : string) :
  nonEmpty (JS.trimmedAt xs i) = Some p -> JS.trim p = p.
Proof.
  unfold JS.trimmedAt. destruct (nth_error xs i); [apply nonEmpty_trim|].
  discriminate.
Qed.

Lemma powerShellLoop_trimmed (rest : list string) (p : string) :
  powerShellLoop rest = Some p -> JS.trim p = p.
Proof.
  induction rest as [|entry after IH]; cbn [powerShellLoop]; [discriminate|].
  destruct (JS.isEmpty (JS.trim entry)); [exact IH|].
  destruct (String.eqb (JS.toLowerCase (JS.trim entry)) "--"); [discriminate|].
  destruct (JS.memStr (JS.toLowerCase (JS.trim entry)) POWERSHELL_INLINE_COMMAND_FLAGS);
    [apply nonEmpty_trimmedAt | exact IH].
Qed.

Lemma payload_trimmed (argv0 : list string) (spec : ShellWrapperSpec) (p : string) :
  extractShellWrapperPayload argv0 spec = Some p -> JS.trim p = p.
Proof.
  unfold extractShellWrapperPayload. destruct (kind spec).
  - unfold extractPosixShellInlineCommand.
    destruct (JS.isEmpty _); [discriminate|].
    destruct (negb _); [discriminate | apply nonEmpty_trimmedAt].
  - unfold extractCmdInlineCommand.
    destruct (findIndex _ argv0); [|discriminate].
    destruct (JS.sliceFrom _ argv0); [discriminate | apply nonEmpty_trim].
  - apply powerShellLoop_trimmed.
Qed.

Lemma wrapper_shape (budget : nat) :
  forall argv0 : list string,
    extractShellWrapperCommandInternal argv0 None budget = notAWrapper
    \/ exists p, extractShellWrapperCommandInternal argv0 None budget
                 = {| isWrapper := true; command := Some p |}
                 /\ JS.trim p = p.
Proof.
  induction budget as [|budget IH]; intros argv0; simpl; [now left|].
  destruct (JS.isEmpty _); [now left|].
  destruct (String.eqb _ "env").
  - destruct (unwrapEnvInvocation argv0); [apply IH | now left].
  - destruct (findShellWrapperSpec _) as [wrapper|]; [|now left].
    destruct (extractShellWrapperPayload argv0 wrapper) as [p|] eqn:E; [|now left].
    right. exists p. split; [reflexivity | exact (payload_trimmed _ _ _ E)].
Qed.

(** The text the validator compares with is the reference text. *)
Lemma inferred_is_referenceText (argv0 : list string) :
  match command (extractShellWrapperCommand argv0 None) with
  | Some sc => JS.trim sc
  | None => formatExecCommand argv0
  end = referenceText argv0.
Proof.
  unfold referenceText, extractShellWrapperCommand.
  change (normalizeRawCommand None) with (@None string).
  destruct (wrapper_shape MAX_DISPATCH_WRAPPER_DEPTH argv0) as [E|(p & E & Hp)];
    rewrite E; simpl; [reflexivity | exact Hp].
Qed.

(* ================================================================== *)
(** * Consistency validation *)
(* ================================================================== *)

(** C7 (amended).  Let [declared] be the trimmed [rawCommand] (empty when
    none is declared).  When [declared] is not empty and differs from the
    reference text -- the unwrapped inner command of a recognized shell
    wrapper, the canonically re-quoted argv otherwise -- the validator
    returns the error with code [RAW_COMMAND_MISMATCH]; when [declared]
    equals the reference text, and when [declared] is empty (no
    [rawCommand], or a blank one), it returns ok. *)
Theorem validateSystemRunCommandConsistency_characterisation :
  forall (argv0 : list string) (rawCommand : option string),
    let declared := match rawCommand with
                    | Some r => JS.trim r
                    | None => EmptyString
                    end in
    (declared <> EmptyString /\ declared <> referenceText argv0 ->
     validateSystemRunCommandConsistency argv0 rawCommand
     = ValidationError "INVALID_REQUEST: rawCommand does not match command"
         "RAW_COMMAND_MISMATCH" declared (referenceText argv0))
    /\ (declared = referenceText argv0 ->
        validationOk (validateSystemRunCommandConsistency argv0 rawCommand) = true)
    /\ (declared = EmptyString ->
        validationOk (validateSystemRunCommandConsistency argv0 rawCommand) = true).
Proof.
  intros argv0 rawCommand declared.
  unfold validateSystemRunCommandConsistency.
  rewrite (inferred_is_referenceText argv0).
  destruct rawCommand as [r|]; subst declared; cbn beta iota.
  - rewrite length_pos_iff.
    destruct (JS.isEmpty (JS.trim r)) eqn:E0; cbn [negb].
    + apply isEmpty_true in E0. repeat split; try reflexivity.
      intros [Hne _]. congruence.
    + apply isEmpty_false in E0.
      destruct (String.eqb_spec (JS.trim r) (referenceText argv0)) as [E|N];
        cbn [negb]; repeat split; try reflexivity; try congruence.
      intros [_ Hd]. congruence.
  - repeat split; try reflexivity. intros [Hne _]. congruence.
Qed.

(** A wrapper argv with a mismatching and with a matching [rawCommand],
    through the theorem. *)
Lemma validateSystemRunCommandConsistency_characterisation_witness :
  validateSystemRunCommandConsistency ["/bin/sh"; "-c"; "ls"] (Some "rm -rf /")
  = ValidationError "INVALID_REQUEST: rawCommand does not match command"
      "RAW_COMMAND_MISMATCH" "rm -rf /" "ls"
  /\ validationOk
       (validateSystemRunCommandConsistency ["/bin/sh"; "-c"; "ls"] (Some " ls ")) = true.
Proof.
  split.
  - destruct (validateSystemRunCommandConsistency_characterisation
                ["/bin/sh"; "-c"; "ls"] (Some "rm -rf /")) as (Hmismatch & _ & _).
    refine (Hmismatch (conj _ _)); discriminate.
  - destruct (validateSystemRunCommandConsistency_characterisation
                ["/bin/sh"; "-c"; "ls"] (Some " ls ")) as (_ & Hequal & _).
    exact (Hequal eq_refl).
Defined.


(** C7, as stated, fails: a blank [rawCommand] is a declared, non-empty
    string whose trimmed text differs from the reference text [ls], and
    the validator returns ok. *)
Lemma blank_rawCommand_counterexample :
  validateSystemRunCommandConsistency ["ls"] (Some " ") = ValidationOk None "ls"
  /\ referenceText ["ls"] = "ls".
Proof. split; reflexivity. Qed.

Example validate_examples :
  validateSystemRunCommandConsistency ["bash"; "-lc"; "echo hi"] (Some "echo hi")
  = ValidationOk (Some "echo hi") "echo hi"
  /\ isMismatch (validateSystemRunCommandConsistency ["bash"; "-lc"; "echo hi"]
                   (Some "bash -lc echo"))
     = true
  /\ validateSystemRunCommandConsistency ["ls"; "a b"] None
     = ValidationOk None ("ls " ++ String JS.DQ ("a b" ++ JS.str JS.DQ)).
Proof. repeat split; reflexivity. Qed.

(* ================================================================== *)
(** * Unwrapping [env] *)
(* ================================================================== *)

Lemma lowerChar_dash (c : ascii) : JS.lowerChar c = "-"%char -> c = "-"%char.
Proof.
  destruct c as [[] [] [] [] [] [] [] []]; vm_compute; intros E;
    first [reflexivity | discriminate E].
Qed.

Lemma toLowerCase_dash (t : string) :
  JS.startsWith (JS.toLowerCase t) "-" = true ->
  exists t', t = String "-"%char t'.
Proof.
  destruct t as [|c t]; [discriminate|].
  cbn [JS.toLowerCase]. rewrite startsWith_cons.
  intros E. apply andb_prop in E as [E _]. apply Ascii.eqb_eq in E.
  symmetry in E. apply lowerChar_dash in E. subst c. now exists t.
Qed.

(** A token whose lower-cased text starts with a dash, and is neither [-]
    nor [--], reaches the option branch of the loop. *)
Lemma unwrapEnvLoop_option (tok : string) (after : list string) :
  JS.startsWith (JS.toLowerCase (JS.trim tok)) "-" = true ->
  JS.toLowerCase (JS.trim tok) <> "-" ->
  JS.toLowerCase (JS.trim tok) <> "--" ->
  unwrapEnvLoop false (tok :: after)
  = let lower := JS.toLowerCase (JS.trim tok) in
    let flag := JS.beforeChar lower "="%char in
    if JS.memStr flag ENV_FLAG_OPTIONS then unwrapEnvLoop false after
    else if JS.memStr flag ENV_OPTIONS_WITH_VALUE then
      unwrapEnvLoop (negb (JS.includesChar lower "="%char)) after
    else if existsb (JS.startsWith lower) envValuePrefixes then unwrapEnvLoop false after
    else None.
Proof.
  intros Hs H1 H2. cbn [unwrapEnvLoop].
  destruct (toLowerCase_dash _ Hs) as (t' & E).
  rewrite E in *.
  change (JS.isEmpty (String "-"%char t')) with false. cbv iota.
  destruct (String.eqb_spec (String "-"%char t') "--") as [F|_].
  { rewrite F in H2. now contradiction H2. }
  destruct (String.eqb_spec (String "-"%char t') "-") as [F|_].
  { rewrite F in H1. now contradiction H1. }
  cbn [orb negb andb].
  change (isEnvAssignment (String "-"%char t')) with false. cbv iota.
  rewrite startsWith_cons, startsWith_nil. reflexivity.
Qed.

Lemma unwrapEnvLoop_command (cmd : string) (rest : list string) :
  CommandToken cmd -> unwrapEnvLoop false (cmd :: rest) = Some (cmd :: rest).
Proof.
  intros (Hb & Hd & Ha). cbn [unwrapEnvLoop].
  rewrite (allSpace_false_trim _ Hb).
  destruct (String.eqb_spec (JS.trim cmd) "--") as [F|_].
  { rewrite F in Hd. discriminate. }
  destruct (String.eqb_spec (JS.trim cmd) "-") as [F|_].
  { rewrite F in Hd. discriminate. }
  cbn [orb]. now rewrite Ha, Hd.
Qed.

Lemma isEnvAssignment_not_dash (t : string) :
  isEnvAssignment t = true ->
  JS.isEmpty t = false /\ String.eqb t "--" = false /\ String.eqb t "-" = false.
Proof.
  destruct t as [|c t]; [discriminate|]. intros E. repeat split.
  - destruct (String.eqb_spec (String c t) "--") as [F|_]; [|reflexivity].
    rewrite F in E. discriminate.
  - destruct (String.eqb_spec (String c t) "-") as [F|_]; [|reflexivity].
    rewrite F in E. discriminate.
Qed.


Lemma unwrapEnvLoop_flag (tok : string) (after : list string) :
  In (JS.toLowerCase (JS.trim tok)) ENV_FLAG_OPTIONS ->
  unwrapEnvLoop false (tok :: after) = unwrapEnvLoop false after.
Proof.
  intros Hf. rewrite unwrapEnvLoop_option.
  - in_cases Hf; rewrite Hf; reflexivity.
  - in_cases Hf; rewrite Hf; reflexivity.
  - in_cases Hf; rewrite Hf; discriminate.
  - in_cases Hf; rewrite Hf; discriminate.
Qed.

Lemma unwrapEnvLoop_option_value (tok : string) (after : list string) :
  In (JS.toLowerCase (JS.trim tok)) ENV_OPTIONS_WITH_VALUE ->
  unwrapEnvLoop false (tok :: after) = unwrapEnvLoop true after.
Proof.
  intros Ho. rewrite unwrapEnvLoop_option.
  - in_cases Ho; rewrite Ho; reflexivity.
  - in_cases Ho; rewrite Ho; reflexivity.
  - in_cases Ho; rewrite Ho; discriminate.
  - in_cases Ho; rewrite Ho; discriminate.
Qed.

Lemma unwrapEnvLoop_option_inline (tok name value : string) (after : list string) :
  In name ENV_OPTIONS_WITH_VALUE ->
  JS.toLowerCase (JS.trim tok) = name ++ String "="%char value ->
  unwrapEnvLoop false (tok :: after) = unwrapEnvLoop false after.
Proof.
  intros Hn E. rewrite unwrapEnvLoop_option; rewrite E.
  - in_cases Hn; rewrite Hn; reflexivity.
  - in_cases Hn; rewrite Hn; reflexivity.
  - in_cases Hn; rewrite Hn; discriminate.
  - in_cases Hn; rewrite Hn; discriminate.
Qed.

Lemma unwrapEnvLoop_prefix (pre : list string) (cmd : string) (rest : list string) :
  EnvPrefix pre -> CommandToken cmd ->
  unwrapEnvLoop false (pre ++ cmd :: rest) = Some (cmd :: rest).
Proof.
  intros Hpre Hcmd.
  induction Hpre as [|tok pre' Ha _ IH|tok pre' Hf _ IH
                     |tok value pre' Ho Hv _ IH|tok name value pre' Hn E _ IH].
  - apply unwrapEnvLoop_command, Hcmd.
  - cbn [app unwrapEnvLoop].
    destruct (isEnvAssignment_not_dash _ Ha) as (-> & -> & ->).
    cbn [orb]. now rewrite Ha.
  - cbn [app]. now rewrite (unwrapEnvLoop_flag _ _ Hf).
  - cbn [app]. rewrite (unwrapEnvLoop_option_value _ _ Ho).
    cbn [unwrapEnvLoop]. now rewrite (allSpace_false_trim _ Hv).
  - cbn [app]. now rewrite (unwrapEnvLoop_option_inline _ _ _ _ Hn E).
Qed.

Lemma unwrapEnvInvocation_prefix (envTok : string) (pre : list string)
  (cmd : string) (rest : list string) :
  EnvPrefix pre -> CommandToken cmd ->
  unwrapEnvInvocation (envTok :: pre ++ cmd :: rest) = Some (cmd :: rest).
Proof.
  intros Hpre Hcmd. unfold unwrapEnvInvocation, JS.sliceFrom. cbn [skipn].
  now rewrite (unwrapEnvLoop_prefix pre cmd rest Hpre Hcmd).
Qed.

(** One level of unwrapping: resolving with a budget of [n + 1] levels is
    resolving the inner argv with a budget of [n]. *)
Lemma unwrapDispatch_env (n : nat) (envTok : string) (tail inner : list string) :
  basenameLower (JS.trim envTok) = "env" ->
  unwrapEnvInvocation (envTok :: tail) = Some inner ->
  unwrapDispatchWrappersForResolution (envTok :: tail) (S n)
  = unwrapDispatchWrappersForResolution inner n.
Proof.
  intros Hb Hu. cbn [unwrapDispatchWrappersForResolution].
  rewrite trimmedAt_cons0.
  destruct (JS.isEmpty (JS.trim envTok)) eqn:E0.
  { apply isEmpty_true in E0. rewrite E0 in Hb. discriminate. }
  rewrite Hb. cbn [String.eqb negb]. rewrite Hu.
  destruct inner; [|reflexivity].
  unfold unwrapEnvInvocation in Hu.
  destruct (unwrapEnvLoop false _) as [[|x xs]|]; discriminate.
Qed.

(** C6 (amended).  For every argv whose first token has basename [env],
    followed only by assignment tokens and recognized env flags before
    the first inner-command token, [resolveCommandResolutionFromArgv]
    gives the resolution of the inner argv, provided the inner argv is
    itself unwrapped completely within three levels (the unwrapping depth
    is bounded by four). *)
Theorem env_wrapper_resolves_inner_command :
  forall (H : Host) (envTok : string) (pre : list string) (cmd : string)
         (rest : list string) (cwd : option string) (env : option ProcessEnv),
    basenameLower (JS.trim envTok) = "env" ->
    EnvPrefix pre ->
    CommandToken cmd ->
    unwrapsWithin 3 (cmd :: rest) ->
    resolveCommandResolutionFromArgv H (envTok :: pre ++ cmd :: rest) cwd env
    = resolveCommandResolutionFromArgv H (cmd :: rest) cwd env.
Proof.
  intros H envTok pre cmd rest cwd env Hb Hpre Hcmd Hdepth.
  unfold resolveCommandResolutionFromArgv.
  change MAX_DISPATCH_WRAPPER_DEPTH with 4.
  rewrite (unwrapDispatch_env 3 envTok (pre ++ cmd :: rest) (cmd :: rest) Hb
             (unwrapEnvInvocation_prefix envTok pre cmd rest Hpre Hcmd)).
  unfold unwrapsWithin in Hdepth. now rewrite <- Hdepth.
Qed.

(** The example of the spec and of the tests, through the theorem. *)
Lemma env_wrapper_resolves_inner_command_witness :
  resolveCommandResolutionFromArgv Reference.host
    ["/usr/bin/env"; "FOO=bar"; "rg"; "-n"; "x"] None None
  = resolveCommandResolutionFromArgv Reference.host ["rg"; "-n"; "x"] None None.
Proof.
  apply (env_wrapper_resolves_inner_command Reference.host
           "/usr/bin/env" ["FOO=bar"] "rg" ["-n"; "x"] None None).
  - reflexivity.
  - apply EnvPrefix_assignment; [reflexivity | apply EnvPrefix_nil].
  - repeat split; reflexivity.
  - reflexivity.
Defined.

Example env_wrapper_resolution_value :
  resolveCommandResolutionFromArgv Reference.host
    ["/usr/bin/env"; "FOO=bar"; "rg"; "-n"; "x"] None None
  = Some {| rawExecutable := "rg"; resolvedPath := Some "/usr/bin/rg";
            executableName := "rg" |}.
Proof. reflexivity. Qed.

(** Flags and options with values are passed over like assignments. *)
Example env_wrapper_flags_example :
  unwrapEnvInvocation ["env"; "-i"; "-u"; "HOME"; "--chdir=/tmp"; "A=1"; "rg"; "x"]
  = Some ["rg"; "x"].
Proof. reflexivity. Qed.

(** C6, as stated, fails: with five nested [env] wrappers the outer argv
    resolves to [env] (four levels are unwrapped), while its inner argv,
    resolved directly, resolves to [rg]. *)
Lemma env_wrapper_depth_counterexample :
  resolveCommandResolutionFromArgv Reference.host
    ["env"; "env"; "env"; "env"; "env"; "rg"] None None
  = Some {| rawExecutable := "env"; resolvedPath := Some "/usr/bin/env";
            executableName := "env" |}
  /\ unwrapEnvInvocation ["env"; "env"; "env"; "env"; "env"; "rg"]
     = Some ["env"; "env"; "env"; "env"; "rg"]
  /\ resolveCommandResolutionFromArgv Reference.host
       ["env"; "env"; "env"; "env"; "rg"] None None
     = Some {| rawExecutable := "rg"; resolvedPath := Some "/usr/bin/rg";
               executableName := "rg" |}.
Proof. repeat split; reflexivity. Qed.

(* ================================================================== *)
(** * The safe-bins rewriter *)
(* ================================================================== *)

Lemma pushPartSegments_trimmed (st : Pipeline.State) :
  Forall isTrimmed (Pipeline.segments st) ->
  Forall isTrimmed (Pipeline.pushPartSegments st).
Proof.
  intros Hs. unfold Pipeline.pushPartSegments.
  destruct (JS.isEmpty _); [exact Hs|].
  apply Forall_app. split; [exact Hs|].
  constructor; [apply trim_idempotent | constructor].
Qed.

Lemma step_segments_trimmed (st st' : Pipeline.State) (ch : ascii)
  (next : option ascii) (after : string) (k : nat) :
  Pipeline.step st ch next after = Pipeline.Next st' k ->
  Forall isTrimmed (Pipeline.segments st) ->
  Forall isTrimmed (Pipeline.segments st').
Proof.
  intros E Hs. revert E.
  unfold Pipeline.step, Pipeline.heredocLineEnd, Pipeline.heredocStart.
  repeat match goal with
         | |- context [if ?b then _ else _] => destruct b
         | |- context [match ?x with _ => _ end] => destruct x
         end;
    intros E; try discriminate; injection E as <- _;
    first [exact Hs | apply pushPartSegments_trimmed, Hs].
Qed.

Lemma loop_segments_trimmed (cmd : string) :
  forall (skip : nat) (st st' : Pipeline.State),
    Pipeline.loop skip st cmd = inl st' ->
    Forall isTrimmed (Pipeline.segments st) ->
    Forall isTrimmed (Pipeline.segments st').
Proof.
  induction cmd as [|ch after IH]; intros skip st st'; simpl.
  - intros E. injection E as <-. trivial.
  - destruct skip as [|k]; [|apply IH].
    destruct (Pipeline.step st ch (JS.head after) after) as [st1 k|r] eqn:E;
      [|discriminate].
    intros El Hs. apply (IH _ _ _ El). exact (step_segments_trimmed _ _ _ _ _ _ E Hs).
Qed.

(** Every segment [splitShellPipeline] returns is a trimmed text. *)
Lemma splitShellPipeline_trimmed (cmd : string) :
  Forall isTrimmed (Pipeline.split_segments (Pipeline.splitShellPipeline cmd)).
Proof.
  unfold Pipeline.splitShellPipeline.
  destruct (Pipeline.loop 0 Pipeline.initial cmd) as [st|r] eqn:E.
  - assert (Hs : Forall isTrimmed (Pipeline.segments st))
      by (apply (loop_segments_trimmed _ _ _ _ E); constructor).
    unfold Pipeline.finish.
    repeat match goal with
           | |- context [if ?b then _ else _] => destruct b
           end;
      first [constructor | apply pushPartSegments_trimmed, Hs].
  - destruct (loop_return _ _ _ _ E) as (why & ->). constructor.
Qed.

Lemma skipn_nth_error {A : Type} (l : list A) (i : nat) (x : A) :
  nth_error l i = Some x -> skipn i l = x :: skipn (S i) l.
Proof.
  revert i. induction l as [|y l IH]; intros [|i]; simpl; try discriminate.
  - intros E. now injection E as ->.
  - apply IH.
Qed.

Lemma nth_error_both {A B : Type} (xs : list A) (ys : list B) (i : nat) :
  i < List.length xs -> List.length xs = List.length ys ->
  exists x y, nth_error xs i = Some x /\ nth_error ys i = Some y
              /\ nth_error (combine xs ys) i = Some (x, y).
Proof.
  revert ys i. induction xs as [|x xs IH]; intros [|y ys] [|i]; simpl;
    intros Hi Hl; try lia.
  - exists x, y. repeat split.
  - apply IH; lia.
Qed.

Lemma splitChar_cons (s : string) (c : ascii) :
  exists (x : string) (xs : list string), JS.splitChar s c = x :: xs.
Proof.
  induction s as [|d s (x & xs & E)]; cbn [JS.splitChar].
  - now exists EmptyString, [].
  - destruct (Ascii.eqb d c); [now exists EmptyString, (JS.splitChar s c)|].
    rewrite E. now exists (String d x), xs.
Qed.

(** Replacing every [c] is cutting at [c] and joining the pieces. *)
Lemma replaceChar_join (s : string) (c : ascii) (r : string) :
  JS.replaceChar s c r = JS.join r (JS.splitChar s c).
Proof.
  unfold JS.join. induction s as [|d s IH]; [reflexivity|].
  cbn [JS.replaceChar JS.splitChar].
  destruct (splitChar_cons s c) as (x & xs & E). rewrite E in IH |- *.
  destruct (Ascii.eqb d c).
  - rewrite IH. reflexivity.
  - rewrite IH. destruct xs; reflexivity.
Qed.

(** The quoting of the rewriter is the quoting of the spec. *)
Lemma shellEscapeSingleArg_spec (token : string) :
  shellEscapeSingleArg token = singleQuotedSpec token.
Proof.
  unfold shellEscapeSingleArg, singleQuotedSpec.
  rewrite (replaceChar_join token JS.SQ singleQuoteEscape). reflexivity.
Qed.

(** The operator texts of the rewriter are the texts of the spec. *)
Lemma operatorSuffix_spec (op : option ShellChainOperator) :
  operatorSuffix op = chainOperatorSpec op.
Proof. destruct op as [[]|]; reflexivity. Qed.

Lemma renderPipelineLoop_spec (segs : list ExecCommandSegment)
  (bys : list (option SatisfiedBy)) (raws : list string) :
  List.length segs = List.length bys ->
  Forall isTrimmed raws ->
  forall (segIndex : nat) (rendered : list string),
    segIndex + List.length raws <= List.length segs ->
    renderPipelineLoop segs bys segIndex rendered raws
    = Some ((rendered
             ++ map renderSegmentSpec (combine raws (skipn segIndex (combine segs bys))))%list,
            segIndex + List.length raws).
Proof.
  intros Hlen Hraws. induction Hraws as [|rawText raws Hr _ IH];
    intros segIndex rendered Hbound; cbn [renderPipelineLoop List.length].
  - rewrite app_nil_r, Nat.add_0_r. reflexivity.
  - cbn [List.length] in Hbound.
    destruct (nth_error_both segs bys segIndex) as (seg & by_ & E1 & E2 & E3);
      [lia | exact Hlen |].
    rewrite E1, E2, (skipn_nth_error _ _ _ E3).
    rewrite IH by lia. cbn [combine map].
    rewrite <- app_assoc. cbn [app].
    replace (segIndex + 1) with (S segIndex) by lia.
    replace (S segIndex + List.length raws) with (segIndex + S (List.length raws)) by lia.
    repeat f_equal.
    unfold renderSegmentSpec, isSafeBins, renderQuotedArgv.
    destruct by_ as [[]|]; try reflexivity; try exact Hr.
    f_equal. apply map_ext. exact shellEscapeSingleArg_spec.
Qed.

Lemma buildChainLoop_spec (segs : list ExecCommandSegment)
  (bys : list (option SatisfiedBy)) (chainParts : list ShellChainPart) :
  List.length segs = List.length bys ->
  Forall (fun p => Pipeline.split_ok (Pipeline.splitShellPipeline (part p)) = true)
    chainParts ->
  forall (segIndex : nat) (out : string),
    segIndex + List.length (flat_map (fun p => fst (pipelineOf p)) chainParts)
    = List.length segs ->
    buildChainLoop segs bys segIndex out chainParts
    = {| build_ok := true;
         build_command :=
           Some (out ++ renderChainSpec (map pipelineOf chainParts)
                          (skipn segIndex (combine segs bys)));
         build_reason := None |}.
Proof.
  intros Hlen Hok. induction Hok as [|p rest Hp _ IH]; intros segIndex out Htotal.
  - cbn in Htotal |- *. rewrite Nat.add_0_r in Htotal. subst segIndex.
    rewrite Nat.eqb_refl, append_nil_r. reflexivity.
  - cbn [buildChainLoop]. rewrite Hp. cbn [negb].
    cbn [flat_map] in Htotal. rewrite length_app in Htotal.
    unfold pipelineOf at 1 in Htotal. cbn [fst] in Htotal.
    rewrite (renderPipelineLoop_spec segs bys _ Hlen (splitShellPipeline_trimmed _))
      by lia.
    rewrite IH by lia.
    cbn [map renderChainSpec app]. unfold pipelineOf at 2.
    rewrite skipn_skipn, !append_assoc, operatorSuffix_spec.
    replace (List.length (Pipeline.split_segments (Pipeline.splitShellPipeline (part p)))
             + segIndex)
      with (segIndex
            + List.length (Pipeline.split_segments (Pipeline.splitShellPipeline (part p))))
      by lia.
    reflexivity.
Qed.

(* ================================================================== *)
(** * Plain text and pipes in the segmenter *)
(* ================================================================== *)


Lemma step_plain (st : Pipeline.State) (ch : ascii) (next : option ascii) (after : string) :
  idle st -> plainChar ch = true ->
  Pipeline.step st ch next after = Pipeline.Next (Pipeline.emitPlain st (JS.str ch)) 0.
Proof.
  intros (H1 & H2 & H3 & H4 & H5) Hp. plain_facts Hp.
  unfold Pipeline.step, isNewline, DISALLOWED_PIPELINE_TOKENS, JS.memChar.
  cbn [existsb]. rewrite H1, H2, H3, H4, H5. use_char_facts. reflexivity.
Qed.

Lemma emitPlain_idle (st : Pipeline.State) (s : string) :
  idle st -> idle (Pipeline.emitPlain st s).
Proof. intros H. exact H. Qed.

Lemma emitPlain_emitPlain (st : Pipeline.State) (a b : string) :
  Pipeline.emitPlain (Pipeline.emitPlain st a) b = Pipeline.emitPlain st (a ++ b).
Proof.
  unfold Pipeline.emitPlain, Pipeline.emit. cbn. now rewrite append_assoc.
Qed.

Lemma feed_idle (st : Pipeline.State) (s : string) : idle st -> idle (feed st s).
Proof. destruct s; intros H; exact H. Qed.

Lemma feed_cons (st : Pipeline.State) (c : ascii) (s : string) :
  feed (Pipeline.emitPlain st (JS.str c)) s = feed st (String c s).
Proof.
  destruct s; cbn [feed]; [reflexivity|]. now rewrite emitPlain_emitPlain.
Qed.

(** Reading a plain text outside quotes appends it to the buffer. *)
Lemma loop_plain (s : string) :
  forall (st : Pipeline.State) (rest : string),
    idle st -> plainText s = true ->
    Pipeline.loop 0 st (s ++ rest) = Pipeline.loop 0 (feed st s) rest.
Proof.
  induction s as [|c s IH]; intros st rest Hst Hs; [reflexivity|].
  cbn in Hs. apply andb_prop in Hs as [Hc Hs].
  cbn [append Pipeline.loop].
  rewrite (step_plain st c _ _ Hst Hc).
  rewrite (IH _ rest (emitPlain_idle st _ Hst) Hs). now rewrite feed_cons.
Qed.

Lemma step_pipe (st : Pipeline.State) (next : option ascii) (after : string) :
  idle st -> JS.nextIs next "|"%char = false -> JS.nextIs next "&"%char = false ->
  Pipeline.step st "|"%char next after = Pipeline.Next (Pipeline.pipeBoundary st) 0.
Proof.
  intros (H1 & H2 & H3 & H4 & H5) Hn1 Hn2.
  unfold Pipeline.step. rewrite H1, H2, H3, H4, H5, Hn1, Hn2. reflexivity.
Qed.

Lemma pipeBoundary_idle (st : Pipeline.State) : idle st -> idle (Pipeline.pipeBoundary st).
Proof. intros H. exact H. Qed.

Lemma plain_head (s : string) (c : ascii) :
  plainText s = true -> s <> EmptyString ->
  JS.nextIs (JS.head (s ++ String c EmptyString)) "|"%char = false
  /\ JS.nextIs (JS.head (s ++ String c EmptyString)) "&"%char = false.
Proof.
  destruct s as [|d s]; [congruence|]. intros Hs _.
  cbn in Hs. apply andb_prop in Hs as [Hd _]. plain_facts Hd.
  cbn. use_char_facts. split; reflexivity.
Qed.

Lemma pipeAfterEach_head (segs : list string) :
  Forall (fun s => plainText s = true /\ s <> EmptyString) segs ->
  JS.nextIs (JS.head (pipeAfterEach segs)) "|"%char = false
  /\ JS.nextIs (JS.head (pipeAfterEach segs)) "&"%char = false.
Proof.
  intros Hsegs. destruct Hsegs as [|s rest (Hs & Hne) _]; [split; reflexivity|].
  destruct s as [|d s]; [congruence|].
  cbn in Hs. apply andb_prop in Hs as [Hd _]. plain_facts Hd.
  unfold pipeAfterEach. cbn [map String.concat].
  destruct (map _ rest); cbn; use_char_facts; split; reflexivity.
Qed.

Lemma pipeAfterEach_cons (s : string) (rest : list string) :
  pipeAfterEach (s :: rest) = s ++ String "|"%char (pipeAfterEach rest).
Proof.
  unfold pipeAfterEach. cbn [map String.concat].
  destruct (map _ rest) eqn:E.
  - reflexivity.
  - change (EmptyString ++ ?x) with x. now rewrite append_assoc.
Qed.

Lemma loop_pipes (segs : list string) :
  forall st : Pipeline.State,
    idle st ->
    Forall (fun s => plainText s = true /\ s <> EmptyString) segs ->
    Pipeline.loop 0 st (pipeAfterEach segs) = inl (afterPipes st segs).
Proof.
  induction segs as [|s rest IH]; intros st Hst Hsegs; [reflexivity|].
  inversion Hsegs as [|? ? (Hs & Hne) Hrest]; subst.
  rewrite pipeAfterEach_cons, (loop_plain s st _ Hst Hs).
  cbn [Pipeline.loop afterPipes].
  destruct (pipeAfterEach_head rest Hrest) as (N1 & N2).
  rewrite (step_pipe _ _ _ (feed_idle st s Hst) N1 N2).
  apply IH; [apply pipeBoundary_idle, feed_idle, Hst | exact Hrest].
Qed.


Lemma feed_buf (st : Pipeline.State) (s : string) :
  Pipeline.buf (feed st s) = Pipeline.buf st ++ s
  /\ Pipeline.segments (feed st s) = Pipeline.segments st.
Proof.
  destruct s; cbn; [now rewrite append_nil_r | split; reflexivity].
Qed.

Lemma afterPipes_facts (segs : list string) :
  forall st : Pipeline.State,
    idle st -> Pipeline.buf st = EmptyString -> Pipeline.emptySegment st = true ->
    idle (afterPipes st segs)
    /\ Pipeline.buf (afterPipes st segs) = EmptyString
    /\ Pipeline.emptySegment (afterPipes st segs) = true
    /\ Pipeline.segments (afterPipes st segs)
       = (Pipeline.segments st ++ keptSegments segs)%list.
Proof.
  induction segs as [|s rest IH]; intros st Hst Hbuf Hempty; cbn [afterPipes].
  - repeat split; trivial; try apply Hst. cbn. now rewrite app_nil_r.
  - destruct (IH (Pipeline.pipeBoundary (feed st s))) as (I1 & I2 & I3 & I4);
      [apply pipeBoundary_idle, feed_idle, Hst | reflexivity | reflexivity |].
    repeat split; trivial; try apply I1.
    rewrite I4. cbn [Pipeline.pipeBoundary Pipeline.segments keptSegments flat_map].
    unfold Pipeline.pushPartSegments.
    destruct (feed_buf st s) as (-> & ->). rewrite Hbuf. cbn [append].
    destruct (JS.isEmpty (JS.trim s)); cbn [app]; [reflexivity|].
    now rewrite <- app_assoc.
Qed.

Lemma keptSegments_nil (segs : list string) :
  Pipeline.isNil (keptSegments segs) = forallb allSpace segs.
Proof.
  induction segs as [|s rest IH]; [reflexivity|].
  cbn [keptSegments flat_map forallb].
  destruct (JS.isEmpty (JS.trim s)) eqn:E.
  - apply isEmpty_true, trim_empty_iff in E. rewrite E. exact IH.
  - destruct (allSpace s) eqn:F; [|reflexivity].
    apply trim_empty_iff in F. rewrite F in E. discriminate.
Qed.

(** A command that ends right after a pipe is rejected. *)
Lemma finish_after_pipe (st : Pipeline.State) :
  idle st -> Pipeline.buf st = EmptyString -> Pipeline.emptySegment st = true ->
  Pipeline.finish st
  = Pipeline.reject (if Pipeline.isNil (Pipeline.segments st)
                     then "empty command" else "empty pipeline segment").
Proof.
  intros (H1 & H2 & H3 & H4 & H5) Hbuf Hempty.
  unfold Pipeline.finish, Pipeline.pushPartSegments.
  rewrite H1, H2, H3, H4, H5, Hbuf, Hempty. reflexivity.
Qed.

Lemma splitShellPipeline_dangling_pipe (first : string) (others : list string) :
  plainText first = true ->
  Forall (fun s => plainText s = true /\ s <> EmptyString) others ->
  Pipeline.splitShellPipeline (pipeAfterEach (first :: others))
  = Pipeline.reject (danglingPipeReason (first :: others)).
Proof.
  intros Hfirst Hothers.
  assert (Hinit : idle Pipeline.initial) by (repeat split).
  unfold Pipeline.splitShellPipeline.
  rewrite pipeAfterEach_cons, (loop_plain first _ _ Hinit Hfirst).
  cbn [Pipeline.loop].
  destruct (pipeAfterEach_head others Hothers) as (N1 & N2).
  rewrite (step_pipe _ _ _ (feed_idle _ first Hinit) N1 N2).
  rewrite (loop_pipes others _
             (pipeBoundary_idle _ (feed_idle _ first Hinit)) Hothers).
  destruct (afterPipes_facts others (Pipeline.pipeBoundary (feed Pipeline.initial first)))
    as (I1 & I2 & I3 & I4);
    [apply pipeBoundary_idle, feed_idle, Hinit | reflexivity | reflexivity |].
  rewrite (finish_after_pipe _ I1 I2 I3), I4.
  cbn [Pipeline.pipeBoundary Pipeline.segments].
  unfold Pipeline.pushPartSegments.
  destruct (feed_buf Pipeline.initial first) as (-> & ->).
  cbn [Pipeline.initial Pipeline.buf Pipeline.segments append app].
  unfold danglingPipeReason.
  change (forallb allSpace (first :: others))
    with (allSpace first && forallb allSpace others).
  rewrite <- keptSegments_nil.
  destruct (JS.isEmpty (JS.trim first)) eqn:E.
  - apply isEmpty_true, trim_empty_iff in E. rewrite E. reflexivity.
  - destruct (allSpace first) eqn:F.
    + apply trim_empty_iff in F. rewrite F in E. discriminate.
    + reflexivity.
Qed.

(** ** The chain splitter finds no chain in a text of plain segments and
    single pipes *)

Lemma chain_step_pipesOnly (st : Chain.State) (ch : ascii) (next : option ascii)
  (after : string) :
  Chain.inSingle st = false -> Chain.inDouble st = false -> Chain.escaped st = false ->
  plainChar ch || (Ascii.eqb ch "|"%char && negb (JS.nextIs next "|"%char)) = true ->
  Chain.step st ch next after = (Chain.emit st (JS.str ch) false false false, 0).
Proof.
  intros H1 H2 H3 Hc. unfold Chain.step. rewrite H1, H2, H3.
  apply orb_prop in Hc as [Hp|Hp].
  - plain_facts Hp. use_char_facts. reflexivity.
  - apply andb_prop in Hp as [Hp Hn]. apply Ascii.eqb_eq in Hp. subst ch.
    apply negb_true_iff in Hn. rewrite Hn. reflexivity.
Qed.

Lemma chain_loop_pipesOnly (s : string) :
  forall st : Chain.State,
    Chain.inSingle st = false -> Chain.inDouble st = false -> Chain.escaped st = false ->
    Chain.foundChain st = false ->
    pipesOnly s = true ->
    Chain.foundChain (Chain.loop 0 st s) = false.
Proof.
  induction s as [|c s IH]; intros st H1 H2 H3 H4 Hs; [exact H4|].
  cbn [pipesOnly] in Hs. apply andb_prop in Hs as [Hc Hs].
  cbn [Chain.loop]. rewrite (chain_step_pipesOnly st c _ _ H1 H2 H3 Hc).
  apply IH; trivial.
Qed.

Lemma splitCommandChain_pipesOnly (s : string) :
  pipesOnly s = true -> Chain.splitCommandChain s = None.
Proof.
  intros Hs. unfold Chain.splitCommandChain, Chain.splitCommandChainWithOperators,
    Chain.finish.
  rewrite (chain_loop_pipesOnly s Chain.initial); trivial.
Qed.

Lemma pipesOnly_plain (a b : string) :
  plainText a = true -> pipesOnly b = true -> pipesOnly (a ++ b) = true.
Proof.
  induction a as [|c a IH]; intros Ha Hb; [exact Hb|].
  cbn in Ha. apply andb_prop in Ha as [Hc Ha].
  cbn [append pipesOnly]. rewrite Hc, (IH Ha Hb). reflexivity.
Qed.

Lemma pipesOnly_pipeAfterEach (segs : list string) :
  Forall (fun s => plainText s = true /\ s <> EmptyString) segs ->
  pipesOnly (pipeAfterEach segs) = true.
Proof.
  induction 1 as [|s rest (Hs & Hne) Hrest IH]; [reflexivity|].
  rewrite pipeAfterEach_cons. apply pipesOnly_plain; [exact Hs|].
  cbn [pipesOnly]. rewrite IH.
  destruct (pipeAfterEach_head rest Hrest) as (-> & _).
  rewrite orb_true_r. reflexivity.
Qed.

(** C4 (amended).  For every command made of plain segments, each
    followed by a pipe (so that the command ends right after a top-level
    pipe; the segments after the first are not empty, so that no pipe
    follows a pipe), [splitShellPipeline], and hence
    [analyzeShellCommand] in POSIX mode, returns ok false, with reason
    [empty pipeline segment] when some segment is not blank and [empty
    command] when all are blank. *)
Theorem dangling_pipe_is_rejected :
  forall (H : Host) (first : string) (others : list string)
         (cwd : option string) (env : option ProcessEnv) (platform : option string),
    plainText first = true ->
    Forall (fun s => plainText s = true /\ s <> EmptyString) others ->
    isWindowsPlatform platform = false ->
    Pipeline.splitShellPipeline (pipeAfterEach (first :: others))
    = Pipeline.reject (danglingPipeReason (first :: others))
    /\ analyzeShellCommand H (pipeAfterEach (first :: others)) cwd env platform
       = failed (Some (danglingPipeReason (first :: others))).
Proof.
  intros H first others cwd env platform Hfirst Hothers Hplat.
  pose proof (splitShellPipeline_dangling_pipe first others Hfirst Hothers) as Hsplit.
  split; [exact Hsplit|].
  unfold analyzeShellCommand. rewrite Hplat.
  rewrite splitCommandChain_pipesOnly, Hsplit; [reflexivity|].
  rewrite pipeAfterEach_cons. apply pipesOnly_plain; [exact Hfirst|].
  cbn [pipesOnly]. rewrite (pipesOnly_pipeAfterEach others Hothers).
  destruct (pipeAfterEach_head others Hothers) as (-> & _).
  rewrite orb_true_r. reflexivity.
Qed.

(** The dangling pipes [a |] and [a | b |], through the theorem. *)
Lemma dangling_pipe_is_rejected_witness :
  (Pipeline.splitShellPipeline "a |" = Pipeline.reject "empty pipeline segment"
   /\ analyzeShellCommand Reference.host "a |" None None None
      = failed (Some "empty pipeline segment"))
  /\ (Pipeline.splitShellPipeline "a | b |" = Pipeline.reject "empty pipeline segment"
      /\ analyzeShellCommand Reference.host "a | b |" None None None
         = failed (Some "empty pipeline segment")).
Proof.
  split.
  - apply (dangling_pipe_is_rejected Reference.host "a " [] None None None).
    + reflexivity.
    + constructor.
    + reflexivity.
  - apply (dangling_pipe_is_rejected Reference.host "a " [" b "] None None None).
    + reflexivity.
    + constructor; [split; [reflexivity | discriminate] | constructor].
    + reflexivity.
Defined.

(** C4, as stated, fails: a command that is a single pipe has an empty
    segment on both sides of a top-level pipe, and the reason is [empty
    command]. *)
Lemma lone_pipe_counterexample :
  Pipeline.splitShellPipeline "|" = Pipeline.reject "empty command"
  /\ analyzeShellCommand Reference.host "|" None None None
     = failed (Some "empty command").
Proof. split; reflexivity. Qed.

(** What the segmenter does with an empty segment that is not at the very
    end of the input: any character after a pipe, a blank included,
    clears the flag that the pipe sets, and a blank buffer is dropped
    when the next segment is pushed. *)
Example empty_segments_not_at_the_end :
  Pipeline.splitShellPipeline "ls | "
  = {| Pipeline.split_ok := true; Pipeline.split_reason := None;
       Pipeline.split_segments := ["ls"] |}
  /\ Pipeline.splitShellPipeline "| ls"
     = {| Pipeline.split_ok := true; Pipeline.split_reason := None;
          Pipeline.split_segments := ["ls"] |}
  /\ Pipeline.splitShellPipeline "a | | b"
     = {| Pipeline.split_ok := true; Pipeline.split_reason := None;
          Pipeline.split_segments := ["a"; "b"] |}.
Proof. repeat split; reflexivity. Qed.

(* ================================================================== *)
(** * Heredocs in the segmenter *)
(* ================================================================== *)

Lemma loop_skip (x : string) :
  forall (st : Pipeline.State) (rest : string),
    Pipeline.loop (String.length x) st (x ++ rest) = Pipeline.loop 0 st rest.
Proof.
  induction x as [|c x IH]; intros st rest; [reflexivity|]. cbn. apply IH.
Qed.

Lemma takeWhile_append (p : ascii -> bool) (a : string) (c : ascii) (rest : string) :
  forallChar p a = true -> p c = false ->
  NodePath.takeWhile p (a ++ String c rest) = a
  /\ NodePath.dropWhile p (a ++ String c rest) = String c rest.
Proof.
  intros Ha Hc. induction a as [|x a IH]; cbn.
  - rewrite Hc. split; reflexivity.
  - cbn in Ha. apply andb_prop in Ha as [Hx Ha]. rewrite Hx.
    destruct (IH Ha) as (-> & ->). split; reflexivity.
Qed.

Lemma quotedDelimiter_plain (q ch : ascii) (t acc : string) (n : nat) :
  Ascii.eqb ch JS.BSL = false -> isNewline ch = false -> Ascii.eqb ch q = false ->
  Pipeline.quotedDelimiter q (String ch t) acc n
  = Pipeline.quotedDelimiter q t (JS.snoc acc ch) (n + 1).
Proof.
  intros H1 H2 H3. cbn [Pipeline.quotedDelimiter].
  rewrite H1, H2, H3, andb_false_r. destruct t; reflexivity.
Qed.

Lemma quotedDelimiter_reads (q : ascii) (d rest : string) :
  q = JS.SQ \/ q = JS.DQ ->
  quotableDelimiter d = true ->
  forall (acc : string) (n : nat),
    Pipeline.quotedDelimiter q (d ++ String q rest) acc n
    = Some (acc ++ d, n + String.length d + 1).
Proof.
  intros Hq Hd. induction d as [|c d IH]; intros acc n.
  - cbn [append Pipeline.quotedDelimiter String.length].
    rewrite append_nil_r, Nat.add_0_r, Ascii.eqb_refl.
    destruct Hq as [-> | ->]; destruct rest; reflexivity.
  - cbn in Hd. apply andb_prop in Hd as [Hc Hd].
    rewrite negb_true_iff in Hc. unfold JS.memChar in Hc. cbn [existsb] in Hc.
    repeat (apply orb_false_elim in Hc as [? Hc]).
    assert (Hcq : Ascii.eqb c q = false) by (destruct Hq as [-> | ->]; assumption).
    cbn [append].
    rewrite quotedDelimiter_plain; trivial;
      [|unfold isNewline; use_char_facts; reflexivity].
    rewrite (IH Hd). unfold JS.snoc, JS.str. rewrite append_assoc. cbn [append String.length].
    f_equal. f_equal. lia.
Qed.

Lemma parseHeredocDelimiter_quoted (sp : string) (q : ascii) (d rest : string) :
  blanks sp = true -> q = JS.SQ \/ q = JS.DQ -> quotableDelimiter d = true ->
  Pipeline.parseHeredocDelimiter (sp ++ quotedWord q d ++ rest)
  = Some (d, String.length (sp ++ quotedWord q d), true).
Proof.
  intros Hsp Hq Hd. unfold Pipeline.parseHeredocDelimiter, quotedWord, JS.str.
  cbn [append]. rewrite append_assoc. cbn [append].
  assert (Hqb : Pipeline.isBlank q = false) by (destruct Hq as [-> | ->]; reflexivity).
  destruct (takeWhile_append Pipeline.isBlank sp q (d ++ String q rest) Hsp Hqb)
    as (-> & ->).
  assert (Hqq : Ascii.eqb q JS.SQ || Ascii.eqb q JS.DQ = true)
    by (destruct Hq as [-> | ->]; reflexivity).
  rewrite Hqq, (quotedDelimiter_reads q d rest Hq Hd). cbn [append].
  rewrite !length_append. cbn [String.length].
  do 3 f_equal. rewrite length_append. cbn [String.length]. lia.
Qed.



Lemma step_heredoc (st : Pipeline.State) (after : string) :
  idle st ->
  Pipeline.step st "<"%char (Some "<"%char) after = Pipeline.heredocStart st after.
Proof.
  intros (H1 & H2 & H3 & H4 & H5). unfold Pipeline.step.
  rewrite H1, H2, H3, H4, H5. reflexivity.
Qed.

Lemma step_newline_opens (base : Pipeline.State) (h : Pipeline.HeredocSpec)
  (next : option ascii) (after : string) :
  idle base ->
  Pipeline.step (Pipeline.setHeredoc base [h] false EmptyString) JS.LF next after
  = Pipeline.Next (inBody base [h] EmptyString) 0.
Proof.
  intros (H1 & H2 & H3 & H4 & H5). unfold Pipeline.step.
  cbn [Pipeline.setHeredoc Pipeline.inHeredocBody Pipeline.escaped Pipeline.inSingle
       Pipeline.inDouble Pipeline.pendingHeredocs].
  rewrite H1, H2, H3. reflexivity.
Qed.

(** An open heredoc word, with its line terminator, read outside quotes:
    the word joins the buffer, the heredoc is queued, and the scanner is
    in the heredoc body. *)
Lemma loop_heredoc_open (st : Pipeline.State) (word rest : string)
  (d : string) (q : bool) :
  idle st ->
  JS.nextIs (JS.head (word ++ String JS.LF rest)) "-"%char = false ->
  Pipeline.parseHeredocDelimiter (word ++ String JS.LF rest)
  = Some (d, String.length word, q) ->
  Pipeline.loop 0 st ("<<" ++ word ++ String JS.LF rest)
  = Pipeline.loop 0
      (inBody (Pipeline.emitPlain st ("<<" ++ word))
         [ {| Pipeline.delimiter := d; Pipeline.stripTabs := false; Pipeline.quoted := q |} ]
         EmptyString)
      rest.
Proof.
  intros Hst Hdash Hparse.
  cbn [append Pipeline.loop JS.head]. rewrite (step_heredoc st _ Hst).
  unfold Pipeline.heredocStart. cbn [JS.drop].
  rewrite Hdash, Hparse.
  cbn [Nat.add Pipeline.loop].
  rewrite loop_skip. cbn [Pipeline.loop].
  rewrite take_append, emitPlain_emitPlain.
  destruct Hst as (H1 & H2 & H3 & H4 & H5).
  cbn [Pipeline.emitPlain Pipeline.emit Pipeline.pendingHeredocs Pipeline.inHeredocBody
       Pipeline.heredocLine].
  rewrite H4, H5. cbn [app].
  match goal with
  | |- context [Pipeline.step ?s JS.LF ?n ?a] =>
      replace (Pipeline.step s JS.LF n a)
        with (Pipeline.Next
                (inBody (Pipeline.emitPlain st ("<<" ++ word))
                   [ {| Pipeline.delimiter := d; Pipeline.stripTabs := false;
                        Pipeline.quoted := q |} ] EmptyString) 0)
  end; [reflexivity|].
  unfold Pipeline.step.
  cbn [Pipeline.setHeredoc Pipeline.inHeredocBody Pipeline.escaped Pipeline.inSingle
       Pipeline.inDouble Pipeline.pendingHeredocs Pipeline.emitPlain Pipeline.emit].
  rewrite H1, H2, H3. reflexivity.
Qed.

Lemma body_chars (l : string) :
  forall (base : Pipeline.State) (pending : list Pipeline.HeredocSpec) (acc rest : string),
    hasNewline l = false ->
    Pipeline.loop 0 (inBody base pending acc) (l ++ rest)
    = Pipeline.loop 0 (inBody base pending (acc ++ l)) rest.
Proof.
  induction l as [|c l IH]; intros base pending acc rest Hl.
  - now rewrite append_nil_r.
  - cbn in Hl. apply orb_false_elim in Hl as [Hc Hl].
    transitivity (Pipeline.loop 0 (inBody base pending (JS.snoc acc c)) (l ++ rest)).
    + cbn [append Pipeline.loop]. unfold Pipeline.step.
      cbn [inBody Pipeline.setHeredoc Pipeline.inHeredocBody Pipeline.pendingHeredocs
           Pipeline.heredocLine].
      rewrite Hc. reflexivity.
    + rewrite (IH base pending (JS.snoc acc c) rest Hl).
      unfold JS.snoc, JS.str. now rewrite append_assoc.
Qed.

(** A body line that is not the delimiter and that is not refused leaves
    the scanner in the body, at the start of the next line. *)
Lemma body_line_kept (base : Pipeline.State) (h : Pipeline.HeredocSpec)
  (pending : list Pipeline.HeredocSpec) (l rest : string) :
  hasNewline l = false ->
  Pipeline.delimiterLine h l = false ->
  Pipeline.quoted h = true \/ Pipeline.hasUnquotedHeredocExpansionToken l = false ->
  Pipeline.loop 0 (inBody base (h :: pending) EmptyString) (l ++ String JS.LF rest)
  = Pipeline.loop 0 (inBody base (h :: pending) EmptyString) rest.
Proof.
  intros Hl Hd Hq. rewrite (body_chars l base (h :: pending) EmptyString _ Hl).
  cbn [append Pipeline.loop]. unfold Pipeline.step, Pipeline.heredocLineEnd.
  cbn [inBody Pipeline.setHeredoc Pipeline.inHeredocBody Pipeline.pendingHeredocs
       Pipeline.heredocLine].
  change (isNewline JS.LF) with true. cbv iota. rewrite Hd.
  destruct Hq as [Hq|Hq]; rewrite Hq; [|rewrite andb_false_r]; reflexivity.
Qed.


(** The delimiter as the last line, without a line terminator, closes the
    heredoc at the end of the input. *)
Lemma body_closed (base : Pipeline.State) (h : Pipeline.HeredocSpec) (l : string) :
  idle base ->
  hasNewline l = false ->
  Pipeline.delimiterLine h l = true ->
  Pipeline.emptySegment base = false ->
  allSpace (Pipeline.buf base) = false ->
  match Pipeline.loop 0 (inBody base [h] EmptyString) l with
  | inl st => Pipeline.finish st
  | inr r => r
  end
  = {| Pipeline.split_ok := true; Pipeline.split_reason := None;
       Pipeline.split_segments :=
         (Pipeline.segments base ++ [JS.trim (Pipeline.buf base)])%list |}.
Proof.
  intros (H1 & H2 & H3 & H4 & H5) Hl Hd He Hb.
  rewrite <- (append_nil_r l) at 1.
  rewrite (body_chars l base [h] EmptyString EmptyString Hl).
  cbn [append Pipeline.loop]. unfold Pipeline.finish, Pipeline.pushPartSegments.
  cbn [inBody Pipeline.setHeredoc Pipeline.inHeredocBody Pipeline.pendingHeredocs
       Pipeline.heredocLine Pipeline.escaped Pipeline.inSingle Pipeline.inDouble
       Pipeline.emptySegment Pipeline.buf Pipeline.segments andb tl Pipeline.isNil].
  rewrite Hd, H1, H2, H3, He, (allSpace_false_trim _ Hb).
  cbn [negb orb andb Pipeline.isNil].
  destruct (Pipeline.segments base); reflexivity.
Qed.



Lemma heredocLines_cons (l : string) (body : list string) :
  heredocLines (l :: body) = l ++ String JS.LF (heredocLines body).
Proof.
  unfold heredocLines, JS.str. cbn [map String.concat].
  destruct (map _ body) eqn:E.
  - reflexivity.
  - change (EmptyString ++ ?x) with x. now rewrite append_assoc.
Qed.

Lemma blank_word_head (sp : string) (c : ascii) (rest : string) :
  blanks sp = true -> Ascii.eqb c "-"%char = false ->
  JS.nextIs (JS.head (sp ++ String c rest)) "-"%char = false.
Proof.
  destruct sp as [|b sp]; intros Hsp Hc; cbn; [exact Hc|].
  cbn in Hsp. apply andb_prop in Hsp as [Hb _].
  unfold Pipeline.isBlank in Hb.
  apply orb_prop in Hb as [Hb|Hb]; apply Ascii.eqb_eq in Hb; subst b; reflexivity.
Qed.

Lemma body_lines_kept (base : Pipeline.State) (h : Pipeline.HeredocSpec)
  (body : list string) (rest : string) :
  Pipeline.stripTabs h = false -> Pipeline.quoted h = true ->
  Forall (fun l => hasNewline l = false /\ l <> Pipeline.delimiter h) body ->
  Pipeline.loop 0 (inBody base [h] EmptyString) (heredocLines body ++ rest)
  = Pipeline.loop 0 (inBody base [h] EmptyString) rest.
Proof.
  intros Hs Hq. induction 1 as [|l body (Hl & Hne) _ IH]; [reflexivity|].
  rewrite heredocLines_cons, append_assoc. cbn [append].
  rewrite body_line_kept; [exact IH | exact Hl | | left; exact Hq].
  unfold Pipeline.delimiterLine. rewrite Hs. now apply String.eqb_neq.
Qed.


Lemma quotable_no_newline (d : string) :
  quotableDelimiter d = true -> hasNewline d = false.
Proof.
  induction d as [|c d IH]; [reflexivity|].
  cbn. intros Hd. apply andb_prop in Hd as [Hc Hd].
  rewrite negb_true_iff in Hc. unfold JS.memChar in Hc. cbn [existsb] in Hc.
  repeat (apply orb_false_elim in Hc as [? Hc]).
  unfold isNewline. use_char_facts. exact (IH Hd).
Qed.



(** The chain splitter that [analyzeShellCommand] runs first does not
    know heredocs: a body line that holds a chain operator is cut there,
    and the part that opens the heredoc is then unterminated, whatever
    the quoting of the delimiter. *)
Example heredoc_body_with_chain_operator :
  Pipeline.splitShellPipeline
    ("/usr/bin/cat <<'EOF'" ++ String JS.LF ("a; b" ++ String JS.LF "EOF"))
  = {| Pipeline.split_ok := true; Pipeline.split_reason := None;
       Pipeline.split_segments := ["/usr/bin/cat <<'EOF'"] |}
  /\ analyzeShellCommand Reference.host
       ("/usr/bin/cat <<'EOF'" ++ String JS.LF ("a; b" ++ String JS.LF "EOF"))
       None None None
     = failed (Some "unterminated heredoc").
Proof. split; reflexivity. Qed.



(* ================================================================== *)
(** * Reading a command text by the quoting rules *)
(* ================================================================== *)

Lemma lookahead_append (a b : string) (k : option ascii) :
  lookahead (a ++ b) k = lookahead a (lookahead b k).
Proof. destruct a; reflexivity. Qed.

(** The reading of a text goes through the reading of its parts. *)
Lemma scanK_append (a b : string) (k : option ascii) :
  forall (q : Quoting) (esc : bool),
    scanK q esc (a ++ b) k
    = match scanK q esc a (lookahead b k) with
      | Live => Live
      | Ends q' esc' => scanK q' esc' b k
      end.
Proof.
  induction a as [|c a IH]; intros q esc; [reflexivity|].
  cbn [append scanK]. rewrite lookahead_append.
  destruct esc; [apply IH|].
  destruct q;
    repeat match goal with
           | |- context [if ?b then _ else _] => destruct b
           end; first [reflexivity | apply IH].
Qed.

Lemma scanK_live_append (a b : string) (k : option ascii) (q : Quoting) (esc : bool) :
  scanK q esc a (lookahead b k) = Live -> scanK q esc (a ++ b) k = Live.
Proof. intros E. now rewrite scanK_append, E. Qed.

(** Only [(] as the following character can change whether a reading is
    live. *)
Lemma isLive_lookahead (s : string) (k : option ascii) :
  JS.nextIs k "("%char = false ->
  forall (q : Quoting) (esc : bool),
    isLive (scanK q esc s k) = isLive (scanK q esc s None).
Proof.
  intros Hk. induction s as [|c s IH]; intros q esc; [reflexivity|].
  cbn [scanK]. destruct s as [|d s].
  - cbn [lookahead JS.nextIs]. rewrite Hk.
    destruct esc; [reflexivity|].
    destruct q; cbn [scanK];
      repeat match goal with
             | |- context [if ?b then _ else _] => destruct b eqn:?
             end; try reflexivity.
    all: repeat match goal with
                | E : _ && _ = true |- _ => apply andb_prop in E as [? ?]
                | E : Ascii.eqb ?x _ = true |- _ => apply Ascii.eqb_eq in E; subst x
                end; cbn in *; congruence.
  - cbn [lookahead]. destruct esc; [apply IH|].
    destruct q;
      repeat match goal with
             | |- context [if ?b then _ else _] => destruct b
             end; first [reflexivity | apply IH].
Qed.

Lemma scanK_neutral (c : ascii) (t : string) (k : option ascii) :
  quoteNeutral c = true ->
  scanK Unquoted false (String c t) k = scanK Unquoted false t k.
Proof.
  intros Hc. unfold quoteNeutral, JS.memChar in Hc. cbn [existsb] in Hc.
  rewrite negb_true_iff in Hc. repeat (apply orb_false_elim in Hc as [? Hc]).
  cbn [scanK]. use_char_facts. reflexivity.
Qed.

Lemma space_is_neutral (c : ascii) : JS.isSpace c = true -> quoteNeutral c = true.
Proof.
  unfold JS.isSpace. intros Hc.
  repeat (apply orb_prop in Hc as [Hc|Hc]);
    apply Ascii.eqb_eq in Hc; subst c; reflexivity.
Qed.

Lemma scanK_skip_space (ws x : string) (k : option ascii) :
  allSpace ws = true ->
  scanK Unquoted false (ws ++ x) k = scanK Unquoted false x k.
Proof.
  induction ws as [|c ws IH]; intros Hws; [reflexivity|].
  rewrite allSpace_cons in Hws. apply andb_prop in Hws as [Hc Hws].
  cbn [append]. rewrite (scanK_neutral c _ k (space_is_neutral c Hc)). exact (IH Hws).
Qed.

Lemma scanK_space_not_live (ws : string) (k : option ascii) :
  allSpace ws = true ->
  forall (q : Quoting) (esc : bool), isLive (scanK q esc ws k) = false.
Proof.
  induction ws as [|c ws IH]; intros Hws q esc; [reflexivity|].
  rewrite allSpace_cons in Hws. apply andb_prop in Hws as [Hc Hws].
  apply space_is_neutral in Hc.
  unfold quoteNeutral, JS.memChar in Hc. cbn [existsb] in Hc.
  rewrite negb_true_iff in Hc. repeat (apply orb_false_elim in Hc as [? Hc]).
  cbn [scanK]. destruct esc; [apply (IH Hws)|].
  destruct q; use_char_facts; cbn [andb]; apply (IH Hws).
Qed.

Lemma lookahead_space (ws : string) :
  allSpace ws = true -> JS.nextIs (lookahead ws None) "("%char = false.
Proof.
  destruct ws as [|c ws]; [reflexivity|].
  rewrite allSpace_cons. intros Hws. apply andb_prop in Hws as [Hc _].
  cbn. unfold JS.isSpace in Hc.
  repeat (apply orb_prop in Hc as [Hc|Hc]);
    apply Ascii.eqb_eq in Hc; subst c; reflexivity.
Qed.

(** Trimming a text does not change whether its reading is live. *)
Lemma liveSubstitution_trim (s : string) :
  liveSubstitution (JS.trim s) = liveSubstitution s.
Proof.
  destruct (trim_split s) as (ws1 & ws2 & H1 & H2 & E).
  unfold liveSubstitution. rewrite E at 2.
  rewrite (scanK_skip_space ws1 _ None H1), scanK_append.
  rewrite <- (isLive_lookahead (JS.trim s) (lookahead ws2 None) (lookahead_space ws2 H2)).
  destruct (scanK Unquoted false (JS.trim s) (lookahead ws2 None)); [reflexivity|].
  cbn [isLive]. symmetry. apply scanK_space_not_live, H2.
Qed.

Lemma hasHeredocOperator_append (a b : string) :
  hasHeredocOperator (a ++ b) = false ->
  hasHeredocOperator a = false /\ hasHeredocOperator b = false.
Proof.
  induction a as [|c a IH]; intros H; [split; [reflexivity | exact H]|].
  cbn [append hasHeredocOperator] in H |- *.
  apply orb_false_elim in H as [Hc H]. destruct (IH H) as (Ha & Hb).
  split; [|exact Hb]. rewrite Ha, orb_false_r.
  destruct (Ascii.eqb c "<"%char); [|reflexivity]. cbn [andb] in Hc |- *.
  destruct a as [|d a]; [reflexivity | exact Hc].
Qed.

Lemma hasHeredocOperator_trim (s : string) :
  hasHeredocOperator s = false -> hasHeredocOperator (JS.trim s) = false.
Proof.
  destruct (trim_split s) as (ws1 & ws2 & _ & _ & E). intros H. rewrite E in H.
  apply hasHeredocOperator_append in H as [_ H].
  now apply hasHeredocOperator_append in H as [H _].
Qed.

(* ================================================================== *)
(** * The segmenter agrees with the reading *)
(* ================================================================== *)

Lemma agree_rejected (r : Pipeline.Split) (sc : Scan) :
  isSubstitutionReason (Pipeline.split_reason r) = false \/ sc = Live ->
  Agree (inr r) sc.
Proof.
  intros [Hr| ->]; [|now exists r].
  destruct sc; [now exists r|]. intros r' E. now injection E as <-.
Qed.

Lemma lookahead_head (t : string) : lookahead t None = JS.head t.
Proof. destruct t; reflexivity. Qed.

Lemma special_cases (c : ascii) :
  plainChar c = false -> In c shellSpecials.
Proof.
  unfold plainChar, JS.memChar. rewrite negb_false_iff, existsb_exists.
  intros (x & Hin & Hx). apply Ascii.eqb_eq in Hx. now subst x.
Qed.

Lemma plain_is_neutral (c : ascii) : plainChar c = true -> quoteNeutral c = true.
Proof.
  intros Hp. plain_facts Hp. unfold quoteNeutral, JS.memChar. cbn [existsb].
  now use_char_facts.
Qed.


Lemma loop_agrees (l : string) :
  (forall (st : Pipeline.State) (q : Quoting) (esc : bool),
      syncP st q esc -> hasHeredocOperator l = false ->
      Agree (Pipeline.loop 0 st l) (scanK q esc l None))
  /\ (forall st : Pipeline.State,
         syncP st DoubleQuoted false -> hasHeredocOperator l = false ->
         Agree (Pipeline.loop 1 st l) (scanK DoubleQuoted true l None)).
Proof.
  induction l as [|c t (IH0 & IH1)].
  - split; intros; cbn; intros r E; discriminate E.
  - split.
    + intros st q esc Hsync Hno.
      cbn [hasHeredocOperator] in Hno. apply orb_false_elim in Hno as [Hc Ht].
      cbn [Pipeline.loop scanK]. rewrite lookahead_head.
      destruct q.
      * (* outside quotes *)
        sync_fields Hsync. destruct esc.
        { unfold Pipeline.step. rewrite Hbody, Hescaped.
          apply IH0; [|exact Ht]. repeat split; assumption. }
        destruct (plainChar c) eqn:Hp.
        { rewrite step_plain; [|repeat split; assumption | exact Hp].
          rewrite <- (lookahead_head t).
          change (scanK Unquoted false t None)
            with (scanK Unquoted false t None).
          pose proof (scanK_neutral c t None (plain_is_neutral c Hp)) as E.
          cbn [scanK] in E. rewrite E.
          apply IH0; [|exact Ht]. repeat split; assumption. }
        apply special_cases in Hp. unfold shellSpecials in Hp.
        unfold Pipeline.step. rewrite Hbody, Hescaped, Hsingle, Hdouble, Hpending.
        unfold isNewline, DISALLOWED_PIPELINE_TOKENS, JS.memChar.
        cbn [existsb].
        in_cases Hp; subst c; eval_closed_eqb;
          cbn [negb andb orb Pipeline.isNil];
          repeat match goal with
                 | |- context [if JS.nextIs ?n ?x then _ else _] =>
                     destruct (JS.nextIs n x) eqn:?
                 end.
        all: try (apply agree_rejected; left; reflexivity).
        all: try (apply agree_rejected; right; reflexivity).
        all: try (apply IH0; [repeat split; assumption | exact Ht]).
        all: try (change (Ascii.eqb "<" "<") with true in Hc; cbn [andb] in Hc;
                  congruence).
      * (* inside single quotes *)
        destruct Hsync as (Hbody & Hpending & Hsingle & Hdouble & Hescaped & ->).
        unfold Pipeline.step. rewrite Hbody, Hescaped, Hsingle. cbn [negb andb].
        destruct (Ascii.eqb c JS.SQ); cbn [negb];
          (apply IH0; [repeat split; assumption | exact Ht]).
      * (* inside double quotes *)
        destruct Hsync as (Hbody & Hpending & Hsingle & Hdouble & Hescaped & ->).
        unfold Pipeline.step. rewrite Hbody, Hescaped, Hsingle, Hdouble.
        cbn [negb andb].
        destruct (Ascii.eqb c JS.BSL && isDoubleQuoteEscape (JS.head t)) eqn:Hesc.
        { apply IH1; [repeat split; assumption | exact Ht]. }
        destruct (Ascii.eqb c "$"%char && JS.nextIs (JS.head t) "("%char) eqn:Hdollar.
        { apply andb_prop in Hdollar as [Hd _]. apply Ascii.eqb_eq in Hd. subst c.
          (apply agree_rejected; right; reflexivity). }
        destruct (Ascii.eqb c JS.BTICK) eqn:Htick.
        { apply Ascii.eqb_eq in Htick. subst c. (apply agree_rejected; right; reflexivity). }
        destruct (isNewline c) eqn:Hnl; [(apply agree_rejected; left; reflexivity)|].
        destruct (Ascii.eqb c JS.DQ); cbn [negb];
          (apply IH0; [repeat split; assumption | exact Ht]).
    + intros st Hsync Hno.
      cbn [hasHeredocOperator] in Hno. apply orb_false_elim in Hno as [_ Ht].
      cbn [Pipeline.loop scanK]. now apply IH0.
Qed.

Lemma finish_reason_inert (st : Pipeline.State) :
  isSubstitutionReason (Pipeline.split_reason (Pipeline.finish st)) = false.
Proof.
  unfold Pipeline.finish.
  repeat match goal with
         | |- context [if ?b then _ else _] => destruct b
         end; reflexivity.
Qed.

Lemma initial_sync : syncP Pipeline.initial Unquoted false.
Proof. repeat split. Qed.

(** A live reading without a heredoc operator is rejected. *)
Lemma splitShellPipeline_rejects_live (s : string) :
  liveSubstitution s = true -> hasHeredocOperator s = false ->
  Pipeline.split_ok (Pipeline.splitShellPipeline s) = false.
Proof.
  intros Hlive Hno. unfold Pipeline.splitShellPipeline.
  pose proof (proj1 (loop_agrees s) _ _ _ initial_sync Hno) as HA.
  unfold liveSubstitution in Hlive.
  destruct (scanK Unquoted false s None); [|discriminate].
  destruct HA as (r & E). rewrite E.
  destruct (loop_return _ _ _ _ E) as (why & ->). reflexivity.
Qed.

(** A reading that is not live is not rejected for command substitution. *)
Lemma splitShellPipeline_reason_inert (s : string) :
  liveSubstitution s = false -> hasHeredocOperator s = false ->
  isSubstitutionReason (Pipeline.split_reason (Pipeline.splitShellPipeline s)) = false.
Proof.
  intros Hlive Hno. unfold Pipeline.splitShellPipeline.
  pose proof (proj1 (loop_agrees s) _ _ _ initial_sync Hno) as HA.
  unfold liveSubstitution in Hlive.
  destruct (scanK Unquoted false s None); [discriminate|].
  destruct (Pipeline.loop 0 Pipeline.initial s) as [st|r].
  - apply finish_reason_inert.
  - now apply HA.
Qed.

(* ================================================================== *)
(** * The chain splitter keeps live readings *)
(* ================================================================== *)

Lemma nextIs_head (t : string) (c : ascii) :
  JS.nextIs (JS.head t) c = true -> exists rest, t = String c rest.
Proof.
  destruct t as [|d t]; [discriminate|]. cbn. intros E.
  apply Ascii.eqb_eq in E. subst d. now exists t.
Qed.

Lemma chain_step_cases (st : Chain.State) (c : ascii) (after : string) :
  ChainStep st c after (Chain.step st c (JS.head after) after).
Proof.
  unfold Chain.step.
  repeat match goal with
         | |- context [if ?b then _ else _] => destruct b eqn:?
         end;
    try (apply ChainStep_emit; reflexivity).
  - match goal with
    | E : _ && isDoubleQuoteEscape _ = true |- _ =>
        apply andb_prop in E as [_ E]
    end.
    destruct after as [|d rest]; [discriminate|].
    apply (ChainStep_escape st c (String d rest) _ d rest); reflexivity.
  - match goal with
    | E : Ascii.eqb c "&"%char && _ = true |- _ => apply andb_prop in E as [E1 E2]
    end.
    apply Ascii.eqb_eq in E1. subst c.
    destruct (nextIs_head _ _ E2) as (rest & ->).
    apply ChainStep_boundary; [reflexivity | cbn; lia].
  - match goal with
    | E : Ascii.eqb c "|"%char && _ = true |- _ => apply andb_prop in E as [E1 E2]
    end.
    apply Ascii.eqb_eq in E1. subst c.
    destruct (nextIs_head _ _ E2) as (rest & ->).
    apply ChainStep_boundary; [reflexivity | cbn; lia].
  - match goal with
    | E : Ascii.eqb c ";"%char = true |- _ => apply Ascii.eqb_eq in E; subst c
    end.
    apply ChainStep_boundary; [reflexivity | cbn; lia].
Qed.

Lemma hasHeredocOperator_drop (k : nat) :
  forall s : string,
    hasHeredocOperator s = false -> hasHeredocOperator (JS.drop k s) = false.
Proof.
  induction k as [|k IH]; intros s Hs; [destruct s; exact Hs|].
  destruct s as [|c s]; [exact Hs|]. cbn [JS.drop]. apply IH.
  cbn [hasHeredocOperator] in Hs. now apply orb_false_elim in Hs as [_ Hs].
Qed.

Lemma boundary_parts (st : Chain.State) (op : ShellChainOperator) :
  Chain.parts (Chain.boundary st op) = Chain.parts st
  \/ Chain.parts (Chain.boundary st op)
     = (Chain.parts st ++ [ {| part := JS.trim (Chain.buf st); opToNext := Some op |} ])%list.
Proof.
  unfold Chain.boundary. cbn [Chain.parts].
  destruct (JS.isEmpty _); [left | right]; reflexivity.
Qed.

(** Every part the chain splitter collects is free of the heredoc
    operator when the command is. *)
Lemma chain_loop_no_heredoc (l : string) :
  forall (k : nat) (st : Chain.State),
    Forall (fun p => hasHeredocOperator (part p) = false) (Chain.parts st) ->
    hasHeredocOperator (Chain.buf st ++ JS.drop k l) = false ->
    Forall (fun p => hasHeredocOperator (part p) = false)
      (Chain.parts (Chain.loop k st l))
    /\ hasHeredocOperator (Chain.buf (Chain.loop k st l)) = false.
Proof.
  induction l as [|c t IH]; intros k st Hparts Hbuf.
  - cbn [Chain.loop]. split; [exact Hparts|].
    destruct k; cbn [JS.drop] in Hbuf; rewrite append_nil_r in Hbuf; exact Hbuf.
  - destruct k as [|k]; cbn [Chain.loop]; [|apply IH; assumption].
    cbn [JS.drop] in Hbuf.
    destruct (Chain.step st c (JS.head t) t) as [st' k'] eqn:E.
    pose proof (chain_step_cases st c t) as Hcase. rewrite E in Hcase.
    inversion Hcase as [st1 Hp Hb|st1 d rest Ht Hp Hb|op k1 Hc Hk]; subst.
    + apply IH; [now rewrite Hp|].
      cbn [JS.drop]. rewrite Hb, append_assoc.
      destruct t; exact Hbuf.
    + apply IH; [now rewrite Hp|].
      cbn [JS.drop]. rewrite Hb, append_assoc. cbn [append JS.str].
      destruct rest; exact Hbuf.
    + apply hasHeredocOperator_append in Hbuf as [Hb Ht].
      apply IH.
      * destruct (boundary_parts st op) as [-> | ->]; [exact Hparts|].
        apply Forall_app. split; [exact Hparts|].
        constructor; [|constructor]. cbn [part]. now apply hasHeredocOperator_trim.
      * cbn [Chain.boundary Chain.buf append]. apply hasHeredocOperator_drop.
        cbn [hasHeredocOperator] in Ht. now apply orb_false_elim in Ht as [_ Ht].
Qed.

Lemma partsLive_app (a b : list ShellChainPart) :
  partsLive (a ++ b) = partsLive a || partsLive b.
Proof. apply existsb_app. Qed.

Lemma liveSubstitution_lookahead (s : string) (c : ascii) :
  Ascii.eqb c "("%char = false ->
  scanK Unquoted false s (Some c) = Live -> liveSubstitution s = true.
Proof.
  intros Hc E. unfold liveSubstitution.
  rewrite <- (isLive_lookahead s (Some c) Hc). now rewrite E.
Qed.

Lemma boundary_char (c : ascii) :
  JS.memChar c ["&"%char; "|"%char; ";"%char] = true ->
  Ascii.eqb c "("%char = false.
Proof.
  unfold JS.memChar. cbn [existsb]. intros H.
  repeat (apply orb_prop in H as [H|H]); try discriminate;
    apply Ascii.eqb_eq in H; subst c; reflexivity.
Qed.

(** Once a live reading is found, in a part or in the buffer, the result
    has a live part. *)
Lemma chain_loop_found (l : string) :
  forall (k : nat) (st : Chain.State),
    partsLive (Chain.parts st) = true
    \/ scanK Unquoted false (Chain.buf st) (lookahead (JS.drop k l) None) = Live ->
    finalLive (Chain.loop k st l) = true.
Proof.
  induction l as [|c t IH]; intros k st Hfound.
  - cbn [Chain.loop]. unfold finalLive.
    destruct Hfound as [-> | E]; [reflexivity|].
    rewrite liveSubstitution_trim. unfold liveSubstitution.
    destruct k; cbn [JS.drop lookahead] in E; rewrite E; apply orb_true_r.
  - destruct k as [|k]; cbn [Chain.loop]; [|apply IH; exact Hfound].
    cbn [JS.drop lookahead] in Hfound.
    destruct (Chain.step st c (JS.head t) t) as [st' k'] eqn:E.
    pose proof (chain_step_cases st c t) as Hcase. rewrite E in Hcase.
    inversion Hcase as [st1 Hp Hb|st1 d rest Ht Hp Hb|op k1 Hc Hk]; subst.
    + apply IH. rewrite Hp, Hb. destruct Hfound as [-> | Hf]; [now left | right].
      apply scanK_live_append. exact Hf.
    + apply IH. rewrite Hp, Hb. destruct Hfound as [-> | Hf]; [now left | right].
      apply scanK_live_append. exact Hf.
    + apply IH. left.
      destruct Hfound as [Hf | Hf].
      * destruct (boundary_parts st op) as [-> | ->]; [exact Hf|].
        rewrite partsLive_app, Hf. reflexivity.
      * apply (liveSubstitution_lookahead _ c (boundary_char c Hc)) in Hf.
        rewrite <- liveSubstitution_trim in Hf.
        unfold Chain.boundary. cbn [Chain.parts].
        destruct (JS.isEmpty (JS.trim (Chain.buf st))) eqn:E0.
        { apply isEmpty_true in E0. rewrite E0 in Hf. discriminate. }
        rewrite partsLive_app. cbn [partsLive existsb part]. rewrite Hf.
        now rewrite orb_true_r.
Qed.



Lemma chain_step_tracks (st : Chain.State) (c : ascii) (t : string)
  (q : Quoting) (esc : bool) :
  syncC st q esc ->
  ChainTrack st c t q esc (Chain.step st c (JS.head t) t).
Proof.
  intros Hsync. unfold Chain.step. rewrite <- (lookahead_head t).
  destruct q.
  - destruct Hsync as (Hs & Hd & He). rewrite Hs, Hd, He.
    destruct esc.
    { track_emit. right. exists Unquoted, false. split; [reflexivity|]. repeat split; assumption. }
    cbn [negb andb].
    destruct (Ascii.eqb c JS.BSL) eqn:E1.
    { track_emit. right. exists Unquoted, true. cbn [scanK JS.str]. rewrite E1.
      split; [reflexivity | repeat split; assumption]. }
    destruct (Ascii.eqb c JS.SQ) eqn:E2.
    { track_emit. right. exists SingleQuoted, false. cbn [scanK JS.str]. rewrite E1, E2.
      split; [reflexivity | repeat split; assumption]. }
    destruct (Ascii.eqb c JS.DQ) eqn:E3.
    { track_emit. right. exists DoubleQuoted, false. cbn [scanK JS.str].
      rewrite E1, E2, E3. split; [reflexivity | repeat split; assumption]. }
    destruct (Ascii.eqb c "&"%char && JS.nextIs (lookahead t None) "&"%char) eqn:E4.
    { apply andb_prop in E4 as [E4 E4']. apply Ascii.eqb_eq in E4. subst c.
      rewrite lookahead_head in E4'. destruct (nextIs_head _ _ E4') as (rest & ->).
      apply ChainTrack_boundary; try reflexivity. right. split; [reflexivity|]. now exists rest. }
    destruct (Ascii.eqb c "|"%char && JS.nextIs (lookahead t None) "|"%char) eqn:E5.
    { apply andb_prop in E5 as [E5 E5']. apply Ascii.eqb_eq in E5. subst c.
      rewrite lookahead_head in E5'. destruct (nextIs_head _ _ E5') as (rest & ->).
      apply ChainTrack_boundary; try reflexivity. right. split; [reflexivity|]. now exists rest. }
    destruct (Ascii.eqb c ";"%char) eqn:E6.
    { apply Ascii.eqb_eq in E6. subst c.
      apply ChainTrack_boundary; try reflexivity. now left. }
    track_emit. cbn [scanK JS.str lookahead]. rewrite E1, E2, E3.
    destruct (Ascii.eqb c JS.BTICK); [now left|].
    destruct (Ascii.eqb c "$"%char && JS.nextIs (lookahead t None) "("%char); [now left|].
    right. exists Unquoted, false. split; [reflexivity | repeat split; assumption].
  - destruct Hsync as (Hs & Hd & He & ->). rewrite Hs, Hd, He. cbn [negb andb].
    track_emit. right. cbn [scanK JS.str].
    destruct (Ascii.eqb c JS.SQ); cbn [negb].
    + exists Unquoted, false. split; [reflexivity | repeat split; assumption].
    + exists SingleQuoted, false. split; [reflexivity | repeat split; assumption].
  - destruct Hsync as (Hs & Hd & He & ->). rewrite Hs, Hd, He. cbn [negb andb].
    destruct (Ascii.eqb c JS.BSL && isDoubleQuoteEscape (lookahead t None)) eqn:E1.
    { destruct t as [|d rest]; [apply andb_prop in E1 as [_ E1]; discriminate|].
      apply (ChainTrack_escape st c (String d rest) DoubleQuoted false _ d rest);
        try reflexivity; [exact E1 | repeat split; assumption]. }
    track_emit. cbn [scanK JS.str lookahead]. rewrite E1.
    destruct (Ascii.eqb c JS.DQ); cbn [negb].
    { right. exists Unquoted, false. split; [reflexivity | repeat split; assumption]. }
    destruct (Ascii.eqb c JS.BTICK); [now left|].
    destruct (Ascii.eqb c "$"%char && JS.nextIs (lookahead t None) "("%char); [now left|].
    right. exists DoubleQuoted, false. split; [reflexivity | repeat split; assumption].
Qed.

Lemma scanK_cons (q : Quoting) (esc : bool) (c : ascii) (t : string) (k : option ascii) :
  scanK q esc (String c t) k
  = match scanK q esc (JS.str c) (lookahead t k) with
    | Live => Live
    | Ends q' esc' => scanK q' esc' t k
    end.
Proof. exact (scanK_append (JS.str c) t k q esc). Qed.

Lemma boundary_parts_not_live (st : Chain.State) (op : ShellChainOperator) (c : ascii)
  (q : Quoting) (esc : bool) :
  Ascii.eqb c "("%char = false ->
  partsLive (Chain.parts st) = false ->
  scanK Unquoted false (Chain.buf st) (Some c) = Ends q esc ->
  partsLive (Chain.parts (Chain.boundary st op)) = false.
Proof.
  intros Hc Hparts Hscan.
  destruct (boundary_parts st op) as [-> | ->]; [exact Hparts|].
  rewrite partsLive_app, Hparts. cbn [partsLive existsb part orb].
  rewrite liveSubstitution_trim. unfold liveSubstitution.
  rewrite <- (isLive_lookahead _ (Some c) Hc), Hscan. reflexivity.
Qed.

(** While no live reading is found, the chain splitter follows the
    reading, and its result has a live part exactly when the rest of the
    text has a live reading. *)
Lemma chain_loop_tracks (l : string) :
  (forall (st : Chain.State) (q : Quoting) (esc : bool),
      syncC st q esc ->
      partsLive (Chain.parts st) = false ->
      scanK Unquoted false (Chain.buf st) (lookahead l None) = Ends q esc ->
      finalLive (Chain.loop 0 st l) = isLive (scanK q esc l None))
  /\ (forall (st : Chain.State) (q : Quoting),
         syncC st q false ->
         partsLive (Chain.parts st) = false ->
         scanK Unquoted false (Chain.buf st) (lookahead (JS.drop 1 l) None) = Ends q false ->
         finalLive (Chain.loop 1 st l) = isLive (scanK q false (JS.drop 1 l) None)).
Proof.
  induction l as [|c t (IH0 & IH1)].
  - assert (Hend : forall st q esc,
               partsLive (Chain.parts st) = false ->
               scanK Unquoted false (Chain.buf st) None = Ends q esc ->
               finalLive st = false).
    { intros st q esc Hparts Hscan. unfold finalLive.
      rewrite Hparts, liveSubstitution_trim. unfold liveSubstitution.
      now rewrite Hscan. }
    split; intros; cbn; eapply Hend; eassumption.
  - split.
    + intros st q esc Hsync Hparts Hscan. cbn [lookahead] in Hscan.
      cbn [Chain.loop]. rewrite scanK_cons.
      pose proof (chain_step_tracks st c t q esc Hsync) as Htrack.
      destruct (Chain.step st c (JS.head t) t) as [st' k'].
      inversion Htrack as [st1 Hp Hb HR|st1 d rest Ht Hq He Hesc Hp Hb Hs
                          |op k Hq He Hn Hc Hk]; subst.
      * assert (Hnew : scanK Unquoted false (Chain.buf st') (lookahead t None)
                       = scanK q esc (JS.str c) (lookahead t None)).
        { rewrite Hb, scanK_append. cbn [lookahead JS.str]. now rewrite Hscan. }
        destruct HR as [HR|(q' & esc' & HR & Hs)]; rewrite HR in Hnew |- *.
        -- cbn [isLive]. apply chain_loop_found. right. exact Hnew.
        -- apply IH0; [exact Hs | now rewrite Hp | exact Hnew].
      * assert (Hnew : scanK Unquoted false (Chain.buf st') (lookahead rest None)
                       = Ends DoubleQuoted false).
        { rewrite Hb, scanK_append. cbn [lookahead]. rewrite Hscan.
          cbn [scanK JS.str lookahead]. now rewrite Hesc. }
        rewrite (IH1 st' DoubleQuoted Hs); [| now rewrite Hp | exact Hnew].
        cbn [JS.drop scanK JS.str lookahead]. now rewrite Hesc.
      * pose proof (boundary_parts_not_live st op c Unquoted false
                      (boundary_char c Hc) Hparts Hscan) as Hnot.
        assert (Hsync' : syncC (Chain.boundary st op) Unquoted false) by exact Hsync.
        rewrite (scanK_neutral c EmptyString _ Hn). cbn [scanK].
        destruct Hk as [-> | (-> & rest & ->)].
        -- apply IH0; [exact Hsync' | exact Hnot | reflexivity].
        -- rewrite (IH1 _ Unquoted Hsync' Hnot); [|reflexivity].
           cbn [JS.drop]. now rewrite (scanK_neutral c rest None Hn).
    + intros st q Hsync Hparts Hscan. cbn [Chain.loop JS.drop] in *.
      now apply IH0.
Qed.

(** The chain parts have a live reading exactly when the command has. *)
Lemma splitCommandChain_live (cmd : string) (ps : list ShellChainPart) :
  Chain.splitCommandChainWithOperators cmd = Some ps ->
  partsLive ps = liveSubstitution cmd.
Proof.
  unfold Chain.splitCommandChainWithOperators, Chain.finish.
  pose proof (proj1 (chain_loop_tracks cmd) Chain.initial Unquoted false) as Htrack.
  destruct (negb (Chain.foundChain _)); [discriminate|].
  destruct (JS.isEmpty _); [discriminate|].
  destruct (_ || _); [discriminate|].
  intros E. injection E as <-.
  rewrite partsLive_app. cbn [partsLive existsb part].
  rewrite orb_false_r. apply Htrack; repeat split.
Qed.

Lemma splitCommandChain_no_heredoc (cmd : string) (ps : list ShellChainPart) :
  Chain.splitCommandChainWithOperators cmd = Some ps ->
  hasHeredocOperator cmd = false ->
  Forall (fun p => hasHeredocOperator (part p) = false) ps.
Proof.
  unfold Chain.splitCommandChainWithOperators, Chain.finish. intros E Hno.
  destruct (chain_loop_no_heredoc cmd 0 Chain.initial) as (Hparts & Hbuf);
    [constructor | destruct cmd; exact Hno |].
  destruct (negb (Chain.foundChain _)); [discriminate|].
  destruct (JS.isEmpty _); [discriminate|].
  destruct (_ || _); [discriminate|].
  injection E as <-. apply Forall_app. split; [exact Hparts|].
  constructor; [|constructor]. cbn [part]. now apply hasHeredocOperator_trim.
Qed.

(* ================================================================== *)
(** * Command substitution in [analyzeShellCommand] *)
(* ================================================================== *)

Lemma analyzeChainLoop_rejects (H : Host) (cwd : option string)
  (env : option ProcessEnv) (chainParts : list string) :
  Exists (fun p => Pipeline.split_ok (Pipeline.splitShellPipeline p) = false) chainParts ->
  forall chainsAcc allSegments,
    ok (analyzeChainLoop H cwd env chainsAcc allSegments chainParts) = false.
Proof.
  induction chainParts as [|p rest IH]; intros Hex chainsAcc allSegments.
  - inversion Hex.
  - cbn [analyzeChainLoop].
    destruct (Pipeline.split_ok (Pipeline.splitShellPipeline p)) eqn:E; cbn [negb];
      [|reflexivity].
    destruct (parseSegmentsFromParts H _ cwd env); [|reflexivity].
    apply IH. inversion Hex as [? ? Hhere|? ? Hlater]; subst; [congruence | exact Hlater].
Qed.

Lemma analyzeChainLoop_reason_inert (H : Host) (cwd : option string)
  (env : option ProcessEnv) (chainParts : list string) :
  Forall (fun p => isSubstitutionReason
                     (Pipeline.split_reason (Pipeline.splitShellPipeline p)) = false)
    chainParts ->
  forall chainsAcc allSegments,
    isSubstitutionReason
      (reason (analyzeChainLoop H cwd env chainsAcc allSegments chainParts)) = false.
Proof.
  induction 1 as [|p rest Hp _ IH]; intros chainsAcc allSegments; [reflexivity|].
  cbn [analyzeChainLoop].
  destruct (negb (Pipeline.split_ok (Pipeline.splitShellPipeline p))); [exact Hp|].
  destruct (parseSegmentsFromParts H _ cwd env); [apply IH | reflexivity].
Qed.

(* ================================================================== *)
(** * Commands made of words and inert quoting *)
(* ================================================================== *)

Lemma take_drop_1 (t : string) : JS.take 1 t ++ JS.drop 1 t = t.
Proof. destruct t as [|c [|d t]]; reflexivity. Qed.

Lemma readAsWords_step (st st1 st' : Pipeline.State) (text l : string) :
  Pipeline.buf st1 = Pipeline.buf st ++ text ->
  Pipeline.segments st1 = Pipeline.segments st ->
  Pipeline.emptySegment st1 = false ->
  readAsWords st1 st' l ->
  readAsWords st st' (text ++ l).
Proof.
  intros Hb Hs He (Hsync & Hbuf & Hsegs & Hempty).
  split; [exact Hsync|]. split; [|split].
  - now rewrite Hbuf, Hb, append_assoc.
  - now rewrite Hsegs, Hs.
  - intros _. exact (Hempty He).
Qed.

(** The segmenter reads a text of words and inert quoting into its
    buffer. *)
Lemma loop_words (l : string) :
  (forall (st : Pipeline.State) (q : Quoting) (esc : bool),
      syncP st q esc ->
      isLive (scanK q esc l None) = false ->
      wordsOnlyK q esc l = true ->
      exists st', Pipeline.loop 0 st l = inl st' /\ readAsWords st st' l)
  /\ (forall st : Pipeline.State,
         syncP st DoubleQuoted false ->
         isLive (scanK DoubleQuoted true l None) = false ->
         wordsOnlyK DoubleQuoted true l = true ->
         exists st', Pipeline.loop 1 st l = inl st' /\ readAsWords st st' (JS.drop 1 l)).
Proof.
  induction l as [|c t (IH0 & IH1)].
  - split.
    + intros st q esc Hsync _ Hw. exists st. split; [reflexivity|].
      cbn [wordsOnlyK] in Hw. destruct q; try discriminate.
      destruct esc; [discriminate|].
      split; [exact Hsync|]. split; [now rewrite append_nil_r|]. split; trivial.
    + intros st _ _ Hw. discriminate Hw.
  - split.
    + intros st q esc Hsync Hlive Hw.
      cbn [Pipeline.loop]. cbn [scanK] in Hlive. cbn [wordsOnlyK] in Hw.
      rewrite lookahead_head in Hlive.
      destruct q.
      * (* outside quotes *)
        sync_fields Hsync. destruct esc.
        { unfold Pipeline.step. rewrite Hbody, Hescaped.
          words_step readAsWords_step IH0 st (Pipeline.emit st (JS.str c) (Pipeline.inSingle st)
                           (Pipeline.inDouble st) false) Unquoted false (JS.str c) t Hlive Hw. }
        destruct (plainChar c) eqn:Hp.
        { rewrite step_plain; [|repeat split; assumption | exact Hp].
          pose proof Hp as Hp'. plain_facts Hp'.
          revert Hlive Hw. use_char_facts. cbn [andb]. intros Hlive Hw.
          apply andb_prop in Hw as [_ Hw].
          words_step readAsWords_step IH0 st (Pipeline.emitPlain st (JS.str c)) Unquoted false (JS.str c) t Hlive Hw. }
        apply special_cases in Hp. unfold shellSpecials in Hp.
        unfold Pipeline.step. rewrite Hbody, Hescaped, Hsingle, Hdouble, Hpending.
        unfold isNewline, DISALLOWED_PIPELINE_TOKENS, JS.memChar.
        cbn [existsb].
        in_cases Hp; subst c; revert Hlive Hw;
          unfold shellOperatorChars, JS.memChar; cbn [existsb];
          eval_closed_eqb; cbn [negb andb orb Pipeline.isNil];
          intros Hlive Hw; try discriminate Hw; try discriminate Hlive.
        -- (* backslash *)
           words_step readAsWords_step IH0 st (Pipeline.emit st (JS.str JS.BSL) false false true) Unquoted true (JS.str JS.BSL) t Hlive Hw.
        -- (* single quote *)
           words_step readAsWords_step IH0 st (Pipeline.emit st (JS.str JS.SQ) true false false) SingleQuoted false (JS.str JS.SQ) t Hlive Hw.
        -- (* double quote *)
           words_step readAsWords_step IH0 st (Pipeline.emit st (JS.str JS.DQ) false true false) DoubleQuoted false (JS.str JS.DQ) t Hlive Hw.
        -- (* dollar *)
           destruct (JS.nextIs (JS.head t) "("%char) eqn:Hnext; [discriminate Hlive|].
           words_step readAsWords_step IH0 st (Pipeline.emitPlain st "$") Unquoted false "$" t Hlive Hw.
      * (* inside single quotes *)
        destruct Hsync as (Hbody & Hpending & Hsingle & Hdouble & Hescaped & ->).
        unfold Pipeline.step. rewrite Hbody, Hescaped, Hsingle. cbn [negb andb].
        destruct (Ascii.eqb c JS.SQ); cbn [negb].
        -- words_step readAsWords_step IH0 st (Pipeline.emit st (JS.str c) false (Pipeline.inDouble st) false) Unquoted false (JS.str c) t Hlive Hw.
        -- words_step readAsWords_step IH0 st (Pipeline.emit st (JS.str c) true (Pipeline.inDouble st) false) SingleQuoted false (JS.str c) t Hlive Hw.
      * (* inside double quotes *)
        destruct Hsync as (Hbody & Hpending & Hsingle & Hdouble & Hescaped & ->).
        unfold Pipeline.step. rewrite Hbody, Hescaped, Hsingle, Hdouble.
        cbn [negb andb].
        destruct (Ascii.eqb c JS.BSL && isDoubleQuoteEscape (JS.head t)) eqn:Hesc.
        { destruct (IH1 (Pipeline.emitPlain st (String c (JS.take 1 t))))
            as (st' & E & Hread);
            [repeat split; assumption | exact Hlive | exact Hw |].
          exists st'. split; [exact E|].
          replace (String c t) with (String c (JS.take 1 t) ++ JS.drop 1 t)
            by (cbn [append]; now rewrite take_drop_1).
          exact (readAsWords_step st (Pipeline.emitPlain st (String c (JS.take 1 t))) st'
                   (String c (JS.take 1 t)) (JS.drop 1 t) eq_refl eq_refl eq_refl Hread). }
        destruct (Ascii.eqb c JS.DQ) eqn:Hdq.
        { apply Ascii.eqb_eq in Hdq. subst c. revert Hlive. eval_closed_eqb.
          cbn [andb negb]. intros Hlive.
          words_step readAsWords_step IH0 st (Pipeline.emit st (JS.str JS.DQ) false false false) Unquoted false (JS.str JS.DQ) t Hlive Hw. }
        destruct (Ascii.eqb c JS.BTICK) eqn:Htick; [discriminate Hlive|].
        destruct (Ascii.eqb c "$"%char && JS.nextIs (JS.head t) "("%char) eqn:Hdollar;
          [discriminate Hlive|].
        apply andb_prop in Hw as [Hnl Hw]. apply negb_true_iff in Hnl.
        rewrite Hnl. cbn [negb].
        words_step readAsWords_step IH0 st (Pipeline.emit st (JS.str c) false true false) DoubleQuoted false (JS.str c) t Hlive Hw.
    + intros st Hsync Hlive Hw. cbn [Pipeline.loop JS.drop].
      cbn [scanK] in Hlive. cbn [wordsOnlyK] in Hw. exact (IH0 st DoubleQuoted false Hsync Hlive Hw).
Qed.

(** The chain splitter finds no operator in a text of words and inert
    quoting. *)
Lemma chain_loop_words (l : string) :
  (forall (st : Chain.State) (q : Quoting) (esc : bool),
      syncC st q esc -> wordsOnlyK q esc l = true ->
      Chain.foundChain (Chain.loop 0 st l) = Chain.foundChain st)
  /\ (forall st : Chain.State,
         syncC st DoubleQuoted false -> wordsOnlyK DoubleQuoted true l = true ->
         Chain.foundChain (Chain.loop 1 st l) = Chain.foundChain st).
Proof.
  induction l as [|c t (IH0 & IH1)]; [split; reflexivity|].
  split.
  - intros st q esc Hsync Hw. cbn [Chain.loop]. cbn [wordsOnlyK] in Hw.
    destruct q.
    + (* outside quotes *)
      destruct Hsync as (Hsingle & Hdouble & Hescaped). destruct esc.
      { unfold Chain.step. rewrite Hescaped.
        now rewrite (IH0 _ Unquoted false) by (trivial; repeat split; assumption). }
      destruct (plainChar c) eqn:Hp.
      { rewrite (chain_step_pipesOnly st c _ _ Hsingle Hdouble Hescaped)
          by (rewrite Hp; reflexivity).
        pose proof Hp as Hp'. plain_facts Hp'.
        revert Hw. use_char_facts. intros Hw. apply andb_prop in Hw as [_ Hw].
        now rewrite (IH0 _ Unquoted false) by (trivial; repeat split). }
      apply special_cases in Hp. unfold shellSpecials in Hp.
      unfold Chain.step. rewrite Hescaped, Hsingle, Hdouble.
      in_cases Hp; subst c; revert Hw;
        unfold shellOperatorChars, JS.memChar; cbn [existsb];
        eval_closed_eqb; cbn [negb andb orb];
        intros Hw; try discriminate Hw.
      * now rewrite (IH0 _ Unquoted true) by (trivial; repeat split).
      * now rewrite (IH0 _ SingleQuoted false) by (trivial; repeat split).
      * now rewrite (IH0 _ DoubleQuoted false) by (trivial; repeat split).
      * now rewrite (IH0 _ Unquoted false) by (trivial; repeat split).
      * now rewrite (IH0 _ Unquoted false) by (trivial; repeat split).
    + (* inside single quotes *)
      destruct Hsync as (Hsingle & Hdouble & Hescaped & ->).
      unfold Chain.step. rewrite Hescaped, Hsingle. cbn [negb andb].
      destruct (Ascii.eqb c JS.SQ); cbn [negb].
      * now rewrite (IH0 _ Unquoted false) by (trivial; repeat split; assumption).
      * now rewrite (IH0 _ SingleQuoted false) by (trivial; repeat split; assumption).
    + (* inside double quotes *)
      destruct Hsync as (Hsingle & Hdouble & Hescaped & ->).
      unfold Chain.step. rewrite Hescaped, Hsingle, Hdouble. cbn [negb andb].
      destruct (Ascii.eqb c JS.BSL && isDoubleQuoteEscape (JS.head t)).
      { now rewrite IH1 by (trivial; repeat split; assumption). }
      destruct (Ascii.eqb c JS.DQ); cbn [negb].
      * now rewrite (IH0 _ Unquoted false) by (trivial; repeat split; assumption).
      * apply andb_prop in Hw as [_ Hw].
        now rewrite (IH0 _ DoubleQuoted false) by (trivial; repeat split; assumption).
  - intros st Hsync Hw. cbn [Chain.loop]. cbn [wordsOnlyK] in Hw.
    exact (IH0 st DoubleQuoted false Hsync Hw).
Qed.

(** A command of words and inert quoting is one segment: the chain
    splitter finds no chain, the segmenter returns the trimmed command,
    and the analysis is accepted with that segment as soon as the argv
    tokenizer of the host reads it. *)
Lemma inert_command_is_one_segment (H : Host) (cmd : string) (cwd : option string)
  (env : option ProcessEnv) (platform : option string) :
  isWindowsPlatform platform = false ->
  liveSubstitution cmd = false -> wordsOnly cmd = true -> allSpace cmd = false ->
  analyzeShellCommand H cmd cwd env platform
  = match splitShellArgs H (JS.trim cmd) with
    | Some (token :: tokens) =>
        {| ok := true; reason := None;
           segments :=
             [ {| raw := JS.trim cmd; argv := token :: tokens;
                  resolution :=
                    resolveCommandResolutionFromArgv H (token :: tokens) cwd env |} ];
           chains := None |}
    | _ => failed (Some "unable to parse shell segment")
    end.
Proof.
  intros Hplat Hlive Hwords Hblank.
  unfold analyzeShellCommand, Chain.splitCommandChain,
    Chain.splitCommandChainWithOperators.
  rewrite Hplat.
  destruct (chain_loop_words cmd) as (Hchain & _).
  specialize (Hchain Chain.initial Unquoted false
                (conj eq_refl (conj eq_refl eq_refl)) Hwords).
  unfold Chain.finish. rewrite Hchain. cbn [Chain.initial Chain.foundChain negb].
  destruct (loop_words cmd) as (Hloop & _).
  destruct (Hloop Pipeline.initial Unquoted false) as (st' & E & Hread);
    [repeat split | exact Hlive | exact Hwords |].
  destruct Hread as (Hsync & Hbuf & Hsegs & Hempty).
  destruct Hsync as (Hbody & Hpending & Hsingle & Hdouble & Hescaped).
  unfold Pipeline.splitShellPipeline. rewrite E.
  unfold Pipeline.finish, Pipeline.pushPartSegments.
  rewrite Hpending, Hbody, Hescaped, Hsingle, Hdouble, Hbuf, Hsegs, (Hempty eq_refl).
  cbn [Pipeline.initial Pipeline.buf Pipeline.segments append negb orb andb
         Pipeline.isNil].
  rewrite (allSpace_false_trim _ Hblank).
  cbn [app Pipeline.isNil Pipeline.split_ok Pipeline.split_segments negb].
  unfold parseSegmentsFromParts. cbn [parseSegmentsLoop].
  destruct (splitShellArgs H (JS.trim cmd)) as [[|token tokens]|]; reflexivity.
Qed.

(** C1 (amended).  For every command analyzed in POSIX mode: (1) when
    the command holds no heredoc operator and an unescaped [$(] or
    backtick appears outside single quotes (inside double quotes
    included), the analysis has [ok = false]; (2) when the command holds
    no heredoc operator and the only substitution-like text is inside
    single quotes or escaped, the analysis is not rejected for command
    substitution: its reason is none of the two reasons the segmenter
    gives for [$(] and for a backtick; (3) when the only
    substitution-like text is inside single quotes or escaped, and the
    command is otherwise made of words and quoting only (outside quotes
    no unescaped [|], [&], [;], [<], [>], parenthesis or line
    terminator, inside double quotes no line terminator, no quote left
    open and no escape pending at the end) and is not blank, the
    analysis is what the argv tokenizer of the host makes of the
    trimmed command: accepted, with the trimmed command as its one
    segment, when the tokenizer returns at least one token, and
    rejected with [unable to parse shell segment] otherwise. *)
Theorem substitution_is_rejected_outside_heredocs :
  forall (H : Host) (cmd : string) (cwd : option string) (env : option ProcessEnv)
         (platform : option string),
    isWindowsPlatform platform = false ->
    (hasHeredocOperator cmd = false ->
     (liveSubstitution cmd = true ->
      ok (analyzeShellCommand H cmd cwd env platform) = false)
     /\ (liveSubstitution cmd = false ->
         isSubstitutionReason (reason (analyzeShellCommand H cmd cwd env platform))
         = false))
    /\ (liveSubstitution cmd = false -> wordsOnly cmd = true -> allSpace cmd = false ->
        analyzeShellCommand H cmd cwd env platform
        = match splitShellArgs H (JS.trim cmd) with
          | Some (token :: tokens) =>
              {| ok := true; reason := None;
                 segments :=
                   [ {| raw := JS.trim cmd; argv := token :: tokens;
                        resolution :=
                          resolveCommandResolutionFromArgv H (token :: tokens) cwd env |} ];
                 chains := None |}
          | _ => failed (Some "unable to parse shell segment")
          end).
Proof.
  intros H cmd cwd env platform Hplat.
  split; [|intros Hlive Hwords Hblank;
           exact (inert_command_is_one_segment H cmd cwd env platform
                    Hplat Hlive Hwords Hblank)].
  intros Hno.
  unfold analyzeShellCommand, Chain.splitCommandChain. rewrite Hplat.
  destruct (Chain.splitCommandChainWithOperators cmd) as [ps|] eqn:E.
  - pose proof (splitCommandChain_live cmd ps E) as Hlive.
    pose proof (splitCommandChain_no_heredoc cmd ps E Hno) as Hparts.
    split; intros Hcmd; rewrite Hcmd in Hlive.
    + apply analyzeChainLoop_rejects.
      unfold partsLive in Hlive. apply existsb_exists in Hlive as (p & Hin & Hp).
      apply Exists_exists. exists (part p). split; [now apply in_map|].
      apply splitShellPipeline_rejects_live; [exact Hp|].
      rewrite Forall_forall in Hparts. now apply Hparts.
    + apply analyzeChainLoop_reason_inert.
      apply Forall_forall. intros s Hs. apply in_map_iff in Hs as (p & <- & Hin).
      apply splitShellPipeline_reason_inert.
      * unfold partsLive in Hlive.
        destruct (liveSubstitution (part p)) eqn:Hp; [|reflexivity].
        rewrite <- Hlive. symmetry. apply existsb_exists. now exists p.
      * rewrite Forall_forall in Hparts. now apply Hparts.
  - split; intros Hcmd.
    + rewrite (splitShellPipeline_rejects_live cmd Hcmd Hno). reflexivity.
    + pose proof (splitShellPipeline_reason_inert cmd Hcmd Hno) as Hinert.
      destruct (negb (Pipeline.split_ok (Pipeline.splitShellPipeline cmd)));
        [exact Hinert|].
      destruct (parseSegmentsFromParts H _ cwd env); reflexivity.
Qed.

(** The commands of the spec and of the tests, through the theorem:
    substitution inside double quotes is rejected; the two inert forms
    are accepted, with the command as their one segment. *)
Lemma substitution_is_rejected_outside_heredocs_witness :
  ok (analyzeShellCommand Reference.host
        ("echo " ++ String JS.DQ ("output: $(whoami)" ++ JS.str JS.DQ)) None None None)
  = false
  /\ (ok (analyzeShellCommand Reference.host "echo 'output: $(whoami)'"
             None None None) = true
      /\ map raw (segments (analyzeShellCommand Reference.host
                              "echo 'output: $(whoami)'" None None None))
         = ["echo 'output: $(whoami)'"])
  /\ (ok (analyzeShellCommand Reference.host
             ("echo " ++ String JS.DQ ("output: \$(whoami)" ++ JS.str JS.DQ))
             None None None) = true
      /\ map raw (segments (analyzeShellCommand Reference.host
                              ("echo " ++ String JS.DQ
                                            ("output: \$(whoami)" ++ JS.str JS.DQ))
                              None None None))
         = ["echo " ++ String JS.DQ ("output: \$(whoami)" ++ JS.str JS.DQ)]).
Proof.
  split; [|split].
  - destruct (substitution_is_rejected_outside_heredocs Reference.host
                ("echo " ++ String JS.DQ ("output: $(whoami)" ++ JS.str JS.DQ))
                None None None eq_refl) as (Hrejects & _).
    destruct (Hrejects eq_refl) as (Hlive & _). exact (Hlive eq_refl).
  - destruct (substitution_is_rejected_outside_heredocs Reference.host
                "echo 'output: $(whoami)'" None None None eq_refl) as (_ & Haccepts).
    rewrite (Haccepts eq_refl eq_refl eq_refl). split; reflexivity.
  - destruct (substitution_is_rejected_outside_heredocs Reference.host
                ("echo " ++ String JS.DQ ("output: \$(whoami)" ++ JS.str JS.DQ))
                None None None eq_refl) as (_ & Haccepts).
    rewrite (Haccepts eq_refl eq_refl eq_refl). split; reflexivity.
Defined.

(** The inert forms of the spec are accepted, with their one segment. *)
Example inert_substitution_is_accepted :
  (let r := analyzeShellCommand Reference.host "echo 'output: $(whoami)'" None None None in
   ok r = true /\ map argv (segments r) = [["echo"; "output: $(whoami)"]])
  /\ (let r := analyzeShellCommand Reference.host
                 ("echo " ++ String JS.DQ ("output: \$(whoami)" ++ JS.str JS.DQ))
                 None None None in
      ok r = true /\ map argv (segments r) = [["echo"; "output: $(whoami)"]]).
Proof. repeat split; reflexivity. Qed.

(** The rejections of the tests, with their reasons. *)
Example live_substitution_is_rejected :
  analyzeShellCommand Reference.host
    ("echo " ++ String JS.DQ ("output: $(whoami)" ++ JS.str JS.DQ)) None None None
  = failed (Some "unsupported shell token: $()")
  /\ analyzeShellCommand Reference.host
       ("echo " ++ String JS.DQ ("output: `id`" ++ JS.str JS.DQ)) None None None
     = failed (Some "unsupported shell token: `")
  /\ analyzeShellCommand Reference.host "echo $(whoami)" None None None
     = failed (Some "unsupported shell token: $()").
Proof. repeat split; reflexivity. Qed.

(** An escaped [$] outside quotes does not make the parenthesis that
    follows it inert: the command is rejected for the parenthesis. *)
Example escaped_substitution_outside_quotes :
  liveSubstitution "echo \$(whoami)" = false
  /\ wordsOnly "echo \$(whoami)" = false
  /\ analyzeShellCommand Reference.host "echo \$(whoami)" None None None
     = failed (Some "unsupported shell token: (").
Proof. repeat split; reflexivity. Qed.

(** C1, as stated, fails twice: the body of a heredoc with a quoted
    delimiter holds [$(], unescaped and outside single quotes, and the
    command is accepted; and a command whose only substitution-like text
    is inside single quotes is rejected all the same, for its
    redirection. *)
Lemma quoted_heredoc_substitution_counterexample :
  (liveSubstitution
     ("/usr/bin/cat <<'EOF'" ++ String JS.LF ("$(id)" ++ String JS.LF "EOF")) = true
   /\ ok (analyzeShellCommand Reference.host
            ("/usr/bin/cat <<'EOF'" ++ String JS.LF ("$(id)" ++ String JS.LF "EOF"))
            None None None) = true)
  /\ (liveSubstitution "echo '$(id)' > out" = false
      /\ analyzeShellCommand Reference.host "echo '$(id)' > out" None None None
         = failed (Some "unsupported shell token: >")).
Proof. repeat split; reflexivity. Qed.

(* ================================================================== *)
(** * Resolution of executables *)
(* ================================================================== *)

Lemma takeWhile_split (p : ascii -> bool) (s : string) :
  s = NodePath.takeWhile p s ++ NodePath.dropWhile p s.
Proof.
  induction s as [|c s IH]; [reflexivity|].
  cbn [NodePath.takeWhile NodePath.dropWhile].
  destruct (p c); [cbn; now rewrite <- IH | reflexivity].
Qed.

Lemma takeWhile_all (p : ascii -> bool) (s : string) :
  forallChar p (NodePath.takeWhile p s) = true.
Proof.
  induction s as [|c s IH]; [reflexivity|].
  cbn [NodePath.takeWhile]. destruct (p c) eqn:E; [|reflexivity].
  cbn [forallChar]. now rewrite E.
Qed.

Lemma dropWhile_head (p : ascii -> bool) (s : string) :
  match NodePath.dropWhile p s with
  | EmptyString => True
  | String c _ => p c = false
  end.
Proof.
  induction s as [|c s IH]; [exact I|].
  cbn [NodePath.dropWhile]. destruct (p c) eqn:E; [exact IH | exact E].
Qed.

Lemma takeWhile_fixed (p : ascii -> bool) (s rest : string) :
  forallChar p s = true ->
  match rest with
  | EmptyString => True
  | String c _ => p c = false
  end ->
  NodePath.takeWhile p (s ++ rest) = s.
Proof.
  intros Hs Hrest. induction s as [|c s IH].
  - destruct rest as [|c r]; [reflexivity|]. cbn. now rewrite Hrest.
  - cbn [forallChar] in Hs. apply andb_true_iff in Hs as [Hc Hs].
    cbn. rewrite Hc. now rewrite IH.
Qed.

Lemma indexOfChar_none (s : string) (c : ascii) :
  JS.indexOfChar s c = None <-> JS.includesChar s c = false.
Proof.
  induction s as [|d s IH]; [split; reflexivity|].
  cbn [JS.indexOfChar JS.includesChar]. destruct (Ascii.eqb d c); cbn.
  - split; discriminate.
  - destruct (JS.indexOfChar s c); [|exact IH].
    split; [discriminate|]. intros F. apply IH in F. discriminate.
Qed.

Lemma indexOfChar_found (body rest : string) (c : ascii) :
  JS.includesChar body c = false ->
  JS.indexOfChar (body ++ String c rest) c = Some (String.length body).
Proof.
  intros Hb. induction body as [|d body IH].
  - cbn. now rewrite Ascii.eqb_refl.
  - cbn [JS.includesChar] in Hb. apply orb_false_elim in Hb as [Hd Hb].
    cbn. rewrite Hd, (IH Hb). reflexivity.
Qed.

Lemma take_length_append (a b : string) : JS.take (String.length a) (a ++ b) = a.
Proof. induction a as [|c a IH]; cbn; [now destruct b | now rewrite IH]. Qed.

Lemma trimStart_length (s : string) :
  String.length (JS.trimStart s) <= String.length s.
Proof.
  induction s as [|x s IH]; cbn; [lia|]. destruct (JS.isSpace x); cbn; lia.
Qed.

Lemma rev_length (s : string) : String.length (JS.rev s) = String.length s.
Proof.
  induction s as [|x s IH]; cbn; [reflexivity|].
  unfold JS.snoc. rewrite length_append, IH. cbn. lia.
Qed.

(** The trimmed text does not start with white space. *)
Lemma trim_startsClean (s : string) : startsClean (JS.trim s).
Proof.
  pose proof (trim_idempotent s) as Hi.
  destruct (JS.trim s) as [|first rest]; [exact I|]. cbn.
  destruct (JS.isSpace first) eqn:Hs; [|reflexivity]. exfalso.
  unfold JS.trim in Hi. cbn [JS.trimStart] in Hi. rewrite Hs in Hi.
  apply (f_equal String.length) in Hi.
  unfold JS.trimEnd in Hi. rewrite rev_length in Hi.
  pose proof (trimStart_length (JS.rev (JS.trimStart rest))) as H1.
  rewrite rev_length in H1. pose proof (trimStart_length rest) as H2.
  cbn in Hi. lia.
Qed.

(** X1.  [parseFirstToken] (1) finds no token exactly in a blank
    command; (2) in a text whose trimmed text starts with neither
    quote, the token is the leading run of characters that are not white
    space: it is not empty, holds no white space, and is followed in the
    trimmed text by nothing or by white space; (3) with a quote first
    and a non-empty text up to the next occurrence of the same quote, the
    token is that text, white space included; (4) with a quote first and
    no later occurrence of it, or the same quote right after it, the
    token is all the text after the first quote. *)
Theorem parseFirstToken_cases :
  (forall text : string,
      parseFirstToken text = None <-> allSpace text = true)
  /\ (forall (text : string) (first : ascii) (rest : string),
         JS.trim text = String first rest ->
         first <> JS.DQ -> first <> JS.SQ ->
         exists token after,
           parseFirstToken text = Some token
           /\ JS.trim text = token ++ after
           /\ token <> EmptyString
           /\ noSpace token = true
           /\ match after with
              | EmptyString => True
              | String c _ => JS.isSpace c = true
              end)
  /\ (forall (text : string) (quote : ascii) (body rest : string),
         quote = JS.DQ \/ quote = JS.SQ ->
         JS.trim text = String quote (body ++ String quote rest) ->
         body <> EmptyString ->
         JS.includesChar body quote = false ->
         parseFirstToken text = Some body)
  /\ (forall (text : string) (quote : ascii) (rest : string),
         quote = JS.DQ \/ quote = JS.SQ ->
         JS.trim text = String quote rest ->
         JS.includesChar rest quote = false \/ JS.head rest = Some quote ->
         parseFirstToken text = Some rest).
Proof.
  repeat split.
  - unfold parseFirstToken. intros Hnone.
    apply trim_empty_iff.
    destruct (JS.trim text) as [|first rest] eqn:E; [reflexivity|].
    exfalso.
    destruct (Ascii.eqb first JS.DQ || Ascii.eqb first JS.SQ).
    + destruct (JS.indexOfChar rest first) as [k|]; [|discriminate].
      destruct (Nat.ltb 1 (k + 1)); discriminate.
    + pose proof (trim_startsClean text) as Hfirst. rewrite E in Hfirst.
      cbn in Hfirst.
      cbn [NodePath.takeWhile] in Hnone. rewrite Hfirst in Hnone.
      cbn in Hnone. discriminate.
  - intros Hblank. apply trim_empty_iff in Hblank.
    unfold parseFirstToken. now rewrite Hblank.
  - intros text first rest E Hdq Hsq.
    unfold parseFirstToken. rewrite E.
    assert (Eq : Ascii.eqb first JS.DQ || Ascii.eqb first JS.SQ = false).
    { apply orb_false_intro; apply Ascii.eqb_neq; assumption. }
    rewrite Eq.
    set (p := fun c => negb (JS.isSpace c)).
    pose proof (trim_startsClean text) as Hfirst. rewrite E in Hfirst.
    cbn in Hfirst.
    exists (NodePath.takeWhile p (String first rest)),
           (NodePath.dropWhile p (String first rest)).
    assert (Hne : NodePath.takeWhile p (String first rest) <> EmptyString).
    { cbn [NodePath.takeWhile]. unfold p at 1. rewrite Hfirst. discriminate. }
    repeat split.
    + apply isEmpty_false in Hne. now rewrite Hne.
    + apply takeWhile_split.
    + exact Hne.
    + unfold noSpace. pose proof (takeWhile_all p (String first rest)) as Hall.
      remember (NodePath.takeWhile p (String first rest)) as tok eqn:Et. clear Et Hne.
      induction tok as [|c tok IH]; [reflexivity|].
      cbn [forallChar] in Hall. apply andb_true_iff in Hall as [Hc Hall].
      cbn [JS.existsChar]. unfold p in Hc. apply negb_true_iff in Hc. rewrite Hc.
      exact (IH Hall).
    + pose proof (dropWhile_head p (String first rest)) as Hd.
      destruct (NodePath.dropWhile p (String first rest)); [exact I|].
      unfold p in Hd. now apply negb_false_iff in Hd.
  - intros text quote body rest Hq E Hbody Hnot.
    unfold parseFirstToken. rewrite E.
    assert (Eq : Ascii.eqb quote JS.DQ || Ascii.eqb quote JS.SQ = true).
    { destruct Hq as [-> | ->]; reflexivity. }
    rewrite Eq, (indexOfChar_found body rest quote Hnot).
    destruct body as [|b body]; [congruence|].
    replace (Nat.ltb 1 (String.length (String b body) + 1)) with true
      by (symmetry; apply Nat.ltb_lt; cbn; lia).
    replace (String.length (String b body) + 1 - 1) with (String.length (String b body))
      by lia.
    now rewrite take_length_append.
  - intros text quote rest Hq E Hrest.
    unfold parseFirstToken. rewrite E.
    assert (Eq : Ascii.eqb quote JS.DQ || Ascii.eqb quote JS.SQ = true).
    { destruct Hq as [-> | ->]; reflexivity. }
    rewrite Eq. destruct Hrest as [Hnone | Hhead].
    + apply indexOfChar_none in Hnone. now rewrite Hnone.
    + destruct rest as [|c rest]; [discriminate|]. injection Hhead as ->.
      cbn [JS.indexOfChar]. now rewrite Ascii.eqb_refl.
Qed.

Example parseFirstToken_examples :
  parseFirstToken "  rg -n foo " = Some "rg"
  /\ parseFirstToken (String JS.DQ ("my tool" ++ String JS.DQ " --flag")) = Some "my tool"
  /\ parseFirstToken "'unterminated arg" = Some "unterminated arg"
  /\ parseFirstToken (String JS.DQ (String JS.DQ "tool")) = Some (String JS.DQ "tool")
  /\ parseFirstToken "   " = None.
Proof. repeat split; reflexivity. Qed.

Lemma probe_sound (H : Host) (candidate p : string) :
  probe H candidate = Some p -> isExecutableFile H p = true /\ p = candidate.
Proof.
  unfold probe. destruct (isExecutableFile H candidate) eqn:E; [|discriminate].
  intros [= <-]. split; [exact E | reflexivity].
Qed.

Lemma resolveExecutablePath_executable (H : Host) (rawExecutable : string)
  (cwd : option string) (env : option ProcessEnv) (p : string) :
  resolveExecutablePath H rawExecutable cwd env = Some p -> isExecutableFile H p = true.
Proof.
  unfold resolveExecutablePath.
  destruct (JS.includesChar _ "/"%char || JS.includesChar _ JS.BSL).
  - destruct (pathIsAbsolute H _); intros Hp; now apply probe_sound in Hp.
  - intros Hp. now apply find_some in Hp.
Qed.

(** X2.  A path that [resolveExecutablePath] returns is an executable
    file of the host, and so is every [resolvedPath] that
    [resolveCommandResolution] and [resolveCommandResolutionFromArgv]
    report: a resolution never names a file that was not probed as
    executable. *)
Theorem resolved_path_is_executable :
  forall (H : Host) (cwd : option string) (env : option ProcessEnv) (p : string),
    (forall rawExecutable : string,
        resolveExecutablePath H rawExecutable cwd env = Some p ->
        isExecutableFile H p = true)
    /\ (forall (command : string) (r : CommandResolution),
           resolveCommandResolution H command cwd env = Some r ->
           resolvedPath r = Some p -> isExecutableFile H p = true)
    /\ (forall (argv0 : list string) (r : CommandResolution),
           resolveCommandResolutionFromArgv H argv0 cwd env = Some r ->
           resolvedPath r = Some p -> isExecutableFile H p = true).
Proof.
  intros H cwd env p. repeat split.
  - intros rawExecutable. apply resolveExecutablePath_executable.
  - intros command r. unfold resolveCommandResolution.
    destruct (parseFirstToken command) as [tok|]; [|discriminate].
    destruct (JS.isEmpty tok); [discriminate|].
    intros [= <-]. cbn. apply resolveExecutablePath_executable.
  - intros argv0 r. unfold resolveCommandResolutionFromArgv.
    destruct (JS.isEmpty _); [discriminate|].
    intros [= <-]. cbn. apply resolveExecutablePath_executable.
Qed.

(** The resolution of [rg] on the reference host, through the theorem. *)
Lemma resolved_path_is_executable_witness :
  isExecutableFile Reference.host "/usr/bin/rg" = true.
Proof.
  destruct (resolved_path_is_executable Reference.host None None "/usr/bin/rg")
    as (Hraw & _ & _).
  exact (Hraw "rg" eq_refl).
Defined.

Lemma unwrap_not_env (argv0 : list string) (n : nat) :
  String.eqb (basenameLower (JS.trimmedAt argv0 0)) "env" = false ->
  unwrapDispatchWrappersForResolution argv0 n = argv0.
Proof.
  intros Hne. destruct n as [|n]; [reflexivity|].
  cbn [unwrapDispatchWrappersForResolution].
  destruct (JS.isEmpty (JS.trimmedAt argv0 0)); [reflexivity|].
  now rewrite Hne.
Qed.

Lemma noSpace_startsClean_rev (s : string) :
  noSpace s = true -> startsClean s /\ startsClean (JS.rev s).
Proof.
  unfold noSpace. intros Hs. apply negb_true_iff in Hs.
  assert (Hrev : JS.existsChar JS.isSpace (JS.rev s) = false).
  { induction s as [|c s IH]; [reflexivity|].
    cbn [JS.existsChar] in Hs. apply orb_false_elim in Hs as [Hc Hs].
    cbn [JS.rev]. unfold JS.snoc.
    assert (Happ : forall a b, JS.existsChar JS.isSpace (a ++ b)
                               = JS.existsChar JS.isSpace a || JS.existsChar JS.isSpace b).
    { clear. induction a as [|x a IHa]; intros b; cbn; [reflexivity|].
      now rewrite IHa, orb_assoc. }
    rewrite Happ, (IH Hs). cbn. now rewrite Hc. }
  split.
  - destruct s as [|c s]; [exact I|]. cbn in *. now apply orb_false_elim in Hs.
  - destruct (JS.rev s) as [|c r]; [exact I|]. cbn in *. now apply orb_false_elim in Hrev.
Qed.

Lemma noSpace_all (s : string) :
  noSpace s = true -> forallChar (fun c => negb (JS.isSpace c)) s = true.
Proof.
  unfold noSpace. induction s as [|c s IH]; [reflexivity|].
  cbn [JS.existsChar forallChar]. rewrite negb_orb. intros Hs.
  apply andb_true_iff in Hs as [Hc Hs]. now rewrite Hc, IH.
Qed.

(** X3.  The text form and the argv form of resolution agree on a plain
    first word: when the trimmed command starts with a word that is not
    empty, holds no white space, starts with no quote and is followed by
    white space or nothing, and the word's basename is not [env], then
    [resolveCommandResolution] of the command is
    [resolveCommandResolutionFromArgv] of any argv that starts with that
    word. *)
Theorem text_and_argv_resolution_agree :
  forall (H : Host) (command word after : string) (args : list string)
         (cwd : option string) (env : option ProcessEnv),
    JS.trim command = word ++ after ->
    word <> EmptyString ->
    noSpace word = true ->
    JS.head word <> Some JS.DQ -> JS.head word <> Some JS.SQ ->
    match after with
    | EmptyString => True
    | String c _ => JS.isSpace c = true
    end ->
    String.eqb (basenameLower word) "env" = false ->
    resolveCommandResolution H command cwd env
    = resolveCommandResolutionFromArgv H (word :: args) cwd env.
Proof.
  intros H command word after args cwd env E Hne Hns Hdq Hsq Hafter Henv.
  destruct (noSpace_startsClean_rev word Hns) as [Hclean Hrev].
  pose proof (trim_fixed word Hclean Hrev) as Htrim.
  unfold resolveCommandResolutionFromArgv.
  rewrite unwrap_not_env by (rewrite trimmedAt_cons0, Htrim; exact Henv).
  rewrite trimmedAt_cons0, Htrim.
  unfold resolveCommandResolution, parseFirstToken. rewrite E.
  destruct word as [|first rest]; [congruence|].
  cbn [append].
  assert (Eq : Ascii.eqb first JS.DQ || Ascii.eqb first JS.SQ = false).
  { apply orb_false_intro; apply Ascii.eqb_neq; intros ->; cbn in *; congruence. }
  rewrite Eq.
  change (String first (rest ++ after)) with (String first rest ++ after).
  rewrite takeWhile_fixed.
  - reflexivity.
  - now apply noSpace_all.
  - destruct after; [exact I|]. now rewrite Hafter.
Qed.

(** The command [rg -n foo], through the theorem. *)
Lemma text_and_argv_resolution_agree_witness :
  resolveCommandResolution Reference.host " rg -n foo" None None
  = resolveCommandResolutionFromArgv Reference.host ["rg"; "-n"; "foo"] None None.
Proof.
  apply (text_and_argv_resolution_agree Reference.host " rg -n foo" "rg" " -n foo"
           ["-n"; "foo"] None None); try reflexivity; discriminate.
Defined.

(** The two forms differ on an [env] wrapper: the text form resolves
    [env] itself, the argv form the wrapped command. *)
Example text_resolution_does_not_unwrap_env :
  option_map executableName
    (resolveCommandResolution Reference.host "env FOO=bar rg -n x" None None)
  = Some "env"
  /\ option_map executableName
       (resolveCommandResolutionFromArgv Reference.host
          ["env"; "FOO=bar"; "rg"; "-n"; "x"] None None)
     = Some "rg".
Proof. split; reflexivity. Qed.

(** X4.  The allowlist candidate path of a resolution from argv is the
    resolved executable when there is one; otherwise it comes from a
    path-like raw executable and is the very path that resolution probed
    and found not executable.  A bare name that did not resolve has no
    candidate path. *)
Theorem allowlist_candidate_is_resolved_or_probed :
  forall (H : Host) (argv0 : list string) (cwd : option string)
         (env : option ProcessEnv) (r : CommandResolution),
    resolveCommandResolutionFromArgv H argv0 cwd env = Some r ->
    (forall p : string,
        resolveAllowlistCandidatePath H (Some r) cwd = Some p ->
        resolvedPath r = Some p
        \/ (resolvedPath r = None /\ isPathLike H (rawExecutable r) = true
            /\ isExecutableFile H p = false))
    /\ (resolvedPath r = None -> isPathLike H (rawExecutable r) = false ->
        resolveAllowlistCandidatePath H (Some r) cwd = None).
Proof.
  intros H argv0 cwd env r. unfold resolveCommandResolutionFromArgv.
  set (raw0 := JS.trimmedAt (unwrapDispatchWrappersForResolution argv0 _) 0).
  destruct (JS.isEmpty raw0) eqn:Hraw; [discriminate|]. intros [= <-].
  assert (Htrim : JS.trim raw0 = raw0).
  { unfold raw0, JS.trimmedAt. destruct (nth_error _ 0); [|reflexivity].
    apply trim_idempotent. }
  unfold resolveAllowlistCandidatePath. cbn [rawExecutable resolvedPath mkResolution].
  rewrite Htrim, Hraw.
  unfold isPathLike, expandedExecutable.
  pose proof (resolveExecutablePath_executable H raw0 cwd env) as Hsound.
  unfold resolveExecutablePath in *.
  set (expanded := if JS.startsWith raw0 "~" then expandHomePrefix H raw0 else raw0) in *.
  destruct (JS.includesChar expanded "/"%char || JS.includesChar expanded JS.BSL) eqn:Hlike.
  - replace (negb (JS.includesChar expanded "/"%char)
             && negb (JS.includesChar expanded JS.BSL)) with false
      by (rewrite <- negb_orb, Hlike; reflexivity).
    split; [|discriminate].
    intros p. unfold probe in *.
    destruct (pathIsAbsolute H expanded).
    + destruct (isExecutableFile H expanded) eqn:Hx.
      * destruct (JS.isEmpty expanded); intros [= <-]; now left.
      * intros [= <-]. right. repeat split; assumption.
    + set (candidate := pathResolve H _ expanded) in *.
      destruct (isExecutableFile H candidate) eqn:Hx.
      * destruct (JS.isEmpty candidate); intros [= <-]; now left.
      * intros [= <-]. right. repeat split; assumption.
  - replace (negb (JS.includesChar expanded "/"%char)
             && negb (JS.includesChar expanded JS.BSL)) with true
      by (rewrite <- negb_orb, Hlike; reflexivity).
    split.
    + intros p. destruct (find _ _) as [q|] eqn:Hfind; [|discriminate].
      destruct (JS.isEmpty q); [discriminate|]. intros [= <-]. now left.
    + intros Hnone _. now rewrite Hnone.
Qed.

(** An unresolved relative path and a resolved bare name on the reference
    host, through the theorem. *)
Lemma allowlist_candidate_is_resolved_or_probed_witness :
  (resolvedPath (mkResolution Reference.host "./tool" None None) = Some "/tmp/tool"
   \/ (resolvedPath (mkResolution Reference.host "./tool" None None) = None
       /\ isPathLike Reference.host "./tool" = true
       /\ isExecutableFile Reference.host "/tmp/tool" = false))
  /\ resolveAllowlistCandidatePath Reference.host
       (Some (mkResolution Reference.host "nosuchtool" None None)) None = None.
Proof.
  split.
  - destruct (allowlist_candidate_is_resolved_or_probed Reference.host ["./tool"]
                None None (mkResolution Reference.host "./tool" None None) eq_refl)
      as [Hcandidate _].
    exact (Hcandidate "/tmp/tool" eq_refl).
  - destruct (allowlist_candidate_is_resolved_or_probed Reference.host ["nosuchtool"]
                None None (mkResolution Reference.host "nosuchtool" None None) eq_refl)
      as [_ Hbare].
    exact (Hbare eq_refl eq_refl).
Defined.

(* ================================================================== *)
(** * Allowlist matching *)
(* ================================================================== *)

Example globToRegExp_examples :
  globToRegExp "/usr/bin/*" = "^/usr/bin/[^/]*$"
  /\ globToRegExp "/opt/**/bin/r?" = "^/opt/.*/bin/r.$"
  /\ globToRegExp "/opt/tool.sh" = "^/opt/tool.sh$".
Proof. repeat split; reflexivity. Qed.

Section AllowlistProperties.

Variable Entry : Type.
Variable patternOf : Entry -> option string.
Variable H : Host.
Variable regExpTest : string -> string -> Completion bool.
Variable tryRealpath : string -> option string.

Lemma matchAllowlistLoop_pathless (entries : list Entry) (resolved : string) :
  Forall (fun e => hasPath (entryPattern Entry patternOf e) = false) entries ->
  matchAllowlistLoop Entry patternOf H regExpTest tryRealpath entries resolved
  = Normal None.
Proof.
  induction 1 as [|e rest He _ IH]; [reflexivity|].
  cbn [matchAllowlistLoop]. rewrite He. cbn [negb].
  destruct (JS.isEmpty _); exact IH.
Qed.

Lemma matchAllowlistLoop_sound (entries : list Entry) (resolved : string) (e : Entry) :
  matchAllowlistLoop Entry patternOf H regExpTest tryRealpath entries resolved
  = Normal (Some e) ->
  exists before after,
    entries = (before ++ e :: after)%list
    /\ hasPath (entryPattern Entry patternOf e) = true
    /\ matchesPattern H regExpTest tryRealpath (entryPattern Entry patternOf e) resolved
       = Normal true
    /\ Forall (fun x =>
                 hasPath (entryPattern Entry patternOf x) = true ->
                 matchesPattern H regExpTest tryRealpath
                   (entryPattern Entry patternOf x) resolved = Normal false)
         before.
Proof.
  induction entries as [|x rest IH]; [discriminate|].
  cbn [matchAllowlistLoop]. cbv zeta.
  assert (Hblank : forall p, JS.isEmpty p = true -> hasPath p = false).
  { intros p Hp. apply isEmpty_true in Hp. now subst p. }
  assert (Hskip :
            matchAllowlistLoop Entry patternOf H regExpTest tryRealpath rest resolved
            = Normal (Some e) ->
            (hasPath (entryPattern Entry patternOf x) = true ->
             matchesPattern H regExpTest tryRealpath
               (entryPattern Entry patternOf x) resolved = Normal false) ->
            exists before after,
              (x :: rest)%list = (before ++ e :: after)%list
              /\ hasPath (entryPattern Entry patternOf e) = true
              /\ matchesPattern H regExpTest tryRealpath
                   (entryPattern Entry patternOf e) resolved = Normal true
              /\ Forall (fun y =>
                           hasPath (entryPattern Entry patternOf y) = true ->
                           matchesPattern H regExpTest tryRealpath
                             (entryPattern Entry patternOf y) resolved = Normal false)
                   before).
  { intros Hrest Hx. destruct (IH Hrest) as (before & after & -> & Hp & Hm & Hb).
    exists (x :: before)%list, after. repeat split; trivial. now constructor. }
  destruct (JS.isEmpty (entryPattern Entry patternOf x)) eqn:Hempty.
  - intros Hrest. apply Hskip; [exact Hrest|].
    intros Hp. rewrite (Hblank _ Hempty) in Hp. discriminate.
  - destruct (hasPath (entryPattern Entry patternOf x)) eqn:Hp; cbn [negb].
    + destruct (matchesPattern H regExpTest tryRealpath
                  (entryPattern Entry patternOf x) resolved) as [[|]|] eqn:Hm.
      * intros Heq. injection Heq as Heq. subst x. exists [], rest. repeat split; trivial.
      * intros Hrest. apply Hskip; [exact Hrest | trivial].
      * discriminate.
    + intros Hrest. apply Hskip; [exact Hrest | discriminate].
Qed.

(** X5.  [matchAllowlist] ignores entries whose pattern names no path:
    when no entry's trimmed pattern holds a slash, a backslash or a
    tilde (an entry without a pattern included), the result is null for
    every resolution, whatever the regular-expression engine does; and
    without a resolved path the result is null for every list of
    entries. *)
Theorem matchAllowlist_needs_a_path :
  forall (entries : list Entry) (resolution : option CommandResolution),
    (Forall (fun e => hasPath (entryPattern Entry patternOf e) = false) entries ->
     matchAllowlist Entry patternOf H regExpTest tryRealpath entries resolution
     = Normal None)
    /\ (match resolution with
        | Some r => resolvedPath r = None \/ resolvedPath r = Some EmptyString
        | None => True
        end ->
        matchAllowlist Entry patternOf H regExpTest tryRealpath entries resolution
        = Normal None).
Proof.
  intros entries resolution. unfold matchAllowlist. split.
  - intros Hall. destruct entries as [|e rest]; [reflexivity|].
    destruct resolution as [r|]; [|reflexivity].
    destruct (resolvedPath r) as [p|]; [|reflexivity].
    destruct (JS.isEmpty p); [reflexivity|].
    now apply matchAllowlistLoop_pathless.
  - intros Hres. destruct entries as [|e rest]; [reflexivity|].
    destruct resolution as [r|]; [|reflexivity].
    destruct Hres as [-> | ->]; reflexivity.
Qed.

(** X6.  An entry that [matchAllowlist] returns is one of the entries;
    the resolution has a non-empty resolved path; the entry's trimmed
    pattern names a path and matches the resolved path; and every entry
    before it whose pattern names a path was tested and did not match:
    the first matching entry wins. *)
Theorem matchAllowlist_returns_first_match :
  forall (entries : list Entry) (resolution : option CommandResolution) (e : Entry),
    matchAllowlist Entry patternOf H regExpTest tryRealpath entries resolution
    = Normal (Some e) ->
    exists (r : CommandResolution) (resolved : string) (before after : list Entry),
      resolution = Some r
      /\ resolvedPath r = Some resolved /\ resolved <> EmptyString
      /\ entries = (before ++ e :: after)%list
      /\ hasPath (entryPattern Entry patternOf e) = true
      /\ matchesPattern H regExpTest tryRealpath (entryPattern Entry patternOf e) resolved
         = Normal true
      /\ Forall (fun x =>
                   hasPath (entryPattern Entry patternOf x) = true ->
                   matchesPattern H regExpTest tryRealpath
                     (entryPattern Entry patternOf x) resolved = Normal false)
           before.
Proof.
  intros entries resolution e. unfold matchAllowlist.
  destruct entries as [|x rest]; [discriminate|].
  destruct resolution as [r|]; [|discriminate].
  destruct (resolvedPath r) as [p|] eqn:Hp; [|discriminate].
  destruct (JS.isEmpty p) eqn:Hempty; [discriminate|].
  intros Hloop. apply matchAllowlistLoop_sound in Hloop
    as (before & after & Hsplit & Hpath & Hm & Hb).
  exists r, p, before, after. repeat split; trivial.
  now apply isEmpty_false.
Qed.

End AllowlistProperties.


(** Entries given by their patterns, on the reference host: the bare name
    [rg] is passed over and the path of [rg] matches. *)
Lemma matchAllowlist_returns_first_match_witness :
  exists (r : CommandResolution) (resolved : string) (before after : list string),
    resolveCommandResolutionFromArgv Reference.host ["rg"; "-n"] None None = Some r
    /\ resolvedPath r = Some resolved /\ resolved <> EmptyString
    /\ ["rg"; "/bin/ls"; " /usr/bin/rg "; "/usr/bin/rg"]
       = (before ++ " /usr/bin/rg " :: after)%list
    /\ hasPath (entryPattern string Some " /usr/bin/rg ") = true
    /\ matchesPattern Reference.host literalEngine (fun _ => None)
         (entryPattern string Some " /usr/bin/rg ") resolved = Normal true
    /\ Forall (fun x =>
                 hasPath (entryPattern string Some x) = true ->
                 matchesPattern Reference.host literalEngine (fun _ => None)
                   (entryPattern string Some x) resolved = Normal false)
         before.
Proof.
  exact (matchAllowlist_returns_first_match string Some Reference.host literalEngine
           (fun _ => None) ["rg"; "/bin/ls"; " /usr/bin/rg "; "/usr/bin/rg"]
           (resolveCommandResolutionFromArgv Reference.host ["rg"; "-n"] None None)
           " /usr/bin/rg " eq_refl).
Defined.

Lemma matchAllowlist_needs_a_path_witness :
  matchAllowlist string Some Reference.host literalEngine (fun _ => None)
    ["rg"; "  "; "head"]
    (resolveCommandResolutionFromArgv Reference.host ["rg"; "-n"] None None)
  = Normal None
  /\ matchAllowlist string Some Reference.host literalEngine (fun _ => None)
       ["/usr/bin/rg"]
       (resolveCommandResolutionFromArgv Reference.host ["nosuchtool"] None None)
     = Normal None.
Proof.
  split.
  - destruct (matchAllowlist_needs_a_path string Some Reference.host literalEngine
                (fun _ => None) ["rg"; "  "; "head"]
                (resolveCommandResolutionFromArgv Reference.host ["rg"; "-n"] None None))
      as [Hpathless _].
    apply Hpathless. repeat (constructor; [reflexivity|]). constructor.
  - destruct (matchAllowlist_needs_a_path string Some Reference.host literalEngine
                (fun _ => None) ["/usr/bin/rg"]
                (resolveCommandResolutionFromArgv Reference.host ["nosuchtool"] None None))
      as [_ Hunresolved].
    apply Hunresolved. left. reflexivity.
Defined.

(* ================================================================== *)
(** * Dispatch wrappers: what unwrapping keeps and what it refuses *)
(* ================================================================== *)

Lemma suffixOf_refl {A : Type} (xs : list A) : suffixOf xs xs.
Proof. now exists []. Qed.

Lemma suffixOf_cons {A : Type} (x : A) (kept xs : list A) :
  suffixOf kept xs -> suffixOf kept (x :: xs).
Proof. intros [d ->]. now exists (x :: d)%list. Qed.

Lemma suffixOf_trans {A : Type} (a b c : list A) :
  suffixOf a b -> suffixOf b c -> suffixOf a c.
Proof. intros [d ->] [e ->]. exists (e ++ d)%list. now rewrite app_assoc. Qed.

Lemma suffixOf_length {A : Type} (kept xs : list A) :
  suffixOf kept xs -> List.length kept <= List.length xs.
Proof. intros [d ->]. rewrite length_app. lia. Qed.

Lemma unwrapEnvLoop_suffix (rest : list string) :
  forall (expects : bool) (kept : list string),
    unwrapEnvLoop expects rest = Some kept -> suffixOf kept rest.
Proof.
  induction rest as [|entry after IH]; intros expects kept.
  - cbn. intros [= <-]. apply suffixOf_refl.
  - cbn [unwrapEnvLoop].
    repeat match goal with
           | |- (if ?c then _ else _) = Some _ -> _ => destruct c
           end;
      try discriminate;
      try (intros Hk; apply suffixOf_cons; exact (IH _ _ Hk));
      intros [= <-]; first [apply suffixOf_refl | apply suffixOf_cons, suffixOf_refl].
Qed.

Lemma unwrapEnvInvocation_suffix (argv0 kept : list string) :
  unwrapEnvInvocation argv0 = Some kept ->
  kept <> [] /\ exists first rest, argv0 = first :: rest /\ suffixOf kept rest.
Proof.
  unfold unwrapEnvInvocation, JS.sliceFrom.
  destruct (unwrapEnvLoop false (skipn 1 argv0)) as [[|x xs]|] eqn:E; try discriminate.
  intros [= <-]. split; [discriminate|].
  destruct argv0 as [|first rest]; [cbn in E; discriminate|].
  exists first, rest. split; [reflexivity|].
  cbn [skipn] in E. exact (unwrapEnvLoop_suffix _ _ _ E).
Qed.

(** X7.  Unwrapping only drops leading tokens.  What
    [unwrapEnvInvocation] returns is a non-empty suffix of the tokens
    after the first; what [unwrapDispatchWrappersForResolution] returns,
    for every depth bound, is a suffix of its argv, and is not empty
    when the argv is not: no token is rewritten, reordered or added. *)
Theorem unwrapping_keeps_a_suffix :
  forall argv0 : list string,
    (forall kept : list string,
        unwrapEnvInvocation argv0 = Some kept ->
        kept <> [] /\ suffixOf kept (tl argv0)
        /\ List.length kept < List.length argv0)
    /\ (forall maxDepth : nat,
           suffixOf (unwrapDispatchWrappersForResolution argv0 maxDepth) argv0
           /\ (argv0 <> [] ->
               unwrapDispatchWrappersForResolution argv0 maxDepth <> [])).
Proof.
  intros argv0. split.
  - intros kept Hk. apply unwrapEnvInvocation_suffix in Hk
      as (Hne & first & rest & -> & Hs).
    repeat split; [exact Hne | exact Hs |].
    apply suffixOf_length in Hs. cbn. lia.
  - intros maxDepth. revert argv0.
    induction maxDepth as [|n IH]; intros argv0.
    + cbn. split; [apply suffixOf_refl | trivial].
    + cbn [unwrapDispatchWrappersForResolution].
      destruct (JS.isEmpty _); [split; [apply suffixOf_refl | trivial]|].
      destruct (negb _); [split; [apply suffixOf_refl | trivial]|].
      destruct (unwrapEnvInvocation argv0) as [[|x xs]|] eqn:E;
        try (split; [apply suffixOf_refl | trivial]).
      apply unwrapEnvInvocation_suffix in E as (_ & first & rest & -> & Hs).
      destruct (IH (x :: xs)) as [Hsuffix Hne]. split.
      * eapply suffixOf_trans; [exact Hsuffix|]. now apply suffixOf_cons.
      * intros _. apply Hne. discriminate.
Qed.

(** The argv [env -i FOO=bar rg -n], through the theorem. *)
Lemma unwrapping_keeps_a_suffix_witness :
  (["rg"; "-n"] <> []
   /\ suffixOf ["rg"; "-n"] (tl ["env"; "-i"; "FOO=bar"; "rg"; "-n"])
   /\ List.length ["rg"; "-n"] < List.length ["env"; "-i"; "FOO=bar"; "rg"; "-n"])
  /\ suffixOf (unwrapDispatchWrappersForResolution ["env"; "-i"; "FOO=bar"; "rg"; "-n"] 4)
       ["env"; "-i"; "FOO=bar"; "rg"; "-n"].
Proof.
  destruct (unwrapping_keeps_a_suffix ["env"; "-i"; "FOO=bar"; "rg"; "-n"])
    as [Henv Hdispatch].
  split.
  - exact (Henv ["rg"; "-n"] eq_refl).
  - exact (proj1 (Hdispatch 4)).
Defined.

Lemma unwrapEnvLoop_pass (pre tail : list string) :
  EnvPrefix pre ->
  unwrapEnvLoop false (pre ++ tail) = unwrapEnvLoop false tail.
Proof.
  intros Hpre.
  induction Hpre as [|tok pre' Ha _ IH|tok pre' Hf _ IH
                     |tok value pre' Ho Hv _ IH|tok name value pre' Hn E _ IH].
  - reflexivity.
  - cbn [app unwrapEnvLoop].
    destruct (isEnvAssignment_not_dash _ Ha) as (-> & -> & ->).
    cbn [orb]. now rewrite Ha.
  - cbn [app]. now rewrite (unwrapEnvLoop_flag _ _ Hf).
  - cbn [app]. rewrite (unwrapEnvLoop_option_value _ _ Ho).
    cbn [unwrapEnvLoop]. now rewrite (allSpace_false_trim _ Hv).
  - cbn [app]. now rewrite (unwrapEnvLoop_option_inline _ _ _ _ Hn E).
Qed.

Lemma unwrapEnvLoop_unknown (tok : string) (after : list string) :
  unknownEnvOption tok = true -> unwrapEnvLoop false (tok :: after) = None.
Proof.
  unfold unknownEnvOption. intros Hu.
  repeat (apply andb_true_iff in Hu as [Hu ?]).
  rewrite unwrapEnvLoop_option.
  - cbv zeta.
    repeat match goal with
           | E : negb ?b = true |- _ => apply negb_true_iff in E
           end.
    now repeat match goal with
               | E : ?b = false |- context [?b] => rewrite E
               end.
  - exact Hu.
  - intros F. rewrite F in *. discriminate.
  - intros F. rewrite F in *. discriminate.
Qed.

(** X8.  The edges of [unwrapEnvInvocation], after any tokens that
    [env] passes over (assignments, flags, options with their values):
    (1) a [--] or [-] token ends the options, and the tokens after it
    are the inner command, whatever they look like; (2) when nothing
    follows, there is no inner command and the result is null; (3) an
    option that is not known makes the result null, so the invocation is
    not unwrapped. *)
Theorem unwrapEnvInvocation_edges :
  forall (envTok : string) (pre : list string),
    EnvPrefix pre ->
    (forall (terminator first : string) (rest : list string),
        JS.trim terminator = "--" \/ JS.trim terminator = "-" ->
        unwrapEnvInvocation (envTok :: pre ++ terminator :: first :: rest)
        = Some (first :: rest))
    /\ unwrapEnvInvocation (envTok :: pre) = None
    /\ (forall terminator : string,
           JS.trim terminator = "--" \/ JS.trim terminator = "-" ->
           unwrapEnvInvocation (envTok :: pre ++ [terminator]) = None)
    /\ (forall (option : string) (rest : list string),
           unknownEnvOption option = true ->
           unwrapEnvInvocation (envTok :: pre ++ option :: rest) = None).
Proof.
  intros envTok pre Hpre.
  assert (Hterm : forall terminator after,
             JS.trim terminator = "--" \/ JS.trim terminator = "-" ->
             unwrapEnvLoop false (terminator :: after) = Some after).
  { intros terminator after Ht. cbn [unwrapEnvLoop].
    destruct Ht as [-> | ->]; reflexivity. }
  unfold unwrapEnvInvocation, JS.sliceFrom. cbn [skipn].
  split; [|split; [|split]].
  - intros terminator first rest Ht.
    now rewrite (unwrapEnvLoop_pass _ _ Hpre), (Hterm _ _ Ht).
  - rewrite <- (app_nil_r pre), (unwrapEnvLoop_pass _ _ Hpre). reflexivity.
  - intros terminator Ht.
    now rewrite (unwrapEnvLoop_pass _ _ Hpre), (Hterm _ _ Ht).
  - intros option rest Hu.
    now rewrite (unwrapEnvLoop_pass _ _ Hpre), (unwrapEnvLoop_unknown _ _ Hu).
Qed.

(** [env -i FOO=bar] and what follows it, through the theorem. *)
Lemma unwrapEnvInvocation_edges_witness :
  unwrapEnvInvocation ["env"; "-i"; "FOO=bar"; "--"; "-weird"; "x"] = Some ["-weird"; "x"]
  /\ unwrapEnvInvocation ["env"; "-i"; "FOO=bar"] = None
  /\ unwrapEnvInvocation ["env"; "-i"; "FOO=bar"; "--"] = None
  /\ unwrapEnvInvocation ["env"; "-i"; "FOO=bar"; "--frobnicate"; "rg"] = None.
Proof.
  assert (Hpre : EnvPrefix ["-i"; "FOO=bar"]).
  { apply EnvPrefix_flag; [left; reflexivity|].
    apply EnvPrefix_assignment; [reflexivity | constructor]. }
  destruct (unwrapEnvInvocation_edges "env" ["-i"; "FOO=bar"] Hpre)
    as (Hterm & Hnone & Hlast & Hunknown).
  split; [|split; [|split]].
  - exact (Hterm "--" "-weird" ["x"] (or_introl eq_refl)).
  - exact Hnone.
  - exact (Hlast "--" (or_introl eq_refl)).
  - exact (Hunknown "--frobnicate" ["rg"] eq_refl).
Defined.

(** An invocation that is not unwrapped is resolved as [env] itself. *)
Example unknown_env_option_resolves_env :
  option_map executableName
    (resolveCommandResolutionFromArgv Reference.host ["env"; "--frobnicate"; "rg"] None None)
  = Some "env".
Proof. reflexivity. Qed.

(* ================================================================== *)
(** * Shell wrappers behind [env], and the other wrapper kinds *)
(* ================================================================== *)

Lemma in_wrappers_not_env (names0 : list string) (base : string) :
  In base names0 -> ~ In "env" names0 -> String.eqb base "env" = false.
Proof.
  intros Hin Hno. destruct (String.eqb_spec base "env") as [->|]; [contradiction | reflexivity].
Qed.

Lemma in_not_empty (names0 : list string) (s : string) :
  In (basenameLower (JS.trim s)) names0 -> ~ In EmptyString names0 ->
  JS.isEmpty (JS.trim s) = false.
Proof.
  intros Hin Hno. destruct (JS.trim s) eqn:E; [|reflexivity].
  exfalso. apply Hno. exact Hin.
Qed.

(** The POSIX branch with any depth budget left and any declared raw
    command. *)
Lemma internal_posix (shell flag cmd : string) (rest : list string)
  (rawCommand : option string) (budget : nat) :
  In (basenameLower (JS.trim shell)) POSIX_SHELL_WRAPPERS ->
  In (JS.toLowerCase (JS.trim flag)) POSIX_INLINE_COMMAND_FLAGS ->
  allSpace cmd = false ->
  extractShellWrapperCommandInternal (shell :: flag :: cmd :: rest) rawCommand (S budget)
  = {| isWrapper := true;
       command := Some match rawCommand with
                       | Some r => r
                       | None => JS.trim cmd
                       end |}.
Proof.
  intros Hshell Hflag Hcmd.
  cbn [extractShellWrapperCommandInternal]. rewrite trimmedAt_cons0.
  rewrite (in_not_empty POSIX_SHELL_WRAPPERS shell Hshell)
    by (cbn; intuition discriminate).
  rewrite (in_wrappers_not_env POSIX_SHELL_WRAPPERS _ Hshell)
    by (cbn; intuition discriminate).
  apply memStr_true in Hshell. apply memStr_true in Hflag.
  unfold findShellWrapperSpec. cbn [find SHELL_WRAPPER_SPECS names]. rewrite Hshell.
  unfold extractShellWrapperPayload, extractPosixShellInlineCommand. cbn [kind].
  change (JS.trimmedAt (shell :: flag :: cmd :: rest) 1) with (JS.trim flag).
  change (JS.trimmedAt (shell :: flag :: cmd :: rest) 2) with (JS.trim cmd).
  destruct (JS.isEmpty (JS.trim flag)) eqn:E1.
  { apply isEmpty_true in E1. rewrite E1 in Hflag. discriminate. }
  rewrite Hflag. cbn [negb].
  unfold nonEmpty. rewrite (allSpace_false_trim _ Hcmd). reflexivity.
Qed.

Lemma internal_env (envTok : string) (pre inner : list string) (first : string)
  (rawCommand : option string) (budget : nat) :
  basenameLower (JS.trim envTok) = "env" ->
  EnvPrefix pre -> CommandToken first ->
  extractShellWrapperCommandInternal (envTok :: pre ++ first :: inner) rawCommand (S budget)
  = extractShellWrapperCommandInternal (first :: inner) rawCommand budget.
Proof.
  intros Henv Hpre Hfirst.
  cbn [extractShellWrapperCommandInternal]. rewrite trimmedAt_cons0, Henv.
  destruct (JS.isEmpty (JS.trim envTok)) eqn:E.
  { apply isEmpty_true in E. rewrite E in Henv. discriminate. }
  cbn [String.eqb Ascii.eqb Bool.eqb].
  now rewrite (unwrapEnvInvocation_prefix envTok pre first inner Hpre Hfirst).
Qed.

Lemma behindEnv_internal (layers : list (string * list string)) :
  forall (first : string) (inner : list string) (rawCommand : option string)
         (budget : nat),
    Forall EnvLayer layers -> CommandToken first ->
    extractShellWrapperCommandInternal (behindEnv layers (first :: inner)) rawCommand
      (List.length layers + budget)
    = extractShellWrapperCommandInternal (first :: inner) rawCommand budget.
Proof.
  induction layers as [|[envTok pre] rest IH]; intros first inner rawCommand budget Hl Hf.
  - reflexivity.
  - inversion Hl as [|? ? (Henv & Htok & Hpre) Hrest]; subst. cbn [fst snd] in *.
    cbn [behindEnv List.length Nat.add].
    destruct rest as [|[envTok' pre'] rest'].
    + cbn [behindEnv]. rewrite internal_env by assumption. reflexivity.
    + specialize (IH first inner rawCommand budget Hrest Hf).
      cbn [behindEnv] in *.
      inversion Hrest as [|? ? (_ & Htok' & _) _]; subst. cbn [fst] in Htok'.
      change ((envTok' :: pre' ++ behindEnv rest' (first :: inner))%list)
        with (envTok' :: (pre' ++ behindEnv rest' (first :: inner)))%list.
      rewrite internal_env by assumption. exact IH.
Qed.

(** X9.  A POSIX shell wrapper is recognised behind [env]: with at most
    three layers of [env] before the shell, each passing over only
    assignments and known options, [extractShellWrapperCommand] reports
    the wrapper and its trimmed inline command, as for the bare shell
    argv. *)
Theorem shell_wrapper_behind_env :
  forall (layers : list (string * list string)) (shell flag cmd : string)
         (rest : list string),
    List.length layers <= 3 ->
    Forall EnvLayer layers ->
    CommandToken shell ->
    In (basenameLower (JS.trim shell)) POSIX_SHELL_WRAPPERS ->
    In (JS.toLowerCase (JS.trim flag)) POSIX_INLINE_COMMAND_FLAGS ->
    allSpace cmd = false ->
    extractShellWrapperCommand (behindEnv layers (shell :: flag :: cmd :: rest)) None
    = {| isWrapper := true; command := Some (JS.trim cmd) |}.
Proof.
  intros layers shell flag cmd rest Hlen Hl Htok Hshell Hflag Hcmd.
  unfold extractShellWrapperCommand.
  change (normalizeRawCommand None) with (@None string).
  change MAX_DISPATCH_WRAPPER_DEPTH with 4.
  replace 4 with (List.length layers + S (3 - List.length layers)) by lia.
  rewrite behindEnv_internal by assumption.
  now rewrite internal_posix.
Qed.

(** [env -i FOO=bar /usr/bin/env bash -lc "make test"], through the
    theorem. *)
Lemma shell_wrapper_behind_env_witness :
  extractShellWrapperCommand
    ["env"; "-i"; "FOO=bar"; "/usr/bin/env"; "bash"; "-lc"; " make test "] None
  = {| isWrapper := true; command := Some "make test" |}.
Proof.
  apply (shell_wrapper_behind_env [("env", ["-i"; "FOO=bar"]); ("/usr/bin/env", [])]
           "bash" "-lc" " make test " []).
  - cbn. lia.
  - assert (Hpre : EnvPrefix ["-i"; "FOO=bar"]).
    { apply EnvPrefix_flag; [left; reflexivity|].
      apply EnvPrefix_assignment; [reflexivity | constructor]. }
    constructor; [|constructor; [|constructor]].
    + split; [reflexivity | split; [repeat split | exact Hpre]].
    + split; [reflexivity | split; [repeat split | constructor]].
  - repeat split.
  - right; left; reflexivity.
  - left; reflexivity.
  - reflexivity.
Defined.

(** Behind four layers of [env] the depth bound is reached and the
    wrapper is not reported. *)
Example shell_wrapper_behind_four_env :
  extractShellWrapperCommand ["env"; "env"; "env"; "env"; "sh"; "-c"; "ls"] None
  = notAWrapper
  /\ extractShellWrapperCommand ["env"; "env"; "env"; "sh"; "-c"; "ls"] None
     = {| isWrapper := true; command := Some "ls" |}.
Proof. split; reflexivity. Qed.

Lemma internal_rawCommand (budget : nat) :
  forall (argv0 : list string) (rawCommand : option string),
    extractShellWrapperCommandInternal argv0 rawCommand budget
    = let bare := extractShellWrapperCommandInternal argv0 None budget in
      {| isWrapper := isWrapper bare;
         command := if isWrapper bare
                    then match rawCommand with
                         | Some r => Some r
                         | None => command bare
                         end
                    else None |}.
Proof.
  induction budget as [|n IH]; intros argv0 rawCommand; [reflexivity|].
  cbn [extractShellWrapperCommandInternal].
  destruct (JS.isEmpty _); [reflexivity|].
  destruct (String.eqb _ "env").
  - destruct (unwrapEnvInvocation argv0); [apply IH | reflexivity].
  - destruct (findShellWrapperSpec _); [|reflexivity].
    destruct (extractShellWrapperPayload argv0 _); [|reflexivity].
    cbn. now destruct rawCommand.
Qed.

(** X10.  Whether an argv is a shell wrapper never depends on the
    declared [rawCommand]; for a wrapper, a declared [rawCommand] that
    is not blank replaces the inline command, trimmed, and otherwise the
    inline command is reported; for an argv that is no wrapper the
    command is null whatever is declared. *)
Theorem wrapper_verdict_ignores_rawCommand :
  forall (argv0 : list string) (rawCommand : option string),
    isWrapper (extractShellWrapperCommand argv0 rawCommand)
    = isWrapper (extractShellWrapperCommand argv0 None)
    /\ command (extractShellWrapperCommand argv0 rawCommand)
       = if isWrapper (extractShellWrapperCommand argv0 None)
         then match rawCommand with
              | Some r => if allSpace r then extractShellCommandFromArgv argv0
                          else Some (JS.trim r)
              | None => extractShellCommandFromArgv argv0
              end
         else None.
Proof.
  intros argv0 rawCommand. unfold extractShellWrapperCommand, extractShellCommandFromArgv.
  unfold extractShellWrapperCommand.
  change (normalizeRawCommand None) with (@None string).
  rewrite internal_rawCommand. cbv zeta. cbn [isWrapper command].
  split; [reflexivity|].
  destruct (isWrapper _); [|reflexivity].
  unfold normalizeRawCommand. destruct rawCommand as [r|]; [|reflexivity].
  rewrite length_pos_iff.
  destruct (allSpace r) eqn:E.
  - apply trim_empty_iff in E. now rewrite E.
  - now rewrite (allSpace_false_trim _ E).
Qed.

Example wrapper_verdict_examples :
  extractShellWrapperCommand ["sh"; "-c"; "ls"] (Some " ls -la ")
  = {| isWrapper := true; command := Some "ls -la" |}
  /\ extractShellWrapperCommand ["sh"; "-c"; "ls"] (Some "  ")
     = {| isWrapper := true; command := Some "ls" |}
  /\ extractShellWrapperCommand ["ls"; "-c"; "x"] (Some "ls") = notAWrapper.
Proof. repeat split; reflexivity. Qed.

Lemma wrapper_executable (budget : nat) :
  forall (argv0 : list string) (rawCommand : option string) (depth : nat),
    isWrapper (extractShellWrapperCommandInternal argv0 rawCommand budget) = true ->
    budget <= S depth ->
    let effective := unwrapDispatchWrappersForResolution argv0 depth in
    JS.isEmpty (JS.trimmedAt effective 0) = false
    /\ exists spec, findShellWrapperSpec (basenameLower (JS.trimmedAt effective 0))
                    = Some spec.
Proof.
  induction budget as [|n IH]; intros argv0 rawCommand depth; [discriminate|].
  cbn [extractShellWrapperCommandInternal].
  destruct (JS.isEmpty (JS.trimmedAt argv0 0)) eqn:E0; [discriminate|].
  destruct (String.eqb (basenameLower (JS.trimmedAt argv0 0)) "env") eqn:Eenv.
  - destruct (unwrapEnvInvocation argv0) as [inner|] eqn:Eu; [|discriminate].
    intros Hw Hle.
    destruct n as [|n']; [discriminate|].
    destruct depth as [|depth']; [lia|].
    cbn [unwrapDispatchWrappersForResolution]. rewrite E0, Eenv, Eu. cbn [negb].
    destruct (unwrapEnvInvocation_suffix _ _ Eu) as (Hne & _).
    destruct inner as [|x xs]; [congruence|].
    apply (IH (x :: xs) rawCommand depth' Hw). lia.
  - destruct (findShellWrapperSpec _) as [spec|] eqn:Es; [|discriminate].
    intros _ _. cbv zeta. rewrite (unwrap_not_env _ _ Eenv).
    split; [exact E0 | now exists spec].
Qed.

(** X11.  Wrapper detection and resolution agree on the executable: when
    [extractShellWrapperCommand] reports a wrapper, whatever
    [rawCommand] is declared, [resolveCommandResolutionFromArgv]
    resolves the same argv to one of the listed shells (POSIX shell,
    [cmd] or PowerShell), never to [env] or to another program. *)
Theorem wrapper_resolves_to_a_shell :
  forall (H : Host) (argv0 : list string) (rawCommand cwd : option string)
         (env : option ProcessEnv),
    isWrapper (extractShellWrapperCommand argv0 rawCommand) = true ->
    exists (r : CommandResolution) (spec : ShellWrapperSpec),
      resolveCommandResolutionFromArgv H argv0 cwd env = Some r
      /\ findShellWrapperSpec (basenameLower (rawExecutable r)) = Some spec.
Proof.
  intros H argv0 rawCommand cwd env Hw.
  unfold extractShellWrapperCommand in Hw.
  destruct (wrapper_executable _ _ _ MAX_DISPATCH_WRAPPER_DEPTH Hw) as (Hne & spec & Hs).
  { unfold MAX_DISPATCH_WRAPPER_DEPTH. lia. }
  unfold resolveCommandResolutionFromArgv. rewrite Hne.
  eexists. exists spec. split; [reflexivity|]. exact Hs.
Qed.

(** [env FOO=bar /bin/bash -lc ls], through the theorem. *)
Lemma wrapper_resolves_to_a_shell_witness :
  exists (r : CommandResolution) (spec : ShellWrapperSpec),
    resolveCommandResolutionFromArgv Reference.host
      ["env"; "FOO=bar"; "/bin/bash"; "-lc"; "ls"] None None = Some r
    /\ findShellWrapperSpec (basenameLower (rawExecutable r)) = Some spec.
Proof.
  exact (wrapper_resolves_to_a_shell Reference.host
           ["env"; "FOO=bar"; "/bin/bash"; "-lc"; "ls"] None None None eq_refl).
Defined.

Lemma findIndex_first {A : Type} (p : A -> bool) (before : list A) (x : A) (after : list A) :
  forallb (fun y => negb (p y)) before = true -> p x = true ->
  findIndex p (before ++ x :: after) = Some (List.length before).
Proof.
  intros Hb Hx. induction before as [|y before IH]; cbn.
  - now rewrite Hx.
  - cbn in Hb. apply andb_true_iff in Hb as [Hy Hb].
    apply negb_true_iff in Hy. now rewrite Hy, (IH Hb).
Qed.

Lemma findIndex_none {A : Type} (p : A -> bool) (xs : list A) :
  forallb (fun y => negb (p y)) xs = true -> findIndex p xs = None.
Proof.
  induction xs as [|y xs IH]; cbn; [reflexivity|].
  intros Hb. apply andb_true_iff in Hb as [Hy Hb].
  apply negb_true_iff in Hy. now rewrite Hy, (IH Hb).
Qed.

Lemma skipn_app_length {A : Type} (before after : list A) :
  skipn (List.length before) (before ++ after) = after.
Proof. induction before as [|y before IH]; cbn; [reflexivity | exact IH]. Qed.

Lemma lowerChar_slash (c : ascii) : JS.lowerChar c = "/"%char -> c = "/"%char.
Proof.
  destruct c as [[] [] [] [] [] [] [] []]; vm_compute; intros E;
    first [reflexivity | discriminate E].
Qed.

Lemma lowerChar_c (c : ascii) :
  JS.lowerChar c = "c"%char -> c = "c"%char \/ c = "C"%char.
Proof.
  destruct c as [[] [] [] [] [] [] [] []]; vm_compute; intros E;
    first [now left | now right | discriminate E].
Qed.

(** A token whose key is [/c] is not an executable with a listed name. *)
Lemma slash_c_is_no_wrapper (token : string) :
  tokenKey token = "/c" ->
  findShellWrapperSpec (basenameLower (JS.trim token)) = None
  /\ String.eqb (basenameLower (JS.trim token)) "env" = false.
Proof.
  unfold tokenKey. destruct (JS.trim token) as [|a [|b [|c t]]]; try discriminate.
  cbn [JS.toLowerCase]. intros [= Ha Hb].
  apply lowerChar_slash in Ha. apply lowerChar_c in Hb.
  subst a. destruct Hb as [-> | ->]; split; reflexivity.
Qed.

Lemma internal_cmd (exe : string) (argv0 : list string) (rawCommand : option string)
  (budget : nat) :
  In (basenameLower (JS.trim exe)) WINDOWS_CMD_WRAPPERS ->
  extractShellWrapperCommandInternal (exe :: argv0) rawCommand (S budget)
  = match extractCmdInlineCommand (exe :: argv0) with
    | Some payload =>
        {| isWrapper := true;
           command := Some match rawCommand with
                           | Some r => r
                           | None => payload
                           end |}
    | None => notAWrapper
    end.
Proof.
  intros Hexe. cbn [extractShellWrapperCommandInternal]. rewrite trimmedAt_cons0.
  rewrite (in_not_empty WINDOWS_CMD_WRAPPERS exe Hexe) by (cbn; intuition discriminate).
  rewrite (in_wrappers_not_env WINDOWS_CMD_WRAPPERS _ Hexe)
    by (cbn; intuition discriminate).
  assert (Hspec : findShellWrapperSpec (basenameLower (JS.trim exe))
                  = Some {| kind := KindCmd; names := WINDOWS_CMD_WRAPPERS |}).
  { destruct Hexe as [E | [E | []]]; rewrite <- E; reflexivity. }
  rewrite Hspec. reflexivity.
Qed.

(** X12.  The [cmd] wrapper: for an executable named [cmd] or [cmd.exe],
    (1) the inline command is the text of all the tokens after the first
    token that is [/c] (trimmed, in any letter case), joined by single
    spaces and trimmed, when that text is not blank; (2) without a [/c]
    token, or with nothing but blanks after it, the argv is no
    wrapper. *)
Theorem cmd_wrapper_joins_the_tail :
  forall (exe : string) (before : list string),
    In (basenameLower (JS.trim exe)) WINDOWS_CMD_WRAPPERS ->
    forallb (fun t => negb (String.eqb (tokenKey t) "/c")) before = true ->
    (forall (flag : string) (tail : list string),
        tokenKey flag = "/c" ->
        extractShellWrapperCommand (exe :: before ++ flag :: tail) None
        = if allSpace (JS.join " " tail) then notAWrapper
          else {| isWrapper := true; command := Some (JS.trim (JS.join " " tail)) |})
    /\ extractShellWrapperCommand (exe :: before) None = notAWrapper.
Proof.
  intros exe before Hexe Hbefore.
  assert (Hexe' : negb (String.eqb (tokenKey exe) "/c") = true).
  { apply negb_true_iff. destruct (String.eqb_spec (tokenKey exe) "/c") as [E|]; [|reflexivity].
    exfalso. destruct (slash_c_is_no_wrapper exe E) as [Hnone _].
    destruct Hexe as [E1 | [E1 | []]]; rewrite <- E1 in Hnone; discriminate. }
  unfold extractShellWrapperCommand.
  change (normalizeRawCommand None) with (@None string).
  change MAX_DISPATCH_WRAPPER_DEPTH with 4.
  split.
  - intros flag tail Hflag. rewrite internal_cmd by exact Hexe.
    unfold extractCmdInlineCommand.
    change (exe :: before ++ flag :: tail)%list with ((exe :: before) ++ flag :: tail)%list.
    rewrite (findIndex_first _ (exe :: before) flag tail).
    + unfold JS.sliceFrom.
      replace (List.length (exe :: before) + 1) with (List.length ((exe :: before) ++ [flag]))
        by (rewrite length_app; reflexivity).
      replace ((exe :: before) ++ flag :: tail)%list
        with (((exe :: before) ++ [flag]) ++ tail)%list
        by (rewrite <- app_assoc; reflexivity).
      rewrite skipn_app_length.
      destruct tail as [|t tail]; [reflexivity|].
      unfold nonEmpty.
      destruct (allSpace (JS.join " " (t :: tail))) eqn:E.
      * apply trim_empty_iff in E. now rewrite E.
      * now rewrite (allSpace_false_trim _ E).
    + cbn [forallb]. unfold tokenKey in *. now rewrite Hexe', Hbefore.
    + unfold tokenKey in Hflag. rewrite Hflag. reflexivity.
  - rewrite internal_cmd by exact Hexe.
    unfold extractCmdInlineCommand. rewrite findIndex_none; [reflexivity|].
    cbn [forallb]. unfold tokenKey in *. now rewrite Hexe', Hbefore.
Qed.

(** [cmd.exe /d /C echo "a b"], through the theorem. *)
Lemma cmd_wrapper_joins_the_tail_witness :
  extractShellWrapperCommand ["C:\Windows\System32\cmd.exe"; "/d"; " /C "; "echo"; " a b "] None
  = {| isWrapper := true; command := Some "echo  a b" |}
  /\ extractShellWrapperCommand ["C:\Windows\System32\cmd.exe"; "/d"] None = notAWrapper.
Proof.
  destruct (cmd_wrapper_joins_the_tail "C:\Windows\System32\cmd.exe" ["/d"])
    as [Hjoin Hnone].
  - left. reflexivity.
  - reflexivity.
  - split.
    + exact (Hjoin " /C " ["echo"; " a b "] eq_refl).
    + exact Hnone.
Defined.

Lemma powerShellLoop_skips (before rest : list string) :
  forallb powerShellSkips before = true ->
  powerShellLoop (before ++ rest) = powerShellLoop rest.
Proof.
  intros Hb. induction before as [|t before IH]; [reflexivity|].
  cbn [forallb] in Hb. apply andb_true_iff in Hb as [Ht Hb].
  unfold powerShellSkips, tokenKey in Ht. apply andb_true_iff in Ht as [H1 H2].
  apply negb_true_iff in H1. apply negb_true_iff in H2.
  cbn [app powerShellLoop].
  destruct (JS.isEmpty (JS.trim t)); [exact (IH Hb)|].
  rewrite H1, H2. exact (IH Hb).
Qed.

Lemma internal_powershell (exe : string) (argv0 : list string)
  (rawCommand : option string) (budget : nat) :
  In (basenameLower (JS.trim exe)) POWERSHELL_WRAPPERS ->
  extractShellWrapperCommandInternal (exe :: argv0) rawCommand (S budget)
  = match powerShellLoop argv0 with
    | Some payload =>
        {| isWrapper := true;
           command := Some match rawCommand with
                           | Some r => r
                           | None => payload
                           end |}
    | None => notAWrapper
    end.
Proof.
  intros Hexe. cbn [extractShellWrapperCommandInternal]. rewrite trimmedAt_cons0.
  rewrite (in_not_empty POWERSHELL_WRAPPERS exe Hexe) by (cbn; intuition discriminate).
  rewrite (in_wrappers_not_env POWERSHELL_WRAPPERS _ Hexe)
    by (cbn; intuition discriminate).
  assert (Hspec : findShellWrapperSpec (basenameLower (JS.trim exe))
                  = Some {| kind := KindPowershell; names := POWERSHELL_WRAPPERS |}).
  { destruct Hexe as [E | [E | [E | [E | []]]]]; rewrite <- E; reflexivity. }
  rewrite Hspec. reflexivity.
Qed.

(** X13.  The PowerShell wrapper: for an executable named [powershell]
    or [pwsh] (with or without [.exe]), after tokens that are neither
    [--] nor an inline-command flag, (1) the first token that is [-c],
    [-command] or [--command] (trimmed, in any letter case) makes the
    next token, trimmed, the inline command, and the argv is no wrapper
    when that token is blank or missing; (2) a [--] token ends the search:
    a flag after it is not looked at. *)
Theorem powershell_wrapper_first_flag :
  forall (exe : string) (before : list string),
    In (basenameLower (JS.trim exe)) POWERSHELL_WRAPPERS ->
    forallb powerShellSkips before = true ->
    (forall (flag cmd : string) (rest : list string),
        In (tokenKey flag) POWERSHELL_INLINE_COMMAND_FLAGS ->
        extractShellWrapperCommand (exe :: before ++ flag :: cmd :: rest) None
        = if allSpace cmd then notAWrapper
          else {| isWrapper := true; command := Some (JS.trim cmd) |})
    /\ (forall flag : string,
           In (tokenKey flag) POWERSHELL_INLINE_COMMAND_FLAGS ->
           extractShellWrapperCommand (exe :: before ++ [flag]) None = notAWrapper)
    /\ (forall (terminator : string) (rest : list string),
           tokenKey terminator = "--" ->
           extractShellWrapperCommand (exe :: before ++ terminator :: rest) None
           = notAWrapper).
Proof.
  intros exe before Hexe Hbefore.
  unfold extractShellWrapperCommand.
  change (normalizeRawCommand None) with (@None string).
  change MAX_DISPATCH_WRAPPER_DEPTH with 4.
  assert (Hflag : forall flag after,
             In (tokenKey flag) POWERSHELL_INLINE_COMMAND_FLAGS ->
             powerShellLoop (flag :: after) = nonEmpty (JS.trimmedAt after 0)).
  { intros flag after Hin. unfold tokenKey in Hin. cbn [powerShellLoop].
    destruct (JS.isEmpty (JS.trim flag)) eqn:E.
    { apply isEmpty_true in E. rewrite E in Hin. cbn in Hin. intuition discriminate. }
    destruct (String.eqb_spec (JS.toLowerCase (JS.trim flag)) "--") as [F|_].
    { rewrite F in Hin. cbn in Hin. intuition discriminate. }
    apply memStr_true in Hin. now rewrite Hin. }
  split; [|split].
  - intros flag cmd rest Hin.
    rewrite internal_powershell by exact Hexe.
    rewrite (powerShellLoop_skips _ _ Hbefore), (Hflag _ _ Hin), trimmedAt_cons0.
    unfold nonEmpty. destruct (allSpace cmd) eqn:E.
    + apply trim_empty_iff in E. now rewrite E.
    + now rewrite (allSpace_false_trim _ E).
  - intros flag Hin.
    rewrite internal_powershell by exact Hexe.
    now rewrite (powerShellLoop_skips _ _ Hbefore), (Hflag _ _ Hin).
  - intros terminator rest Ht.
    rewrite internal_powershell by exact Hexe.
    rewrite (powerShellLoop_skips _ _ Hbefore).
    unfold tokenKey in Ht. cbn [powerShellLoop].
    destruct (JS.isEmpty (JS.trim terminator)) eqn:E.
    { apply isEmpty_true in E. rewrite E in Ht. discriminate. }
    now rewrite Ht.
Qed.

(** [pwsh -NoProfile -Command Get-Date], through the theorem. *)
Lemma powershell_wrapper_first_flag_witness :
  extractShellWrapperCommand ["pwsh"; "-NoProfile"; "-Command"; " Get-Date "; "-c"; "x"] None
  = {| isWrapper := true; command := Some "Get-Date" |}
  /\ extractShellWrapperCommand ["pwsh"; "-NoProfile"; "-Command"] None = notAWrapper
  /\ extractShellWrapperCommand ["pwsh"; "-NoProfile"; "--"; "-Command"; "Get-Date"] None
     = notAWrapper.
Proof.
  destruct (powershell_wrapper_first_flag "pwsh" ["-NoProfile"])
    as (Hflag & Hlast & Hterm).
  - right; right; left. reflexivity.
  - reflexivity.
  - split; [|split].
    + exact (Hflag "-Command" " Get-Date " ["-c"; "x"] (or_intror (or_introl eq_refl))).
    + exact (Hlast "-Command" (or_intror (or_introl eq_refl))).
    + exact (Hterm "--" ["-Command"; "Get-Date"] eq_refl).
Defined.

(* ================================================================== *)
(** * The text shown for a [system.run] request *)
(* ================================================================== *)

Lemma existsChar_append (p : ascii -> bool) (a b : string) :
  JS.existsChar p (a ++ b) = JS.existsChar p a || JS.existsChar p b.
Proof.
  induction a as [|x a IH]; cbn; [reflexivity|]. now rewrite IH, orb_assoc.
Qed.

Lemma existsChar_rev (p : ascii -> bool) (s : string) :
  JS.existsChar p (JS.rev s) = JS.existsChar p s.
Proof.
  induction s as [|x s IH]; [reflexivity|].
  cbn [JS.rev JS.existsChar]. unfold JS.snoc, JS.str.
  rewrite existsChar_append, IH. cbn. rewrite orb_false_r. apply orb_comm.
Qed.

Lemma existsChar_weaken (p q : ascii -> bool) (s : string) :
  (forall c, q c = true -> p c = true) ->
  JS.existsChar p s = false -> JS.existsChar q s = false.
Proof.
  intros Hpq. induction s as [|x s IH]; [reflexivity|].
  cbn. intros Hs. apply orb_false_elim in Hs as [Hx Hs].
  rewrite (IH Hs), orb_false_r.
  destruct (q x) eqn:E; [|reflexivity]. apply Hpq in E. congruence.
Qed.

Lemma simpleWord_noSpace (w : string) : simpleWord w = true -> noSpace w = true.
Proof.
  unfold simpleWord, noSpace. intros Hw. apply andb_true_iff in Hw as [_ Hw].
  apply negb_true_iff in Hw. apply negb_true_iff.
  apply (existsChar_weaken _ _ _ (fun c Hc => eq_trans (f_equal (fun b => b || _) Hc) eq_refl) Hw).
Qed.

Lemma simpleWord_trim (w : string) : simpleWord w = true -> JS.trim w = w.
Proof.
  intros Hw. destruct (noSpace_startsClean_rev w (simpleWord_noSpace w Hw)) as [H1 H2].
  now apply trim_fixed.
Qed.

Lemma formatExecArg_simple (w : string) : simpleWord w = true -> formatExecArg w = w.
Proof.
  intros Hw. unfold formatExecArg. rewrite (simpleWord_trim w Hw).
  unfold simpleWord in Hw. apply andb_true_iff in Hw as [Hne Hq].
  apply negb_true_iff in Hne. rewrite Hne. now rewrite Hq.
Qed.

Lemma formatExecCommand_simple (argv0 : list string) :
  forallb simpleWord argv0 = true -> formatExecCommand argv0 = JS.join " " argv0.
Proof.
  intros Hall. unfold formatExecCommand. f_equal.
  induction argv0 as [|w ws IH]; [reflexivity|].
  cbn [forallb] in Hall. apply andb_true_iff in Hall as [Hw Hws].
  cbn [map]. now rewrite (formatExecArg_simple w Hw), (IH Hws).
Qed.

Lemma formatExecArg_trim (arg : string) : formatExecArg (JS.trim arg) = formatExecArg arg.
Proof. unfold formatExecArg. now rewrite trim_idempotent. Qed.

(** X14.  [formatExecCommand] (1) joins arguments that are not empty and
    hold neither white space nor a double quote by single spaces,
    unchanged; (2) does not see the white space around an argument;
    (3) writes an empty or blank argument as two double quotes, and
    (4) wraps an argument with white space inside, and no double quote,
    in double quotes. *)
Theorem formatExecCommand_rendering :
  (forall argv0 : list string,
      forallb simpleWord argv0 = true -> formatExecCommand argv0 = JS.join " " argv0)
  /\ (forall argv0 : list string,
         formatExecCommand (map JS.trim argv0) = formatExecCommand argv0)
  /\ (forall arg : string,
         allSpace arg = true ->
         formatExecCommand [arg] = String JS.DQ (JS.str JS.DQ))
  /\ (forall arg : string,
         JS.existsChar JS.isSpace (JS.trim arg) = true ->
         JS.includesChar arg JS.DQ = false ->
         formatExecCommand [arg] = String JS.DQ (JS.trim arg ++ JS.str JS.DQ)).
Proof.
  split; [|split; [|split]].
  - exact formatExecCommand_simple.
  - intros argv0. unfold formatExecCommand. f_equal. rewrite map_map.
    apply map_ext. exact formatExecArg_trim.
  - intros arg Hblank. apply trim_empty_iff in Hblank.
    unfold formatExecCommand, formatExecArg. cbn [map]. rewrite Hblank. reflexivity.
  - intros arg Hspace Hdq.
    unfold formatExecCommand, formatExecArg. cbn [map JS.join String.concat].
    destruct (JS.trim arg) as [|c t] eqn:E; [discriminate|].
    cbn [JS.isEmpty].
    assert (Hex : JS.existsChar (fun c0 => JS.isSpace c0 || Ascii.eqb c0 JS.DQ) (String c t)
                  = true).
    { clear - Hspace. induction (String c t) as [|x s IH]; [discriminate|].
      cbn in *. destruct (JS.isSpace x); [reflexivity|]. cbn in *.
      rewrite (IH Hspace). apply orb_true_r. }
    rewrite Hex. cbn [negb]. do 2 f_equal.
    assert (Hno : JS.includesChar (String c t) JS.DQ = false).
    { rewrite <- E. destruct (trim_split arg) as (ws1 & ws2 & _ & _ & Es).
      rewrite Es in Hdq.
      assert (Happ : forall a b, JS.includesChar (a ++ b) JS.DQ
                                 = JS.includesChar a JS.DQ || JS.includesChar b JS.DQ).
      { clear. induction a as [|x a IHa]; intros b; cbn; [reflexivity|].
        now rewrite IHa, orb_assoc. }
      rewrite !Happ in Hdq.
      apply orb_false_elim in Hdq as [_ Hdq]. now apply orb_false_elim in Hdq. }
    clear - Hno. induction (String c t) as [|x s IH]; [reflexivity|].
    cbn in *. apply orb_false_elim in Hno as [Hx Hs].
    rewrite Hx. now rewrite (IH Hs).
Qed.

Lemma formatExecCommand_rendering_witness :
  formatExecCommand ["rg"; "-n"; "foo"] = "rg -n foo"
  /\ formatExecCommand [" "] = String JS.DQ (JS.str JS.DQ)
  /\ formatExecCommand [" a b "] = String JS.DQ ("a b" ++ JS.str JS.DQ).
Proof.
  destruct formatExecCommand_rendering as (Hsimple & _ & Hblank & Hquoted).
  split; [|split].
  - exact (Hsimple ["rg"; "-n"; "foo"] eq_refl).
  - exact (Hblank " " eq_refl).
  - exact (Hquoted " a b " eq_refl eq_refl).
Defined.

Lemma validation_cases (argv0 : list string) (rawCommand : option string) :
  match validateSystemRunCommandConsistency argv0 rawCommand with
  | ValidationOk shellCommand cmdText =>
      cmdText = referenceText argv0
      /\ shellCommand = extractShellCommandFromArgv argv0
      /\ forall r, rawCommand = Some r -> allSpace r = false ->
                   JS.trim r = referenceText argv0
  | ValidationError message code declared inferred =>
      message = "INVALID_REQUEST: rawCommand does not match command"
      /\ code = "RAW_COMMAND_MISMATCH"
      /\ inferred = referenceText argv0
      /\ declared <> inferred
      /\ exists r, rawCommand = Some r /\ declared = JS.trim r
  end.
Proof.
  pose proof (inferred_is_referenceText argv0) as Hinf.
  unfold validateSystemRunCommandConsistency, extractShellCommandFromArgv.
  assert (Hshape : forall sc, command (extractShellWrapperCommand argv0 None) = Some sc ->
                              JS.trim sc = sc).
  { intros sc Hsc. unfold extractShellWrapperCommand in Hsc.
    destruct (wrapper_shape MAX_DISPATCH_WRAPPER_DEPTH argv0) as [E | (p & E & Hp)];
      change (normalizeRawCommand None) with (@None string) in Hsc;
      rewrite E in Hsc; cbn in Hsc; [discriminate|].
    injection Hsc as <-. exact Hp. }
  destruct rawCommand as [r|].
  - rewrite length_pos_iff.
    destruct (JS.isEmpty (JS.trim r)) eqn:E0; cbn [negb].
    + destruct (command (extractShellWrapperCommand argv0 None)) as [sc|] eqn:Esc.
      * rewrite (Hshape sc eq_refl) in Hinf. repeat split; trivial.
        intros r' [= <-] Hb. apply allSpace_false_trim in Hb. congruence.
      * repeat split; trivial.
        intros r' [= <-] Hb. apply allSpace_false_trim in Hb. congruence.
    + destruct (String.eqb_spec (JS.trim r)
                  match command (extractShellWrapperCommand argv0 None) with
                  | Some sc => JS.trim sc
                  | None => formatExecCommand argv0
                  end) as [E|N]; cbn [negb].
      * rewrite Hinf in E.
        destruct (command (extractShellWrapperCommand argv0 None)) as [sc|] eqn:Esc.
        -- rewrite (Hshape sc eq_refl) in Hinf.
           repeat split; try congruence; intros r' [= <-] _; exact E.
        -- repeat split; try congruence; intros r' [= <-] _; exact E.
      * repeat split; trivial. now exists r.
  - destruct (command (extractShellWrapperCommand argv0 None)) as [sc|] eqn:Esc.
    + rewrite (Hshape sc eq_refl) in Hinf. repeat split; trivial. discriminate.
    + repeat split; trivial. discriminate.
Qed.

(** X15.  What [resolveSystemRunCommand] accepts is what it shows: in an
    ok result for a non-empty command, [argv] is the command, [cmdText]
    is the reference text of the argv (the inline command of a shell
    wrapper, the formatted argv otherwise), [shellCommand] is the inline
    command of a wrapper and null otherwise, and [rawCommand] is null or
    that same reference text.  The only errors are [MISSING_COMMAND],
    exactly for a declared raw command without a command, and
    [RAW_COMMAND_MISMATCH], whose details hold the declared text and the
    reference text, which differ. *)
Theorem resolveSystemRunCommand_shows_what_runs :
  forall (command0 : option (list string)) (rawCommand : option string),
    match resolveSystemRunCommand command0 rawCommand with
    | ResolvedOk argv0 raw shellCommand cmdText =>
        argv0 = match command0 with
                | Some entries => entries
                | None => []
                end
        /\ (argv0 = [] -> raw = None /\ shellCommand = None /\ cmdText = EmptyString)
        /\ (argv0 <> [] ->
            cmdText = referenceText argv0
            /\ shellCommand = extractShellCommandFromArgv argv0
            /\ (raw = None \/ raw = Some (referenceText argv0)))
    | ResolvedError message code mismatch =>
        (code = "MISSING_COMMAND" /\ mismatch = None
         /\ match command0 with
            | Some entries => entries = []
            | None => True
            end
         /\ exists r, rawCommand = Some r /\ allSpace r = false)
        \/ (code = "RAW_COMMAND_MISMATCH"
            /\ exists (entries : list string) (r : string),
                command0 = Some entries /\ rawCommand = Some r
                /\ mismatch = Some (JS.trim r, referenceText entries)
                /\ JS.trim r <> referenceText entries)
    end.
Proof.
  intros command0 rawCommand. unfold resolveSystemRunCommand.
  set (raw := match rawCommand with
              | Some r => if Nat.ltb 0 (String.length (JS.trim r))
                          then Some (JS.trim r) else None
              | None => None
              end).
  assert (Hraw : raw = None \/ exists r, rawCommand = Some r /\ allSpace r = false
                                         /\ raw = Some (JS.trim r)).
  { unfold raw. destruct rawCommand as [r|]; [|now left].
    rewrite length_pos_iff. destruct (JS.isEmpty (JS.trim r)) eqn:E; [now left|].
    right. exists r. repeat split.
    destruct (allSpace r) eqn:Hb; [|reflexivity].
    apply trim_empty_iff in Hb. rewrite Hb in E. discriminate. }
  destruct command0 as [[|x xs]|].
  - destruct Hraw as [-> | (r & -> & Hb & ->)].
    + split; [reflexivity|].
      split; [intros _; repeat split | intros F; now contradiction F].
    + left. repeat split. now exists r.
  - pose proof (validation_cases (x :: xs) raw) as Hv.
    destruct (validateSystemRunCommandConsistency (x :: xs) raw)
      as [shellCommand cmdText | message code declared inferred].
    + destruct Hv as (Ht & Hs & Hr).
      split; [reflexivity|]. split; [discriminate|]. intros _.
      split; [exact Ht|]. split; [exact Hs|].
      destruct Hraw as [-> | (r & _ & Hb & Er)]; [now left|]. right.
      rewrite Er. f_equal. rewrite <- (trim_idempotent r).
      apply (Hr (JS.trim r) Er).
      destruct (allSpace (JS.trim r)) eqn:Hb'; [|reflexivity].
      apply trim_empty_iff in Hb'. rewrite trim_idempotent in Hb'.
      apply trim_empty_iff in Hb'. congruence.
    + destruct Hv as (_ & -> & -> & Hd & r0 & Er0 & ->).
      right. split; [reflexivity|].
      destruct Hraw as [E | (r & -> & Hb & Er)]; [rewrite E in Er0; discriminate|].
      rewrite Er in Er0. injection Er0 as <-.
      rewrite trim_idempotent in *.
      exists (x :: xs), r. repeat split; trivial.
  - destruct Hraw as [-> | (r & -> & Hb & ->)].
    + split; [reflexivity|].
      split; [intros _; repeat split | intros F; now contradiction F].
    + left. repeat split. now exists r.
Qed.

Example resolveSystemRunCommand_examples :
  resolveSystemRunCommand (Some ["/bin/sh"; "-lc"; "echo hi"]) (Some " echo hi ")
  = ResolvedOk ["/bin/sh"; "-lc"; "echo hi"] (Some "echo hi") (Some "echo hi") "echo hi"
  /\ resolveSystemRunCommand (Some ["rg"; "-n"; "a b"]) None
     = ResolvedOk ["rg"; "-n"; "a b"] None None
         ("rg -n " ++ String JS.DQ ("a b" ++ JS.str JS.DQ))
  /\ resolveSystemRunCommand (Some ["rg"; "-n"]) (Some "ls")
     = ResolvedError "INVALID_REQUEST: rawCommand does not match command"
         "RAW_COMMAND_MISMATCH" (Some ("ls", "rg -n"))
  /\ resolveSystemRunCommand None (Some "ls")
     = ResolvedError "rawCommand requires params.command" "MISSING_COMMAND" None
  /\ resolveSystemRunCommand (Some []) (Some "  ")
     = ResolvedOk [] None None EmptyString.
Proof. repeat split; reflexivity. Qed.

(* ================================================================== *)
(** * Windows mode *)
(* ================================================================== *)

Lemma findWindowsUnsupportedToken_none (command0 : string) :
  findWindowsUnsupportedToken command0 = None
  <-> JS.existsChar windowsUnsupported command0 = false.
Proof.
  induction command0 as [|c t IH]; [split; reflexivity|].
  cbn [findWindowsUnsupportedToken JS.existsChar]. unfold windowsUnsupported at 1.
  destruct (JS.memChar c WINDOWS_UNSUPPORTED_TOKENS); cbn [orb].
  - split; [destruct (isNewline c)|]; discriminate.
  - exact IH.
Qed.

(** The scan returns the first refused character, and [newline] for a
    line break. *)
Lemma findWindowsUnsupportedToken_first (pre : string) (c : ascii) (post : string) :
  JS.existsChar windowsUnsupported pre = false ->
  windowsUnsupported c = true ->
  findWindowsUnsupportedToken (pre ++ String c post)
  = Some (if isNewline c then "newline" else JS.str c).
Proof.
  intros Hpre Hc. induction pre as [|d pre IH].
  - cbn [append findWindowsUnsupportedToken]. unfold windowsUnsupported in Hc.
    rewrite Hc. destruct (isNewline c); reflexivity.
  - cbn [JS.existsChar] in Hpre. apply orb_false_elim in Hpre as [Hd Hpre].
    cbn [append findWindowsUnsupportedToken]. unfold windowsUnsupported in Hd.
    rewrite Hd. exact (IH Hpre).
Qed.

Lemma first_refused_character (s : string) :
  JS.existsChar windowsUnsupported s = true ->
  exists (pre : string) (c : ascii) (post : string),
    s = pre ++ String c post
    /\ JS.existsChar windowsUnsupported pre = false
    /\ windowsUnsupported c = true.
Proof.
  induction s as [|d s IH]; [discriminate|].
  cbn [JS.existsChar]. destruct (windowsUnsupported d) eqn:Hd.
  - intros _. exists EmptyString, d, s. repeat split. exact Hd.
  - cbn [orb]. intros Hs. destruct (IH Hs) as (pre & c & post & -> & Hpre & Hc).
    exists (String d pre), c, post. repeat split; [|exact Hc].
    cbn [JS.existsChar]. now rewrite Hd, Hpre.
Qed.

Lemma forallChar_append (p : ascii -> bool) (a b : string) :
  forallChar p (a ++ b) = forallChar p a && forallChar p b.
Proof.
  induction a as [|x a IH]; cbn; [reflexivity|]. now rewrite IH, andb_assoc.
Qed.

Lemma forallChar_existsChar (p : ascii -> bool) (s : string) :
  forallChar (fun c => negb (p c)) s = negb (JS.existsChar p s).
Proof.
  induction s as [|x s IH]; cbn; [reflexivity|]. now rewrite IH, negb_orb.
Qed.

(** The tokens collected so far and the buffer hold only characters of
    the input that are not double quotes; collected tokens are not
    empty. *)
Lemma tokenizeWindowsLoop_tokens (p : ascii -> bool) (segment : string) :
  forall (tokens : list string) (buf : string) (inDouble : bool),
    forallChar p segment = true ->
    Forall (fun t => negb (JS.isEmpty t)
                     && forallChar (fun c => negb (Ascii.eqb c JS.DQ) && p c) t = true)
      tokens ->
    forallChar (fun c => negb (Ascii.eqb c JS.DQ) && p c) buf = true ->
    let '(tokens', buf', _) := tokenizeWindowsLoop tokens buf inDouble segment in
    Forall (fun t => negb (JS.isEmpty t)
                     && forallChar (fun c => negb (Ascii.eqb c JS.DQ) && p c) t = true)
      tokens'
    /\ forallChar (fun c => negb (Ascii.eqb c JS.DQ) && p c) buf' = true.
Proof.
  induction segment as [|ch t IH]; intros tokens buf inDouble Hs Ht Hb.
  - cbn. now split.
  - cbn [forallChar] in Hs. apply andb_true_iff in Hs as [Hch Hs].
    cbn [tokenizeWindowsLoop].
    destruct (Ascii.eqb ch JS.DQ) eqn:Edq; [now apply IH|].
    destruct (negb inDouble && JS.isSpace ch).
    + apply IH; trivial. unfold pushToken. rewrite length_pos_iff.
      destruct (JS.isEmpty buf) eqn:Eb; cbn [negb]; [exact Ht|].
      apply Forall_app. split; [exact Ht|]. constructor; [|constructor].
      now rewrite Eb, Hb.
    + apply IH; trivial. unfold JS.snoc, JS.str.
      rewrite forallChar_append, Hb. cbn. now rewrite Edq, Hch.
Qed.

Lemma tokenizeWindowsLoop_quotes (segment : string) :
  forall (tokens : list string) (buf : string) (inDouble : bool),
    snd (tokenizeWindowsLoop tokens buf inDouble segment)
    = if quotesBalanced segment then inDouble else negb inDouble.
Proof.
  induction segment as [|ch t IH]; intros tokens buf inDouble; [reflexivity|].
  cbn [tokenizeWindowsLoop quotesBalanced].
  destruct (Ascii.eqb ch JS.DQ).
  - rewrite IH. destruct (quotesBalanced t), inDouble; reflexivity.
  - destruct (negb inDouble && JS.isSpace ch); apply IH.
Qed.

(** X16.  Windows mode of [analyzeShellCommand]: (1) a command that
    holds one of the refused characters anywhere, inside double quotes
    or not, is rejected, and the reason names the first refused
    character of the command, or [newline] when that is a line break:
    (1a) wherever that character stands, and (1b) such a first refused
    character exists as soon as the command holds a refused character;
    (2) a command whose double quotes are not balanced is rejected; (3)
    an accepted command has exactly one segment, whose raw text is the
    command as it was given, and whose argv is not empty and made of
    tokens that are not empty and hold no double quote and no refused
    character. *)
Theorem windows_mode_refuses_metacharacters :
  forall (H : Host) (command0 : string) (cwd : option string) (env : option ProcessEnv)
         (platform : option string),
    isWindowsPlatform platform = true ->
    (forall (pre : string) (c : ascii) (post : string),
        command0 = pre ++ String c post ->
        JS.existsChar windowsUnsupported pre = false ->
        windowsUnsupported c = true ->
        analyzeShellCommand H command0 cwd env platform
        = failed (Some ("unsupported windows shell token: "
                        ++ (if isNewline c then "newline" else String c EmptyString))))
    /\ (JS.existsChar windowsUnsupported command0 = true ->
        exists (pre : string) (c : ascii) (post : string),
          command0 = pre ++ String c post
          /\ JS.existsChar windowsUnsupported pre = false
          /\ windowsUnsupported c = true
          /\ analyzeShellCommand H command0 cwd env platform
             = failed (Some ("unsupported windows shell token: "
                             ++ (if isNewline c then "newline"
                                 else String c EmptyString))))
    /\ (quotesBalanced command0 = false ->
        ok (analyzeShellCommand H command0 cwd env platform) = false)
    /\ (ok (analyzeShellCommand H command0 cwd env platform) = true ->
        exists tokens,
          segments (analyzeShellCommand H command0 cwd env platform)
          = [ {| raw := command0; argv := tokens;
                 resolution := resolveCommandResolutionFromArgv H tokens cwd env |} ]
          /\ tokens <> []
          /\ forallb windowsToken tokens = true).
Proof.
  intros H command0 cwd env platform Hwin.
  unfold analyzeShellCommand. rewrite Hwin. unfold analyzeWindowsShellCommand.
  split; [|split; [|split]].
  - intros pre c post -> Hpre Hc.
    rewrite (findWindowsUnsupportedToken_first pre c post Hpre Hc). reflexivity.
  - intros Hex.
    destruct (first_refused_character command0 Hex) as (pre & c & post & -> & Hpre & Hc).
    exists pre, c, post. split; [reflexivity|]. split; [exact Hpre|].
    split; [exact Hc|].
    rewrite (findWindowsUnsupportedToken_first pre c post Hpre Hc). reflexivity.
  - intros Hq.
    destruct (findWindowsUnsupportedToken command0); [reflexivity|].
    unfold tokenizeWindowsSegment.
    pose proof (tokenizeWindowsLoop_quotes command0 [] EmptyString false) as Hs.
    destruct (tokenizeWindowsLoop [] EmptyString false command0) as [[tokens buf] inDouble].
    cbn [snd] in Hs. rewrite Hq in Hs. cbn in Hs. now rewrite Hs.
  - destruct (findWindowsUnsupportedToken command0) eqn:E; [discriminate|].
    apply findWindowsUnsupportedToken_none in E.
    unfold tokenizeWindowsSegment.
    pose proof (tokenizeWindowsLoop_tokens (fun c => negb (windowsUnsupported c))
                  command0 [] EmptyString false) as Hinv.
    destruct (tokenizeWindowsLoop [] EmptyString false command0) as [[tokens buf] inDouble].
    destruct Hinv as [Htokens Hbuf];
      [rewrite forallChar_existsChar, E; reflexivity | constructor | reflexivity|].
    destruct inDouble; [discriminate|].
    destruct (pushToken tokens buf) as [|t ts] eqn:Ep; [discriminate|].
    intros _. exists (t :: ts). split; [reflexivity|]. split; [discriminate|].
    rewrite <- Ep. unfold pushToken. rewrite length_pos_iff.
    assert (Hall : forallb windowsToken tokens = true).
    { apply forallb_forall. intros x Hx.
      rewrite Forall_forall in Htokens. exact (Htokens x Hx). }
    destruct (JS.isEmpty buf) eqn:Eb; cbn [negb]; [exact Hall|].
    rewrite forallb_app, Hall. cbn [forallb]. unfold windowsToken.
    now rewrite Eb, Hbuf.
Qed.

(** A quoted pipe, a line break, an open quote and a command with a
    quoted argument on Windows, through the theorem. *)
Lemma windows_mode_refuses_metacharacters_witness :
  analyzeShellCommand Reference.host
    ("echo " ++ String JS.DQ ("a | b > c" ++ JS.str JS.DQ)) None None (Some "win32")
  = failed (Some "unsupported windows shell token: |")
  /\ analyzeShellCommand Reference.host
       ("dir" ++ String JS.LF "del & x") None None (Some "win32")
     = failed (Some "unsupported windows shell token: newline")
  /\ ok (analyzeShellCommand Reference.host ("echo " ++ String JS.DQ "a b")
           None None (Some "win32")) = false
  /\ exists tokens,
       segments (analyzeShellCommand Reference.host
                   (" rg " ++ String JS.DQ ("a b" ++ String JS.DQ " -n"))
                   None None (Some "Windows_NT"))
       = [ {| raw := " rg " ++ String JS.DQ ("a b" ++ String JS.DQ " -n");
              argv := tokens;
              resolution :=
                resolveCommandResolutionFromArgv Reference.host tokens None None |} ]
       /\ tokens <> []
       /\ forallb windowsToken tokens = true.
Proof.
  split; [|split; [|split]].
  - destruct (windows_mode_refuses_metacharacters Reference.host
                ("echo " ++ String JS.DQ ("a | b > c" ++ JS.str JS.DQ)) None None
                (Some "win32") eq_refl) as (Hfirst & _).
    exact (Hfirst ("echo " ++ String JS.DQ "a ") "|"%char (" b > c" ++ JS.str JS.DQ)
             eq_refl eq_refl eq_refl).
  - destruct (windows_mode_refuses_metacharacters Reference.host
                ("dir" ++ String JS.LF "del & x") None None (Some "win32") eq_refl)
      as (Hfirst & _).
    exact (Hfirst "dir" JS.LF "del & x" eq_refl eq_refl eq_refl).
  - destruct (windows_mode_refuses_metacharacters Reference.host
                ("echo " ++ String JS.DQ "a b") None None (Some "win32") eq_refl)
      as (_ & _ & Hquotes & _).
    exact (Hquotes eq_refl).
  - destruct (windows_mode_refuses_metacharacters Reference.host
                (" rg " ++ String JS.DQ ("a b" ++ String JS.DQ " -n")) None None
                (Some "Windows_NT") eq_refl) as (_ & _ & _ & Hok).
    exact (Hok eq_refl).
Defined.

Example windows_mode_examples :
  map argv (segments (analyzeShellCommand Reference.host
                        (" rg " ++ String JS.DQ ("a b" ++ String JS.DQ " -n"))
                        None None (Some "win32")))
  = [["rg"; "a b"; "-n"]]
  /\ analyzeShellCommand Reference.host "dir & del x" None None (Some "win32")
     = failed (Some "unsupported windows shell token: &")
  /\ analyzeShellCommand Reference.host ("dir" ++ String JS.LF "del x") None None
       (Some "win32")
     = failed (Some "unsupported windows shell token: newline")
  /\ analyzeShellCommand Reference.host (String JS.DQ (JS.str JS.DQ)) None None
       (Some "win32")
     = failed (Some "unable to parse windows command").
Proof. repeat split; reflexivity. Qed.

Lemma tokenizeWindowsLoop_unquoted (w : string) :
  forall (tokens : list string) (buf rest : string),
    JS.existsChar (fun c => JS.isSpace c || Ascii.eqb c JS.DQ) w = false ->
    tokenizeWindowsLoop tokens buf false (w ++ rest)
    = tokenizeWindowsLoop tokens (buf ++ w) false rest.
Proof.
  induction w as [|c w IH]; intros tokens buf rest Hw.
  - cbn. now rewrite append_nil_r.
  - cbn [JS.existsChar] in Hw. apply orb_false_elim in Hw as [Hc Hw].
    apply orb_false_elim in Hc as [Hs Hq].
    cbn [append tokenizeWindowsLoop]. rewrite Hq, Hs. cbn [negb andb].
    rewrite (IH _ _ _ Hw). unfold JS.snoc, JS.str. now rewrite append_assoc.
Qed.

Lemma tokenizeWindowsLoop_quoted (w : string) :
  forall (tokens : list string) (buf rest : string),
    JS.includesChar w JS.DQ = false ->
    tokenizeWindowsLoop tokens buf true (w ++ rest)
    = tokenizeWindowsLoop tokens (buf ++ w) true rest.
Proof.
  induction w as [|c w IH]; intros tokens buf rest Hw.
  - cbn. now rewrite append_nil_r.
  - cbn [JS.includesChar] in Hw. apply orb_false_elim in Hw as [Hq Hw].
    cbn [append tokenizeWindowsLoop]. rewrite Hq. cbn [negb andb].
    rewrite (IH _ _ _ Hw). unfold JS.snoc, JS.str. now rewrite append_assoc.
Qed.

Lemma includesChar_append_dq (a b : string) :
  JS.includesChar (a ++ b) JS.DQ = JS.includesChar a JS.DQ || JS.includesChar b JS.DQ.
Proof.
  induction a as [|x a IH]; cbn; [reflexivity|]. now rewrite IH, orb_assoc.
Qed.

Lemma replaceChar_absent (s : string) (c : ascii) (r : string) :
  JS.includesChar s c = false -> JS.replaceChar s c r = s.
Proof.
  induction s as [|x s IH]; [reflexivity|].
  cbn. intros Hs. apply orb_false_elim in Hs as [Hx Hs].
  now rewrite Hx, (IH Hs).
Qed.

Lemma existsChar_or (p q : ascii -> bool) (s : string) :
  JS.existsChar (fun c => p c || q c) s = JS.existsChar p s || JS.existsChar q s.
Proof.
  induction s as [|x s IH]; [reflexivity|].
  cbn. rewrite IH. destruct (p x), (q x), (JS.existsChar p s); reflexivity.
Qed.

Lemma existsChar_eqb (s : string) (c : ascii) :
  JS.existsChar (fun d => Ascii.eqb d c) s = JS.includesChar s c.
Proof. induction s as [|x s IH]; [reflexivity|]. cbn. now rewrite IH. Qed.

(** The tokenizer reads the formatted text of one readable argument as
    the trimmed argument, added to the buffer. *)
Lemma tokenizeWindowsLoop_formatted (arg : string) (tokens : list string) (rest : string) :
  readableArgument arg = true ->
  tokenizeWindowsLoop tokens EmptyString false (formatExecArg arg ++ rest)
  = tokenizeWindowsLoop tokens (JS.trim arg) false rest
    /\ JS.isEmpty (JS.trim arg) = false.
Proof.
  unfold readableArgument. intros Ha. apply andb_true_iff in Ha as [Hb Hq].
  apply negb_true_iff in Hb. apply negb_true_iff in Hq.
  pose proof (allSpace_false_trim _ Hb) as Hne.
  assert (Hq' : JS.includesChar (JS.trim arg) JS.DQ = false).
  { destruct (trim_split arg) as (ws1 & ws2 & _ & _ & Es).
    rewrite Es in Hq. rewrite !includesChar_append_dq in Hq.
    apply orb_false_elim in Hq as [_ Hq]. now apply orb_false_elim in Hq. }
  split; [|exact Hne].
  unfold formatExecArg. rewrite Hne.
  rewrite existsChar_or, existsChar_eqb, Hq', orb_false_r.
  destruct (JS.existsChar JS.isSpace (JS.trim arg)) eqn:Hs; cbn [negb].
  - rewrite (replaceChar_absent _ _ _ Hq').
    cbn [append tokenizeWindowsLoop]. rewrite Ascii.eqb_refl. cbn [negb].
    rewrite append_assoc, (tokenizeWindowsLoop_quoted _ _ _ _ Hq').
    cbn [append tokenizeWindowsLoop JS.str]. rewrite Ascii.eqb_refl. reflexivity.
  - rewrite tokenizeWindowsLoop_unquoted; [reflexivity|].
    now rewrite existsChar_or, existsChar_eqb, Hs, Hq'.
Qed.

Lemma tokenizeWindowsLoop_formatted_list (args : list string) :
  forall (first : string) (tokens : list string),
    forallb readableArgument (first :: args) = true ->
    tokenizeWindowsLoop tokens EmptyString false
      (JS.join " " (map formatExecArg (first :: args)))
    = ((tokens ++ map JS.trim (removelast (first :: args)))%list,
       JS.trim (last (first :: args) EmptyString), false).
Proof.
  induction args as [|second args IH]; intros first tokens Hall.
  - cbn [forallb] in Hall. apply andb_true_iff in Hall as [Hf _].
    cbn [map JS.join String.concat removelast last].
    rewrite <- (append_nil_r (formatExecArg first)).
    destruct (tokenizeWindowsLoop_formatted first tokens EmptyString Hf) as [-> _].
    cbn. now rewrite app_nil_r.
  - cbn [forallb] in Hall. apply andb_true_iff in Hall as [Hf Hrest].
    change (JS.join " " (map formatExecArg (first :: second :: args)))
      with (formatExecArg first
            ++ String " "%char (JS.join " " (map formatExecArg (second :: args)))).
    destruct (tokenizeWindowsLoop_formatted first tokens
                (String " "%char (JS.join " " (map formatExecArg (second :: args)))) Hf)
      as [-> Hne].
    cbn [tokenizeWindowsLoop].
    change (Ascii.eqb " " JS.DQ) with false. change (JS.isSpace " ") with true.
    cbn [negb andb]. unfold pushToken at 1. rewrite length_pos_iff, Hne. cbn [negb].
    rewrite (IH second _ Hrest).
    change (removelast (first :: second :: args))
      with (first :: removelast (second :: args))%list.
    change (last (first :: second :: args) EmptyString)
      with (last (second :: args) EmptyString).
    cbn [map]. now rewrite <- app_assoc.
Qed.

Lemma last_readable (args : list string) (first : string) :
  forallb readableArgument (first :: args) = true ->
  readableArgument (last (first :: args) EmptyString) = true.
Proof.
  revert first. induction args as [|second args IH]; intros first Hall.
  - cbn in *. now apply andb_true_iff in Hall as [Hf _].
  - cbn [forallb] in Hall. apply andb_true_iff in Hall as [_ Hrest].
    exact (IH second Hrest).
Qed.

(** X17.  The Windows tokenizer reads back the text that
    [formatExecCommand] writes: for a non-empty argv whose arguments
    are not blank and hold no double quote, tokenizing the formatted
    text gives the arguments, each trimmed, in order; an argument with
    white space inside stays one token. *)
Theorem formatted_argv_tokenizes_back :
  forall argv0 : list string,
    argv0 <> [] ->
    forallb readableArgument argv0 = true ->
    tokenizeWindowsSegment (formatExecCommand argv0) = Some (map JS.trim argv0).
Proof.
  intros argv0 Hne Hall. destruct argv0 as [|first args]; [congruence|].
  unfold tokenizeWindowsSegment, formatExecCommand.
  rewrite (tokenizeWindowsLoop_formatted_list args first [] Hall).
  pose proof (last_readable args first Hall) as Hlast.
  unfold readableArgument in Hlast. apply andb_true_iff in Hlast as [Hb _].
  apply negb_true_iff in Hb. apply allSpace_false_trim in Hb.
  unfold pushToken. rewrite length_pos_iff, Hb. cbn [negb app].
  assert (Hsplit : forall (l : list string) (x : string),
             (map JS.trim (removelast (x :: l)) ++ [JS.trim (last (x :: l) EmptyString)])%list
             = map JS.trim (x :: l)).
  { clear. induction l as [|y l IH]; intros x; [reflexivity|].
    change (removelast (x :: y :: l)) with (x :: removelast (y :: l))%list.
    change (last (x :: y :: l) EmptyString) with (last (y :: l) EmptyString).
    cbn [map app]. now rewrite IH. }
  rewrite Hsplit. reflexivity.
Qed.

(** An argv with a padded argument and an argument with a space,
    through the theorem. *)
Lemma formatted_argv_tokenizes_back_witness :
  tokenizeWindowsSegment (formatExecCommand [" rg "; "a b"; "-n"])
  = Some (map JS.trim [" rg "; "a b"; "-n"]).
Proof.
  apply (formatted_argv_tokenizes_back [" rg "; "a b"; "-n"]);
    [discriminate | reflexivity].
Defined.

(* ================================================================== *)
(** * Quoted renderings are inert *)
(* ================================================================== *)

Lemma loop_quoted_body (value : string) :
  forall (sg : list string) (b rest : string),
    Pipeline.loop 0 (quoting sg b true)
      (JS.replaceChar value JS.SQ singleQuoteEscape ++ rest)
    = Pipeline.loop 0
        (quoting sg (b ++ JS.replaceChar value JS.SQ singleQuoteEscape) true) rest.
Proof.
  induction value as [|c value IH]; intros sg b rest.
  - cbn. now rewrite append_nil_r.
  - cbn [JS.replaceChar]. destruct (Ascii.eqb c JS.SQ) eqn:E.
    + rewrite append_assoc.
      transitivity (Pipeline.loop 0
                      (quoting sg (((((b ++ JS.str JS.SQ) ++ JS.str JS.DQ) ++ JS.str JS.SQ)
                                    ++ JS.str JS.DQ) ++ JS.str JS.SQ) true)
                      (JS.replaceChar value JS.SQ singleQuoteEscape ++ rest)).
      * reflexivity.
      * rewrite IH. do 2 f_equal. rewrite !append_assoc. reflexivity.
    + cbn [append Pipeline.loop].
      unfold Pipeline.step. cbn [quoting Pipeline.inHeredocBody Pipeline.escaped
                                   Pipeline.inSingle Pipeline.inDouble negb andb].
      rewrite E. cbn [negb].
      transitivity (Pipeline.loop 0 (quoting sg (b ++ JS.str c) true)
                      (JS.replaceChar value JS.SQ singleQuoteEscape ++ rest)).
      * reflexivity.
      * rewrite IH. do 2 f_equal. unfold JS.str. now rewrite append_assoc.
Qed.

Lemma loop_quoted_arg (value : string) (sg : list string) (b rest : string) :
  Pipeline.loop 0 (quoting sg b false) (shellEscapeSingleArg value ++ rest)
  = Pipeline.loop 0 (quoting sg (b ++ shellEscapeSingleArg value) false) rest.
Proof.
  unfold shellEscapeSingleArg.
  transitivity (Pipeline.loop 0 (quoting sg (b ++ JS.str JS.SQ) true)
                  (JS.replaceChar value JS.SQ singleQuoteEscape
                   ++ String JS.SQ rest)).
  - cbn [append]. rewrite append_assoc. reflexivity.
  - rewrite loop_quoted_body.
    transitivity (Pipeline.loop 0
                    (quoting sg (((b ++ JS.str JS.SQ)
                                  ++ JS.replaceChar value JS.SQ singleQuoteEscape)
                                 ++ JS.str JS.SQ) false) rest).
    + reflexivity.
    + do 2 f_equal. unfold JS.str. rewrite !append_assoc. reflexivity.
Qed.

Lemma join_cons (sep x y : string) (rest : list string) :
  JS.join sep (x :: y :: rest) = x ++ sep ++ JS.join sep (y :: rest).
Proof. reflexivity. Qed.

Lemma loop_quoted_argv (args : list string) :
  forall (first : string) (sg : list string) (b : string),
    Pipeline.loop 0 (quoting sg b false) (renderQuotedArgv (first :: args))
    = inl (quoting sg (b ++ renderQuotedArgv (first :: args)) false).
Proof.
  unfold renderQuotedArgv.
  induction args as [|second args IH]; intros first sg b.
  - cbn [map JS.join String.concat].
    rewrite <- (append_nil_r (shellEscapeSingleArg first)) at 1.
    rewrite loop_quoted_arg. reflexivity.
  - cbn [map]. rewrite join_cons, loop_quoted_arg.
    cbn [append].
    transitivity (Pipeline.loop 0 (quoting sg ((b ++ shellEscapeSingleArg first) ++ " ") false)
                    (JS.join " " (map shellEscapeSingleArg (second :: args)))).
    + reflexivity.
    + change (map shellEscapeSingleArg (second :: args))
        with (map shellEscapeSingleArg (second :: args)).
      rewrite (IH second). rewrite !append_assoc. reflexivity.
Qed.

Lemma chain_loop_quoted_body (value : string) :
  forall (b rest : string),
    Chain.loop 0 (chainQuoting b true)
      (JS.replaceChar value JS.SQ singleQuoteEscape ++ rest)
    = Chain.loop 0
        (chainQuoting (b ++ JS.replaceChar value JS.SQ singleQuoteEscape) true) rest.
Proof.
  induction value as [|c value IH]; intros b rest.
  - cbn. now rewrite append_nil_r.
  - cbn [JS.replaceChar]. destruct (Ascii.eqb c JS.SQ) eqn:E.
    + rewrite append_assoc.
      transitivity (Chain.loop 0
                      (chainQuoting (((((b ++ JS.str JS.SQ) ++ JS.str JS.DQ) ++ JS.str JS.SQ)
                                      ++ JS.str JS.DQ) ++ JS.str JS.SQ) true)
                      (JS.replaceChar value JS.SQ singleQuoteEscape ++ rest)).
      * reflexivity.
      * rewrite IH. do 2 f_equal. rewrite !append_assoc. reflexivity.
    + cbn [append Chain.loop].
      unfold Chain.step. cbn [chainQuoting Chain.escaped Chain.inSingle Chain.inDouble
                                negb andb].
      rewrite E. cbn [negb].
      transitivity (Chain.loop 0 (chainQuoting (b ++ JS.str c) true)
                      (JS.replaceChar value JS.SQ singleQuoteEscape ++ rest)).
      * reflexivity.
      * rewrite IH. do 2 f_equal. unfold JS.str. now rewrite append_assoc.
Qed.

Lemma chain_loop_quoted_arg (value : string) (b rest : string) :
  Chain.loop 0 (chainQuoting b false) (shellEscapeSingleArg value ++ rest)
  = Chain.loop 0 (chainQuoting (b ++ shellEscapeSingleArg value) false) rest.
Proof.
  unfold shellEscapeSingleArg.
  transitivity (Chain.loop 0 (chainQuoting (b ++ JS.str JS.SQ) true)
                  (JS.replaceChar value JS.SQ singleQuoteEscape
                   ++ String JS.SQ rest)).
  - cbn [append]. rewrite append_assoc. reflexivity.
  - rewrite chain_loop_quoted_body.
    transitivity (Chain.loop 0
                    (chainQuoting (((b ++ JS.str JS.SQ)
                                    ++ JS.replaceChar value JS.SQ singleQuoteEscape)
                                   ++ JS.str JS.SQ) false) rest).
    + reflexivity.
    + do 2 f_equal. unfold JS.str. rewrite !append_assoc. reflexivity.
Qed.

Lemma chain_loop_quoted_argv (args : list string) :
  forall (first : string) (b : string),
    Chain.loop 0 (chainQuoting b false) (renderQuotedArgv (first :: args))
    = chainQuoting (b ++ renderQuotedArgv (first :: args)) false.
Proof.
  unfold renderQuotedArgv.
  induction args as [|second args IH]; intros first b.
  - cbn [map JS.join String.concat].
    rewrite <- (append_nil_r (shellEscapeSingleArg first)) at 1.
    rewrite chain_loop_quoted_arg. reflexivity.
  - cbn [map]. rewrite join_cons, chain_loop_quoted_arg.
    cbn [append].
    transitivity (Chain.loop 0 (chainQuoting ((b ++ shellEscapeSingleArg first) ++ " ") false)
                    (JS.join " " (map shellEscapeSingleArg (second :: args)))).
    + reflexivity.
    + rewrite (IH second). rewrite !append_assoc. reflexivity.
Qed.

Lemma rev_snoc (s : string) (c : ascii) : JS.rev (s ++ JS.str c) = String c (JS.rev s).
Proof. rewrite rev_append. reflexivity. Qed.

Lemma join_last (sep : string) (xs : list string) (x : string) :
  exists before, JS.join sep (x :: xs) = before ++ last (x :: xs) EmptyString.
Proof.
  revert x. induction xs as [|y ys IH]; intros x.
  - exists EmptyString. reflexivity.
  - destruct (IH y) as [before E].
    exists (x ++ sep ++ before). rewrite join_cons, E.
    change (last (x :: y :: ys) EmptyString) with (last (y :: ys) EmptyString).
    now rewrite !append_assoc.
Qed.

(** A quoted rendering starts and ends with a single quote, so trimming
    leaves it as it is. *)
Lemma renderQuotedArgv_trimmed (first : string) (args : list string) :
  JS.trim (renderQuotedArgv (first :: args)) = renderQuotedArgv (first :: args)
  /\ renderQuotedArgv (first :: args) <> EmptyString.
Proof.
  split.
  - apply trim_fixed.
    + unfold renderQuotedArgv. destruct args; reflexivity.
    + unfold renderQuotedArgv.
      destruct (join_last " " (map shellEscapeSingleArg args) (shellEscapeSingleArg first))
        as [before E].
      change (map shellEscapeSingleArg (first :: args))
        with (shellEscapeSingleArg first :: map shellEscapeSingleArg args).
      rewrite E.
      assert (Hlast : exists body,
                 last (shellEscapeSingleArg first :: map shellEscapeSingleArg args)
                   EmptyString = body ++ JS.str JS.SQ).
      { clear. revert first. induction args as [|y ys IH]; intros first.
        - cbn [map last]. unfold shellEscapeSingleArg.
          exists (String JS.SQ (JS.replaceChar first JS.SQ singleQuoteEscape)).
          reflexivity.
        - exact (IH y). }
      destruct Hlast as [body ->].
      rewrite <- append_assoc, rev_snoc. reflexivity.
  - unfold renderQuotedArgv. destruct args; discriminate.
Qed.

(** X18.  A rendering by [renderQuotedArgv] is inert for the analyser,
    whatever the tokens hold (pipes, semicolons, [$(], backticks, line
    breaks, quotes): for every non-empty argv, the chain splitter finds
    no chain in it, the segmenter accepts it as one segment, the
    rendering itself, and [analyzeShellCommand] in POSIX mode never
    rejects it for its syntax: the result is the one segment whose raw
    text is the rendering, unless the argv tokenizer of the host fails
    on it. *)
Theorem quoted_rendering_is_inert :
  forall (first : string) (args : list string),
    Chain.splitCommandChainWithOperators (renderQuotedArgv (first :: args)) = None
    /\ Pipeline.splitShellPipeline (renderQuotedArgv (first :: args))
       = {| Pipeline.split_ok := true; Pipeline.split_reason := None;
            Pipeline.split_segments := [renderQuotedArgv (first :: args)] |}
    /\ forall (H : Host) (cwd : option string) (env : option ProcessEnv)
              (platform : option string),
        isWindowsPlatform platform = false ->
        analyzeShellCommand H (renderQuotedArgv (first :: args)) cwd env platform
        = match splitShellArgs H (renderQuotedArgv (first :: args)) with
          | Some (token :: tokens) =>
              {| ok := true; reason := None;
                 segments :=
                   [ {| raw := renderQuotedArgv (first :: args);
                        argv := token :: tokens;
                        resolution :=
                          resolveCommandResolutionFromArgv H (token :: tokens) cwd env |} ];
                 chains := None |}
          | _ => failed (Some "unable to parse shell segment")
          end.
Proof.
  intros first args.
  destruct (renderQuotedArgv_trimmed first args) as [Htrim Hne].
  assert (Hchain :
            Chain.splitCommandChainWithOperators (renderQuotedArgv (first :: args)) = None).
  { unfold Chain.splitCommandChainWithOperators.
    change Chain.initial with (chainQuoting EmptyString false).
    now rewrite chain_loop_quoted_argv. }
  assert (Hsplit :
            Pipeline.splitShellPipeline (renderQuotedArgv (first :: args))
            = {| Pipeline.split_ok := true; Pipeline.split_reason := None;
                 Pipeline.split_segments := [renderQuotedArgv (first :: args)] |}).
  { unfold Pipeline.splitShellPipeline.
    change Pipeline.initial with (quoting [] EmptyString false).
    rewrite loop_quoted_argv. cbn [append].
    unfold Pipeline.finish, Pipeline.pushPartSegments.
    cbn [quoting Pipeline.pendingHeredocs Pipeline.inHeredocBody Pipeline.isNil
           Pipeline.escaped Pipeline.inSingle Pipeline.inDouble Pipeline.emptySegment
           Pipeline.buf Pipeline.segments negb orb andb tl app].
    rewrite Htrim. apply isEmpty_false in Hne. rewrite Hne. reflexivity. }
  split; [exact Hchain|]. split; [exact Hsplit|].
  intros H cwd env platform Hplat.
  unfold analyzeShellCommand, Chain.splitCommandChain.
  rewrite Hplat, Hchain, Hsplit. cbn [Pipeline.split_ok negb Pipeline.split_segments].
  unfold parseSegmentsFromParts. cbn [parseSegmentsLoop].
  destruct (splitShellArgs H (renderQuotedArgv (first :: args))) as [[|token tokens]|];
    reflexivity.
Qed.

(** A rendering with a pipe and a substitution inside a token, on the
    reference host, through the theorem. *)
Lemma quoted_rendering_is_inert_witness :
  Pipeline.splitShellPipeline (renderQuotedArgv ["echo"; "a | $(id)"])
  = {| Pipeline.split_ok := true; Pipeline.split_reason := None;
       Pipeline.split_segments := [renderQuotedArgv ["echo"; "a | $(id)"]] |}
  /\ ok (analyzeShellCommand Reference.host (renderQuotedArgv ["echo"; "a | $(id)"])
           None None None) = true.
Proof.
  destruct (quoted_rendering_is_inert "echo" ["a | $(id)"]) as (_ & Hsplit & Hanalysis).
  split; [exact Hsplit|].
  rewrite (Hanalysis Reference.host None None None eq_refl). reflexivity.
Defined.

(** A rendering of tokens that hold shell syntax, on the reference
    host: one segment, and its argv is the tokens. *)
Example quoted_rendering_example :
  let tokens := ["echo"; "a | b; $(id) `x` > 'out'"; "it's"] in
  renderQuotedArgv tokens
  = "'echo' 'a | b; $(id) `x` > '" ++ String JS.DQ ("'" ++ String JS.DQ
      ("'out'" ++ String JS.DQ ("'" ++ String JS.DQ
         ("'' 'it'" ++ String JS.DQ ("'" ++ String JS.DQ "'s'")))))
  /\ map argv (segments (analyzeShellCommand Reference.host (renderQuotedArgv tokens)
                           None None None))
     = [tokens].
Proof. split; reflexivity. Qed.

(* ================================================================== *)
(** * The shape of what the splitters return *)
(* ================================================================== *)

Lemma pushPartSegments_kept (st : Pipeline.State) :
  Forall keptText (Pipeline.segments st) ->
  Forall keptText (Pipeline.pushPartSegments st).
Proof.
  intros Hs. unfold Pipeline.pushPartSegments.
  destruct (JS.isEmpty _) eqn:E; [exact Hs|].
  apply Forall_app. split; [exact Hs|].
  constructor; [|constructor]. split; [apply trim_idempotent | now apply isEmpty_false].
Qed.

Lemma step_segments_kept (st st' : Pipeline.State) (ch : ascii)
  (next : option ascii) (after : string) (k : nat) :
  Pipeline.step st ch next after = Pipeline.Next st' k ->
  Forall keptText (Pipeline.segments st) ->
  Forall keptText (Pipeline.segments st').
Proof.
  intros E Hs. revert E.
  unfold Pipeline.step, Pipeline.heredocLineEnd, Pipeline.heredocStart.
  repeat match goal with
         | |- context [if ?b then _ else _] => destruct b
         | |- context [match ?x with _ => _ end] => destruct x
         end;
    intros E; try discriminate; injection E as <- _;
    first [exact Hs | apply pushPartSegments_kept, Hs].
Qed.

Lemma loop_segments_kept (cmd : string) :
  forall (skip : nat) (st st' : Pipeline.State),
    Pipeline.loop skip st cmd = inl st' ->
    Forall keptText (Pipeline.segments st) ->
    Forall keptText (Pipeline.segments st').
Proof.
  induction cmd as [|ch after IH]; intros skip st st'; simpl.
  - intros E. injection E as <-. trivial.
  - destruct skip as [|k]; [|apply IH].
    destruct (Pipeline.step st ch (JS.head after) after) as [st1 k|r] eqn:E;
      [|discriminate].
    intros El Hs. apply (IH _ _ _ El). exact (step_segments_kept _ _ _ _ _ _ E Hs).
Qed.

(** An accepted command has a segment, and its segments are kept
    texts. *)
Lemma split_ok_segments (command0 : string) :
  Pipeline.split_ok (Pipeline.splitShellPipeline command0) = true ->
  Pipeline.split_reason (Pipeline.splitShellPipeline command0) = None
  /\ Pipeline.split_segments (Pipeline.splitShellPipeline command0) <> []
  /\ Forall keptText (Pipeline.split_segments (Pipeline.splitShellPipeline command0)).
Proof.
  unfold Pipeline.splitShellPipeline.
  destruct (Pipeline.loop 0 Pipeline.initial command0) as [st|r] eqn:E.
  - assert (Hs : Forall keptText (Pipeline.segments st))
      by (apply (loop_segments_kept _ _ _ _ E); constructor).
    pose proof (pushPartSegments_kept st Hs) as Hp.
    unfold Pipeline.finish.
    repeat match goal with
           | |- context [if ?b then _ else _] => destruct b eqn:?
           end;
      intros Hok; cbn in *; try discriminate.
    split; [reflexivity|]. split; [|exact Hp].
    intros Hnil.
    match goal with
    | Hn : _ || Pipeline.isNil _ = false |- _ => apply orb_false_elim in Hn as [_ Hn]
    end.
    rewrite Hnil in *. discriminate.
  - destruct (loop_return _ _ _ _ E) as (why & ->). discriminate.
Qed.

(** X19.  What [splitShellPipeline] returns is all or nothing: an
    accepted command has no reason and at least one segment, and every
    segment is trimmed and not empty; a rejected command has a reason
    and no segment. *)
Theorem splitShellPipeline_result_shape :
  forall command0 : string,
    (Pipeline.split_ok (Pipeline.splitShellPipeline command0) = true ->
     Pipeline.split_reason (Pipeline.splitShellPipeline command0) = None
     /\ Pipeline.split_segments (Pipeline.splitShellPipeline command0) <> []
     /\ Forall keptText (Pipeline.split_segments (Pipeline.splitShellPipeline command0)))
    /\ (Pipeline.split_ok (Pipeline.splitShellPipeline command0) = false ->
        Pipeline.split_segments (Pipeline.splitShellPipeline command0) = []
        /\ exists why,
            Pipeline.split_reason (Pipeline.splitShellPipeline command0) = Some why).
Proof.
  intros command0. split; [apply split_ok_segments|].
  destruct (splitShellPipeline_cases command0) as [Hok | (why & ->)].
  - rewrite Hok. discriminate.
  - intros _. split; [reflexivity | now exists why].
Qed.

Lemma splitShellPipeline_result_shape_witness :
  (Pipeline.split_reason (Pipeline.splitShellPipeline " ls -la |  head -n 1 ") = None
   /\ Pipeline.split_segments (Pipeline.splitShellPipeline " ls -la |  head -n 1 ") <> []
   /\ Forall keptText
        (Pipeline.split_segments (Pipeline.splitShellPipeline " ls -la |  head -n 1 ")))
  /\ (Pipeline.split_segments (Pipeline.splitShellPipeline "ls > out") = []
      /\ exists why, Pipeline.split_reason (Pipeline.splitShellPipeline "ls > out")
                     = Some why).
Proof.
  split.
  - exact (proj1 (splitShellPipeline_result_shape " ls -la |  head -n 1 ") eq_refl).
  - exact (proj2 (splitShellPipeline_result_shape "ls > out") eq_refl).
Defined.

Lemma chain_step_shape (st : Chain.State) (ch : ascii) (next : option ascii)
  (after : string) :
  (Chain.parts (fst (Chain.step st ch next after)) = Chain.parts st
   /\ Chain.foundChain (fst (Chain.step st ch next after)) = Chain.foundChain st
   /\ Chain.invalidChain (fst (Chain.step st ch next after)) = Chain.invalidChain st)
  \/ (exists op, fst (Chain.step st ch next after) = Chain.boundary st op
                 /\ chainOperatorAt ch next = true).
Proof.
  unfold Chain.step, chainOperatorAt.
  repeat match goal with
         | |- context [if ?b then _ else _] => destruct b eqn:?
         end;
    try (left; repeat split; reflexivity);
    right; eexists; (split; [reflexivity|]);
    repeat match goal with
           | E : ?b = true |- context [?b] => rewrite E
           end;
    cbn [orb andb]; try reflexivity; now rewrite !orb_true_r.
Qed.


Lemma boundary_invariant (st : Chain.State) (op : ShellChainOperator) :
  chainInvariant st -> chainInvariant (Chain.boundary st op).
Proof.
  intros [Hparts Hfound]. unfold chainInvariant, Chain.boundary.
  cbn [Chain.parts Chain.foundChain Chain.invalidChain].
  destruct (JS.isEmpty (JS.trim (Chain.buf st))) eqn:E.
  - split; [exact Hparts | discriminate].
  - split.
    + apply Forall_app. split; [exact Hparts|]. constructor; [|constructor].
      cbn [part opToNext]. repeat split; [apply trim_idempotent| |discriminate].
      now apply isEmpty_false.
    + intros _ _ F. now apply app_eq_nil in F as [_ F].
Qed.

Lemma chain_loop_invariant (cmd : string) :
  forall (skip : nat) (st : Chain.State),
    chainInvariant st -> chainInvariant (Chain.loop skip st cmd).
Proof.
  induction cmd as [|ch after IH]; intros skip st Hst; [exact Hst|].
  cbn [Chain.loop]. destruct skip as [|k]; [|now apply IH].
  pose proof (chain_step_shape st ch (JS.head after) after) as Hshape.
  destruct (Chain.step st ch (JS.head after) after) as [st' k].
  apply IH. cbn [fst] in Hshape.
  destruct Hshape as [(Hp & Hf & Hi) | (op & -> & _)].
  - unfold chainInvariant. rewrite Hp, Hf, Hi. exact Hst.
  - now apply boundary_invariant.
Qed.

(** X20.  The parts that [splitCommandChainWithOperators] returns are
    at least two; each part is trimmed and not empty; each part but the
    last carries the operator that follows it, and the last carries
    none. *)
Theorem chain_parts_shape :
  forall (command0 : string) (chainParts : list ShellChainPart),
    Chain.splitCommandChainWithOperators command0 = Some chainParts ->
    exists (init : list ShellChainPart) (final : ShellChainPart),
      chainParts = (init ++ [final])%list
      /\ init <> []
      /\ Forall (fun p => opToNext p <> None) init
      /\ opToNext final = None
      /\ Forall (fun p => keptText (part p)) chainParts.
Proof.
  intros command0 chainParts. unfold Chain.splitCommandChainWithOperators.
  pose proof (chain_loop_invariant command0 0 Chain.initial) as Hinv.
  destruct Hinv as [Hparts Hfound]; [split; [constructor | discriminate]|].
  unfold Chain.finish.
  destruct (Chain.foundChain _) eqn:Ef; [|discriminate]. cbn [negb].
  destruct (JS.isEmpty (JS.trim (Chain.buf _))) eqn:Eb; [discriminate|].
  destruct (Chain.invalidChain _) eqn:Ei; [discriminate|]. cbn [orb].
  destruct (Pipeline.isNil _); [discriminate|]. intros [= <-].
  eexists. eexists. split; [reflexivity|].
  split; [now apply Hfound|]. split; [|split; [reflexivity|]].
  - eapply Forall_impl; [|exact Hparts]. now intros p [_ Hp].
  - apply Forall_app. split.
    + eapply Forall_impl; [|exact Hparts]. now intros p [Hp _].
    + constructor; [|constructor]. cbn [part].
      split; [apply trim_idempotent | now apply isEmpty_false].
Qed.

Lemma chain_parts_shape_witness :
  exists (init : list ShellChainPart) (final : ShellChainPart),
    [ {| part := "make"; opToNext := Some OpAnd |};
      {| part := "make test"; opToNext := Some OpSeq |};
      {| part := "echo 'a;b'"; opToNext := None |} ]
    = (init ++ [final])%list
    /\ init <> []
    /\ Forall (fun p => opToNext p <> None) init
    /\ opToNext final = None
    /\ Forall (fun p => keptText (part p))
         [ {| part := "make"; opToNext := Some OpAnd |};
           {| part := "make test"; opToNext := Some OpSeq |};
           {| part := "echo 'a;b'"; opToNext := None |} ].
Proof.
  exact (chain_parts_shape " make &&  make test ; echo 'a;b' " _ eq_refl).
Defined.

Lemma chain_loop_no_operator (cmd : string) :
  forall (skip : nat) (st : Chain.State),
    Chain.foundChain st = false ->
    holdsChainOperator cmd = false ->
    Chain.foundChain (Chain.loop skip st cmd) = false.
Proof.
  induction cmd as [|ch after IH]; intros skip st Hst Hcmd; [exact Hst|].
  cbn [holdsChainOperator] in Hcmd. apply orb_false_elim in Hcmd as [Hat Hafter].
  cbn [Chain.loop]. destruct skip as [|k]; [|now apply IH].
  pose proof (chain_step_shape st ch (JS.head after) after) as Hshape.
  destruct (Chain.step st ch (JS.head after) after) as [st' k].
  apply IH; [|exact Hafter]. cbn [fst] in Hshape.
  destruct Hshape as [(_ & Hf & _) | (op & _ & Hop)]; [congruence|].
  rewrite Hat in Hop. discriminate.
Qed.

(** X21.  A command that holds no [;], no [&&] and no [||] anywhere has
    no chain: [splitCommandChainWithOperators] and [splitCommandChain]
    return null, and [analyzeShellCommand] in POSIX mode analyses it as
    one pipeline, with no [chains] in the result. *)
Theorem no_operator_no_chain :
  forall command0 : string,
    holdsChainOperator command0 = false ->
    Chain.splitCommandChainWithOperators command0 = None
    /\ Chain.splitCommandChain command0 = None
    /\ forall (H : Host) (cwd : option string) (env : option ProcessEnv)
              (platform : option string),
        isWindowsPlatform platform = false ->
        chains (analyzeShellCommand H command0 cwd env platform) = None.
Proof.
  intros command0 Hno.
  assert (Hnone : Chain.splitCommandChainWithOperators command0 = None).
  { unfold Chain.splitCommandChainWithOperators, Chain.finish.
    now rewrite (chain_loop_no_operator command0 0 Chain.initial eq_refl Hno). }
  split; [exact Hnone|].
  assert (Hnone' : Chain.splitCommandChain command0 = None).
  { unfold Chain.splitCommandChain. now rewrite Hnone. }
  split; [exact Hnone'|].
  intros H cwd env platform Hplat. unfold analyzeShellCommand.
  rewrite Hplat, Hnone'.
  destruct (negb _); [reflexivity|].
  destruct (parseSegmentsFromParts H _ cwd env); reflexivity.
Qed.

(** A pipeline with a quoted ampersand, through the theorem. *)
Lemma no_operator_no_chain_witness :
  Chain.splitCommandChainWithOperators "ls 'a & b' | head" = None
  /\ Chain.splitCommandChain "ls 'a & b' | head" = None
  /\ chains (analyzeShellCommand Reference.host "ls 'a & b' | head" None None None)
     = None.
Proof.
  destruct (no_operator_no_chain "ls 'a & b' | head" eq_refl) as (H1 & H2 & H3).
  split; [exact H1|]. split; [exact H2|].
  exact (H3 Reference.host None None None eq_refl).
Defined.

(* ================================================================== *)
(** * The anatomy of an accepted analysis *)
(* ================================================================== *)

Lemma parseSegmentsLoop_spec (H : Host) (cwd : option string) (env : option ProcessEnv)
  (texts : list string) :
  forall (acc out : list ExecCommandSegment),
    parseSegmentsLoop H acc texts cwd env = Some out ->
    exists segs, out = (acc ++ segs)%list
                 /\ map raw segs = texts
                 /\ Forall (segmentOf H cwd env) segs.
Proof.
  induction texts as [|text rest IH]; intros acc out.
  - cbn. intros [= <-]. exists []. now rewrite app_nil_r.
  - cbn [parseSegmentsLoop].
    destruct (splitShellArgs H text) as [[|token tokens]|] eqn:E; try discriminate.
    intros Hout. destruct (IH _ _ Hout) as (segs & -> & Hraw & Hsegs).
    eexists (_ :: segs). split; [now rewrite <- app_assoc|].
    split; [cbn; now rewrite Hraw|].
    constructor; [|exact Hsegs]. repeat split; [exact E | discriminate].
Qed.

Lemma analyzeChainLoop_spec (H : Host) (cwd : option string) (env : option ProcessEnv)
  (chainParts : list string) :
  forall (chainsAcc : list (list ExecCommandSegment)) (all : list ExecCommandSegment),
    ok (analyzeChainLoop H cwd env chainsAcc all chainParts) = true ->
    exists groups,
      segments (analyzeChainLoop H cwd env chainsAcc all chainParts)
      = (all ++ concat groups)%list
      /\ chains (analyzeChainLoop H cwd env chainsAcc all chainParts)
         = Some (chainsAcc ++ groups)%list
      /\ Forall2 groupOf chainParts groups
      /\ Forall (Forall (segmentOf H cwd env)) groups.
Proof.
  induction chainParts as [|text rest IH]; intros chainsAcc all.
  - intros _. exists []. cbn. rewrite !app_nil_r. repeat split; constructor.
  - cbn [analyzeChainLoop].
    destruct (Pipeline.split_ok (Pipeline.splitShellPipeline text)) eqn:Eok;
      cbn [negb]; [|discriminate].
    unfold parseSegmentsFromParts.
    destruct (parseSegmentsLoop H [] _ cwd env) as [segs|] eqn:Ep; [|discriminate].
    apply parseSegmentsLoop_spec in Ep as (segs' & -> & Hraw & Hsegs). cbn [app] in *.
    intros Hok. destruct (IH _ _ Hok) as (groups & Hs & Hc & Hg & Hf).
    exists (segs' :: groups). cbn [concat].
    rewrite Hs, Hc, <- !app_assoc. repeat split.
    + constructor; [|exact Hg]. split; [exact Eok | exact Hraw].
    + constructor; assumption.
Qed.

Lemma map_eq_nil_raw (segs : list ExecCommandSegment) :
  map raw segs <> [] -> segs <> [].
Proof. destruct segs; [intros F; now contradiction F | discriminate]. Qed.

(** X22.  The anatomy of an accepted POSIX analysis.  Every segment was
    built from its raw text: its argv is the tokens of the raw text, not
    empty, and its resolution is the resolution of its argv; there is at
    least one segment.  Without a chain, the raw texts are the segments
    of the command as a pipeline and [chains] is absent.  With a chain,
    [chains] holds one group per chain part, in order, the raw texts of
    a group are the pipeline segments of its part, and [segments] is the
    groups put end to end. *)
Theorem accepted_analysis_anatomy :
  forall (H : Host) (command0 : string) (cwd : option string) (env : option ProcessEnv)
         (platform : option string),
    isWindowsPlatform platform = false ->
    ok (analyzeShellCommand H command0 cwd env platform) = true ->
    let r := analyzeShellCommand H command0 cwd env platform in
    Forall (segmentOf H cwd env) (segments r)
    /\ segments r <> []
    /\ match Chain.splitCommandChain command0 with
       | None => chains r = None /\ groupOf command0 (segments r)
       | Some chainParts =>
           exists groups,
             chains r = Some groups
             /\ segments r = concat groups
             /\ Forall2 groupOf chainParts groups
       end.
Proof.
  intros H command0 cwd env platform Hplat. cbv zeta.
  unfold analyzeShellCommand. rewrite Hplat.
  destruct (Chain.splitCommandChain command0) as [chainParts|] eqn:Ec.
  - intros Hok. destruct (analyzeChainLoop_spec _ _ _ _ _ _ Hok) as (groups & Hs & Hc & Hg & Hf).
    cbn [app] in *. rewrite Hs, Hc. split; [|split].
    + clear - Hf. induction Hf as [|g gs Hg _ IH]; [constructor|].
      cbn [concat]. apply Forall_app. now split.
    + assert (Hparts : chainParts <> []).
      { unfold Chain.splitCommandChain in Ec.
        destruct (Chain.splitCommandChainWithOperators command0) as [ps|] eqn:Ew;
          [|discriminate].
        injection Ec as <-.
        unfold Chain.splitCommandChainWithOperators, Chain.finish in Ew.
        repeat match type of Ew with
               | (if ?b then _ else _) = _ => destruct b; try discriminate
               end.
        injection Ew as <-. rewrite map_app. cbn.
        intros F. now apply app_eq_nil in F as [_ F]. }
      destruct Hg as [|text g texts gs (Hgok & Hgraw) _]; [congruence|].
      cbn [concat]. intros F. apply app_eq_nil in F as [F _].
      destruct (split_ok_segments text Hgok) as (_ & Hne & _).
      rewrite <- Hgraw, F in Hne. now contradiction Hne.
    + exists groups. repeat split; trivial.
  - destruct (Pipeline.split_ok (Pipeline.splitShellPipeline command0)) eqn:Eok;
      cbn [negb]; [|discriminate].
    unfold parseSegmentsFromParts.
    destruct (parseSegmentsLoop H [] _ cwd env) as [segs|] eqn:Ep; [|discriminate].
    apply parseSegmentsLoop_spec in Ep as (segs' & -> & Hraw & Hsegs). cbn [app] in *.
    intros _. cbn [segments chains]. split; [exact Hsegs|]. split.
    + apply map_eq_nil_raw. rewrite Hraw.
      now destruct (split_ok_segments command0 Eok) as (_ & Hne & _).
    + split; [reflexivity|]. split; [exact Eok | exact Hraw].
Qed.

(** A chain of two pipelines on the reference host, through the
    theorem. *)
Lemma accepted_analysis_anatomy_witness :
  let r := analyzeShellCommand Reference.host "ls | head -n 1 && echo done" None None None in
  Forall (segmentOf Reference.host None None) (segments r)
  /\ segments r <> []
  /\ exists groups,
      chains r = Some groups
      /\ segments r = concat groups
      /\ Forall2 groupOf ["ls | head -n 1"; "echo done"] groups.
Proof.
  exact (accepted_analysis_anatomy Reference.host "ls | head -n 1 && echo done"
           None None None eq_refl eq_refl).
Defined.

Example accepted_analysis_example :
  let r := analyzeShellCommand Reference.host "ls | head -n 1 && echo done" None None None in
  map raw (segments r) = ["ls"; "head -n 1"; "echo done"]
  /\ option_map (map (map argv)) (chains r)
     = Some [[["ls"]; ["head"; "-n"; "1"]]; [["echo"; "done"]]].
Proof. split; reflexivity. Qed.

(* ================================================================== *)
(** * Splitting a rendered pipeline *)
(* ================================================================== *)

Lemma trimStart_skip (a s : string) :
  allSpace a = true -> JS.trimStart (a ++ s) = JS.trimStart s.
Proof.
  induction a as [|c a IH]; [reflexivity|].
  rewrite allSpace_cons. intros Ha. apply andb_true_iff in Ha as [Hc Ha].
  cbn [append JS.trimStart]. rewrite Hc. exact (IH Ha).
Qed.

Lemma trimStart_keep (x b : string) :
  allSpace x = false -> JS.trimStart (x ++ b) = JS.trimStart x ++ b.
Proof.
  induction x as [|c x IH]; [discriminate|].
  rewrite allSpace_cons. cbn [append JS.trimStart].
  destruct (JS.isSpace c); [exact IH | reflexivity].
Qed.

Lemma trimEnd_skip (s b : string) :
  allSpace b = true -> JS.trimEnd (s ++ b) = JS.trimEnd s.
Proof.
  intros Hb. unfold JS.trimEnd. rewrite rev_append, trimStart_skip; [reflexivity|].
  now rewrite allSpace_rev.
Qed.

Lemma trim_padded (a x b : string) :
  allSpace a = true -> allSpace b = true -> JS.trim (a ++ x ++ b) = JS.trim x.
Proof.
  intros Ha Hb. unfold JS.trim. rewrite (trimStart_skip a _ Ha).
  destruct (allSpace x) eqn:Hx.
  - rewrite trimStart_skip by exact Hx.
    apply trimStart_empty_iff in Hb. apply trimStart_empty_iff in Hx.
    now rewrite Hb, Hx.
  - rewrite (trimStart_keep x b Hx). now apply trimEnd_skip.
Qed.

Lemma plainText_append (a b : string) :
  plainText (a ++ b) = plainText a && plainText b.
Proof. apply forallChar_append. Qed.

Lemma loop_joined (rest : list string) :
  forall (st : Pipeline.State) (pre first : string),
    idle st -> plainText pre = true ->
    forallb plainText (first :: rest) = true ->
    Pipeline.loop 0 st (pre ++ JS.join " | " (first :: rest))
    = inl (afterJoined st pre first rest).
Proof.
  induction rest as [|second more IH]; intros st pre first Hst Hpre Hall;
    cbn [forallb] in Hall; apply andb_true_iff in Hall as [Hfirst Hrest].
  - cbn [JS.join String.concat afterJoined].
    rewrite <- (append_nil_r (pre ++ first)) at 1.
    rewrite loop_plain; [reflexivity | exact Hst |].
    now rewrite plainText_append, Hpre, Hfirst.
  - rewrite join_cons. cbn [afterJoined].
    replace (pre ++ first ++ " | " ++ JS.join " | " (second :: more))
      with ((pre ++ first ++ " ")
            ++ String "|"%char (" " ++ JS.join " | " (second :: more)))
      by (rewrite !append_assoc; reflexivity).
    rewrite loop_plain; [|exact Hst|].
    + cbn [Pipeline.loop].
      rewrite step_pipe; [|now apply feed_idle|reflexivity|reflexivity].
      apply IH; [apply pipeBoundary_idle, feed_idle, Hst | reflexivity | exact Hrest].
    + now rewrite !plainText_append, Hpre, Hfirst.
Qed.

Lemma afterJoined_facts (rest : list string) :
  forall (st : Pipeline.State) (pre first : string),
    idle st -> Pipeline.buf st = EmptyString -> allSpace pre = true ->
    forallb (fun s => negb (allSpace s)) (first :: rest) = true ->
    idle (afterJoined st pre first rest)
    /\ Pipeline.segments (afterJoined st pre first rest)
       = (Pipeline.segments st ++ map JS.trim (removelast (first :: rest)))%list
    /\ JS.trim (Pipeline.buf (afterJoined st pre first rest))
       = JS.trim (last (first :: rest) EmptyString)
    /\ Pipeline.emptySegment (afterJoined st pre first rest) = false.
Proof.
  induction rest as [|second more IH]; intros st pre first Hst Hbuf Hpre Hall;
    cbn [forallb] in Hall; apply andb_true_iff in Hall as [Hfirst Hrest];
    apply negb_true_iff in Hfirst.
  - cbn [afterJoined removelast last map].
    assert (Hne : pre ++ first <> EmptyString).
    { destruct first; [discriminate|]. destruct pre; discriminate. }
    destruct (pre ++ first) as [|c t] eqn:E; [congruence|].
    cbn [feed]. repeat split; try apply Hst.
    + now rewrite app_nil_r.
    + cbn [Pipeline.emitPlain Pipeline.emit Pipeline.buf]. rewrite Hbuf. cbn [append].
      rewrite <- E.
      replace (pre ++ first) with (pre ++ first ++ EmptyString)
        by (now rewrite append_nil_r).
      now apply trim_padded.
  - cbn [afterJoined].
    set (st1 := Pipeline.pipeBoundary (feed st (pre ++ first ++ " "))).
    assert (Hst1 : idle st1) by (apply pipeBoundary_idle, feed_idle, Hst).
    destruct (IH st1 " " second Hst1 eq_refl eq_refl Hrest) as (I1 & I2 & I3 & I4).
    split; [exact I1|]. split; [|split; [exact I3 | exact I4]].
    rewrite I2. unfold st1.
    cbn [Pipeline.pipeBoundary Pipeline.segments]. unfold Pipeline.pushPartSegments.
    destruct (feed_buf st (pre ++ first ++ " ")) as (-> & ->). rewrite Hbuf.
    cbn [append]. rewrite (trim_padded pre first " " Hpre eq_refl).
    rewrite (allSpace_false_trim _ Hfirst).
    change (removelast (first :: second :: more))
      with (first :: removelast (second :: more))%list.
    cbn [map]. now rewrite <- app_assoc.
Qed.

Lemma pipesOnly_joined (rest : list string) :
  forall first : string,
    forallb plainText (first :: rest) = true ->
    pipesOnly (JS.join " | " (first :: rest)) = true.
Proof.
  induction rest as [|second more IH]; intros first Hall;
    cbn [forallb] in Hall; apply andb_true_iff in Hall as [Hfirst Hrest].
  - cbn [JS.join String.concat]. rewrite <- (append_nil_r first).
    now apply pipesOnly_plain.
  - rewrite join_cons.
    replace (first ++ " | " ++ JS.join " | " (second :: more))
      with ((first ++ " ")
            ++ String "|"%char (" " ++ JS.join " | " (second :: more)))
      by (rewrite !append_assoc; reflexivity).
    apply pipesOnly_plain; [now rewrite plainText_append, Hfirst|].
    cbn [pipesOnly append JS.head JS.nextIs].
    change (plainChar " ") with true. cbn. exact (IH second Hrest).
Qed.

Lemma trim_removelast_last (l : list string) (x : string) :
  (map JS.trim (removelast (x :: l)) ++ [JS.trim (last (x :: l) EmptyString)])%list
  = map JS.trim (x :: l).
Proof.
  revert x. induction l as [|y l IH]; intros x; [reflexivity|].
  change (removelast (x :: y :: l)) with (x :: removelast (y :: l))%list.
  change (last (x :: y :: l) EmptyString) with (last (y :: l) EmptyString).
  cbn [map app]. now rewrite IH.
Qed.

Lemma forallb_and {A : Type} (p q : A -> bool) (l : list A) :
  forallb (fun x => p x && q x) l = forallb p l && forallb q l.
Proof.
  induction l as [|x l IH]; [reflexivity|].
  cbn. rewrite IH. destruct (p x), (q x), (forallb p l); reflexivity.
Qed.

(** X23.  Splitting undoes the joining of plain segments: for a
    non-empty list of segments that are plain text (no quote, escape or
    shell operator) and not blank, [splitShellPipeline] of the segments
    joined by [ | ] returns the segments, each trimmed, in order, and the
    chain splitter finds no chain in the joined text. *)
Theorem joined_pipeline_splits_back :
  forall (first : string) (rest : list string),
    forallb plainSegment (first :: rest) = true ->
    Pipeline.splitShellPipeline (JS.join " | " (first :: rest))
    = {| Pipeline.split_ok := true; Pipeline.split_reason := None;
         Pipeline.split_segments := map JS.trim (first :: rest) |}
    /\ Chain.splitCommandChain (JS.join " | " (first :: rest)) = None.
Proof.
  intros first rest Hall. unfold plainSegment in Hall.
  rewrite forallb_and in Hall. apply andb_true_iff in Hall as [Hplain Hblank].
  split.
  - unfold Pipeline.splitShellPipeline.
    assert (Hinit : idle Pipeline.initial) by (repeat split).
    change (JS.join " | " (first :: rest))
      with (EmptyString ++ JS.join " | " (first :: rest)).
    rewrite (loop_joined rest Pipeline.initial EmptyString first Hinit eq_refl Hplain).
    destruct (afterJoined_facts rest Pipeline.initial EmptyString first Hinit
                eq_refl eq_refl Hblank) as ((H1 & H2 & H3 & H4 & H5) & Hs & Hb & He).
    unfold Pipeline.finish, Pipeline.pushPartSegments.
    rewrite H1, H2, H3, H4, H5, He, Hs, Hb. cbn [Pipeline.isNil negb orb andb].
    assert (Hlast : allSpace (last (first :: rest) EmptyString) = false).
    { clear - Hblank. revert first Hblank.
      induction rest as [|y l IH]; intros first Hb; cbn [forallb] in Hb;
        apply andb_true_iff in Hb as [Hf Hr].
      - now apply negb_true_iff in Hf.
      - exact (IH y Hr). }
    rewrite (allSpace_false_trim _ Hlast).
    cbn [Pipeline.initial Pipeline.segments app].
    rewrite trim_removelast_last. reflexivity.
  - apply splitCommandChain_pipesOnly. now apply pipesOnly_joined.
Qed.

(** Three padded segments, through the theorem. *)
Lemma joined_pipeline_splits_back_witness :
  Pipeline.splitShellPipeline (JS.join " | " ["ls -la "; " grep foo"; "head -n 1"])
  = {| Pipeline.split_ok := true; Pipeline.split_reason := None;
       Pipeline.split_segments := map JS.trim ["ls -la "; " grep foo"; "head -n 1"] |}
  /\ Chain.splitCommandChain (JS.join " | " ["ls -la "; " grep foo"; "head -n 1"]) = None.
Proof.
  exact (joined_pipeline_splits_back "ls -la " [" grep foo"; "head -n 1"] eq_refl).
Defined.

(* ================================================================== *)
(** * The two rewriters agree *)
(* ================================================================== *)

Lemma renderQuotedLoop_spec (H : Host) (cwd : option string) (env : option ProcessEnv)
  (g : list ExecCommandSegment) :
  forall rendered : list string,
    Forall (segmentOf H cwd env) g ->
    renderQuotedLoop H rendered (map raw g)
    = Some (rendered ++ map (fun s => renderQuotedArgv (argv s)) g)%list.
Proof.
  induction g as [|s g IH]; intros rendered Hg.
  - cbn. now rewrite app_nil_r.
  - inversion Hg as [|? ? (Hs & Hne & _) Hrest]; subst.
    cbn [map renderQuotedLoop]. rewrite Hs.
    destruct (argv s) as [|t ts] eqn:E; [congruence|].
    rewrite (IH _ Hrest), <- app_assoc. reflexivity.
Qed.

Lemma buildSafeChainLoop_spec (H : Host) (cwd : option string) (env : option ProcessEnv)
  (chainParts : list ShellChainPart) (groups : list (list ExecCommandSegment)) :
  Forall2 (fun p g => groupOf (part p) g) chainParts groups ->
  Forall (Forall (segmentOf H cwd env)) groups ->
  forall out : string,
    buildSafeChainLoop H out chainParts
    = {| build_ok := true;
         build_command := Some (out ++ quotedChainText chainParts groups);
         build_reason := None |}.
Proof.
  induction 1 as [|p g ps gs (Hok & Hraw) _ IH]; intros Hsegs out.
  - cbn. now rewrite append_nil_r.
  - inversion Hsegs as [|? ? Hg Hgs]; subst.
    cbn [buildSafeChainLoop quotedChainText]. rewrite Hok. cbn [negb].
    rewrite <- Hraw, (renderQuotedLoop_spec H cwd env g [] Hg). cbn [app].
    rewrite (IH Hgs). now rewrite !append_assoc.
Qed.

Lemma nth_error_middle {A : Type} (pre : list A) (x : A) (post : list A) :
  nth_error (pre ++ x :: post) (List.length pre) = Some x.
Proof. induction pre as [|y pre IH]; [reflexivity | exact IH]. Qed.

Lemma renderPipelineLoop_allSafe (g : list ExecCommandSegment) :
  forall (pre post : list ExecCommandSegment) (rendered : list string),
    renderPipelineLoop (pre ++ g ++ post) (allSafeBins (pre ++ g ++ post))
      (List.length pre) rendered (map raw g)
    = Some ((rendered ++ map (fun s => renderQuotedArgv (argv s)) g)%list,
            List.length pre + List.length g).
Proof.
  induction g as [|s g IH]; intros pre post rendered.
  - cbn. now rewrite app_nil_r, Nat.add_0_r.
  - cbn [map renderPipelineLoop app]. unfold allSafeBins.
    rewrite nth_error_map, nth_error_middle. cbn [option_map isSafeBins].
    replace (pre ++ s :: g ++ post)%list with ((pre ++ [s]) ++ g ++ post)%list
      by (rewrite <- app_assoc; reflexivity).
    replace (List.length pre + 1) with (List.length (pre ++ [s]))
      by (rewrite length_app; reflexivity).
    fold (allSafeBins ((pre ++ [s]) ++ g ++ post)).
    rewrite IH, <- app_assoc, length_app. cbn [List.length app].
    f_equal. f_equal. lia.
Qed.

Lemma buildChainLoop_allSafe (chainParts : list ShellChainPart)
  (groups : list (list ExecCommandSegment)) :
  Forall2 (fun p g => groupOf (part p) g) chainParts groups ->
  forall (pre : list ExecCommandSegment) (out : string),
    buildChainLoop (pre ++ concat groups) (allSafeBins (pre ++ concat groups))
      (List.length pre) out chainParts
    = {| build_ok := true;
         build_command := Some (out ++ quotedChainText chainParts groups);
         build_reason := None |}.
Proof.
  induction 1 as [|p g ps gs (Hok & Hraw) _ IH]; intros pre out.
  - cbn [buildChainLoop concat quotedChainText]. rewrite app_nil_r, Nat.eqb_refl.
    cbn. now rewrite append_nil_r.
  - cbn [buildChainLoop concat quotedChainText]. rewrite Hok. cbn [negb].
    rewrite <- Hraw, renderPipelineLoop_allSafe. cbn [app].
    replace (pre ++ g ++ concat gs)%list with ((pre ++ g) ++ concat gs)%list
      by (rewrite <- app_assoc; reflexivity).
    rewrite <- length_app, IH. now rewrite !append_assoc.
Qed.

Lemma Forall2_map_part (chainParts : list ShellChainPart)
  (groups : list (list ExecCommandSegment)) :
  Forall2 groupOf (map part chainParts) groups ->
  Forall2 (fun p g => groupOf (part p) g) chainParts groups.
Proof.
  revert groups. induction chainParts as [|p ps IH]; intros groups Hf;
    inversion Hf; subst; constructor; [assumption | now apply IH].
Qed.

(** X24.  The two rewriters agree on an accepted command: when
    [analyzeShellCommand] accepts the trimmed command in POSIX mode,
    [buildSafeShellCommand] succeeds and returns the very command that
    [buildSafeBinsShellCommand] returns for the analysed segments with
    every segment flagged [safeBins]: each segment is the quoted
    rendering of its argv, the segments of a pipeline are joined by
    [ | ], and each chain part is followed by its operator. *)
Theorem safe_rewriters_agree :
  forall (H : Host) (command0 : string) (cwd : option string) (env : option ProcessEnv)
         (platform : option string),
    isWindowsPlatform platform = false ->
    ok (analyzeShellCommand H (JS.trim command0) cwd env platform) = true ->
    let segs := segments (analyzeShellCommand H (JS.trim command0) cwd env platform) in
    build_ok (buildSafeShellCommand H command0 platform) = true
    /\ buildSafeShellCommand H command0 platform
       = buildSafeBinsShellCommand command0 segs (allSafeBins segs) platform.
Proof.
  intros H command0 cwd env platform Hplat Hok. cbv zeta.
  assert (Hne : JS.isEmpty (JS.trim command0) = false).
  { destruct (JS.trim command0) eqn:E; [|reflexivity].
    unfold analyzeShellCommand in Hok. rewrite Hplat in Hok. cbn in Hok. discriminate. }
  assert (Hshape :
            exists chainParts groups,
              match Chain.splitCommandChainWithOperators (JS.trim command0) with
              | Some ps => ps
              | None => [ {| part := JS.trim command0; opToNext := None |} ]
              end = chainParts
              /\ segments (analyzeShellCommand H (JS.trim command0) cwd env platform)
                 = concat groups
              /\ Forall2 (fun p g => groupOf (part p) g) chainParts groups
              /\ Forall (Forall (segmentOf H cwd env)) groups).
  { revert Hok. unfold analyzeShellCommand, Chain.splitCommandChain. rewrite Hplat.
    destruct (Chain.splitCommandChainWithOperators (JS.trim command0)) as [ps|].
    - intros Hok. destruct (analyzeChainLoop_spec _ _ _ _ _ _ Hok) as (groups & Hs & _ & Hg & Hf).
      exists ps, groups. repeat split; trivial. now apply Forall2_map_part.
    - destruct (Pipeline.split_ok (Pipeline.splitShellPipeline (JS.trim command0))) eqn:Eok;
        cbn [negb]; [|discriminate].
      unfold parseSegmentsFromParts.
      destruct (parseSegmentsLoop H [] _ cwd env) as [segs|] eqn:Ep; [|discriminate].
      apply parseSegmentsLoop_spec in Ep as (segs' & -> & Hraw & Hsegs). cbn [app] in *.
      intros _. eexists. exists [segs']. cbn [segments concat]. rewrite app_nil_r.
      repeat split; trivial.
      + constructor; [|constructor]. split; [exact Eok | exact Hraw].
      + constructor; [exact Hsegs | constructor]. }
  destruct Hshape as (chainParts & groups & Hparts & Hsegs & Hg & Hf).
  unfold buildSafeShellCommand, buildSafeBinsShellCommand.
  rewrite Hplat, Hne, Hparts, Hsegs.
  unfold allSafeBins at 1. rewrite length_map, Nat.eqb_refl. cbn [negb].
  rewrite (buildSafeChainLoop_spec H cwd env chainParts groups Hg Hf).
  split; [reflexivity|].
  symmetry. exact (buildChainLoop_allSafe chainParts groups Hg [] EmptyString).
Qed.

(** A chain with a pipeline on the reference host, through the
    theorem. *)
Lemma safe_rewriters_agree_witness :
  build_ok (buildSafeShellCommand Reference.host " ls *.txt | head -n 1 && echo done " None)
  = true
  /\ buildSafeShellCommand Reference.host " ls *.txt | head -n 1 && echo done " None
     = buildSafeBinsShellCommand " ls *.txt | head -n 1 && echo done "
         (segments (analyzeShellCommand Reference.host
                      (JS.trim " ls *.txt | head -n 1 && echo done ") None None None))
         (allSafeBins
            (segments (analyzeShellCommand Reference.host
                         (JS.trim " ls *.txt | head -n 1 && echo done ") None None None)))
         None.
Proof.
  exact (safe_rewriters_agree Reference.host
           " ls *.txt | head -n 1 && echo done " None None None eq_refl eq_refl).
Defined.

Example buildSafeShellCommand_examples :
  buildSafeShellCommand Reference.host " ls *.txt | head -n 1 && echo done " None
  = {| build_ok := true;
       build_command := Some "'ls' '*.txt' | 'head' '-n' '1' && 'echo' 'done'";
       build_reason := None |}
  /\ buildSafeShellCommand Reference.host "   " None = buildFailed "empty command"
  /\ buildSafeShellCommand Reference.host "ls" (Some "win32")
     = buildFailed "unsupported platform"
  /\ buildSafeShellCommand Reference.host "ls > out" None
     = buildFailed "unsupported shell token: >".
Proof. repeat split; reflexivity. Qed.

(* ================================================================== *)
(** * What the segmenter refuses *)
(* ================================================================== *)

Lemma feed_initial (head : string) : feed Pipeline.initial head = quoting [] head false.
Proof. destruct head; reflexivity. Qed.

Lemma loop_head (head rest : string) :
  plainText head = true ->
  Pipeline.loop 0 Pipeline.initial (head ++ rest)
  = Pipeline.loop 0 (quoting [] head false) rest.
Proof.
  intros Hhead.
  assert (Hinit : idle Pipeline.initial) by (repeat split).
  now rewrite (loop_plain head _ _ Hinit Hhead), feed_initial.
Qed.

Lemma loop_double_body (body : string) :
  forall (sg : list string) (b rest : string),
    doubleQuotable body = true ->
    Pipeline.loop 0
      {| Pipeline.segments := sg; Pipeline.buf := b;
         Pipeline.inSingle := false; Pipeline.inDouble := true;
         Pipeline.escaped := false; Pipeline.emptySegment := false;
         Pipeline.pendingHeredocs := []; Pipeline.inHeredocBody := false;
         Pipeline.heredocLine := EmptyString |} (body ++ rest)
    = Pipeline.loop 0
        {| Pipeline.segments := sg; Pipeline.buf := b ++ body;
           Pipeline.inSingle := false; Pipeline.inDouble := true;
           Pipeline.escaped := false; Pipeline.emptySegment := false;
           Pipeline.pendingHeredocs := []; Pipeline.inHeredocBody := false;
           Pipeline.heredocLine := EmptyString |} rest.
Proof.
  induction body as [|c body IH]; intros sg b rest Hbody.
  - cbn. now rewrite append_nil_r.
  - cbn [doubleQuotable forallChar] in Hbody. apply andb_true_iff in Hbody as [Hc Hbody].
    apply negb_true_iff in Hc. unfold JS.memChar in Hc. cbn [existsb] in Hc.
    repeat (apply orb_false_elim in Hc as [? Hc]).
    cbn [append Pipeline.loop]. unfold Pipeline.step, isNewline.
    cbn [Pipeline.inHeredocBody Pipeline.escaped Pipeline.inSingle Pipeline.inDouble
           negb andb].
    use_char_facts. cbn [andb orb negb].
    transitivity (Pipeline.loop 0
                    {| Pipeline.segments := sg; Pipeline.buf := b ++ JS.str c;
                       Pipeline.inSingle := false; Pipeline.inDouble := true;
                       Pipeline.escaped := false; Pipeline.emptySegment := false;
                       Pipeline.pendingHeredocs := []; Pipeline.inHeredocBody := false;
                       Pipeline.heredocLine := EmptyString |} (body ++ rest)).
    + reflexivity.
    + rewrite (IH _ _ _ Hbody). unfold JS.str. now rewrite append_assoc.
Qed.

(** X25.  A quote or an escape that the command leaves open is
    rejected: after a plain text, (1) a single quote with no closing
    single quote after it, (2) a double quote followed by a text without
    a closing double quote (and without backslash, dollar, backtick or
    line break), and (3) a backslash at the very end, each give the
    reason [unterminated shell quote/escape]. *)
Theorem open_quote_is_rejected :
  forall head : string,
    plainText head = true ->
    (forall body : string,
        JS.includesChar body JS.SQ = false ->
        Pipeline.splitShellPipeline (head ++ String JS.SQ body)
        = Pipeline.reject "unterminated shell quote/escape")
    /\ (forall body : string,
           doubleQuotable body = true ->
           Pipeline.splitShellPipeline (head ++ String JS.DQ body)
           = Pipeline.reject "unterminated shell quote/escape")
    /\ Pipeline.splitShellPipeline (head ++ JS.str JS.BSL)
       = Pipeline.reject "unterminated shell quote/escape".
Proof.
  intros head Hhead. unfold Pipeline.splitShellPipeline. split; [|split].
  - intros body Hbody. rewrite (loop_head head _ Hhead).
    cbn [Pipeline.loop].
    transitivity (match Pipeline.loop 0 (quoting [] (head ++ JS.str JS.SQ) true)
                          (JS.replaceChar body JS.SQ singleQuoteEscape ++ EmptyString) with
                  | inl st => Pipeline.finish st
                  | inr r => r
                  end).
    + rewrite append_nil_r, (replaceChar_absent _ _ _ Hbody). reflexivity.
    + rewrite loop_quoted_body. reflexivity.
  - intros body Hbody. rewrite (loop_head head _ Hhead).
    cbn [Pipeline.loop].
    transitivity (match Pipeline.loop 0
                          {| Pipeline.segments := []; Pipeline.buf := head ++ JS.str JS.DQ;
                             Pipeline.inSingle := false; Pipeline.inDouble := true;
                             Pipeline.escaped := false; Pipeline.emptySegment := false;
                             Pipeline.pendingHeredocs := [];
                             Pipeline.inHeredocBody := false;
                             Pipeline.heredocLine := EmptyString |}
                          (body ++ EmptyString) with
                  | inl st => Pipeline.finish st
                  | inr r => r
                  end).
    + rewrite append_nil_r. reflexivity.
    + rewrite (loop_double_body body _ _ _ Hbody). reflexivity.
  - rewrite (loop_head head _ Hhead). reflexivity.
Qed.

Lemma open_quote_is_rejected_witness :
  Pipeline.splitShellPipeline "echo 'it is | open"
  = Pipeline.reject "unterminated shell quote/escape"
  /\ Pipeline.splitShellPipeline ("echo " ++ String JS.DQ "open; still open")
     = Pipeline.reject "unterminated shell quote/escape"
  /\ Pipeline.splitShellPipeline ("echo a " ++ JS.str JS.BSL)
     = Pipeline.reject "unterminated shell quote/escape".
Proof.
  destruct (open_quote_is_rejected "echo " eq_refl) as (Hsingle & Hdouble & _).
  destruct (open_quote_is_rejected "echo a " eq_refl) as (_ & _ & Hescape).
  split; [|split].
  - exact (Hsingle "it is | open" eq_refl).
  - exact (Hdouble "open; still open" eq_refl).
  - exact Hescape.
Defined.

(** X26.  Outside quotes the segmenter refuses the shell operators it
    does not model, wherever they stand after a plain text and whatever
    follows: (1) each of [>], [(], [)], [&], [;], a backtick and a line
    break, with the character as the token of the reason; (2) a [<]
    that is not followed by a second [<]; (3) [||], [|&] and [$(]. *)
Theorem unquoted_operator_is_rejected :
  forall head rest : string,
    plainText head = true ->
    (forall c : ascii,
        In c refusedAlone ->
        Pipeline.splitShellPipeline (head ++ String c rest)
        = Pipeline.reject ("unsupported shell token: " ++ JS.str c))
    /\ (JS.nextIs (JS.head rest) "<"%char = false ->
        Pipeline.splitShellPipeline (head ++ String "<"%char rest)
        = Pipeline.reject "unsupported shell token: <")
    /\ Pipeline.splitShellPipeline (head ++ "||" ++ rest)
       = Pipeline.reject "unsupported shell token: ||"
    /\ Pipeline.splitShellPipeline (head ++ "|&" ++ rest)
       = Pipeline.reject "unsupported shell token: |&"
    /\ Pipeline.splitShellPipeline (head ++ "$(" ++ rest)
       = Pipeline.reject "unsupported shell token: $()".
Proof.
  intros head rest Hhead. unfold Pipeline.splitShellPipeline.
  split; [|split; [|split; [|split]]].
  - intros c Hc. rewrite (loop_head head _ Hhead).
    unfold refusedAlone in Hc. in_cases Hc; subst c; reflexivity.
  - intros Hnext. rewrite (loop_head head _ Hhead).
    cbn [Pipeline.loop]. unfold Pipeline.step.
    cbn [quoting Pipeline.inHeredocBody Pipeline.escaped Pipeline.inSingle
           Pipeline.inDouble negb andb].
    rewrite Hnext. reflexivity.
  - rewrite (loop_head head _ Hhead). reflexivity.
  - rewrite (loop_head head _ Hhead). reflexivity.
  - rewrite (loop_head head _ Hhead). reflexivity.
Qed.

Lemma unquoted_operator_is_rejected_witness :
  Pipeline.splitShellPipeline "ls > out"
  = Pipeline.reject "unsupported shell token: >"
  /\ Pipeline.splitShellPipeline "sort < in | head"
     = Pipeline.reject "unsupported shell token: <"
  /\ Pipeline.splitShellPipeline "make || echo failed"
     = Pipeline.reject "unsupported shell token: ||".
Proof.
  destruct (unquoted_operator_is_rejected "ls " " out" eq_refl) as (Halone & _).
  destruct (unquoted_operator_is_rejected "sort " " in | head" eq_refl) as (_ & Hless & _).
  destruct (unquoted_operator_is_rejected "make " " echo failed" eq_refl)
    as (_ & _ & Hor & _).
  split; [|split].
  - exact (Halone ">"%char (or_introl eq_refl)).
  - exact (Hless eq_refl).
  - exact Hor.
Defined.

(** X27.  A heredoc whose terminator line never comes is rejected:
    after a plain command text, [<<] and a quoted delimiter, with body
    lines that are not the delimiter and a last line without line break
    that is not the delimiter either (or no last line at all), the
    reason is [unterminated heredoc]. *)
Theorem unterminated_heredoc_is_rejected :
  forall (head sp : string) (q : ascii) (d : string) (body : list string)
         (lastLine : string),
    plainText head = true -> blanks sp = true ->
    q = JS.SQ \/ q = JS.DQ -> quotableDelimiter d = true ->
    Forall (fun l => hasNewline l = false /\ l <> d) body ->
    hasNewline lastLine = false -> lastLine <> d ->
    Pipeline.splitShellPipeline
      (head ++ "<<" ++ sp ++ quotedWord q d
       ++ String JS.LF (heredocLines body ++ lastLine))
    = Pipeline.reject "unterminated heredoc".
Proof.
  intros head sp q d body lastLine Hhead Hsp Hq Hd Hbody Hlast Hne.
  assert (Hinit : idle Pipeline.initial) by (repeat split).
  unfold Pipeline.splitShellPipeline.
  rewrite (loop_plain head _ _ Hinit Hhead).
  replace (sp ++ quotedWord q d ++ String JS.LF (heredocLines body ++ lastLine))
    with ((sp ++ quotedWord q d) ++ String JS.LF (heredocLines body ++ lastLine))
    by apply append_assoc.
  rewrite (loop_heredoc_open _ (sp ++ quotedWord q d) _ d true (feed_idle _ head Hinit)).
  - rewrite body_lines_kept; [| reflexivity | reflexivity | exact Hbody].
    rewrite <- (append_nil_r lastLine), (body_chars lastLine _ _ _ _ Hlast).
    cbn [Pipeline.loop append].
    unfold Pipeline.finish, inBody, Pipeline.setHeredoc, Pipeline.delimiterLine.
    cbn [Pipeline.pendingHeredocs Pipeline.inHeredocBody Pipeline.heredocLine
           Pipeline.stripTabs Pipeline.delimiter andb].
    destruct (String.eqb_spec lastLine d) as [E|_]; [contradiction|]. reflexivity.
  - rewrite append_assoc. unfold quotedWord. cbn [append].
    apply blank_word_head; [exact Hsp|]. destruct Hq as [-> | ->]; reflexivity.
  - rewrite append_assoc. now apply parseHeredocDelimiter_quoted.
Qed.

Lemma unterminated_heredoc_is_rejected_witness :
  Pipeline.splitShellPipeline
    ("cat " ++ "<<" ++ " " ++ quotedWord JS.SQ "EOF"
     ++ String JS.LF (heredocLines ["one"; "two"] ++ "EO"))
  = Pipeline.reject "unterminated heredoc".
Proof.
  apply (unterminated_heredoc_is_rejected "cat " " " JS.SQ "EOF" ["one"; "two"] "EO");
    try reflexivity; try discriminate.
  - now left.
  - repeat (constructor; [split; [reflexivity | discriminate]|]). constructor.
Defined.

(* ================================================================== *)
(** * Splitting a rendered chain *)
(* ================================================================== *)

Lemma chain_loop_text (s : string) :
  forall (done : list ShellChainPart) (b rest : string) (found : bool),
    pipesOnly s = true ->
    JS.nextIs (JS.head rest) "|"%char = false ->
    Chain.loop 0 (chainAt done b found) (s ++ rest)
    = Chain.loop 0 (chainAt done (b ++ s) found) rest.
Proof.
  induction s as [|c s IH]; intros done b rest found Hs Hrest.
  - cbn. now rewrite append_nil_r.
  - cbn [pipesOnly] in Hs. apply andb_true_iff in Hs as [Hc Hs].
    cbn [append Chain.loop].
    rewrite (chain_step_pipesOnly (chainAt done b found) c _ _ eq_refl eq_refl eq_refl).
    + transitivity (Chain.loop 0 (chainAt done (b ++ JS.str c) found) (s ++ rest)).
      * reflexivity.
      * rewrite (IH _ _ _ _ Hs Hrest). unfold JS.str. now rewrite append_assoc.
    + destruct s as [|d s]; [|exact Hc].
      cbn [append]. cbn [JS.head JS.nextIs] in Hc.
      destruct (plainChar c); [reflexivity|]. cbn [orb] in *.
      apply andb_true_iff in Hc as [Hc _]. now rewrite Hc, Hrest.
Qed.

Lemma chain_loop_operator (op : ShellChainOperator) (done : list ShellChainPart)
  (b rest : string) (found : bool) :
  allSpace b = false ->
  Chain.loop 0 (chainAt done b found) (operatorSuffix (Some op) ++ rest)
  = Chain.loop 0
      (chainAt (done ++ [ {| part := JS.trim b; opToNext := Some op |} ]) " " true) rest.
Proof.
  intros Hb.
  assert (Htrim : JS.trim (b ++ " ") = JS.trim b).
  { rewrite <- (trim_padded EmptyString b " " eq_refl eq_refl). reflexivity. }
  assert (Hne : JS.isEmpty (JS.trim (b ++ " ")) = false).
  { rewrite Htrim. now apply allSpace_false_trim. }
  assert (Hboundary :
            Chain.boundary (chainAt done (b ++ " ") found) op
            = chainAt (done ++ [ {| part := JS.trim b; opToNext := Some op |} ])
                EmptyString true).
  { unfold Chain.boundary, chainAt.
    cbn [Chain.parts Chain.buf Chain.inSingle Chain.inDouble Chain.escaped
           Chain.foundChain Chain.invalidChain].
    rewrite Hne, Htrim. reflexivity. }
  destruct op.
  - transitivity (Chain.loop 0 (Chain.boundary (chainAt done (b ++ " ") found) OpAnd)
                    (String " "%char rest)); [reflexivity|].
    rewrite Hboundary. reflexivity.
  - transitivity (Chain.loop 0 (Chain.boundary (chainAt done (b ++ " ") found) OpOr)
                    (String " "%char rest)); [reflexivity|].
    rewrite Hboundary. reflexivity.
  - transitivity (Chain.loop 0 (Chain.boundary (chainAt done (b ++ " ") found) OpSeq)
                    (String " "%char rest)); [reflexivity|].
    rewrite Hboundary. reflexivity.
Qed.

Lemma chain_loop_parts (init : list ShellChainPart) :
  forall (done : list ShellChainPart) (pre rest : string) (found : bool),
    allSpace pre = true ->
    forallb chainable init = true ->
    forallb hasOperator init = true ->
    Chain.loop 0 (chainAt done pre found) (chainText init ++ rest)
    = Chain.loop 0
        (chainAt (done ++ map trimmedPart init)
           (match init with [] => pre | _ => " " end)
           (match init with [] => found | _ => true end)) rest.
Proof.
  induction init as [|p init IH]; intros done pre rest found Hpre Hall Hops.
  - cbn. now rewrite app_nil_r.
  - cbn [forallb] in Hall, Hops.
    apply andb_true_iff in Hall as [Hp Hall]. apply andb_true_iff in Hops as [Hop Hops].
    unfold chainable in Hp. apply andb_true_iff in Hp as [Hplain Hblank].
    apply negb_true_iff in Hblank.
    unfold hasOperator in Hop. destruct (opToNext p) as [op|] eqn:Eop; [|discriminate].
    cbn [chainText]. rewrite Eop, !append_assoc.
    rewrite chain_loop_text; [|exact Hplain|reflexivity].
    rewrite chain_loop_operator.
    + rewrite (IH _ " " rest true eq_refl Hall Hops).
      rewrite <- (append_nil_r (part p)) at 1.
      rewrite (trim_padded pre (part p) EmptyString Hpre eq_refl).
      cbn [map]. unfold trimmedPart at 2. rewrite Eop, <- app_assoc. cbn [app].
      destruct init; reflexivity.
    + rewrite allSpace_append, Hblank. apply andb_false_r.
Qed.

(** X28.  Splitting undoes the joining of a chain: for parts that are
    plain text with single pipes and not blank, of which all but the
    last carry an operator, [splitCommandChainWithOperators] of the
    parts, each followed by its operator between two spaces, returns
    the parts, each trimmed, with their operators, in order. *)
Theorem joined_chain_splits_back :
  forall (first : ShellChainPart) (others : list ShellChainPart) (final : ShellChainPart),
    forallb chainable (first :: others ++ [final]) = true ->
    forallb hasOperator (first :: others) = true ->
    opToNext final = None ->
    Chain.splitCommandChainWithOperators (chainText (first :: others ++ [final]))
    = Some (map trimmedPart (first :: others ++ [final])).
Proof.
  intros first others final Hall Hops Hfinal.
  change (first :: others ++ [final])%list with ((first :: others) ++ [final])%list in *.
  rewrite forallb_app in Hall. apply andb_true_iff in Hall as [Hinit Hlast].
  cbn [forallb] in Hlast. rewrite andb_true_r in Hlast.
  unfold chainable in Hlast. apply andb_true_iff in Hlast as [Hplain Hblank].
  apply negb_true_iff in Hblank.
  assert (Htext : chainText ((first :: others) ++ [final])
                  = chainText (first :: others) ++ part final ++ EmptyString).
  { generalize (first :: others). intros l. induction l as [|p l IH].
    - cbn. rewrite Hfinal. cbn. reflexivity.
    - cbn [app chainText]. rewrite IH, !append_assoc. reflexivity. }
  unfold Chain.splitCommandChainWithOperators. rewrite Htext.
  change Chain.initial with (chainAt [] EmptyString false).
  rewrite (chain_loop_parts (first :: others) [] EmptyString _ false eq_refl Hinit Hops).
  rewrite chain_loop_text; [|exact Hplain|reflexivity].
  cbn [Chain.loop app]. unfold Chain.finish, chainAt.
  cbn [Chain.foundChain Chain.buf Chain.invalidChain Chain.parts negb orb].
  rewrite <- (append_nil_r (part final)).
  rewrite (trim_padded " " (part final) EmptyString eq_refl eq_refl).
  rewrite (allSpace_false_trim _ Hblank).
  replace (map trimmedPart (first :: others ++ [final]))
    with (map trimmedPart (first :: others)
            ++ [ {| part := JS.trim (part final); opToNext := None |} ])%list.
  - cbn [map app Pipeline.isNil]. reflexivity.
  - cbn [map app]. rewrite map_app. cbn [map]. do 2 f_equal.
    unfold trimmedPart. rewrite Hfinal. reflexivity.
Qed.

Lemma joined_chain_splits_back_witness :
  chainText [ {| part := "git fetch"; opToNext := Some OpAnd |};
              {| part := " make | tee log "; opToNext := Some OpOr |};
              {| part := "echo failed"; opToNext := None |} ]
  = "git fetch &&  make | tee log  || echo failed"
  /\ Chain.splitCommandChainWithOperators "git fetch &&  make | tee log  || echo failed"
     = Some [ {| part := "git fetch"; opToNext := Some OpAnd |};
              {| part := "make | tee log"; opToNext := Some OpOr |};
              {| part := "echo failed"; opToNext := None |} ].
Proof.
  split; [reflexivity|].
  exact (joined_chain_splits_back
           {| part := "git fetch"; opToNext := Some OpAnd |}
           [ {| part := " make | tee log "; opToNext := Some OpOr |} ]
           {| part := "echo failed"; opToNext := None |}
           eq_refl eq_refl eq_refl).
Defined.

(* ================================================================== *)
(** * The end of a heredoc *)
(* ================================================================== *)

Lemma stripLeadingTabs_tabs (tabs d : string) :
  tabsOnly tabs = true -> leadingTab d = false ->
  Pipeline.stripLeadingTabs (tabs ++ d) = d.
Proof.
  intros Ht Hd. unfold Pipeline.stripLeadingTabs.
  induction tabs as [|c tabs IH].
  - destruct d as [|c t]; [reflexivity|].
    cbn in Hd |- *. now rewrite Hd.
  - cbn in Ht. apply andb_prop in Ht as [Hc Ht].
    cbn [append NodePath.dropWhile]. rewrite Hc. exact (IH Ht).
Qed.

Lemma stripLeadingTabs_fixed (d : string) :
  leadingTab d = false -> Pipeline.stripLeadingTabs d = d.
Proof. intros Hd. exact (stripLeadingTabs_tabs EmptyString d eq_refl Hd). Qed.

Lemma tabsOnly_no_newline (tabs : string) :
  tabsOnly tabs = true -> hasNewline tabs = false.
Proof.
  induction tabs as [|c tabs IH]; [reflexivity|].
  cbn. intros Ht. apply andb_prop in Ht as [Hc Ht].
  apply Ascii.eqb_eq in Hc. subst c. exact (IH Ht).
Qed.

Lemma hasNewline_append (a b : string) :
  hasNewline (a ++ b) = hasNewline a || hasNewline b.
Proof.
  induction a as [|c a IH]; [reflexivity|].
  cbn. unfold hasNewline in IH. rewrite IH. now rewrite orb_assoc.
Qed.

(** [<<] or [<<-] with its word and the line terminator, read outside
    quotes: the operator and the word join the buffer and the scanner
    is in the body of the heredoc. *)
Lemma loop_heredoc_opens (dash : bool) (sg : list string) (b word rest d : string)
  (q : bool) :
  (dash = false -> JS.nextIs (JS.head (word ++ String JS.LF rest)) "-"%char = false) ->
  Pipeline.parseHeredocDelimiter (word ++ String JS.LF rest)
  = Some (d, String.length word, q) ->
  Pipeline.loop 0 (quoting sg b false) (heredocOperator dash ++ word ++ String JS.LF rest)
  = Pipeline.loop 0
      (inBody (quoting sg (b ++ heredocOperator dash ++ word) false)
         [ {| Pipeline.delimiter := d; Pipeline.stripTabs := dash; Pipeline.quoted := q |} ]
         EmptyString)
      rest.
Proof.
  intros Hdash Hparse.
  assert (Hidle : idle (quoting sg b false)) by (repeat split).
  destruct dash.
  - cbn [heredocOperator append Pipeline.loop JS.head].
    rewrite (step_heredoc _ _ Hidle). unfold Pipeline.heredocStart.
    cbn [JS.drop JS.head JS.nextIs]. change (Ascii.eqb "-" "-") with true. cbv iota.
    rewrite Hparse. cbn [Nat.add Pipeline.loop].
    rewrite loop_skip, take_append. cbn [Pipeline.loop].
    transitivity
      (Pipeline.loop 0
         (inBody (quoting sg ((b ++ "<<-") ++ word) false)
            [ {| Pipeline.delimiter := d; Pipeline.stripTabs := true;
                 Pipeline.quoted := q |} ] EmptyString) rest); [reflexivity|].
    now rewrite append_assoc.
  - specialize (Hdash eq_refl).
    cbn [heredocOperator append Pipeline.loop JS.head].
    rewrite (step_heredoc _ _ Hidle). unfold Pipeline.heredocStart.
    cbn [JS.drop]. rewrite Hdash, Hparse. cbn [Nat.add Pipeline.loop].
    rewrite loop_skip, take_append. cbn [Pipeline.loop].
    transitivity
      (Pipeline.loop 0
         (inBody (quoting sg ((b ++ "<<") ++ word) false)
            [ {| Pipeline.delimiter := d; Pipeline.stripTabs := false;
                 Pipeline.quoted := q |} ] EmptyString) rest); [reflexivity|].
    now rewrite append_assoc.
Qed.

(** Body lines of a quoted heredoc that do not end it are passed over. *)
Lemma quoted_body_lines_kept (base : Pipeline.State) (h : Pipeline.HeredocSpec)
  (body : list string) (rest : string) :
  Pipeline.quoted h = true ->
  Forall (fun l => hasNewline l = false /\ Pipeline.delimiterLine h l = false) body ->
  Pipeline.loop 0 (inBody base [h] EmptyString) (heredocLines body ++ rest)
  = Pipeline.loop 0 (inBody base [h] EmptyString) rest.
Proof.
  intros Hq. induction 1 as [|l body (Hl & Hne) _ IH]; [reflexivity|].
  rewrite heredocLines_cons, append_assoc. cbn [append].
  rewrite body_line_kept; [exact IH | exact Hl | exact Hne | left; exact Hq].
Qed.

(** The terminator line with its line break ends the body: the scanner
    is back outside the heredoc, with the buffer it had. *)
Lemma body_closed_by_line (sg : list string) (b : string) (h : Pipeline.HeredocSpec)
  (l rest : string) :
  hasNewline l = false ->
  Pipeline.delimiterLine h l = true ->
  Pipeline.loop 0 (inBody (quoting sg b false) [h] EmptyString) (l ++ String JS.LF rest)
  = Pipeline.loop 0 (quoting sg b false) rest.
Proof.
  intros Hl Hd. rewrite (body_chars l _ [h] EmptyString _ Hl).
  cbn [append Pipeline.loop]. unfold Pipeline.step, Pipeline.heredocLineEnd.
  cbn [inBody quoting Pipeline.setHeredoc Pipeline.inHeredocBody Pipeline.pendingHeredocs
       Pipeline.heredocLine].
  change (isNewline JS.LF) with true. cbv iota. rewrite Hd. reflexivity.
Qed.

Lemma opened_word (head sp : string) (q : ascii) (d rest : string) (dash : bool) :
  plainText head = true -> blanks sp = true ->
  q = JS.SQ \/ q = JS.DQ -> quotableDelimiter d = true ->
  Pipeline.loop 0 Pipeline.initial
    (head ++ heredocOperator dash ++ sp ++ quotedWord q d ++ String JS.LF rest)
  = Pipeline.loop 0
      (inBody (quoting [] (head ++ heredocOperator dash ++ sp ++ quotedWord q d) false)
         [quotedHeredoc dash d] EmptyString)
      rest.
Proof.
  intros Hhead Hsp Hq Hd.
  rewrite (loop_head head _ Hhead).
  replace (sp ++ quotedWord q d ++ String JS.LF rest)
    with ((sp ++ quotedWord q d) ++ String JS.LF rest) by apply append_assoc.
  rewrite (loop_heredoc_opens dash [] head (sp ++ quotedWord q d) rest d true).
  - reflexivity.
  - intros _. rewrite append_assoc. unfold quotedWord. cbn [append].
    apply blank_word_head; [exact Hsp|]. destruct Hq as [-> | ->]; reflexivity.
  - rewrite append_assoc. now apply parseHeredocDelimiter_quoted.
Qed.

Lemma heredoc_buffer_kept (head op rest : string) :
  allSpace (head ++ String "<"%char op ++ rest) = false.
Proof.
  rewrite allSpace_append. cbn [append]. rewrite allSpace_cons.
  cbn. apply andb_false_r.
Qed.

(** X29.  [<<-] strips the leading tabs of a line before it compares
    the line with the delimiter: after a plain command text, [<<-] and
    a quoted delimiter that does not start with a tab, with body lines
    that differ from the delimiter once their leading tabs are taken
    off, (1) the delimiter behind any number of tabs as the last line
    ends the heredoc, and the command is accepted with the text before
    the body as its one segment; (2) with [<<] in place of [<<-] the
    same text, with at least one tab before the delimiter, is rejected
    with reason [unterminated heredoc]. *)
Theorem dash_heredoc_strips_tabs :
  forall (head sp : string) (q : ascii) (d : string) (body : list string)
         (tabs : string),
    plainText head = true -> blanks sp = true ->
    q = JS.SQ \/ q = JS.DQ -> quotableDelimiter d = true ->
    leadingTab d = false -> tabsOnly tabs = true ->
    Forall (fun l => hasNewline l = false /\ Pipeline.stripLeadingTabs l <> d) body ->
    Pipeline.splitShellPipeline
      (head ++ "<<-" ++ sp ++ quotedWord q d
       ++ String JS.LF (heredocLines body ++ tabs ++ d))
    = {| Pipeline.split_ok := true; Pipeline.split_reason := None;
         Pipeline.split_segments := [JS.trim (head ++ "<<-" ++ sp ++ quotedWord q d)] |}
    /\ (tabs <> EmptyString ->
        Pipeline.splitShellPipeline
          (head ++ "<<" ++ sp ++ quotedWord q d
           ++ String JS.LF (heredocLines body ++ tabs ++ d))
        = Pipeline.reject "unterminated heredoc").
Proof.
  intros head sp q d body tabs Hhead Hsp Hq Hd Hlead Htabs Hbody.
  assert (Hline : hasNewline (tabs ++ d) = false).
  { rewrite hasNewline_append, (tabsOnly_no_newline _ Htabs).
    exact (quotable_no_newline d Hd). }
  unfold Pipeline.splitShellPipeline. split.
  - rewrite (opened_word head sp q d _ true Hhead Hsp Hq Hd).
    rewrite quoted_body_lines_kept; [|reflexivity|].
    + rewrite body_closed.
      * reflexivity.
      * repeat split.
      * exact Hline.
      * unfold Pipeline.delimiterLine, quotedHeredoc.
        cbn [Pipeline.stripTabs Pipeline.delimiter].
        rewrite (stripLeadingTabs_tabs tabs d Htabs Hlead). apply String.eqb_refl.
      * reflexivity.
      * apply (heredoc_buffer_kept head "<-").
    + eapply Forall_impl; [|exact Hbody]. intros l (Hl & Hne). split; [exact Hl|].
      unfold Pipeline.delimiterLine, quotedHeredoc.
      cbn [Pipeline.stripTabs Pipeline.delimiter]. now apply String.eqb_neq.
  - intros Hsome.
    rewrite (opened_word head sp q d _ false Hhead Hsp Hq Hd).
    rewrite quoted_body_lines_kept; [|reflexivity|].
    + rewrite <- (append_nil_r (tabs ++ d)), (body_chars (tabs ++ d) _ _ _ _ Hline).
      cbn [Pipeline.loop append].
      unfold Pipeline.finish, inBody, Pipeline.setHeredoc, Pipeline.delimiterLine,
        quotedHeredoc.
      cbn [Pipeline.pendingHeredocs Pipeline.inHeredocBody Pipeline.heredocLine
             Pipeline.stripTabs Pipeline.delimiter andb].
      destruct (String.eqb_spec (tabs ++ d) d) as [E|_]; [|reflexivity].
      exfalso. apply Hsome.
      assert (Hlen : String.length (tabs ++ d) = String.length d) by now rewrite E.
      rewrite length_append in Hlen. destruct tabs; [reflexivity|cbn in Hlen; lia].
    + eapply Forall_impl; [|exact Hbody]. intros l (Hl & Hne). split; [exact Hl|].
      unfold Pipeline.delimiterLine, quotedHeredoc.
      cbn [Pipeline.stripTabs Pipeline.delimiter]. apply String.eqb_neq.
      intros E. apply Hne. rewrite E. exact (stripLeadingTabs_fixed d Hlead).
Qed.

Lemma dash_heredoc_strips_tabs_witness :
  Pipeline.splitShellPipeline
    ("cat " ++ "<<-" ++ " " ++ quotedWord JS.SQ "EOF"
     ++ String JS.LF (heredocLines [JS.str JS.TAB ++ "one"; "$(two)"]
                        ++ (JS.str JS.TAB ++ JS.str JS.TAB) ++ "EOF"))
  = {| Pipeline.split_ok := true; Pipeline.split_reason := None;
       Pipeline.split_segments := ["cat <<- 'EOF'"] |}
  /\ Pipeline.splitShellPipeline
       ("cat " ++ "<<" ++ " " ++ quotedWord JS.SQ "EOF"
        ++ String JS.LF (heredocLines [JS.str JS.TAB ++ "one"; "$(two)"]
                           ++ (JS.str JS.TAB ++ JS.str JS.TAB) ++ "EOF"))
     = Pipeline.reject "unterminated heredoc".
Proof.
  assert (Hbody : Forall (fun l => hasNewline l = false
                                   /\ Pipeline.stripLeadingTabs l <> "EOF")
                    [JS.str JS.TAB ++ "one"; "$(two)"]).
  { constructor; [split; [reflexivity | discriminate]|].
    constructor; [split; [reflexivity | discriminate]|]. constructor. }
  destruct (dash_heredoc_strips_tabs "cat " " " JS.SQ "EOF"
              [JS.str JS.TAB ++ "one"; "$(two)"] (JS.str JS.TAB ++ JS.str JS.TAB)
              eq_refl eq_refl (or_introl eq_refl) eq_refl eq_refl eq_refl Hbody)
    as [Hdash Hplain].
  split; [exact Hdash | apply Hplain; discriminate].
Defined.

(** X30.  The line break after the terminator line of a heredoc does
    not separate commands: after a plain command text, [<<] or [<<-]
    and a quoted delimiter, the body lines, the delimiter on its own
    line and a line break, a plain text that follows is appended to the
    text before the body, and the command is accepted with the two
    together as its one segment. *)
Theorem text_after_heredoc_joins_the_segment :
  forall (dash : bool) (head sp : string) (q : ascii) (d : string)
         (body : list string) (tail : string),
    plainText head = true -> blanks sp = true ->
    q = JS.SQ \/ q = JS.DQ -> quotableDelimiter d = true ->
    leadingTab d = false ->
    Forall (fun l => hasNewline l = false
                     /\ Pipeline.delimiterLine (quotedHeredoc dash d) l = false) body ->
    plainText tail = true ->
    Pipeline.splitShellPipeline
      (head ++ heredocOperator dash ++ sp ++ quotedWord q d
       ++ String JS.LF (heredocLines body ++ d ++ String JS.LF tail))
    = {| Pipeline.split_ok := true; Pipeline.split_reason := None;
         Pipeline.split_segments :=
           [JS.trim ((head ++ heredocOperator dash ++ sp ++ quotedWord q d) ++ tail)] |}.
Proof.
  intros dash head sp q d body tail Hhead Hsp Hq Hd Hlead Hbody Htail.
  unfold Pipeline.splitShellPipeline.
  rewrite (opened_word head sp q d _ dash Hhead Hsp Hq Hd).
  rewrite quoted_body_lines_kept; [|reflexivity|exact Hbody].
  rewrite body_closed_by_line.
  - rewrite <- (append_nil_r tail) at 1.
    rewrite (loop_plain tail _ EmptyString); [|repeat split|exact Htail].
    cbn [Pipeline.loop].
    unfold Pipeline.finish, Pipeline.pushPartSegments.
    destruct (feed_buf (quoting [] (head ++ heredocOperator dash ++ sp ++ quotedWord q d)
                          false) tail) as (Hbuf & Hsegs).
    rewrite Hbuf, Hsegs.
    assert (Hflags :
              Pipeline.pendingHeredocs (feed (quoting [] (head ++ heredocOperator dash
                                                           ++ sp ++ quotedWord q d) false) tail)
              = []
              /\ Pipeline.inHeredocBody (feed (quoting [] (head ++ heredocOperator dash
                                                           ++ sp ++ quotedWord q d) false) tail)
                 = false
              /\ Pipeline.escaped (feed (quoting [] (head ++ heredocOperator dash
                                                           ++ sp ++ quotedWord q d) false) tail)
                 = false
              /\ Pipeline.inSingle (feed (quoting [] (head ++ heredocOperator dash
                                                           ++ sp ++ quotedWord q d) false) tail)
                 = false
              /\ Pipeline.inDouble (feed (quoting [] (head ++ heredocOperator dash
                                                           ++ sp ++ quotedWord q d) false) tail)
                 = false
              /\ Pipeline.emptySegment (feed (quoting [] (head ++ heredocOperator dash
                                                           ++ sp ++ quotedWord q d) false) tail)
                 = false).
    { destruct tail; repeat split. }
    destruct Hflags as (-> & -> & -> & -> & -> & ->).
    cbn [quoting Pipeline.buf Pipeline.segments Pipeline.isNil negb orb andb app].
    rewrite allSpace_false_trim; [reflexivity|].
    rewrite allSpace_append.
    destruct dash; cbn [heredocOperator];
      [rewrite (heredoc_buffer_kept head "<-") | rewrite (heredoc_buffer_kept head "<")];
      reflexivity.
  - exact (quotable_no_newline d Hd).
  - unfold Pipeline.delimiterLine, quotedHeredoc.
    cbn [Pipeline.stripTabs Pipeline.delimiter].
    destruct dash; [rewrite (stripLeadingTabs_fixed d Hlead)|]; apply String.eqb_refl.
Qed.

Lemma text_after_heredoc_joins_the_segment_witness :
  Pipeline.splitShellPipeline
    ("cat " ++ heredocOperator false ++ " " ++ quotedWord JS.SQ "EOF"
     ++ String JS.LF (heredocLines ["one"; "two"] ++ "EOF" ++ String JS.LF "rm -rf /tmp/x"))
  = {| Pipeline.split_ok := true; Pipeline.split_reason := None;
       Pipeline.split_segments := ["cat << 'EOF'rm -rf /tmp/x"] |}.
Proof.
  assert (Hbody : Forall (fun l => hasNewline l = false
                                   /\ Pipeline.delimiterLine (quotedHeredoc false "EOF") l
                                      = false)
                    ["one"; "two"]).
  { constructor; [split; reflexivity|]. constructor; [split; reflexivity|]. constructor. }
  exact (text_after_heredoc_joins_the_segment false "cat " " " JS.SQ "EOF" ["one"; "two"]
           "rm -rf /tmp/x" eq_refl eq_refl (or_introl eq_refl) eq_refl eq_refl Hbody
           eq_refl).
Defined.

(* ================================================================== *)
(** * The rewriter, from the text of a command to its rewritten text *)
(* ================================================================== *)

Lemma chainText_spec (chainParts : list ShellChainPart) :
  chainText chainParts = chainSourceSpec chainParts.
Proof.
  induction chainParts as [|p rest IH]; [reflexivity|].
  cbn [chainText chainSourceSpec]. now rewrite IH, operatorSuffix_spec.
Qed.

Lemma chainText_app (init : list ShellChainPart) (final : ShellChainPart) :
  opToNext final = None ->
  chainText (init ++ [final]) = chainText init ++ part final ++ EmptyString.
Proof.
  intros Hfinal. induction init as [|p init IH].
  - cbn. rewrite Hfinal. reflexivity.
  - cbn [app chainText]. rewrite IH, !append_assoc. reflexivity.
Qed.

(** The chain splitter on the text of chain parts. *)
Lemma chainText_splits (init : list ShellChainPart) (final : ShellChainPart) :
  init <> [] ->
  forallb chainable init = true -> chainable final = true ->
  forallb hasOperator init = true -> opToNext final = None ->
  Chain.splitCommandChainWithOperators (chainText (init ++ [final]))
  = Some (map trimmedPart (init ++ [final])).
Proof.
  intros Hsome Hinit Hlast Hops Hfinal.
  unfold chainable in Hlast. apply andb_true_iff in Hlast as [Hplain Hblank].
  apply negb_true_iff in Hblank.
  unfold Chain.splitCommandChainWithOperators.
  rewrite (chainText_app init final Hfinal).
  change Chain.initial with (chainAt [] EmptyString false).
  rewrite (chain_loop_parts init [] EmptyString _ false eq_refl Hinit Hops).
  rewrite chain_loop_text; [|exact Hplain|reflexivity].
  destruct init as [|p init]; [congruence|].
  cbn [Chain.loop]. unfold Chain.finish, chainAt.
  cbn [Chain.foundChain Chain.buf Chain.invalidChain Chain.parts negb orb].
  rewrite <- (append_nil_r (part final)).
  rewrite (trim_padded " " (part final) EmptyString eq_refl eq_refl).
  rewrite (allSpace_false_trim _ Hblank).
  rewrite map_app. cbn [map app Pipeline.isNil].
  do 3 f_equal. unfold trimmedPart. now rewrite Hfinal.
Qed.

Lemma flat_map_map {A B C : Type} (f : B -> list C) (g : A -> B) (l : list A) :
  flat_map f (map g l) = flat_map (fun x => f (g x)) l.
Proof. induction l as [|x l IH]; cbn; [reflexivity | now rewrite IH]. Qed.

(** C8.  [buildSafeBinsShellCommand] (1) for a command whose chain parts
    all split into pipelines, with as many segments as the analysis and
    the flags list hold, returns the command in which exactly the
    segments flagged [safeBins] are their argv tokens, each between
    single quotes, and every other segment is its raw text, with [ | ]
    between the segments of a pipeline and each chain operator, between
    two spaces, after its part; (2) on the command of the spec, with
    flags [null, safeBins, null], returns a text that holds
    [rg foo src/*.ts] unmodified and the quoted form of [head -n 5];
    (3) returns ok false, and no command, whenever the numbers of
    segments and of flags differ; (4) from text to text: for a command
    that, once trimmed, is a sequence of parts of plain text and single
    pipes, each followed by [ && ], [ || ] or [ ; ], the rewritten
    command has the same operators at the same places, between the
    rewritten pipelines of the parts. *)
Theorem buildSafeBinsShellCommand_quotes_safeBins_segments :
  (forall (cmd : string) (segs : list ExecCommandSegment)
          (bys : list (option SatisfiedBy)) (platform : option string),
      isWindowsPlatform platform = false ->
      List.length segs = List.length bys ->
      Forall (fun p => Pipeline.split_ok (Pipeline.splitShellPipeline (part p)) = true)
        (chainPartsOf cmd) ->
      List.length (flat_map (fun p => fst (pipelineOf p)) (chainPartsOf cmd))
      = List.length segs ->
      buildSafeBinsShellCommand cmd segs bys platform
      = {| build_ok := true;
           build_command :=
             Some (renderChainSpec (map pipelineOf (chainPartsOf cmd)) (combine segs bys));
           build_reason := None |})
  /\ (let cmd := "rg foo src/*.ts | head -n 5 && echo ok" in
      let built :=
        buildSafeBinsShellCommand cmd
          (segments (analyzeShellCommand Reference.host cmd None None None))
          [None; Some BySafeBins; None] None in
      build_command built = Some "rg foo src/*.ts | 'head' '-n' '5' && echo ok"
      /\ build_ok built = true
      /\ includes "rg foo src/*.ts | 'head' '-n' '5' && echo ok" "rg foo src/*.ts" = true
      /\ includes "rg foo src/*.ts | 'head' '-n' '5' && echo ok" "'head' '-n' '5'" = true)
  /\ (forall (cmd : string) (segs : list ExecCommandSegment)
             (bys : list (option SatisfiedBy)) (platform : option string),
         List.length segs <> List.length bys ->
         build_ok (buildSafeBinsShellCommand cmd segs bys platform) = false
         /\ build_command (buildSafeBinsShellCommand cmd segs bys platform) = None)
  /\ (forall (cmd : string) (first : ShellChainPart) (others : list ShellChainPart)
             (final : ShellChainPart) (segs : list ExecCommandSegment)
             (bys : list (option SatisfiedBy)) (platform : option string),
         isWindowsPlatform platform = false ->
         JS.trim cmd = chainSourceSpec (first :: others ++ [final]) ->
         forallb chainable (first :: others ++ [final]) = true ->
         forallb hasOperator (first :: others) = true ->
         opToNext final = None ->
         List.length segs = List.length bys ->
         Forall (fun p => Pipeline.split_ok
                            (Pipeline.splitShellPipeline (JS.trim (part p))) = true)
           (first :: others ++ [final]) ->
         List.length (flat_map (fun p => fst (pipelineOfText p))
                        (first :: others ++ [final]))
         = List.length segs ->
         buildSafeBinsShellCommand cmd segs bys platform
         = {| build_ok := true;
              build_command :=
                Some (renderChainSpec (map pipelineOfText (first :: others ++ [final]))
                        (combine segs bys));
              build_reason := None |}).
Proof.
  split; [|split; [|split]].
  - intros cmd segs bys platform Hplat Hlen Hok Htotal.
    unfold buildSafeBinsShellCommand. rewrite Hplat, Hlen, Nat.eqb_refl. cbn [negb].
    fold (chainPartsOf cmd).
    rewrite (buildChainLoop_spec segs bys (chainPartsOf cmd) Hlen Hok 0 EmptyString)
      by exact Htotal.
    reflexivity.
  - vm_compute. repeat split.
  - intros cmd segs bys platform Hne. unfold buildSafeBinsShellCommand.
    destruct (isWindowsPlatform platform); [split; reflexivity|].
    apply Nat.eqb_neq in Hne. rewrite Hne. split; reflexivity.
  - intros cmd first others final segs bys platform Hplat Htext Hall Hops Hfinal
           Hlen Hok Htotal.
    change (first :: others ++ [final])%list
      with ((first :: others) ++ [final])%list in *.
    rewrite forallb_app in Hall. apply andb_true_iff in Hall as [Hinit Hlast].
    cbn [forallb] in Hlast. rewrite andb_true_r in Hlast.
    unfold buildSafeBinsShellCommand. rewrite Hplat, Hlen, Nat.eqb_refl. cbn [negb].
    rewrite Htext, <- chainText_spec.
    rewrite (chainText_splits (first :: others) final); trivial; [|discriminate].
    rewrite (buildChainLoop_spec segs bys
               (map trimmedPart ((first :: others) ++ [final])) Hlen).
    + rewrite map_map. reflexivity.
    + apply Forall_map. exact Hok.
    + rewrite flat_map_map. exact Htotal.
Qed.

(** The command of the spec, through parts (1) and (3) of the theorem,
    and a command with the three chain operators and a pipe, through
    part (4). *)
Lemma buildSafeBinsShellCommand_quotes_safeBins_segments_witness :
  buildSafeBinsShellCommand "rg foo src/*.ts | head -n 5 && echo ok"
    (segments (analyzeShellCommand Reference.host
                 "rg foo src/*.ts | head -n 5 && echo ok" None None None))
    [None; Some BySafeBins; None] None
  = {| build_ok := true;
       build_command := Some "rg foo src/*.ts | 'head' '-n' '5' && echo ok";
       build_reason := None |}
  /\ build_ok
       (buildSafeBinsShellCommand "rg foo src/*.ts | head -n 5 && echo ok"
          (segments (analyzeShellCommand Reference.host
                       "rg foo src/*.ts | head -n 5 && echo ok" None None None))
          [None; Some BySafeBins] None)
     = false
  /\ buildSafeBinsShellCommand " sort names | head -n 3 ; date || echo none && ls "
       [ {| raw := "sort names"; argv := ["sort"; "names"]; resolution := None |};
         {| raw := "head -n 3"; argv := ["head"; "-n"; "3"]; resolution := None |};
         {| raw := "date"; argv := ["date"]; resolution := None |};
         {| raw := "echo none"; argv := ["echo"; "it's none"]; resolution := None |};
         {| raw := "ls"; argv := ["ls"]; resolution := None |} ]
       [Some BySafeBins; None; Some BySafeBins; Some BySafeBins; Some ByAllowlist] None
     = {| build_ok := true;
          build_command :=
            Some ("'sort' 'names' | head -n 3 ; 'date' || 'echo' 'it'"
                  ++ String JS.DQ ("'" ++ String JS.DQ "'s none' && ls"));
          build_reason := None |}.
Proof.
  destruct buildSafeBinsShellCommand_quotes_safeBins_segments
    as (Hbuild & _ & Hcount & Htext).
  pose (cmd := "rg foo src/*.ts | head -n 5 && echo ok").
  pose (segs := segments (analyzeShellCommand Reference.host cmd None None None)).
  assert (Hsegs : List.length segs = 3) by (vm_compute; reflexivity).
  assert (Hparts : Forall
            (fun p => Pipeline.split_ok (Pipeline.splitShellPipeline (part p)) = true)
            (chainPartsOf cmd)).
  { apply Forall_forall. intros p Hp. vm_compute in Hp.
    repeat (destruct Hp as [<-|Hp]; [reflexivity|]). destruct Hp. }
  assert (Hcounted :
            List.length (flat_map (fun p => fst (pipelineOf p)) (chainPartsOf cmd))
            = List.length segs) by (vm_compute; reflexivity).
  split; [|split].
  - etransitivity;
      [exact (Hbuild cmd segs [None; Some BySafeBins; None] None eq_refl
                Hsegs Hparts Hcounted)
      | vm_compute; reflexivity].
  - apply (Hcount cmd segs [None; Some BySafeBins] None).
    rewrite Hsegs. discriminate.
  - pose (first := {| part := "sort names | head -n 3"; opToNext := Some OpSeq |}).
    pose (others := [ {| part := "date"; opToNext := Some OpOr |};
                      {| part := "echo none"; opToNext := Some OpAnd |} ]).
    pose (final := {| part := "ls"; opToNext := None |}).
    assert (Hpipes : Forall
              (fun p => Pipeline.split_ok
                          (Pipeline.splitShellPipeline (JS.trim (part p))) = true)
              (first :: others ++ [final])).
    { apply Forall_forall. intros p Hp. vm_compute in Hp.
      repeat (destruct Hp as [<-|Hp]; [reflexivity|]). destruct Hp. }
    pose (segs4 :=
            [ {| raw := "sort names"; argv := ["sort"; "names"]; resolution := None |};
              {| raw := "head -n 3"; argv := ["head"; "-n"; "3"]; resolution := None |};
              {| raw := "date"; argv := ["date"]; resolution := None |};
              {| raw := "echo none"; argv := ["echo"; "it's none"]; resolution := None |};
              {| raw := "ls"; argv := ["ls"]; resolution := None |} ]).
    pose (bys4 := [Some BySafeBins; None; Some BySafeBins; Some BySafeBins;
                   Some ByAllowlist]).
    etransitivity;
      [exact (Htext " sort names | head -n 3 ; date || echo none && ls "
                first others final segs4 bys4 None eq_refl eq_refl eq_refl eq_refl
                eq_refl eq_refl Hpipes eq_refl)
      | vm_compute; reflexivity].
Defined.
